(** * BusTub storage and execution core: a shallow embedding

    The development follows the layering of the C++ sources:
    - [LRUKReplacer]        lru_k_replacer.cpp
    - [BufferPoolManager]   buffer_pool_manager.cpp
    - [PageGuard]           page_guard.cpp
    - [IndexScanExecutor], [SeqScanExecutor], [InsertExecutor],
      [DeleteExecutor], [UpdateExecutor], [NestedLoopJoinExecutor],
      [HashJoinExecutor], [SortExecutor], [TopNExecutor]
                            the executors of src/execution
    - [StdSort]             the [std::sort] that [SortExecutor] calls
    - [Optimizer]           seqscan_as_indexscan.cpp
    - [DirectoryPageCode]   extendible_htable_directory_page.cpp
    - [DiskExtendibleHashTableCode]
                            disk_extendible_hash_table.cpp

    Machine integers are [Z] with the wrap-around written where the C++
    arithmetic can reach it; [std::unordered_map] is [gmap]; [std::list] is a
    Rocq list whose nodes carry an identity, so that a stored iterator denotes
    one node and not a value. *)

From Stdlib Require Import ZArith Lia List Bool Permutation Sorted.
From stdpp Require Import base decidable option list gmap strings numbers sorting.

Local Open Scope Z_scope.

(** ** Outcomes of a C++ call

    A call either returns, trips a [BUSTUB_ASSERT]/[assert], or runs into
    behaviour the language leaves undefined (erasing through a singular
    iterator, reading through a null pointer).  Loops and recursive calls
    are run for a bounded number of rounds; [OutOfFuel] says that the rounds
    granted were used up before the call returned. *)

Inductive outcome (A : Type) : Type :=
| Done (a : A)
| AssertionFailed (msg : string)
| Undefined
| OutOfFuel.

Arguments Done {A} a.
Arguments AssertionFailed {A} msg.
Arguments Undefined {A}.
Arguments OutOfFuel {A}.

Definition obind {A B : Type} (m : outcome A) (f : A → outcome B) : outcome B :=
  match m with
  | Done a => f a
  | AssertionFailed msg => AssertionFailed msg
  | Undefined => Undefined
  | OutOfFuel => OutOfFuel
  end.

Notation "x ←! m ; k" := (obind m (λ x, k))
  (at level 20, m at level 100, k at level 200, right associativity,
   format "x  ←!  m ;  '/' k").

Definition BUSTUB_ASSERT {A : Type} (cond : bool) (msg : string) (k : outcome A) : outcome A :=
  if cond then k else AssertionFailed msg.

Definition omap {A B : Type} (f : A → B) (m : outcome A) : outcome B :=
  x ←! m; Done (f x).

(** The value of a call that is known to return. *)
Definition returned {A : Type} (d : A) (m : outcome A) : A :=
  match m with
  | Done a => a
  | _ => d
  end.

(** Fixed-width integers. *)

Definition wrap_size_t (x : Z) : Z := x mod 2 ^ 64.
Definition wrap_uint32 (x : Z) : Z := x mod 2 ^ 32.
(** [static_cast<int>] of an unsigned value: two's complement reading. *)
Definition to_int32 (x : Z) : Z :=
  let y := x mod 2 ^ 32 in if y <? 2 ^ 31 then y else y - 2 ^ 32.

(** Below [2^31 - 1] the increment of a 32-bit signed counter is the next
    integer. *)
Lemma to_int32_next (id : Z) : 0 ≤ id < 2 ^ 31 - 1 → to_int32 (id + 1) = id + 1.
Proof.
  intros Hid. unfold to_int32.
  rewrite Z.mod_small by lia.
  destruct (Z.ltb_spec (id + 1) (2 ^ 31)) as [_|Hge]; [reflexivity|lia].
Qed.

(** ** LRU-K replacer (lru_k_replacer.cpp) *)

Module LRUKReplacer.

(** A [std::list<frame_id_t>] node: its identity (what an iterator holds)
    and the frame id stored in it. *)
Definition lnode : Type := nat * Z.

Record t : Type := mk {
  replacer_size_ : Z;
  k_ : Z;
  curr_size_ : Z;
  access_count_ : gmap Z Z;
  is_evictable_map_ : gmap Z bool;
  history_list_ : list lnode;
  history_map_ : gmap Z nat;
  cache_list_ : list lnode;
  cache_map_ : gmap Z nat;
  next_node_ : nat
}.

(** [LRUKReplacer::LRUKReplacer(num_frames, k)] *)
Definition new (num_frames k : Z) : t :=
  mk num_frames k 0 ∅ ∅ [] ∅ [] ∅ 0%nat.

(** [map[key]] on a missing key yields the value-initialised entry. *)
Definition count_of (r : t) (f : Z) : Z := default 0 (access_count_ r !! f).
Definition evictable_of (r : t) (f : Z) : bool := default false (is_evictable_map_ r !! f).

(** [list.erase(it)]: [it] comes from [map[frame]]; a missing map entry is a
    value-initialised (singular) iterator, and an iterator to a node that is
    no longer in the list is dangling: both are undefined. *)
Definition list_erase (it : option nat) (l : list lnode) : outcome (list lnode) :=
  match it with
  | None => Undefined
  | Some n =>
      if existsb (λ p : lnode, Nat.eqb p.1 n) l
      then Done (filter (λ p : lnode, p.1 ≠ n) l)
      else Undefined
  end.

(** The first evictable frame met when walking a list from [rbegin()]. *)
Definition last_evictable (r : t) (l : list lnode) : option Z :=
  snd <$> find (λ p : lnode, evictable_of r p.2) (rev l).

(** [LRUKReplacer::Evict]; the out-parameter is the first component. *)
Definition Evict (r : t) : outcome (option Z * t) :=
  if curr_size_ r <=? 0 then Done (None, r) else
  match last_evictable r (history_list_ r) with
  | Some frame =>
      l ←! list_erase (history_map_ r !! frame) (history_list_ r);
      Done (Some frame,
            mk (replacer_size_ r) (k_ r) (wrap_size_t (curr_size_ r - 1))
               (<[frame := 0]> (access_count_ r))
               (<[frame := false]> (is_evictable_map_ r))
               l (delete frame (history_map_ r))
               (cache_list_ r) (cache_map_ r) (next_node_ r))
  | None =>
      match last_evictable r (cache_list_ r) with
      | Some frame =>
          l ←! list_erase (cache_map_ r !! frame) (cache_list_ r);
          Done (Some frame,
                mk (replacer_size_ r) (k_ r) (wrap_size_t (curr_size_ r - 1))
                   (<[frame := 0]> (access_count_ r))
                   (<[frame := false]> (is_evictable_map_ r))
                   (history_list_ r) (history_map_ r)
                   l (delete frame (cache_map_ r)) (next_node_ r))
      | None => Done (None, r)
      end
  end.

(** [LRUKReplacer::RecordAccess] *)
Definition RecordAccess (frame_id : Z) (r : t) : outcome t :=
  BUSTUB_ASSERT (frame_id <? to_int32 (replacer_size_ r)) "Frame ID out of range."
  (let c := wrap_size_t (count_of r frame_id + 1) in
   let ac := <[frame_id := c]> (access_count_ r) in
   let n := next_node_ r in
   if c <? k_ r then
     Done (mk (replacer_size_ r) (k_ r) (curr_size_ r) ac (is_evictable_map_ r)
              ((n, frame_id) :: history_list_ r) (<[frame_id := n]> (history_map_ r))
              (cache_list_ r) (cache_map_ r) (S n))
   else if c =? k_ r then
     l ←! list_erase (history_map_ r !! frame_id) (history_list_ r);
     Done (mk (replacer_size_ r) (k_ r) (curr_size_ r) ac (is_evictable_map_ r)
              l (delete frame_id (history_map_ r))
              ((n, frame_id) :: cache_list_ r) (<[frame_id := n]> (cache_map_ r)) (S n))
   else
     l ←! (match cache_map_ r !! frame_id with
           | Some it => list_erase (Some it) (cache_list_ r)
           | None => Done (cache_list_ r)
           end);
     Done (mk (replacer_size_ r) (k_ r) (curr_size_ r) ac (is_evictable_map_ r)
              (history_list_ r) (history_map_ r)
              ((n, frame_id) :: l) (<[frame_id := n]> (cache_map_ r)) (S n))).

(** [LRUKReplacer::SetEvictable] *)
Definition SetEvictable (frame_id : Z) (set_evictable : bool) (r : t) : outcome t :=
  BUSTUB_ASSERT (frame_id <? to_int32 (replacer_size_ r)) "Frame ID out of range."
  (if count_of r frame_id =? 0 then Done r else
   let cs1 := if evictable_of r frame_id && negb set_evictable
              then wrap_size_t (curr_size_ r - 1) else curr_size_ r in
   let cs2 := if negb (evictable_of r frame_id) && set_evictable
              then wrap_size_t (cs1 + 1) else cs1 in
   Done (mk (replacer_size_ r) (k_ r) cs2 (access_count_ r)
            (<[frame_id := set_evictable]> (is_evictable_map_ r))
            (history_list_ r) (history_map_ r) (cache_list_ r) (cache_map_ r)
            (next_node_ r))).

(** [LRUKReplacer::Remove] *)
Definition Remove (frame_id : Z) (r : t) : outcome t :=
  BUSTUB_ASSERT (frame_id <? to_int32 (replacer_size_ r)) "Frame ID out of range."
  (BUSTUB_ASSERT (negb (evictable_of r frame_id)) "Frame ID is non-evictable."
  (if count_of r frame_id =? 0 then Done r else
   if k_ r <=? count_of r frame_id then
     l ←! list_erase (cache_map_ r !! frame_id) (cache_list_ r);
     Done (mk (replacer_size_ r) (k_ r) (wrap_size_t (curr_size_ r - 1))
              (<[frame_id := 0]> (access_count_ r))
              (<[frame_id := false]> (is_evictable_map_ r))
              (history_list_ r) (history_map_ r)
              l (delete frame_id (cache_map_ r)) (next_node_ r))
   else
     l ←! list_erase (history_map_ r !! frame_id) (history_list_ r);
     Done (mk (replacer_size_ r) (k_ r) (wrap_size_t (curr_size_ r - 1))
              (<[frame_id := 0]> (access_count_ r))
              (<[frame_id := false]> (is_evictable_map_ r))
              l (delete frame_id (history_map_ r))
              (cache_list_ r) (cache_map_ r) (next_node_ r)))).

(** [LRUKReplacer::Size] *)
Definition Size (r : t) : Z := curr_size_ r.

(** Sequences of calls on one replacer. *)
Inductive call : Type :=
| CRecordAccess (frame_id : Z)
| CSetEvictable (frame_id : Z) (flag : bool)
| CEvict
| CRemove (frame_id : Z).

Definition do_call (c : call) (r : t) : outcome t :=
  match c with
  | CRecordAccess f => RecordAccess f r
  | CSetEvictable f b => SetEvictable f b r
  | CEvict => p ←! Evict r; Done p.2
  | CRemove f => Remove f r
  end.

Fixpoint do_calls (cs : list call) (r : t) : outcome t :=
  match cs with
  | [] => Done r
  | c :: cs' => r' ←! do_call c r; do_calls cs' r'
  end.

(** Frames stored in the two lists, front first. *)
Definition history_frames (r : t) : list Z := (history_list_ r).*2.
Definition cache_frames (r : t) : list Z := (cache_list_ r).*2.

(** The classification of the specification: list membership is decided by
    the access count, and no list holds a frame twice. *)
Definition classified (r : t) : Prop :=
  (∀ f : Z,
     let c := count_of r f in
     (f ∈ history_frames r ↔ (0 < c ∧ c < k_ r)) ∧
     (f ∈ cache_frames r ↔ k_ r ≤ c) ∧
     (((f ∉ history_frames r) ∧ (f ∉ cache_frames r)) ↔ c = 0)) ∧
  NoDup (history_frames r) ∧ NoDup (cache_frames r).

(** Two accesses to one frame with [k = 3]: the second one takes the
    [count < k] branch again, which pushes without looking for the node that
    is already there. *)
Definition twice_accessed : outcome t :=
  do_calls [CRecordAccess 0; CRecordAccess 0] (new 4 3).

(** A frame that was accessed once (so it sits in the history list, [k = 2])
    and was then marked evictable: the state [Remove] is specified for. *)
Definition evictable_once_accessed : outcome t :=
  do_calls [CRecordAccess 0; CSetEvictable 0 true] (new 4 2).

Lemma twice_accessed_state :
  omap (λ r, (history_frames r, cache_frames r, count_of r 0, k_ r)) twice_accessed
  = Done ([0; 0], [], 2, 3).
Proof. vm_compute. reflexivity. Qed.

(** C2 (the code breaks the classification): with [k = 3], after
    [RecordAccess(0); RecordAccess(0)] on a fresh replacer the history list
    holds frame 0 twice, so the state reached between two operations does not
    satisfy [classified]. *)
Theorem C2_record_access_duplicates_history :
  ∃ r, twice_accessed = Done r ∧ history_frames r = [0; 0] ∧ ¬ classified r.
Proof.
  pose proof twice_accessed_state as Hs.
  destruct twice_accessed as [r| | |]; try discriminate.
  simpl in Hs. injection Hs as Hh _ _ _.
  exists r. split; [reflexivity|]. split; [exact Hh|].
  intros (_ & Hnd & _). rewrite Hh in Hnd.
  inversion Hnd as [|x l Hin _]; subst. apply Hin. left.
Qed.

(** The third access moves only the node the iterator map remembers: the
    older node stays behind, and frame 0 is then in both lists. *)
Lemma third_access_leaves_stale_node :
  omap (λ r, (history_frames r, cache_frames r, count_of r 0))
       (do_calls [CRecordAccess 0; CRecordAccess 0; CRecordAccess 0] (new 4 3))
  = Done ([0], [0], 3).
Proof. vm_compute. reflexivity. Qed.

(** C6 (the code asserts the opposite): [Remove] on a frame that is
    evictable, as the specification requires, fails the assertion whose
    message is "Frame ID is non-evictable."; the state is left as it was
    because the call never gets past the assertion. *)
Theorem C6_remove_of_evictable_frame_asserts :
  omap (λ r, (evictable_of r 0, history_frames r)) evictable_once_accessed
    = Done (true, [0]) ∧
  (r ←! evictable_once_accessed; Remove 0 r)
    = AssertionFailed "Frame ID is non-evictable.".
Proof. split; vm_compute; reflexivity. Qed.

(** What [Remove] does when its assertion lets it through, that is on a
    frame that is not evictable: the frame leaves its list and its state is
    cleared, and the evictable counter is decremented although the frame was
    never counted (here it wraps around from 0). *)
Lemma remove_of_pinned_frame :
  omap (λ r, evictable_of r 0) (do_calls [CRecordAccess 0] (new 4 2)) = Done false ∧
  omap (λ r, (history_frames r, count_of r 0, evictable_of r 0, Size r))
       (do_calls [CRecordAccess 0; CRemove 0] (new 4 2))
    = Done ([], 0, false, 2 ^ 64 - 1).
Proof. split; vm_compute; reflexivity. Qed.

(** *** The replacer with [k = 2] *)

(** The frames marked evictable. *)
Definition evictable_frames (r : t) : gset Z :=
  dom (filter (λ kv : Z * bool, kv.2 = true) (is_evictable_map_ r)).

Lemma elem_of_evictable_frames (r : t) (f : Z) :
  f ∈ evictable_frames r ↔ evictable_of r f = true.
Proof.
  unfold evictable_frames, evictable_of. rewrite elem_of_dom. split.
  - intros [b Hb]. apply map_lookup_filter_Some in Hb as [Hb Hp]. rewrite Hb. exact Hp.
  - intros H. destruct (is_evictable_map_ r !! f) as [b|] eqn:E; [|discriminate].
    simpl in H. subst b. exists true. apply map_lookup_filter_Some. split; [exact E|reflexivity].
Qed.

(** What holds between two calls when [k = 2]: every list node is the one
    the iterator map of its list remembers for its frame, node identities
    are not reused, the access count of a frame tells the list it is in, only
    tracked frames are evictable, and [curr_size_] counts the evictable
    frames. *)
Record well_formed (r : t) : Prop := {
  wf_k : k_ r = 2;
  wf_size : 0 ≤ replacer_size_ r < 2 ^ 31;
  wf_history : ∀ id f, (id, f) ∈ history_list_ r ↔ history_map_ r !! f = Some id;
  wf_cache : ∀ id f, (id, f) ∈ cache_list_ r ↔ cache_map_ r !! f = Some id;
  wf_history_ids : NoDup (history_list_ r).*1;
  wf_cache_ids : NoDup (cache_list_ r).*1;
  wf_fresh : ∀ id f, (id, f) ∈ history_list_ r ∨ (id, f) ∈ cache_list_ r →
                     (id < next_node_ r)%nat;
  wf_count1 : ∀ f, count_of r f = 1 ↔ f ∈ history_frames r;
  wf_count2 : ∀ f, 2 ≤ count_of r f ↔ f ∈ cache_frames r;
  wf_count : ∀ f, 0 ≤ count_of r f ≤ Z.of_nat (next_node_ r);
  wf_frames : ∀ f, count_of r f ≠ 0 → 0 ≤ f < replacer_size_ r;
  wf_evictable : ∀ f, evictable_of r f = true → count_of r f ≠ 0;
  wf_curr_size : curr_size_ r = Z.of_nat (size (evictable_frames r))
}.

Lemma elem_of_frames (l : list lnode) (f : Z) : f ∈ l.*2 ↔ ∃ id, (id, f) ∈ l.
Proof.
  rewrite list_elem_of_fmap. split.
  - intros ([id g] & -> & Hin). exists id. exact Hin.
  - intros [id Hin]. exists (id, f). split; [reflexivity|exact Hin].
Qed.

Lemma elem_of_ids (l : list lnode) (id : nat) : id ∈ l.*1 ↔ ∃ f, (id, f) ∈ l.
Proof.
  rewrite list_elem_of_fmap. split.
  - intros ([i g] & -> & Hin). exists g. exact Hin.
  - intros [f Hin]. exists (id, f). split; [reflexivity|exact Hin].
Qed.

Lemma node_of_id (l : list lnode) (id : nat) (f g : Z) :
  NoDup l.*1 → (id, f) ∈ l → (id, g) ∈ l → f = g.
Proof.
  induction l as [|[i h] l IH]; intros Hnd Hf Hg; [inversion Hf|].
  rewrite fmap_cons in Hnd. apply list.NoDup_cons in Hnd as [Hfresh Hnd].
  apply elem_of_cons in Hf as [Hf|Hf]; apply elem_of_cons in Hg as [Hg|Hg].
  - congruence.
  - injection Hf as -> ->. exfalso. apply Hfresh. apply elem_of_ids. eauto.
  - injection Hg as -> ->. exfalso. apply Hfresh. apply elem_of_ids. eauto.
  - apply IH; assumption.
Qed.

Lemma list_erase_present (l : list lnode) (id : nat) (f : Z) :
  (id, f) ∈ l → list_erase (Some id) l = Done (filter (λ p : lnode, p.1 ≠ id) l).
Proof.
  intros Hin. unfold list_erase.
  assert (E : existsb (λ p : lnode, Nat.eqb p.1 id) l = true).
  { apply existsb_exists. exists (id, f). split; [apply list_elem_of_In; exact Hin|].
    apply Nat.eqb_refl. }
  rewrite E. reflexivity.
Qed.

Lemma elem_of_erased (l : list lnode) (id : nat) (p : lnode) :
  p ∈ filter (λ p : lnode, p.1 ≠ id) l ↔ p ∈ l ∧ p.1 ≠ id.
Proof. rewrite list_elem_of_filter. tauto. Qed.

Lemma erased_ids_NoDup (l : list lnode) (id : nat) :
  NoDup l.*1 → NoDup (filter (λ p : lnode, p.1 ≠ id) l).*1.
Proof.
  induction l as [|[i h] l IH]; intros Hnd; [constructor|].
  rewrite fmap_cons in Hnd. apply list.NoDup_cons in Hnd as [Hfresh Hnd].
  rewrite filter_cons. destruct (decide ((i, h).1 ≠ id)).
  - rewrite fmap_cons. apply list.NoDup_cons. split; [|apply IH; exact Hnd].
    intros Hin. apply Hfresh. apply elem_of_ids in Hin as [g Hg].
    apply elem_of_erased in Hg as [Hg _]. apply elem_of_ids. eauto.
  - apply IH. exact Hnd.
Qed.

(** Erasing the node of a frame leaves the nodes of the other frames. *)
Lemma erased_nodes (l : list lnode) (m : gmap Z nat) (id : nat) (f : Z) :
  NoDup l.*1 → (∀ i g, (i, g) ∈ l ↔ m !! g = Some i) → m !! f = Some id →
  ∀ i g, (i, g) ∈ filter (λ p : lnode, p.1 ≠ id) l ↔ delete f m !! g = Some i.
Proof.
  intros Hnd Hmap Hf i g. rewrite elem_of_erased. cbn [fst].
  destruct (decide (g = f)) as [->|Hne].
  - rewrite lookup_delete_eq. split; [|discriminate].
    intros [Hin Hid]. apply Hmap in Hin. congruence.
  - rewrite lookup_delete_ne by congruence. rewrite Hmap. split; [tauto|].
    intros Hg. split; [exact Hg|]. intros ->.
    apply Hne. apply (node_of_id l id g f Hnd); apply Hmap; assumption.
Qed.

Lemma erased_frames (l : list lnode) (m : gmap Z nat) (id : nat) (f : Z) :
  NoDup l.*1 → (∀ i g, (i, g) ∈ l ↔ m !! g = Some i) → m !! f = Some id →
  ∀ g, g ∈ (filter (λ p : lnode, p.1 ≠ id) l).*2 ↔ g ∈ l.*2 ∧ g ≠ f.
Proof.
  intros Hnd Hmap Hf g. rewrite !elem_of_frames. split.
  - intros [i Hi]. apply (erased_nodes l m id f Hnd Hmap Hf) in Hi.
    destruct (decide (g = f)) as [->|Hne]; [rewrite lookup_delete_eq in Hi; discriminate|].
    rewrite lookup_delete_ne in Hi by congruence. split; [|exact Hne].
    exists i. apply Hmap. exact Hi.
  - intros [[i Hi] Hne]. exists i. apply (erased_nodes l m id f Hnd Hmap Hf).
    rewrite lookup_delete_ne by congruence. apply Hmap. exact Hi.
Qed.

(** Pushing a fresh node for a frame that has no node in the list. *)
Lemma pushed_nodes (l : list lnode) (m : gmap Z nat) (n : nat) (f : Z) :
  (∀ i g, (i, g) ∈ l ↔ m !! g = Some i) → m !! f = None →
  ∀ i g, (i, g) ∈ (n, f) :: l ↔ <[f := n]> m !! g = Some i.
Proof.
  intros Hmap Hf i g. rewrite elem_of_cons.
  destruct (decide (g = f)) as [->|Hne].
  - rewrite lookup_insert_eq. split.
    + intros [Heq|Hin]; [congruence|]. apply Hmap in Hin. congruence.
    + intros Heq. left. congruence.
  - rewrite lookup_insert_ne by congruence. rewrite <- Hmap. split; [|tauto].
    intros [Heq|Hin]; [congruence|exact Hin].
Qed.

Lemma count_of_insert (r : t) (f g c : Z) :
  default 0 (<[f := c]> (access_count_ r) !! g) = if decide (g = f) then c else count_of r g.
Proof.
  destruct (decide (g = f)) as [->|Hne].
  - rewrite lookup_insert_eq. reflexivity.
  - rewrite lookup_insert_ne by congruence. reflexivity.
Qed.

Lemma evictable_of_insert (r : t) (f g : Z) (b : bool) :
  default false (<[f := b]> (is_evictable_map_ r) !! g) =
  if decide (g = f) then b else evictable_of r g.
Proof.
  destruct (decide (g = f)) as [->|Hne].
  - rewrite lookup_insert_eq. reflexivity.
  - rewrite lookup_insert_ne by congruence. reflexivity.
Qed.

Lemma to_int32_in_range (n : Z) : 0 ≤ n < 2 ^ 31 → to_int32 n = n.
Proof.
  intros H. unfold to_int32. rewrite Z.mod_small by lia.
  destruct (Z.ltb_spec n (2 ^ 31)); lia.
Qed.

Lemma wrap_size_t_small (n : Z) : 0 ≤ n < 2 ^ 64 → wrap_size_t n = n.
Proof. intros H. unfold wrap_size_t. apply Z.mod_small. exact H. Qed.

Lemma history_map_of_frame (r : t) (f : Z) :
  well_formed r → count_of r f = 1 →
  ∃ id, history_map_ r !! f = Some id ∧ (id, f) ∈ history_list_ r.
Proof.
  intros Hwf Hc. apply (wf_count1 r Hwf) in Hc. apply elem_of_frames in Hc as [id Hid].
  exists id. split; [apply (wf_history r Hwf); exact Hid|exact Hid].
Qed.

Lemma cache_map_of_frame (r : t) (f : Z) :
  well_formed r → 2 ≤ count_of r f →
  ∃ id, cache_map_ r !! f = Some id ∧ (id, f) ∈ cache_list_ r.
Proof.
  intros Hwf Hc. apply (wf_count2 r Hwf) in Hc. apply elem_of_frames in Hc as [id Hid].
  exists id. split; [apply (wf_cache r Hwf); exact Hid|exact Hid].
Qed.

Lemma history_map_untracked (r : t) (f : Z) :
  well_formed r → count_of r f ≠ 1 → history_map_ r !! f = None.
Proof.
  intros Hwf Hc. destruct (history_map_ r !! f) as [id|] eqn:E; [|reflexivity].
  exfalso. apply Hc. apply (wf_count1 r Hwf). apply elem_of_frames. exists id.
  apply (wf_history r Hwf). exact E.
Qed.

Lemma cache_map_untracked (r : t) (f : Z) :
  well_formed r → count_of r f < 2 → cache_map_ r !! f = None.
Proof.
  intros Hwf Hc. destruct (cache_map_ r !! f) as [id|] eqn:E; [|reflexivity].
  exfalso. assert (2 ≤ count_of r f); [|lia].
  apply (wf_count2 r Hwf). apply elem_of_frames. exists id.
  apply (wf_cache r Hwf). exact E.
Qed.

Lemma erased_frames_list (l : list lnode) (m : gmap Z nat) (id : nat) (f : Z) :
  NoDup l.*1 → (∀ i g, (i, g) ∈ l ↔ m !! g = Some i) → m !! f = Some id →
  (filter (λ p : lnode, p.1 ≠ id) l).*2 = filter (λ g, g ≠ f) l.*2.
Proof.
  intros Hnd Hmap Hf.
  assert (Hiff : ∀ p : lnode, p ∈ l → (p.1 ≠ id ↔ p.2 ≠ f)).
  { intros [i g] Hin. cbn [fst snd]. split.
    - intros Hi ->. apply Hi. apply Hmap in Hin. congruence.
    - intros Hg ->. apply Hg. apply (node_of_id l id g f Hnd); [exact Hin|].
      apply Hmap. exact Hf. }
  clear Hnd Hmap Hf. induction l as [|[i g] l IH]; [reflexivity|].
  rewrite fmap_cons, !filter_cons. cbn [fst snd].
  pose proof (Hiff (i, g) ltac:(left)) as Hhead. cbn [fst snd] in Hhead.
  assert (IH' : (filter (λ p : lnode, p.1 ≠ id) l).*2 = filter (λ g, g ≠ f) l.*2).
  { apply IH. intros p Hp. apply Hiff. right. exact Hp. }
  destruct (decide (i ≠ id)) as [Hi|Hi], (decide (g ≠ f)) as [Hg|Hg].
  - rewrite fmap_cons, IH'. reflexivity.
  - exfalso. tauto.
  - exfalso. tauto.
  - exact IH'.
Qed.

Lemma filter_absent (l : list Z) (f : Z) : f ∉ l → filter (λ g, g ≠ f) l = l.
Proof.
  induction l as [|g l IH]; intros Hnot; [reflexivity|].
  apply not_elem_of_cons in Hnot as [Hne Hnot]. rewrite filter_cons.
  rewrite decide_True by congruence. rewrite IH by exact Hnot. reflexivity.
Qed.

(** The lists of frames after [RecordAccess(f)] by what the count of [f]
    was: a first access enters the history list at its front, the second one
    moves the frame to the front of the cache list, every later one moves it
    to the front of the cache list again. *)
Definition accessed_history (f : Z) (count : Z) (history : list Z) : list Z :=
  if count =? 0 then f :: history else filter (λ g, g ≠ f) history.

Definition accessed_cache (f : Z) (count : Z) (cache : list Z) : list Z :=
  if count =? 0 then cache else f :: filter (λ g, g ≠ f) cache.

Lemma RecordAccess_well_formed (r : t) (f : Z) :
  well_formed r → 0 ≤ f < replacer_size_ r → Z.of_nat (next_node_ r) + 1 < 2 ^ 64 →
  ∃ r', RecordAccess f r = Done r' ∧ well_formed r' ∧
        next_node_ r' = S (next_node_ r) ∧
        replacer_size_ r' = replacer_size_ r ∧
        is_evictable_map_ r' = is_evictable_map_ r ∧
        curr_size_ r' = curr_size_ r ∧
        (∀ g, count_of r' g = if decide (g = f) then count_of r f + 1 else count_of r g) ∧
        history_frames r' = accessed_history f (count_of r f) (history_frames r) ∧
        cache_frames r' = accessed_cache f (count_of r f) (cache_frames r).
Proof.
  intros Hwf Hf Hnext.
  pose proof (wf_count r Hwf f) as Hrange.
  pose proof (wf_k r Hwf) as Hk.
  unfold RecordAccess, BUSTUB_ASSERT.
  rewrite to_int32_in_range by apply (wf_size r Hwf).
  assert (Hlt : (f <? replacer_size_ r) = true) by (apply Z.ltb_lt; lia).
  rewrite Hlt, Hk. rewrite wrap_size_t_small by lia.
  assert (Hfresh_h : ∀ g, (next_node_ r, g) ∉ history_list_ r).
  { intros g Hin. pose proof (wf_fresh r Hwf _ _ (or_introl Hin)). lia. }
  assert (Hfresh_c : ∀ g, (next_node_ r, g) ∉ cache_list_ r).
  { intros g Hin. pose proof (wf_fresh r Hwf _ _ (or_intror Hin)). lia. }
  destruct (Z.eq_dec (count_of r f) 0) as [H0|H0]; [|destruct (Z.eq_dec (count_of r f) 1) as [H1|H1]].
  - (* first access *)
    rewrite H0. change (0 + 1 <? 2) with true. cbn iota.
    eexists. split; [reflexivity|].
    assert (Hnh : f ∉ history_frames r) by (rewrite <- (wf_count1 r Hwf); lia).
    assert (Hnc : f ∉ cache_frames r) by (rewrite <- (wf_count2 r Hwf); lia).
    split; [|repeat split; try reflexivity].
    + constructor; cbn [k_ replacer_size_ curr_size_ access_count_ is_evictable_map_
                         history_list_ history_map_ cache_list_ cache_map_ next_node_].
      * reflexivity.
      * apply (wf_size r Hwf).
      * apply pushed_nodes; [apply (wf_history r Hwf)|].
        apply history_map_untracked; [exact Hwf|lia].
      * apply (wf_cache r Hwf).
      * rewrite fmap_cons. apply list.NoDup_cons. split; [|apply (wf_history_ids r Hwf)].
        intros Hin. apply elem_of_ids in Hin as [g Hg]. exact (Hfresh_h g Hg).
      * apply (wf_cache_ids r Hwf).
      * intros id g [Hin|Hin].
        -- apply elem_of_cons in Hin as [Heq|Hin]; [injection Heq as -> ->; lia|].
           pose proof (wf_fresh r Hwf _ _ (or_introl Hin)). lia.
        -- pose proof (wf_fresh r Hwf _ _ (or_intror Hin)). lia.
      * intros g. unfold count_of, history_frames.
        cbn [access_count_ history_list_]. rewrite count_of_insert; fold (count_of r f); rewrite fmap_cons, elem_of_cons.
        cbn [snd]. destruct (decide (g = f)) as [->|Hne]; [tauto|].
        rewrite (wf_count1 r Hwf). unfold history_frames. tauto.
      * intros g. unfold count_of, cache_frames.
        cbn [access_count_ cache_list_]. rewrite count_of_insert; fold (count_of r f).
        destruct (decide (g = f)) as [->|Hne]; [|apply (wf_count2 r Hwf)].
        split; [lia|]. intros Hin. contradiction.
      * intros g. unfold count_of. cbn [access_count_]. rewrite count_of_insert; fold (count_of r f).
        destruct (decide (g = f)); [lia|]. pose proof (wf_count r Hwf g). lia.
      * intros g. unfold count_of. cbn [access_count_]. rewrite count_of_insert; fold (count_of r f).
        destruct (decide (g = f)) as [->|Hne]; [intros _; exact Hf|apply (wf_frames r Hwf)].
      * intros g. unfold count_of, evictable_of. cbn [access_count_ is_evictable_map_].
        rewrite count_of_insert; fold (count_of r f). destruct (decide (g = f)); [lia|apply (wf_evictable r Hwf)].
      * apply (wf_curr_size r Hwf).
    + intros g. unfold count_of at 1. cbn [access_count_]. rewrite count_of_insert; fold (count_of r f).
      rewrite ?H0. reflexivity.
  - (* second access *)
    rewrite H1. change (1 + 1 <? 2) with false. change (1 + 1 =? 2) with true. cbn iota.
    destruct (history_map_of_frame r f Hwf H1) as (id & Hmap & Hnode).
    rewrite Hmap, (list_erase_present _ id f Hnode). cbn [obind].
    eexists. split; [reflexivity|].
    assert (Hnc : f ∉ cache_frames r) by (rewrite <- (wf_count2 r Hwf); lia).
    split; [|repeat split; try reflexivity].
    + constructor; cbn [k_ replacer_size_ curr_size_ access_count_ is_evictable_map_
                         history_list_ history_map_ cache_list_ cache_map_ next_node_].
      * reflexivity.
      * apply (wf_size r Hwf).
      * apply erased_nodes; [apply (wf_history_ids r Hwf)|apply (wf_history r Hwf)|exact Hmap].
      * apply pushed_nodes; [apply (wf_cache r Hwf)|].
        apply cache_map_untracked; [exact Hwf|lia].
      * apply erased_ids_NoDup. apply (wf_history_ids r Hwf).
      * rewrite fmap_cons. apply list.NoDup_cons. split; [|apply (wf_cache_ids r Hwf)].
        intros Hin. apply elem_of_ids in Hin as [g Hg]. exact (Hfresh_c g Hg).
      * intros i g [Hin|Hin].
        -- apply elem_of_erased in Hin as [Hin _].
           pose proof (wf_fresh r Hwf _ _ (or_introl Hin)). lia.
        -- apply elem_of_cons in Hin as [Heq|Hin]; [injection Heq as -> ->; lia|].
           pose proof (wf_fresh r Hwf _ _ (or_intror Hin)). lia.
      * intros g. unfold count_of, history_frames.
        cbn [access_count_ history_list_]. rewrite count_of_insert; fold (count_of r f).
        rewrite (erased_frames _ _ id f (wf_history_ids r Hwf) (wf_history r Hwf) Hmap).
        destruct (decide (g = f)) as [->|Hne]; [split; [lia|tauto]|].
        rewrite (wf_count1 r Hwf). unfold history_frames. tauto.
      * intros g. unfold count_of, cache_frames.
        cbn [access_count_ cache_list_]. rewrite count_of_insert; fold (count_of r f); rewrite fmap_cons, elem_of_cons.
        cbn [snd]. destruct (decide (g = f)) as [->|Hne]; [split; [tauto|lia]|].
        rewrite (wf_count2 r Hwf). unfold cache_frames. tauto.
      * intros g. unfold count_of. cbn [access_count_]. rewrite count_of_insert; fold (count_of r f).
        destruct (decide (g = f)); [lia|]. pose proof (wf_count r Hwf g). lia.
      * intros g. unfold count_of. cbn [access_count_]. rewrite count_of_insert; fold (count_of r f).
        destruct (decide (g = f)) as [->|Hne]; [intros _; exact Hf|apply (wf_frames r Hwf)].
      * intros g. unfold count_of, evictable_of. cbn [access_count_ is_evictable_map_].
        rewrite count_of_insert; fold (count_of r f). destruct (decide (g = f)); [lia|apply (wf_evictable r Hwf)].
      * apply (wf_curr_size r Hwf).
    + intros g. unfold count_of at 1. cbn [access_count_]. rewrite count_of_insert; fold (count_of r f).
      rewrite ?H1. reflexivity.
    + unfold history_frames, accessed_history. cbn [history_list_]. rewrite ?H1.
      change (1 =? 0) with false. cbn iota.
      apply (erased_frames_list _ _ id f (wf_history_ids r Hwf) (wf_history r Hwf) Hmap).
    + unfold cache_frames, accessed_cache. cbn [cache_list_]. rewrite ?H1.
      change (1 =? 0) with false. cbn iota. rewrite fmap_cons. cbn [snd].
      rewrite filter_absent by exact Hnc. reflexivity.
  - (* later accesses *)
    assert (H2 : 2 ≤ count_of r f) by lia.
    assert (Hlt2 : (count_of r f + 1 <? 2) = false) by (apply Z.ltb_ge; lia).
    assert (Hne2 : (count_of r f + 1 =? 2) = false) by (apply Z.eqb_neq; lia).
    rewrite Hlt2, Hne2.
    destruct (cache_map_of_frame r f Hwf H2) as (id & Hmap & Hnode).
    rewrite Hmap, (list_erase_present _ id f Hnode). cbn [obind].
    eexists. split; [reflexivity|].
    assert (Hnh : f ∉ history_frames r) by (rewrite <- (wf_count1 r Hwf); lia).
    split; [|repeat split; try reflexivity].
    + constructor; cbn [k_ replacer_size_ curr_size_ access_count_ is_evictable_map_
                         history_list_ history_map_ cache_list_ cache_map_ next_node_].
      * reflexivity.
      * apply (wf_size r Hwf).
      * apply (wf_history r Hwf).
      * intros i g.
        pose proof (erased_nodes _ _ id f (wf_cache_ids r Hwf) (wf_cache r Hwf) Hmap) as Her.
        rewrite elem_of_cons, Her.
        destruct (decide (g = f)) as [->|Hne].
        -- rewrite lookup_insert_eq, lookup_delete_eq. split.
           ++ intros [Heq|Hin]; [congruence|discriminate].
           ++ intros Heq. left. congruence.
        -- rewrite lookup_insert_ne, lookup_delete_ne by congruence. split; [|tauto].
           intros [Heq|Hin]; [congruence|exact Hin].
      * apply (wf_history_ids r Hwf).
      * rewrite fmap_cons. apply list.NoDup_cons.
        split; [|apply erased_ids_NoDup; apply (wf_cache_ids r Hwf)].
        intros Hin. apply elem_of_ids in Hin as [g Hg].
        apply elem_of_erased in Hg as [Hg _]. exact (Hfresh_c g Hg).
      * intros i g [Hin|Hin].
        -- pose proof (wf_fresh r Hwf _ _ (or_introl Hin)). lia.
        -- apply elem_of_cons in Hin as [Heq|Hin]; [injection Heq as -> ->; lia|].
           apply elem_of_erased in Hin as [Hin _].
           pose proof (wf_fresh r Hwf _ _ (or_intror Hin)). lia.
      * intros g. unfold count_of, history_frames.
        cbn [access_count_ history_list_]. rewrite count_of_insert; fold (count_of r f).
        destruct (decide (g = f)) as [->|Hne]; [split; [lia|intros; contradiction]|].
        apply (wf_count1 r Hwf).
      * intros g. unfold count_of, cache_frames.
        cbn [access_count_ cache_list_]. rewrite count_of_insert; fold (count_of r f); rewrite fmap_cons, elem_of_cons.
        cbn [snd].
        rewrite (erased_frames _ _ id f (wf_cache_ids r Hwf) (wf_cache r Hwf) Hmap).
        destruct (decide (g = f)) as [->|Hne]; [split; [tauto|lia]|].
        rewrite (wf_count2 r Hwf). unfold cache_frames. tauto.
      * intros g. unfold count_of. cbn [access_count_]. rewrite count_of_insert; fold (count_of r f).
        destruct (decide (g = f)); [lia|]. pose proof (wf_count r Hwf g). lia.
      * intros g. unfold count_of. cbn [access_count_]. rewrite count_of_insert; fold (count_of r f).
        destruct (decide (g = f)) as [->|Hne]; [intros _; exact Hf|apply (wf_frames r Hwf)].
      * intros g. unfold count_of, evictable_of. cbn [access_count_ is_evictable_map_].
        rewrite count_of_insert; fold (count_of r f). destruct (decide (g = f)); [lia|apply (wf_evictable r Hwf)].
      * apply (wf_curr_size r Hwf).
    + intros g. unfold count_of at 1. cbn [access_count_]. rewrite count_of_insert; fold (count_of r f).
      reflexivity.
    + unfold history_frames, accessed_history. cbn [history_list_].
      rewrite (proj2 (Z.eqb_neq _ _) H0). symmetry. apply filter_absent. exact Hnh.
    + unfold cache_frames, accessed_cache. cbn [cache_list_].
      rewrite (proj2 (Z.eqb_neq _ _) H0). rewrite fmap_cons. cbn [snd]. f_equal.
      apply (erased_frames_list _ _ id f (wf_cache_ids r Hwf) (wf_cache r Hwf) Hmap).
Qed.

Lemma evictable_bound (r : t) :
  well_formed r → Z.of_nat (size (evictable_frames r)) ≤ replacer_size_ r.
Proof.
  intros Hwf.
  assert (Hsub : evictable_frames r ⊆ list_to_set (seqZ 0 (replacer_size_ r))).
  { intros f Hf. apply elem_of_evictable_frames in Hf.
    apply elem_of_list_to_set, elem_of_seqZ.
    pose proof (wf_frames r Hwf f (wf_evictable r Hwf f Hf)). lia. }
  apply subseteq_size in Hsub.
  rewrite size_list_to_set in Hsub by apply NoDup_seqZ.
  rewrite length_seqZ in Hsub. pose proof (wf_size r Hwf). lia.
Qed.

Lemma SetEvictable_well_formed (r : t) (f : Z) (b : bool) :
  well_formed r → f < replacer_size_ r →
  ∃ r', SetEvictable f b r = Done r' ∧ well_formed r' ∧
        next_node_ r' = next_node_ r ∧
        replacer_size_ r' = replacer_size_ r ∧
        access_count_ r' = access_count_ r ∧
        history_list_ r' = history_list_ r ∧
        cache_list_ r' = cache_list_ r ∧
        (∀ g, evictable_of r' g =
              if decide (g = f ∧ count_of r f ≠ 0) then b else evictable_of r g).
Proof.
  intros Hwf Hf. unfold SetEvictable, BUSTUB_ASSERT.
  rewrite to_int32_in_range by apply (wf_size r Hwf).
  assert (Hlt : (f <? replacer_size_ r) = true) by (apply Z.ltb_lt; lia).
  rewrite Hlt.
  destruct (Z.eqb_spec (count_of r f) 0) as [H0|H0].
  - exists r. split; [reflexivity|]. split; [exact Hwf|]. repeat split.
    intros g. rewrite decide_False by tauto. reflexivity.
  - eexists. split; [reflexivity|].
    set (r' := mk _ _ _ _ _ _ _ _ _ _).
    assert (Hev : ∀ g, evictable_of r' g = if decide (g = f) then b else evictable_of r g).
    { intros g. apply evictable_of_insert. }
    assert (Hmem : ∀ g, g ∈ evictable_frames r' ↔
                        if decide (g = f) then b = true else g ∈ evictable_frames r).
    { intros g. rewrite elem_of_evictable_frames, Hev.
      destruct (decide (g = f)); [reflexivity|]. rewrite elem_of_evictable_frames. reflexivity. }
    pose proof (evictable_bound r Hwf) as Hbound.
    pose proof (wf_size r Hwf) as Hsize.
    pose proof (wf_curr_size r Hwf) as Hcs.
    split; [|repeat split].
    + constructor; try (subst r'; cbn [k_ replacer_size_ access_count_ history_list_
                          history_map_ cache_list_ cache_map_ next_node_]; apply Hwf).
      * intros g. rewrite Hev. change (count_of r' g) with (count_of r g).
        destruct (decide (g = f)) as [->|Hne]; [intros _; exact H0|apply (wf_evictable r Hwf)].
      * subst r'. cbn [curr_size_].
        set (r' := mk _ _ _ _ _ _ _ _ _ _) in *.
        destruct (evictable_of r f) eqn:Hold, b; cbn [andb negb].
        -- rewrite Hcs. f_equal. f_equal. apply set_eq. intros g. rewrite Hmem.
           destruct (decide (g = f)) as [->|Hne]; [|reflexivity].
           rewrite elem_of_evictable_frames. tauto.
        -- assert (Hin : f ∈ evictable_frames r) by (apply elem_of_evictable_frames; exact Hold).
           assert (HE : evictable_frames r' = evictable_frames r ∖ {[f]}).
           { apply set_eq. intros g. rewrite Hmem, elem_of_difference, elem_of_singleton.
             destruct (decide (g = f)) as [->|Hne]; [split; [discriminate|tauto]|tauto]. }
           rewrite HE, size_difference by (apply singleton_subseteq_l; exact Hin).
           rewrite size_singleton.
           assert (Hpos : (1 ≤ size (evictable_frames r))%nat).
           { destruct (size (evictable_frames r)) eqn:Hs; [|lia].
             apply size_empty_inv in Hs. apply Hs in Hin. apply not_elem_of_empty in Hin.
             contradiction. }
           rewrite wrap_size_t_small by lia. lia.
        -- assert (Hout : f ∉ evictable_frames r).
           { rewrite elem_of_evictable_frames, Hold. discriminate. }
           assert (HE : evictable_frames r' = {[f]} ∪ evictable_frames r).
           { apply set_eq. intros g. rewrite Hmem, elem_of_union, elem_of_singleton.
             destruct (decide (g = f)) as [->|Hne]; tauto. }
           rewrite HE, size_union by (apply disjoint_singleton_l; exact Hout).
           rewrite size_singleton, wrap_size_t_small by lia. lia.
        -- rewrite Hcs. f_equal. f_equal. apply set_eq. intros g. rewrite Hmem.
           destruct (decide (g = f)) as [->|Hne]; [|reflexivity].
           rewrite elem_of_evictable_frames, Hold. split; discriminate.
    + intros g. rewrite Hev.
      destruct (decide (g = f)) as [->|Hne].
      * rewrite decide_True by tauto. reflexivity.
      * rewrite decide_False by tauto. reflexivity.
Qed.

(** The frame [Evict] takes from a list: the evictable frame nearest to the
    back. *)
Definition oldest_evictable (r : t) (frames : list Z) : option Z :=
  list.last (filter (λ f, evictable_of r f = true) frames).

(** The victim: an evictable frame of the history list if there is one,
    otherwise one of the cache list. *)
Definition victim (r : t) : option Z :=
  match oldest_evictable r (history_frames r) with
  | Some f => Some f
  | None => oldest_evictable r (cache_frames r)
  end.

Lemma last_evictable_oldest (r : t) (l : list lnode) :
  last_evictable r l = oldest_evictable r l.*2.
Proof.
  unfold last_evictable, oldest_evictable.
  induction l as [|[id f] l IH] using rev_ind; [reflexivity|].
  rewrite rev_app_distr, fmap_app, list.filter_app. cbn [rev app find fmap list_fmap snd].
  rewrite filter_cons, filter_nil.
  destruct (evictable_of r f) eqn:E.
  - rewrite decide_True by reflexivity. rewrite last_snoc. reflexivity.
  - rewrite decide_False by discriminate. rewrite app_nil_r. exact IH.
Qed.

Lemma oldest_evictable_Some (r : t) (frames : list Z) (f : Z) :
  oldest_evictable r frames = Some f → f ∈ frames ∧ evictable_of r f = true.
Proof.
  unfold oldest_evictable. intros H.
  assert (Hin : f ∈ filter (λ f, evictable_of r f = true) frames).
  { destruct (filter _ frames) as [|x l] using rev_ind; [discriminate|].
    rewrite last_snoc in H. injection H as ->. apply elem_of_app. right. left. }
  apply list_elem_of_filter in Hin. tauto.
Qed.

Lemma oldest_evictable_None (r : t) (frames : list Z) (f : Z) :
  oldest_evictable r frames = None → f ∈ frames → evictable_of r f = false.
Proof.
  unfold oldest_evictable. intros H Hin.
  destruct (evictable_of r f) eqn:E; [|reflexivity].
  assert (Hf : f ∈ filter (λ f, evictable_of r f = true) frames).
  { apply list_elem_of_filter. split; assumption. }
  destruct (filter _ frames) as [|x l] using rev_ind; [inversion Hf|].
  rewrite last_snoc in H. discriminate.
Qed.

Lemma tracked_frame (r : t) (f : Z) :
  well_formed r → count_of r f ≠ 0 → f ∈ history_frames r ∨ f ∈ cache_frames r.
Proof.
  intros Hwf Hc. pose proof (wf_count r Hwf f).
  destruct (Z.eq_dec (count_of r f) 1) as [H1|H1].
  - left. apply (wf_count1 r Hwf). exact H1.
  - right. apply (wf_count2 r Hwf). lia.
Qed.

Lemma victim_None (r : t) : well_formed r → victim r = None → evictable_frames r = ∅.
Proof.
  intros Hwf Hv. unfold victim in Hv.
  destruct (oldest_evictable r (history_frames r)) as [f|] eqn:Hh; [discriminate|].
  apply set_eq. intros g. rewrite elem_of_evictable_frames. split; [|intros H; inversion H].
  intros Hg. exfalso.
  destruct (tracked_frame r g Hwf (wf_evictable r Hwf g Hg)) as [Hin|Hin].
  - rewrite (oldest_evictable_None r _ g Hh Hin) in Hg. discriminate.
  - rewrite (oldest_evictable_None r _ g Hv Hin) in Hg. discriminate.
Qed.

Lemma victim_Some (r : t) (v : Z) :
  victim r = Some v →
  evictable_of r v = true ∧
  ((oldest_evictable r (history_frames r) = Some v ∧ v ∈ history_frames r) ∨
   (oldest_evictable r (history_frames r) = None ∧
    oldest_evictable r (cache_frames r) = Some v ∧ v ∈ cache_frames r)).
Proof.
  unfold victim. destruct (oldest_evictable r (history_frames r)) as [f|] eqn:Hh.
  - intros H. injection H as ->. destruct (oldest_evictable_Some r _ v Hh). auto.
  - intros Hc. destruct (oldest_evictable_Some r _ v Hc). auto.
Qed.

Lemma evicted_size (r r' : t) (v : Z) :
  well_formed r → evictable_of r v = true →
  (∀ g, evictable_of r' g = if decide (g = v) then false else evictable_of r g) →
  wrap_size_t (curr_size_ r - 1) = Z.of_nat (size (evictable_frames r')) ∧
  0 < curr_size_ r.
Proof.
  intros Hwf Hv Hev.
  assert (Hin : v ∈ evictable_frames r) by (apply elem_of_evictable_frames; exact Hv).
  assert (HE : evictable_frames r' = evictable_frames r ∖ {[v]}).
  { apply set_eq. intros g.
    rewrite elem_of_difference, elem_of_singleton, !elem_of_evictable_frames, Hev.
    destruct (decide (g = v)) as [->|Hne]; [split; [discriminate|tauto]|tauto]. }
  assert (Hpos : (1 ≤ size (evictable_frames r))%nat).
  { destruct (size (evictable_frames r)) eqn:Hs; [|lia].
    apply size_empty_inv in Hs. apply Hs in Hin. apply not_elem_of_empty in Hin.
    contradiction. }
  pose proof (evictable_bound r Hwf). pose proof (wf_size r Hwf).
  rewrite HE, size_difference by (apply singleton_subseteq_l; exact Hin).
  rewrite size_singleton, (wf_curr_size r Hwf).
  rewrite wrap_size_t_small by lia. lia.
Qed.

Lemma Evict_well_formed (r : t) :
  well_formed r →
  match victim r with
  | None => Evict r = Done (None, r) ∧ evictable_frames r = ∅
  | Some v =>
      ∃ r', Evict r = Done (Some v, r') ∧ well_formed r' ∧
            evictable_of r v = true ∧
            next_node_ r' = next_node_ r ∧
            replacer_size_ r' = replacer_size_ r ∧
            (∀ g, count_of r' g = if decide (g = v) then 0 else count_of r g) ∧
            (∀ g, evictable_of r' g = if decide (g = v) then false else evictable_of r g) ∧
            history_frames r' = filter (λ g, g ≠ v) (history_frames r) ∧
            cache_frames r' = filter (λ g, g ≠ v) (cache_frames r) ∧
            Size r' = Size r - 1
  end.
Proof.
  intros Hwf. destruct (victim r) as [v|] eqn:Hvictim.
  - destruct (victim_Some r v Hvictim) as [Hev Hwhere].
    pose proof (wf_count r Hwf v) as Hrange.
    unfold Evict.
    assert (Hpos : (curr_size_ r <=? 0) = false).
    { apply Z.leb_gt.
      assert (Hin : v ∈ evictable_frames r) by (apply elem_of_evictable_frames; exact Hev).
      rewrite (wf_curr_size r Hwf).
      destruct (size (evictable_frames r)) eqn:Hs; [|lia].
      apply size_empty_inv in Hs. apply Hs in Hin. apply not_elem_of_empty in Hin.
      contradiction. }
    rewrite Hpos, !last_evictable_oldest.
    fold (history_frames r). fold (cache_frames r).
    destruct Hwhere as [[Hh Hin]|(Hh & Hc & Hin)].
    + rewrite Hh.
      assert (H1 : count_of r v = 1) by (apply (wf_count1 r Hwf); exact Hin).
      destruct (history_map_of_frame r v Hwf H1) as (id & Hmap & Hnode).
      rewrite Hmap, (list_erase_present _ id v Hnode). cbn [obind].
      eexists. split; [reflexivity|].
      set (r' := mk _ _ _ _ _ _ _ _ _ _).
      assert (Hev' : ∀ g, evictable_of r' g = if decide (g = v) then false else evictable_of r g).
      { intros g. apply evictable_of_insert. }
      assert (Hcount' : ∀ g, count_of r' g = if decide (g = v) then 0 else count_of r g).
      { intros g. apply count_of_insert. }
      assert (Hnc : v ∉ cache_frames r) by (rewrite <- (wf_count2 r Hwf); lia).
      destruct (evicted_size r r' v Hwf Hev Hev') as [Hsize _].
      split; [|repeat split; try assumption; try reflexivity].
      * constructor; try (subst r'; cbn [k_ replacer_size_ cache_list_ cache_map_];
                          apply Hwf).
        -- apply erased_nodes; [apply (wf_history_ids r Hwf)|apply (wf_history r Hwf)|exact Hmap].
        -- apply erased_ids_NoDup. apply (wf_history_ids r Hwf).
        -- intros i g [Hg|Hg].
           ++ apply elem_of_erased in Hg as [Hg _]. apply (wf_fresh r Hwf i g). left. exact Hg.
           ++ apply (wf_fresh r Hwf i g). right. exact Hg.
        -- intros g. rewrite Hcount'. unfold history_frames. subst r'. cbn [history_list_].
           rewrite (erased_frames _ _ id v (wf_history_ids r Hwf) (wf_history r Hwf) Hmap).
           destruct (decide (g = v)) as [->|Hne]; [split; [lia|tauto]|].
           rewrite (wf_count1 r Hwf). unfold history_frames. tauto.
        -- intros g. rewrite Hcount'. change (cache_frames r') with (cache_frames r).
           destruct (decide (g = v)) as [->|Hne]; [split; [lia|tauto]|apply (wf_count2 r Hwf)].
        -- intros g. rewrite Hcount'. change (next_node_ r') with (next_node_ r).
           destruct (decide (g = v)); [lia|apply (wf_count r Hwf)].
        -- intros g. rewrite Hcount'. change (replacer_size_ r') with (replacer_size_ r).
           destruct (decide (g = v)); [congruence|apply (wf_frames r Hwf)].
        -- intros g. rewrite Hcount', Hev'.
           destruct (decide (g = v)); [discriminate|apply (wf_evictable r Hwf)].
        -- exact Hsize.
      * unfold history_frames. subst r'. cbn [history_list_].
        apply (erased_frames_list _ _ id v (wf_history_ids r Hwf) (wf_history r Hwf) Hmap).
      * change (cache_frames r') with (cache_frames r). symmetry. apply filter_absent. exact Hnc.
      * unfold Size. subst r'. cbn [curr_size_].
        destruct (evicted_size r (mk (replacer_size_ r) (k_ r) (wrap_size_t (curr_size_ r - 1))
                     (<[v:=0]> (access_count_ r)) (<[v:=false]> (is_evictable_map_ r))
                     (filter (λ p : lnode, p.1 ≠ id) (history_list_ r))
                     (delete v (history_map_ r)) (cache_list_ r) (cache_map_ r) (next_node_ r))
                   v Hwf Hev Hev') as [_ Hp].
        pose proof (evictable_bound r Hwf). pose proof (wf_size r Hwf).
        pose proof (wf_curr_size r Hwf).
        apply wrap_size_t_small. lia.
    + rewrite Hh, Hc.
      assert (H2 : 2 ≤ count_of r v) by (apply (wf_count2 r Hwf); exact Hin).
      destruct (cache_map_of_frame r v Hwf H2) as (id & Hmap & Hnode).
      rewrite Hmap, (list_erase_present _ id v Hnode). cbn [obind].
      eexists. split; [reflexivity|].
      set (r' := mk _ _ _ _ _ _ _ _ _ _).
      assert (Hev' : ∀ g, evictable_of r' g = if decide (g = v) then false else evictable_of r g).
      { intros g. apply evictable_of_insert. }
      assert (Hcount' : ∀ g, count_of r' g = if decide (g = v) then 0 else count_of r g).
      { intros g. apply count_of_insert. }
      assert (Hnh : v ∉ history_frames r) by (rewrite <- (wf_count1 r Hwf); lia).
      destruct (evicted_size r r' v Hwf Hev Hev') as [Hsize _].
      split; [|repeat split; try assumption; try reflexivity].
      * constructor; try (subst r'; cbn [k_ replacer_size_ history_list_ history_map_];
                          apply Hwf).
        -- apply erased_nodes; [apply (wf_cache_ids r Hwf)|apply (wf_cache r Hwf)|exact Hmap].
        -- apply erased_ids_NoDup. apply (wf_cache_ids r Hwf).
        -- intros i g [Hg|Hg].
           ++ apply (wf_fresh r Hwf i g). left. exact Hg.
           ++ apply elem_of_erased in Hg as [Hg _]. apply (wf_fresh r Hwf i g). right. exact Hg.
        -- intros g. rewrite Hcount'. change (history_frames r') with (history_frames r).
           destruct (decide (g = v)) as [->|Hne]; [split; [lia|tauto]|apply (wf_count1 r Hwf)].
        -- intros g. rewrite Hcount'. unfold cache_frames. subst r'. cbn [cache_list_].
           rewrite (erased_frames _ _ id v (wf_cache_ids r Hwf) (wf_cache r Hwf) Hmap).
           destruct (decide (g = v)) as [->|Hne]; [split; [lia|tauto]|].
           rewrite (wf_count2 r Hwf). unfold cache_frames. tauto.
        -- intros g. rewrite Hcount'. change (next_node_ r') with (next_node_ r).
           destruct (decide (g = v)); [lia|apply (wf_count r Hwf)].
        -- intros g. rewrite Hcount'. change (replacer_size_ r') with (replacer_size_ r).
           destruct (decide (g = v)); [congruence|apply (wf_frames r Hwf)].
        -- intros g. rewrite Hcount', Hev'.
           destruct (decide (g = v)); [discriminate|apply (wf_evictable r Hwf)].
        -- exact Hsize.
      * change (history_frames r') with (history_frames r). symmetry. apply filter_absent.
        exact Hnh.
      * unfold cache_frames. subst r'. cbn [cache_list_].
        apply (erased_frames_list _ _ id v (wf_cache_ids r Hwf) (wf_cache r Hwf) Hmap).
      * unfold Size. subst r'. cbn [curr_size_].
        destruct (evicted_size r (mk (replacer_size_ r) (k_ r) (wrap_size_t (curr_size_ r - 1))
                     (<[v:=0]> (access_count_ r)) (<[v:=false]> (is_evictable_map_ r))
                     (history_list_ r) (history_map_ r)
                     (filter (λ p : lnode, p.1 ≠ id) (cache_list_ r))
                     (delete v (cache_map_ r)) (next_node_ r))
                   v Hwf Hev Hev') as [_ Hp].
        pose proof (evictable_bound r Hwf). pose proof (wf_size r Hwf).
        pose proof (wf_curr_size r Hwf).
        apply wrap_size_t_small. lia.
  - pose proof (victim_None r Hwf Hvictim) as Hempty. split; [|exact Hempty].
    unfold Evict. rewrite (wf_curr_size r Hwf), Hempty, size_empty.
    reflexivity.
Qed.

Lemma frames_NoDup (l : list lnode) :
  NoDup l.*1 → (∀ i j g, (i, g) ∈ l → (j, g) ∈ l → i = j) → NoDup l.*2.
Proof.
  induction l as [|[i g] l IH]; intros Hnd Hfun; [constructor|].
  rewrite fmap_cons in Hnd. apply list.NoDup_cons in Hnd as [Hfresh Hnd].
  rewrite fmap_cons. apply list.NoDup_cons. split.
  - intros Hin. apply elem_of_frames in Hin as [j Hj]. cbn [snd] in Hj.
    assert (i = j) as -> by (apply (Hfun i j g); [left|right; exact Hj]).
    apply Hfresh. apply elem_of_ids. eauto.
  - apply IH; [exact Hnd|]. intros a b h Ha Hb. apply (Hfun a b h); right; assumption.
Qed.

Lemma well_formed_classified (r : t) : well_formed r → classified r.
Proof.
  intros Hwf. split; [|split].
  - intros f c. subst c. pose proof (wf_count r Hwf f) as Hrange.
    rewrite (wf_k r Hwf), <- (wf_count1 r Hwf), <- (wf_count2 r Hwf).
    split; [lia|]. split; [lia|]. lia.
  - apply frames_NoDup; [apply (wf_history_ids r Hwf)|].
    intros i j g Hi Hj. apply (wf_history r Hwf) in Hi, Hj. congruence.
  - apply frames_NoDup; [apply (wf_cache_ids r Hwf)|].
    intros i j g Hi Hj. apply (wf_cache r Hwf) in Hi, Hj. congruence.
Qed.

Lemma new_well_formed (num_frames : Z) : 0 ≤ num_frames < 2 ^ 31 → well_formed (new num_frames 2).
Proof.
  intros Hn. unfold new. constructor;
    cbn [k_ replacer_size_ curr_size_ access_count_ is_evictable_map_ history_list_
         history_map_ cache_list_ cache_map_ next_node_ history_frames cache_frames].
  - reflexivity.
  - exact Hn.
  - intros i f. split; [intros H; inversion H|]. rewrite lookup_empty. discriminate.
  - intros i f. split; [intros H; inversion H|]. rewrite lookup_empty. discriminate.
  - constructor.
  - constructor.
  - intros i f [H|H]; inversion H.
  - intros f. unfold count_of, history_frames. cbn [access_count_ history_list_].
    rewrite lookup_empty. split; [discriminate|intros H; inversion H].
  - intros f. unfold count_of, cache_frames. cbn [access_count_ cache_list_].
    rewrite lookup_empty. split; [cbn; lia|intros H; inversion H].
  - intros f. unfold count_of. cbn [access_count_]. rewrite lookup_empty. cbn. lia.
  - intros f. unfold count_of. cbn [access_count_]. rewrite lookup_empty. cbn. congruence.
  - intros f. unfold evictable_of. cbn [is_evictable_map_]. rewrite lookup_empty. discriminate.
  - unfold evictable_frames. cbn [is_evictable_map_]. rewrite map_filter_empty, dom_empty_L.
    reflexivity.
Qed.

(** The calls the buffer pool makes, on frames of the replacer. *)
Definition in_contract (num_frames : Z) (c : call) : Prop :=
  match c with
  | CRecordAccess f => 0 ≤ f < num_frames
  | CSetEvictable f _ => 0 ≤ f < num_frames
  | CEvict => True
  | CRemove _ => False
  end.

Lemma do_calls_well_formed (cs : list call) :
  ∀ r, well_formed r → Forall (in_contract (replacer_size_ r)) cs →
       Z.of_nat (next_node_ r) + Z.of_nat (length cs) < 2 ^ 64 →
       ∃ r', do_calls cs r = Done r' ∧ well_formed r' ∧
             replacer_size_ r' = replacer_size_ r ∧
             (next_node_ r' ≤ next_node_ r + length cs)%nat.
Proof.
  induction cs as [|c cs IH]; intros r Hwf Hcs Hbound.
  - exists r. split; [reflexivity|]. split; [exact Hwf|]. split; [reflexivity|]. simpl. lia.
  - inversion Hcs as [|? ? Hc Hcs']; subst. cbn [length] in Hbound. cbn [do_calls].
    assert (Hstep : ∃ r1, do_call c r = Done r1 ∧ well_formed r1 ∧
                          replacer_size_ r1 = replacer_size_ r ∧
                          (next_node_ r1 ≤ S (next_node_ r))%nat).
    { destruct c as [f|f b| |f]; cbn [do_call in_contract] in *.
      - destruct (RecordAccess_well_formed r f Hwf Hc ltac:(lia))
          as (r1 & -> & Hwf1 & Hn & Hs & _).
        exists r1. rewrite Hn. auto.
      - destruct (SetEvictable_well_formed r f b Hwf ltac:(lia))
          as (r1 & -> & Hwf1 & Hn & Hs & _).
        exists r1. rewrite Hn. auto.
      - pose proof (Evict_well_formed r Hwf) as He. destruct (victim r) as [v|].
        + destruct He as (r1 & -> & Hwf1 & _ & Hn & Hs & _).
          exists r1. cbn [obind snd]. rewrite Hn. auto.
        + destruct He as [-> _]. exists r. cbn [obind snd]. auto.
      - contradiction. }
    destruct Hstep as (r1 & -> & Hwf1 & Hs1 & Hn1). cbn [obind].
    destruct (IH r1 Hwf1) as (r' & Hrun & Hwf' & Hs' & Hn').
    + rewrite Hs1. exact Hcs'.
    + lia.
    + exists r'. split; [exact Hrun|]. split; [exact Hwf'|]. split; [congruence|]. simpl. lia.
Qed.

Lemma calls_on_new (num_frames : Z) (cs : list call) :
  0 ≤ num_frames < 2 ^ 31 → Forall (in_contract num_frames) cs →
  Z.of_nat (length cs) < 2 ^ 64 →
  ∃ r, do_calls cs (new num_frames 2) = Done r ∧ well_formed r ∧
       replacer_size_ r = num_frames ∧ (next_node_ r ≤ length cs)%nat.
Proof.
  intros Hn Hcs Hlen.
  destruct (do_calls_well_formed cs (new num_frames 2) (new_well_formed num_frames Hn) Hcs)
    as (r & Hrun & Hwf & Hs & Hnext).
  - simpl. lia.
  - exists r. split; [exact Hrun|]. split; [exact Hwf|]. split; [exact Hs|exact Hnext].
Qed.

(** X19. With [k = 2], after any sequence of [RecordAccess], [SetEvictable]
    and [Evict] calls on frames of the replacer, every call has returned,
    the classification of the specification holds (a frame with one access is
    in the history list, one with two or more in the cache list, an untracked
    one in neither, and no list holds a frame twice), only frames in one of
    the lists are evictable, and [Size] is the number of evictable frames. *)
Theorem X19_replacer_with_k_2_keeps_its_classification (num_frames : Z) (cs : list call) :
  0 ≤ num_frames < 2 ^ 31 → Forall (in_contract num_frames) cs →
  Z.of_nat (length cs) < 2 ^ 64 →
  ∃ r, do_calls cs (new num_frames 2) = Done r ∧
       classified r ∧
       (∀ f, evictable_of r f = true → f ∈ history_frames r ∨ f ∈ cache_frames r) ∧
       Size r = Z.of_nat (size (evictable_frames r)).
Proof.
  intros Hn Hcs Hlen.
  destruct (calls_on_new num_frames cs Hn Hcs Hlen) as (r & Hrun & Hwf & _ & _).
  exists r. split; [exact Hrun|]. split; [apply well_formed_classified; exact Hwf|].
  split; [|apply (wf_curr_size r Hwf)].
  intros f Hf. apply tracked_frame; [exact Hwf|]. apply (wf_evictable r Hwf f Hf).
Qed.

(** X20. In such a state [Evict] returns [false] and changes nothing when
    no frame is evictable.  Otherwise it returns the evictable frame nearest
    to the back of the history list, or when the history list has none the
    one nearest to the back of the cache list; that frame leaves its list,
    its access count is reset, it is no longer evictable, [Size] drops by
    one, and the other frames keep their places. *)
Theorem X20_evict_takes_the_oldest_evictable_frame (num_frames : Z) (cs : list call) :
  0 ≤ num_frames < 2 ^ 31 → Forall (in_contract num_frames) cs →
  Z.of_nat (length cs) < 2 ^ 64 →
  ∃ r, do_calls cs (new num_frames 2) = Done r ∧
       match victim r with
       | None => Evict r = Done (None, r) ∧ ∀ f, evictable_of r f = false
       | Some v =>
           ∃ r', Evict r = Done (Some v, r') ∧
                 evictable_of r v = true ∧
                 (∀ g, count_of r' g = if decide (g = v) then 0 else count_of r g) ∧
                 (∀ g, evictable_of r' g = if decide (g = v) then false else evictable_of r g) ∧
                 history_frames r' = filter (λ g, g ≠ v) (history_frames r) ∧
                 cache_frames r' = filter (λ g, g ≠ v) (cache_frames r) ∧
                 Size r' = Size r - 1
       end.
Proof.
  intros Hn Hcs Hlen.
  destruct (calls_on_new num_frames cs Hn Hcs Hlen) as (r & Hrun & Hwf & _ & _).
  exists r. split; [exact Hrun|].
  pose proof (Evict_well_formed r Hwf) as He. destruct (victim r) as [v|].
  - destruct He as (r' & Hev & _ & Hv & _ & _ & Hcount & Hevict & Hh & Hc & Hsize).
    exists r'. repeat split; assumption.
  - destruct He as [Hev Hempty]. split; [exact Hev|].
    intros f. destruct (evictable_of r f) eqn:E; [|reflexivity].
    apply elem_of_evictable_frames in E. rewrite Hempty in E. inversion E.
Qed.

(** X21. In such a state [RecordAccess] of a frame of the replacer returns;
    the first access of a frame puts it at the front of the history list, the
    second one moves it to the front of the cache list, and every later one
    moves it to the front of the cache list again.  The evictable flags and
    [Size] stay as they are. *)
Theorem X21_record_access_moves_the_frame_to_the_front
    (num_frames : Z) (cs : list call) (f : Z) :
  0 ≤ num_frames < 2 ^ 31 → Forall (in_contract num_frames) cs →
  Z.of_nat (length cs) + 1 < 2 ^ 64 → 0 ≤ f < num_frames →
  ∃ r r', do_calls cs (new num_frames 2) = Done r ∧ RecordAccess f r = Done r' ∧
          history_frames r' = accessed_history f (count_of r f) (history_frames r) ∧
          cache_frames r' = accessed_cache f (count_of r f) (cache_frames r) ∧
          (∀ g, count_of r' g = if decide (g = f) then count_of r f + 1 else count_of r g) ∧
          (∀ g, evictable_of r' g = evictable_of r g) ∧
          Size r' = Size r.
Proof.
  intros Hn Hcs Hlen Hf.
  destruct (calls_on_new num_frames cs Hn Hcs ltac:(lia)) as (r & Hrun & Hwf & Hs & Hnext).
  destruct (RecordAccess_well_formed r f Hwf ltac:(lia) ltac:(lia))
    as (r' & Hacc & _ & _ & _ & Hev & Hsize & Hcount & Hh & Hc).
  exists r, r'. repeat split; try assumption.
  intros g. unfold evictable_of. rewrite Hev. reflexivity.
Qed.

Definition warm_up_calls : list call :=
  [CRecordAccess 0; CRecordAccess 1; CRecordAccess 1; CRecordAccess 2;
   CSetEvictable 0 true; CSetEvictable 1 true; CSetEvictable 2 true].

Lemma warm_up_calls_in_contract : Forall (in_contract 4) warm_up_calls.
Proof. repeat constructor; simpl; lia. Qed.

Lemma X19_replacer_with_k_2_keeps_its_classification_witness :
  ∃ r, do_calls warm_up_calls (new 4 2) = Done r ∧
       classified r ∧
       (∀ f, evictable_of r f = true → f ∈ history_frames r ∨ f ∈ cache_frames r) ∧
       Size r = Z.of_nat (size (evictable_frames r)).
Proof.
  apply (X19_replacer_with_k_2_keeps_its_classification 4 warm_up_calls).
  - lia.
  - exact warm_up_calls_in_contract.
  - simpl. lia.
Defined.

Lemma X20_evict_takes_the_oldest_evictable_frame_witness :
  ∃ r, do_calls warm_up_calls (new 4 2) = Done r ∧
       match victim r with
       | None => Evict r = Done (None, r) ∧ ∀ f, evictable_of r f = false
       | Some v =>
           ∃ r', Evict r = Done (Some v, r') ∧
                 evictable_of r v = true ∧
                 (∀ g, count_of r' g = if decide (g = v) then 0 else count_of r g) ∧
                 (∀ g, evictable_of r' g = if decide (g = v) then false else evictable_of r g) ∧
                 history_frames r' = filter (λ g, g ≠ v) (history_frames r) ∧
                 cache_frames r' = filter (λ g, g ≠ v) (cache_frames r) ∧
                 Size r' = Size r - 1
       end.
Proof.
  apply (X20_evict_takes_the_oldest_evictable_frame 4 warm_up_calls).
  - lia.
  - exact warm_up_calls_in_contract.
  - simpl. lia.
Defined.

Lemma X21_record_access_moves_the_frame_to_the_front_witness :
  ∃ r r', do_calls warm_up_calls (new 4 2) = Done r ∧ RecordAccess 2 r = Done r' ∧
          history_frames r' = accessed_history 2 (count_of r 2) (history_frames r) ∧
          cache_frames r' = accessed_cache 2 (count_of r 2) (cache_frames r) ∧
          (∀ g, count_of r' g = if decide (g = 2) then count_of r 2 + 1 else count_of r g) ∧
          (∀ g, evictable_of r' g = evictable_of r g) ∧
          Size r' = Size r.
Proof.
  apply (X21_record_access_moves_the_frame_to_the_front 4 warm_up_calls 2).
  - lia.
  - exact warm_up_calls_in_contract.
  - simpl. lia.
  - lia.
Defined.

End LRUKReplacer.

(** ** Buffer pool manager (buffer_pool_manager.cpp)

    The pool runs under one mutex, so its operations are modelled as atomic
    state transformers.  What the pool does to its collaborators (requests
    handed to the disk scheduler, waits on their futures, page latches taken
    and released, calls of [UnpinPage]) is recorded in a trace. *)

Module BufferPoolManager.

Definition INVALID_PAGE_ID : Z := -1.

(** The bytes of a page by offset; an offset without an entry holds a zero
    byte, so that the empty map is the page after [ResetMemory]. *)
Definition page_data : Type := gmap nat Z.

Record Page : Type := mkPage {
  data_ : page_data;
  page_id_ : Z;
  pin_count_ : Z;
  is_dirty_ : bool
}.

Inductive event : Type :=
| EvSchedule (is_write : bool) (page_id : Z) (data : page_data)
| EvFutureGet (is_write : bool) (page_id : Z)
| EvUnpinPage (page_id : Z) (is_dirty : bool)
| EvRLatch (frame : Z)
| EvRUnlatch (frame : Z)
| EvWLatch (frame : Z)
| EvWUnlatch (frame : Z).

Record t : Type := mk {
  pool_size_ : Z;
  pages_ : list Page;
  page_table_ : gmap Z Z;
  free_list_ : list Z;
  next_page_id_ : Z;
  replacer_ : LRUKReplacer.t;
  disk_ : gmap Z page_data;
  trace_ : list event
}.

Definition zero_page : page_data := ∅.

(** [BufferPoolManager::BufferPoolManager] on a disk with the given content. *)
Definition new (pool_size replacer_k : Z) (disk : gmap Z page_data) : t :=
  mk pool_size
     (replicate (Z.to_nat pool_size) (mkPage zero_page INVALID_PAGE_ID 0 false))
     ∅ (seqZ 0 pool_size) 0 (LRUKReplacer.new pool_size replacer_k) disk [].

(** [pages_[frame]]: indexing outside the array is undefined. *)
Definition frame_at (b : t) (frame : Z) : outcome Page :=
  if frame <? 0 then Undefined else
  match pages_ b !! Z.to_nat frame with
  | Some p => Done p
  | None => Undefined
  end.

Definition set_frame (frame : Z) (p : Page) (b : t) : t :=
  mk (pool_size_ b) (<[Z.to_nat frame := p]> (pages_ b)) (page_table_ b)
     (free_list_ b) (next_page_id_ b) (replacer_ b) (disk_ b) (trace_ b).

Definition set_page_table (pt : gmap Z Z) (b : t) : t :=
  mk (pool_size_ b) (pages_ b) pt (free_list_ b) (next_page_id_ b)
     (replacer_ b) (disk_ b) (trace_ b).

Definition set_free_list (fl : list Z) (b : t) : t :=
  mk (pool_size_ b) (pages_ b) (page_table_ b) fl (next_page_id_ b)
     (replacer_ b) (disk_ b) (trace_ b).

Definition set_replacer (r : LRUKReplacer.t) (b : t) : t :=
  mk (pool_size_ b) (pages_ b) (page_table_ b) (free_list_ b) (next_page_id_ b)
     r (disk_ b) (trace_ b).

Definition log (e : event) (b : t) : t :=
  mk (pool_size_ b) (pages_ b) (page_table_ b) (free_list_ b) (next_page_id_ b)
     (replacer_ b) (disk_ b) (trace_ b ++ [e]).

(** [disk_scheduler_->Schedule(DiskRequest{true, data, page_id, promise})]
    followed by [future.get()]: the worker writes the page to disk
    (disk_scheduler.cpp, [StartWorkerThread]) and fulfils the promise. *)
Definition schedule_write_and_wait (page_id : Z) (data : page_data) (b : t) : t :=
  let b1 := log (EvSchedule true page_id data) b in
  let b2 := mk (pool_size_ b1) (pages_ b1) (page_table_ b1) (free_list_ b1)
               (next_page_id_ b1) (replacer_ b1) (<[page_id := data]> (disk_ b1))
               (trace_ b1) in
  log (EvFutureGet true page_id) b2.

(** The content the disk manager delivers for a page. *)
Definition disk_read (b : t) (page_id : Z) : page_data :=
  default zero_page (disk_ b !! page_id).

(** [std::unordered_map::insert]: an existing key keeps its value. *)
Definition map_insert_if_absent (k v : Z) (m : gmap Z Z) : gmap Z Z :=
  match m !! k with
  | Some _ => m
  | None => <[k := v]> m
  end.

(** The part [NewPage] and [FetchPage] share textually: take a frame from the
    free list, or evict a victim, write it back when it is dirty, and drop it
    from the page table.  [None] stands for the [return nullptr]. *)
Definition acquire_frame_from_free_list (b : t) : outcome (option Z * t) :=
  match free_list_ b with
  | f :: rest => Done (Some f, set_free_list rest b)
  | [] => Done (None, b)
  end.

Definition evict_and_write_back (b : t) : outcome (option Z * t) :=
  p ←! LRUKReplacer.Evict (replacer_ b);
  match p.1 with
  | None => Done (None, set_replacer p.2 b)
  | Some frame =>
      let b1 := set_replacer p.2 b in
      previous_page ←! frame_at b1 frame;
      let b2 := if is_dirty_ previous_page
                then schedule_write_and_wait (page_id_ previous_page)
                                             (data_ previous_page) b1
                else b1 in
      Done (Some frame, set_page_table (delete (page_id_ previous_page) (page_table_ b2)) b2)
  end.

(** The common tail: [SetEvictable(frame, false); RecordAccess(frame);
    pin_count_++]. *)
Definition pin_and_record (frame : Z) (b : t) : outcome t :=
  r1 ←! LRUKReplacer.SetEvictable frame false (replacer_ b);
  r2 ←! LRUKReplacer.RecordAccess frame r1;
  let b1 := set_replacer r2 b in
  p ←! frame_at b1 frame;
  Done (set_frame frame (mkPage (data_ p) (page_id_ p) (pin_count_ p + 1) (is_dirty_ p)) b1).

(** [BufferPoolManager::NewPage]: the result is the frame of the returned
    [Page *] together with the value stored through [page_id].
    [AllocatePage] is [return next_page_id_++] on the atomic 32-bit signed
    [page_id_t]: after [2^31 - 1] the counter wraps to [-2^31]. *)
Definition NewPage (b : t) : outcome (option (Z * Z) * t) :=
  a ←! (match free_list_ b with
        | [] => evict_and_write_back b
        | _ => acquire_frame_from_free_list b
        end);
  match a.1 with
  | None => Done (None, a.2)
  | Some frame =>
      let b1 := a.2 in
      let new_page_id := next_page_id_ b1 in
      let b2 := mk (pool_size_ b1) (pages_ b1) (page_table_ b1) (free_list_ b1)
                   (to_int32 (new_page_id + 1)) (replacer_ b1) (disk_ b1) (trace_ b1) in
      _ ←! frame_at b2 frame;
      let b3 := set_frame frame (mkPage zero_page new_page_id 0 false) b2 in
      let b4 := set_page_table (map_insert_if_absent new_page_id frame (page_table_ b3)) b3 in
      b5 ←! pin_and_record frame b4;
      Done (Some (frame, new_page_id), b5)
  end.

(** [BufferPoolManager::FetchPage]: the result is the frame of the returned
    [Page *]. *)
Definition FetchPage (page_id : Z) (b : t) : outcome (option Z * t) :=
  match page_table_ b !! page_id with
  | Some frame => Done (Some frame, b)
  | None =>
      a ←! (match free_list_ b with
            | [] => evict_and_write_back b
            | _ => acquire_frame_from_free_list b
            end);
      match a.1 with
      | None => Done (None, a.2)
      | Some frame =>
          let b1 := a.2 in
          _ ←! frame_at b1 frame;
          let b2 := set_frame frame (mkPage zero_page page_id 0 false) b1 in
          let b3 := log (EvSchedule false page_id (disk_read b2 page_id)) b2 in
          let b4 := set_frame frame (mkPage (disk_read b3 page_id) page_id 0 false) b3 in
          let b5 := set_page_table (map_insert_if_absent page_id frame (page_table_ b4)) b4 in
          b6 ←! pin_and_record frame b5;
          Done (Some frame, log (EvFutureGet false page_id) b6)
      end
  end.

(** [BufferPoolManager::UnpinPage] *)
Definition UnpinPage (page_id : Z) (is_dirty : bool) (b0 : t) : outcome (bool * t) :=
  let b := log (EvUnpinPage page_id is_dirty) b0 in
  match page_table_ b !! page_id with
  | None => Done (false, b)
  | Some frame_id =>
      page ←! frame_at b frame_id;
      if pin_count_ page <=? 0 then Done (false, b) else
      let pc := pin_count_ page - 1 in
      r ←! (if pc <=? 0
            then LRUKReplacer.SetEvictable frame_id true (replacer_ b)
            else Done (replacer_ b));
      let b1 := set_replacer r b in
      Done (true, set_frame frame_id
                    (mkPage (data_ page) (page_id_ page) pc
                            (if is_dirty then is_dirty else is_dirty_ page)) b1)
  end.

(** The trace a call appends: everything after the caller's own trace. *)
Definition appended (b b' : t) : list event := drop (length (trace_ b)) (trace_ b').

Definition is_write_request (e : event) : bool :=
  match e with
  | EvSchedule true _ _ => true
  | _ => false
  end.

(** The two calls that may have to find a frame for a page. *)
Inductive acquiring_call : Type :=
| CallNewPage
| CallFetchPage (page_id : Z).

Definition run_acquiring_call (c : acquiring_call) (b : t) : outcome t :=
  match c with
  | CallNewPage => p ←! NewPage b; Done p.2
  | CallFetchPage page_id => p ←! FetchPage page_id b; Done p.2
  end.

(** [FetchPage] looks for a frame only when the page is not resident. *)
Definition needs_frame (c : acquiring_call) (b : t) : Prop :=
  match c with
  | CallNewPage => True
  | CallFetchPage page_id => page_table_ b !! page_id = None
  end.

(** The write-back of a victim: the request and the wait on its future. *)
Definition write_back_events (victim : Page) : list event :=
  if is_dirty_ victim
  then [EvSchedule true (page_id_ victim) (data_ victim);
        EvFutureGet true (page_id_ victim)]
  else [].

(** A pool of one frame whose only page was unpinned with the given dirty
    flag: the next [NewPage] or [FetchPage] has to evict it. *)
Definition one_frame_pool (dirty : bool) : outcome t :=
  p ←! NewPage (new 1 2 ∅);
  q ←! UnpinPage 0 dirty p.2;
  Done q.2.

Lemma pin_and_record_trace frame b b' :
  pin_and_record frame b = Done b' → trace_ b' = trace_ b.
Proof.
  unfold pin_and_record. intros H.
  destruct (LRUKReplacer.SetEvictable frame false (replacer_ b)) as [r1| | |]; try discriminate.
  simpl in H.
  destruct (LRUKReplacer.RecordAccess frame r1) as [r2| | |]; try discriminate.
  simpl in H.
  destruct (frame_at (set_replacer r2 b) frame) as [p| | |]; try discriminate.
  simpl in H. injection H as <-. reflexivity.
Qed.

Lemma appended_app b b' evs :
  trace_ b' = trace_ b ++ evs → appended b b' = evs.
Proof. intros H. unfold appended. rewrite H. apply drop_app_length. Qed.

Lemma evict_and_write_back_trace b victim r' prev :
  LRUKReplacer.Evict (replacer_ b) = Done (Some victim, r') →
  frame_at b victim = Done prev →
  ∃ b1, evict_and_write_back b = Done (Some victim, b1) ∧
        trace_ b1 = trace_ b ++ write_back_events prev.
Proof.
  intros He Hf. unfold evict_and_write_back. rewrite He. simpl.
  assert (Hf' : frame_at (set_replacer r' b) victim = Done prev) by exact Hf.
  rewrite Hf'. simpl. eexists. split; [reflexivity|].
  unfold write_back_events. destruct (is_dirty_ prev); simpl.
  - rewrite <- app_assoc. reflexivity.
  - rewrite app_nil_r. reflexivity.
Qed.

(** C8: when [NewPage] or [FetchPage] has an empty free list and evicts a
    victim, the requests it hands to the disk scheduler start with the
    victim's write-back (the write request, then the wait on its future)
    exactly when the victim's dirty flag is set, and contain no other write
    request: a clean victim causes no write at all. *)
Theorem C8_write_back_only_for_dirty_victim
    (c : acquiring_call) (b b' : t) (victim : Z) (r' : LRUKReplacer.t) (prev : Page) :
  free_list_ b = [] →
  needs_frame c b →
  LRUKReplacer.Evict (replacer_ b) = Done (Some victim, r') →
  frame_at b victim = Done prev →
  run_acquiring_call c b = Done b' →
  ∃ rest, appended b b' = write_back_events prev ++ rest ∧
          filter (λ e, is_write_request e = true) rest = [] ∧
          (is_dirty_ prev = false →
           filter (λ e, is_write_request e = true) (appended b b') = []).
Proof.
  intros Hfree Hneed He Hf Hrun.
  destruct (evict_and_write_back_trace b victim r' prev He Hf) as (b1 & Hacq & Htr).
  destruct c as [|page_id]; simpl in Hrun, Hneed.
  - unfold NewPage in Hrun. rewrite Hfree, Hacq in Hrun. simpl in Hrun.
    match type of Hrun with context [frame_at ?x victim] =>
      destruct (frame_at x victim) as [p0| | |]; try discriminate end.
    simpl in Hrun.
    match type of Hrun with context [pin_and_record victim ?x] =>
      destruct (pin_and_record victim x) as [b5| | |] eqn:Hpin; try discriminate end.
    simpl in Hrun. injection Hrun as <-.
    apply pin_and_record_trace in Hpin. simpl in Hpin.
    exists []. rewrite app_nil_r.
    assert (Happ : appended b b5 = write_back_events prev).
    { apply appended_app. rewrite Hpin. exact Htr. }
    rewrite Happ. split; [reflexivity|]. split; [reflexivity|].
    intros Hd. unfold write_back_events. rewrite Hd. reflexivity.
  - unfold FetchPage in Hrun. rewrite Hneed, Hfree, Hacq in Hrun. simpl in Hrun.
    destruct (frame_at b1 victim) as [p0| | |]; try discriminate.
    simpl in Hrun.
    match type of Hrun with context [pin_and_record victim ?x] =>
      destruct (pin_and_record victim x) as [b6| | |] eqn:Hpin; try discriminate end.
    simpl in Hrun. injection Hrun as <-.
    apply pin_and_record_trace in Hpin. simpl in Hpin.
    eexists [EvSchedule false page_id _; EvFutureGet false page_id].
    assert (Happ : appended b (log (EvFutureGet false page_id) b6) =
                   write_back_events prev ++
                   [EvSchedule false page_id
                      (disk_read (set_frame victim (mkPage zero_page page_id 0 false) b1) page_id);
                    EvFutureGet false page_id]).
    { apply appended_app. simpl. rewrite Hpin, Htr.
      rewrite <- !app_assoc. reflexivity. }
    rewrite Happ. split; [reflexivity|]. split; [reflexivity|].
    intros Hd. unfold write_back_events. rewrite Hd. reflexivity.
Qed.

Definition pool_of (o : outcome t) : t := returned (new 0 0 ∅) o.

Definition clean_pool : t := pool_of (one_frame_pool false).
Definition dirty_pool : t := pool_of (one_frame_pool true).

Lemma one_frame_pool_runs dirty :
  omap (λ b, (free_list_ b, page_table_ b !! 0, is_dirty_ <$> pages_ b !! 0%nat))
       (one_frame_pool dirty)
  = Done ([], Some 0, Some dirty).
Proof. destruct dirty; vm_compute; reflexivity. Qed.

Lemma C8_write_back_only_for_dirty_victim_witness :
  ∃ rest,
    appended clean_pool (pool_of (run_acquiring_call CallNewPage clean_pool)) =
      write_back_events (mkPage zero_page 0 0 false) ++ rest ∧
    filter (λ e, is_write_request e = true) rest = [] ∧
    (is_dirty_ (mkPage zero_page 0 0 false) = false →
     filter (λ e, is_write_request e = true)
       (appended clean_pool (pool_of (run_acquiring_call CallNewPage clean_pool))) = []).
Proof.
  eapply (C8_write_back_only_for_dirty_victim CallNewPage clean_pool _ 0).
  - vm_compute. reflexivity.
  - exact I.
  - vm_compute. reflexivity.
  - vm_compute. reflexivity.
  - vm_compute. reflexivity.
Defined.

(** The same eviction with a dirty victim, seen from [FetchPage]: the write
    of page 0 and the wait for it come first, then the read of page 7. *)
Lemma fetch_with_dirty_victim_trace :
  appended dirty_pool (pool_of (run_acquiring_call (CallFetchPage 7) dirty_pool)) =
    [EvSchedule true 0 zero_page; EvFutureGet true 0;
     EvSchedule false 7 zero_page; EvFutureGet false 7].
Proof. vm_compute. reflexivity. Qed.

(** *** The other calls of the buffer pool *)

(** [BufferPoolManager::FlushPage] *)
Definition FlushPage (page_id : Z) (b : t) : outcome (bool * t) :=
  BUSTUB_ASSERT (negb (page_id =? INVALID_PAGE_ID)) "page_id is invalid"
  (match page_table_ b !! page_id with
   | None => Done (false, b)
   | Some frame =>
       page ←! frame_at b frame;
       let b1 := schedule_write_and_wait (page_id_ page) (data_ page) b in
       Done (true, set_frame frame
                     (mkPage (data_ page) (page_id_ page) (pin_count_ page) false) b1)
   end).

(** The body of the loop of [FlushAllPages] for one entry of the page
    table. *)
Definition flush_entry (entry : Z * Z) (b : t) : outcome t :=
  BUSTUB_ASSERT (negb (entry.1 =? INVALID_PAGE_ID)) "page_id is invalid"
  (page ←! frame_at b entry.2;
   let b1 := schedule_write_and_wait (page_id_ page) (data_ page) b in
   Done (set_frame entry.2 (mkPage (data_ page) (page_id_ page) (pin_count_ page) false) b1)).

Fixpoint flush_entries (entries : list (Z * Z)) (b : t) : outcome t :=
  match entries with
  | [] => Done b
  | entry :: rest => b1 ←! flush_entry entry b; flush_entries rest b1
  end.

(** [BufferPoolManager::FlushAllPages].  The loop runs over the page table
    in the order of the [std::unordered_map], which is not specified:
    [order] is that order. *)
Definition FlushAllPages (order : list (Z * Z)) (b : t) : outcome t :=
  flush_entries order b.

(** [BufferPoolManager::DeletePage]; [DeallocatePage] does nothing. *)
Definition DeletePage (page_id : Z) (b : t) : outcome (bool * t) :=
  BUSTUB_ASSERT (negb (page_id =? INVALID_PAGE_ID)) "page_id is invalid"
  (match page_table_ b !! page_id with
   | None => Done (true, b)
   | Some target_frame_id =>
       page ←! frame_at b target_frame_id;
       if 0 <? pin_count_ page then Done (false, b) else
       let b1 := set_page_table (delete page_id (page_table_ b)) b in
       let b2 := set_free_list (free_list_ b1 ++ [target_frame_id]) b1 in
       Done (true, set_frame target_frame_id (mkPage zero_page INVALID_PAGE_ID 0 false) b2)
   end).

(** A client that holds a pin on a resident page writes the page through
    the [Page *] it was given and unpins it as dirty. *)
Definition write_and_unpin (page_id : Z) (data : page_data) (b : t) : outcome (bool * t) :=
  match page_table_ b !! page_id with
  | None => Undefined
  | Some frame =>
      page ←! frame_at b frame;
      UnpinPage page_id true
        (set_frame frame (mkPage data (page_id_ page) (pin_count_ page) (is_dirty_ page)) b)
  end.

(** The page in a frame. *)
Definition page_of (b : t) (frame : Z) : Page :=
  default (mkPage zero_page INVALID_PAGE_ID 0 false) (pages_ b !! Z.to_nat frame).

(** What a page holds as far as the clients of the pool can tell: the data
    of its frame when it is resident, what the disk has otherwise. *)
Definition content (b : t) (page_id : Z) : page_data :=
  match page_table_ b !! page_id with
  | Some frame => data_ (page_of b frame)
  | None => disk_read b page_id
  end.

Inductive call : Type :=
| CNewPage
| CFetchPage (page_id : Z)
| CUnpinPage (page_id : Z) (is_dirty : bool)
| CWriteAndUnpin (page_id : Z) (data : page_data)
| CFlushPage (page_id : Z)
| CFlushAllPages (order : list (Z * Z))
| CDeletePage (page_id : Z).

Definition do_call (c : call) (b : t) : outcome t :=
  match c with
  | CNewPage => p ←! NewPage b; Done p.2
  | CFetchPage page_id => p ←! FetchPage page_id b; Done p.2
  | CUnpinPage page_id is_dirty => p ←! UnpinPage page_id is_dirty b; Done p.2
  | CWriteAndUnpin page_id data => p ←! write_and_unpin page_id data b; Done p.2
  | CFlushPage page_id => p ←! FlushPage page_id b; Done p.2
  | CFlushAllPages order => FlushAllPages order b
  | CDeletePage page_id => p ←! DeletePage page_id b; Done p.2
  end.

(** The calls of a client that names only pages [NewPage] has handed out,
    writes only pages it holds a pin on, and stops creating pages before the
    32-bit page id counter wraps. *)
Definition allocated (b : t) (page_id : Z) : Prop := 0 ≤ page_id < next_page_id_ b.

Definition admissible (b : t) (c : call) : Prop :=
  match c with
  | CNewPage => next_page_id_ b < 2 ^ 31 - 1
  | CFetchPage page_id | CUnpinPage page_id _ | CFlushPage page_id | CDeletePage page_id =>
      allocated b page_id
  | CWriteAndUnpin page_id _ =>
      ∃ frame, page_table_ b !! page_id = Some frame ∧ 0 < pin_count_ (page_of b frame)
  | CFlushAllPages order => order ≡ₚ map_to_list (page_table_ b)
  end.

(** The pools reached by [steps] admissible calls from a new pool with
    [k = 2] on an empty disk. *)
Inductive reachable : nat → t → Prop :=
| reachable_new pool_size :
    0 ≤ pool_size < 2 ^ 31 → reachable 0 (new pool_size 2 ∅)
| reachable_call steps b c b' :
    reachable steps b → admissible b c → do_call c b = Done b' → reachable (S steps) b'.

(** What holds between two calls.  While a frame is being given to a new
    page it is the [hole]: it is in neither the page table nor the free
    list. *)
Record pool_inv (steps : nat) (hole : option Z) (b : t) : Prop := {
  inv_size : 0 ≤ pool_size_ b < 2 ^ 31;
  inv_pages : Z.of_nat (length (pages_ b)) = pool_size_ b;
  inv_replacer : LRUKReplacer.well_formed (replacer_ b);
  inv_replacer_size : LRUKReplacer.replacer_size_ (replacer_ b) = pool_size_ b;
  inv_steps : (LRUKReplacer.next_node_ (replacer_ b) ≤ steps)%nat;
  inv_next : 0 ≤ next_page_id_ b < 2 ^ 31;
  inv_table : ∀ p f, page_table_ b !! p = Some f →
      0 ≤ f < pool_size_ b ∧ Some f ≠ hole ∧ page_id_ (page_of b f) = p ∧ allocated b p;
  inv_frames : ∀ f, 0 ≤ f < pool_size_ b → Some f ≠ hole →
      page_id_ (page_of b f) ≠ INVALID_PAGE_ID →
      page_table_ b !! page_id_ (page_of b f) = Some f;
  inv_free : ∀ f, f ∈ free_list_ b →
      0 ≤ f < pool_size_ b ∧ Some f ≠ hole ∧ page_id_ (page_of b f) = INVALID_PAGE_ID;
  inv_free_nodup : NoDup (free_list_ b);
  inv_clean : ∀ p f, page_table_ b !! p = Some f → is_dirty_ (page_of b f) = false →
      data_ (page_of b f) = disk_read b p;
  inv_disk : ∀ p, next_page_id_ b ≤ p → disk_ b !! p = None;
  inv_pins : ∀ f, Some f ≠ hole → LRUKReplacer.evictable_of (replacer_ b) f = true →
      pin_count_ (page_of b f) ≤ 0;
  inv_hole : ∀ v, hole = Some v → 0 ≤ v < pool_size_ b
}.

Lemma frame_at_page_of (b : t) (f : Z) :
  0 ≤ f < Z.of_nat (length (pages_ b)) → frame_at b f = Done (page_of b f).
Proof.
  intros Hf. unfold frame_at, page_of.
  destruct (Z.ltb_spec f 0) as [Hneg|_]; [lia|].
  destruct (pages_ b !! Z.to_nat f) as [p|] eqn:E; [reflexivity|].
  apply lookup_ge_None in E. lia.
Qed.

Lemma page_of_set_frame (b : t) (f g : Z) (p : Page) :
  0 ≤ f < Z.of_nat (length (pages_ b)) → 0 ≤ g →
  page_of (set_frame f p b) g = if decide (g = f) then p else page_of b g.
Proof.
  intros Hf Hg. unfold page_of, set_frame. cbn [pages_].
  destruct (decide (g = f)) as [->|Hne].
  - rewrite list_lookup_insert_eq by lia. reflexivity.
  - rewrite list_lookup_insert_ne by lia. reflexivity.
Qed.

Lemma new_pool_inv (pool_size : Z) :
  0 ≤ pool_size < 2 ^ 31 → pool_inv 0 None (new pool_size 2 ∅).
Proof.
  intros Hn.
  assert (Hpage : ∀ f, page_of (new pool_size 2 ∅) f = mkPage zero_page INVALID_PAGE_ID 0 false).
  { intros f. unfold page_of, new. cbn [pages_].
    destruct (replicate (Z.to_nat pool_size) _ !! Z.to_nat f) as [p|] eqn:E; [|reflexivity].
    apply lookup_replicate in E as [-> _]. reflexivity. }
  constructor.
  - exact Hn.
  - cbn. rewrite length_replicate. lia.
  - apply LRUKReplacer.new_well_formed. exact Hn.
  - reflexivity.
  - cbn. lia.
  - cbn. lia.
  - intros p f H. cbn in H. rewrite lookup_empty in H. discriminate.
  - intros f _ _ H. rewrite Hpage in H. contradiction.
  - intros f Hf. cbn in Hf. apply elem_of_seqZ in Hf.
    split; [cbn; lia|]. split; [discriminate|]. rewrite Hpage. reflexivity.
  - cbn. apply NoDup_seqZ.
  - intros p f H. cbn in H. rewrite lookup_empty in H. discriminate.
  - intros p _. cbn. apply lookup_empty.
  - intros f _ H. cbn in H. unfold LRUKReplacer.evictable_of in H. cbn in H.
    rewrite lookup_empty in H. discriminate.
  - intros v H. discriminate.
Qed.

Lemma INVALID_PAGE_ID_not_allocated (b : t) : ¬ allocated b INVALID_PAGE_ID.
Proof. unfold allocated, INVALID_PAGE_ID. lia. Qed.

Lemma table_frame_unique (steps : nat) (hole : option Z) (b : t) (p q f : Z) :
  pool_inv steps hole b → page_table_ b !! p = Some f → page_table_ b !! q = Some f → p = q.
Proof.
  intros Hinv Hp Hq.
  destruct (inv_table _ _ _ Hinv p f Hp) as (_ & _ & <- & _).
  destruct (inv_table _ _ _ Hinv q f Hq) as (_ & _ & <- & _). reflexivity.
Qed.

Lemma resident_page_id (steps : nat) (hole : option Z) (b : t) (f : Z) :
  pool_inv steps hole b → 0 ≤ f < pool_size_ b → Some f ≠ hole →
  ∀ p, page_table_ b !! p = Some f ↔ (page_id_ (page_of b f) = p ∧ p ≠ INVALID_PAGE_ID).
Proof.
  intros Hinv Hf Hhole p. split.
  - intros Hp. destruct (inv_table _ _ _ Hinv p f Hp) as (_ & _ & Hid & Halloc).
    split; [exact Hid|]. intros ->. exact (INVALID_PAGE_ID_not_allocated b Halloc).
  - intros [<- Hvalid]. apply (inv_frames _ _ _ Hinv f Hf Hhole Hvalid).
Qed.

Lemma pool_inv_mono (steps steps' : nat) (hole : option Z) (b : t) :
  (steps ≤ steps')%nat → pool_inv steps hole b → pool_inv steps' hole b.
Proof.
  intros Hle Hinv. destruct Hinv. constructor; try assumption. lia.
Qed.

(** The frame [NewPage] and [FetchPage] look for. *)
Definition find_frame (b : t) : outcome (option Z * t) :=
  match free_list_ b with
  | [] => evict_and_write_back b
  | _ => acquire_frame_from_free_list b
  end.

(** The pool after a victim was evicted. *)
Definition evicted (b : t) (r1 : LRUKReplacer.t) (prev : Page) : t :=
  let b1 := set_replacer r1 b in
  let b2 := if is_dirty_ prev
            then schedule_write_and_wait (page_id_ prev) (data_ prev) b1
            else b1 in
  set_page_table (delete (page_id_ prev) (page_table_ b2)) b2.

Lemma evicted_fields (b : t) (r1 : LRUKReplacer.t) (prev : Page) :
  pool_size_ (evicted b r1 prev) = pool_size_ b ∧
  pages_ (evicted b r1 prev) = pages_ b ∧
  page_table_ (evicted b r1 prev) = delete (page_id_ prev) (page_table_ b) ∧
  free_list_ (evicted b r1 prev) = free_list_ b ∧
  next_page_id_ (evicted b r1 prev) = next_page_id_ b ∧
  replacer_ (evicted b r1 prev) = r1 ∧
  disk_ (evicted b r1 prev) =
    (if is_dirty_ prev then <[page_id_ prev := data_ prev]> (disk_ b) else disk_ b).
Proof. unfold evicted. destruct (is_dirty_ prev); repeat split. Qed.

Lemma evicted_inv (steps : nat) (b : t) (v : Z) (r1 : LRUKReplacer.t) :
  pool_inv steps None b → free_list_ b = [] →
  LRUKReplacer.well_formed r1 →
  LRUKReplacer.evictable_of (replacer_ b) v = true →
  LRUKReplacer.next_node_ r1 = LRUKReplacer.next_node_ (replacer_ b) →
  LRUKReplacer.replacer_size_ r1 = LRUKReplacer.replacer_size_ (replacer_ b) →
  (∀ g, LRUKReplacer.evictable_of r1 g =
        if decide (g = v) then false else LRUKReplacer.evictable_of (replacer_ b) g) →
  let b1 := evicted b r1 (page_of b v) in
  0 ≤ v < pool_size_ b ∧
  pool_inv steps (Some v) b1 ∧
  (∀ p, allocated b p → content b1 p = content b p) ∧
  (∀ p, page_table_ b1 !! p = Some v → False) ∧
  (∀ p f, page_table_ b !! p = Some f → f ≠ v → page_table_ b1 !! p = Some f) ∧
  pin_count_ (page_of b v) ≤ 0.
Proof.
  intros Hinv Hfree Hwf1 Hev Hnext Hsize Hev1 b1.
  pose proof (inv_replacer _ _ _ Hinv) as Hwf.
  assert (Hv : 0 ≤ v < pool_size_ b).
  { rewrite <- (inv_replacer_size _ _ _ Hinv).
    apply (LRUKReplacer.wf_frames _ Hwf). apply (LRUKReplacer.wf_evictable _ Hwf). exact Hev. }
  set (prev := page_of b v) in *.
  destruct (evicted_fields b r1 prev) as (Hps & Hpg & Htb & Hfl & Hnx & Hrp & Hdk).
  fold b1 in Hps, Hpg, Htb, Hfl, Hnx, Hrp, Hdk.
  assert (Hpage : ∀ f, page_of b1 f = page_of b f).
  { intros f. unfold page_of. rewrite Hpg. reflexivity. }
  assert (Hprev : ∀ p, page_table_ b !! p = Some v ↔ (page_id_ prev = p ∧ p ≠ INVALID_PAGE_ID)).
  { apply (resident_page_id steps None b v Hinv Hv). discriminate. }
  assert (Hprev_id : page_id_ prev = INVALID_PAGE_ID ∨ allocated b (page_id_ prev)).
  { destruct (Z.eq_dec (page_id_ prev) INVALID_PAGE_ID) as [E|E]; [left; exact E|right].
    assert (Ht : page_table_ b !! page_id_ prev = Some v) by (apply Hprev; auto).
    apply (inv_table _ _ _ Hinv _ _ Ht). }
  assert (Hdisk : ∀ p, p ≠ page_id_ prev → disk_read b1 p = disk_read b p).
  { intros p Hp. unfold disk_read. rewrite Hdk. destruct (is_dirty_ prev); [|reflexivity].
    rewrite lookup_insert_ne by congruence. reflexivity. }
  split; [exact Hv|]. split; [|split; [|split; [|split]]].
  - constructor.
    + rewrite Hps. apply (inv_size _ _ _ Hinv).
    + rewrite Hps, Hpg. apply (inv_pages _ _ _ Hinv).
    + rewrite Hrp. exact Hwf1.
    + rewrite Hrp, Hps, Hsize. apply (inv_replacer_size _ _ _ Hinv).
    + rewrite Hrp, Hnext. apply (inv_steps _ _ _ Hinv).
    + rewrite Hnx. apply (inv_next _ _ _ Hinv).
    + intros p f Hp. rewrite Htb in Hp. apply lookup_delete_Some in Hp as [Hne Hp].
      destruct (inv_table _ _ _ Hinv p f Hp) as (Hf & _ & Hid & Halloc).
      rewrite Hps, Hpage. split; [exact Hf|]. split; [|split; [exact Hid|]].
      * intros E. injection E as ->. apply Hprev in Hp as [Hp _]. congruence.
      * unfold allocated. rewrite Hnx. exact Halloc.
    + intros f Hf Hhole Hvalid. rewrite Hps in Hf. rewrite Hpage in *.
      rewrite Htb. apply lookup_delete_Some.
      assert (Ht : page_table_ b !! page_id_ (page_of b f) = Some f)
        by (apply (inv_frames _ _ _ Hinv f Hf); [discriminate|exact Hvalid]).
      split; [|exact Ht]. intros E. rewrite <- E in Ht.
      assert (Ht' : page_table_ b !! page_id_ prev = Some v).
      { apply Hprev. split; [reflexivity|]. rewrite E. exact Hvalid. }
      rewrite Ht in Ht'. injection Ht' as ->. apply Hhole. reflexivity.
    + intros f Hf. rewrite Hfl, Hfree in Hf. inversion Hf.
    + rewrite Hfl, Hfree. constructor.
    + intros p f Hp Hclean. rewrite Htb in Hp. apply lookup_delete_Some in Hp as [Hne Hp].
      rewrite Hpage in *. rewrite Hdisk by congruence.
      apply (inv_clean _ _ _ Hinv p f Hp Hclean).
    + intros p Hp. rewrite Hnx in Hp. rewrite Hdk.
      destruct (is_dirty_ prev); [|apply (inv_disk _ _ _ Hinv p Hp)].
      rewrite lookup_insert_ne; [apply (inv_disk _ _ _ Hinv p Hp)|].
      destruct Hprev_id as [E|[_ E]]; [rewrite E; unfold INVALID_PAGE_ID|];
        pose proof (inv_next _ _ _ Hinv); lia.
    + intros f Hhole Hf. rewrite Hrp, Hev1 in Hf. rewrite Hpage.
      destruct (decide (f = v)) as [->|Hne]; [discriminate|].
      apply (inv_pins _ _ _ Hinv f); [discriminate|exact Hf].
    + intros w E. injection E as <-. rewrite Hps. exact Hv.
  - intros p Halloc. unfold content. rewrite Htb.
    destruct (Z.eq_dec p (page_id_ prev)) as [->|Hne].
    + rewrite lookup_delete_eq.
      assert (Ht : page_table_ b !! page_id_ prev = Some v).
      { apply Hprev. split; [reflexivity|]. intros E. rewrite E in Halloc.
        exact (INVALID_PAGE_ID_not_allocated b Halloc). }
      rewrite Ht. fold prev. unfold disk_read. rewrite Hdk.
      destruct (is_dirty_ prev) eqn:Hd.
      * rewrite lookup_insert_eq. reflexivity.
      * symmetry. apply (inv_clean _ _ _ Hinv _ _ Ht Hd).
    + rewrite lookup_delete_ne by congruence.
      destruct (page_table_ b !! p) as [f|]; [rewrite Hpage; reflexivity|].
      apply Hdisk. exact Hne.
  - intros p Hp. rewrite Htb in Hp. apply lookup_delete_Some in Hp as [Hne Hp].
    apply Hprev in Hp as [Hp _]. congruence.
  - intros p f Hp Hne. rewrite Htb. apply lookup_delete_Some. split; [|exact Hp].
    intros E. subst p. apply Hne.
    destruct (inv_table _ _ _ Hinv _ _ Hp) as (Hf & _ & Hid & Halloc).
    assert (Ht : page_table_ b !! page_id_ prev = Some v).
    { apply Hprev. split; [reflexivity|]. intros E. rewrite E in Halloc.
      exact (INVALID_PAGE_ID_not_allocated b Halloc). }
    congruence.
  - apply (inv_pins _ _ _ Hinv v); [discriminate|exact Hev].
Qed.

Lemma find_frame_spec (steps : nat) (b : t) :
  pool_inv steps None b →
  ∃ res b1, find_frame b = Done (res, b1) ∧
    match res with
    | None =>
        free_list_ b = [] ∧
        (∀ f, LRUKReplacer.evictable_of (replacer_ b) f = false) ∧
        b1 = set_replacer (replacer_ b) b
    | Some v =>
        pool_inv steps (Some v) b1 ∧
        pool_size_ b1 = pool_size_ b ∧
        next_page_id_ b1 = next_page_id_ b ∧
        (∀ p, allocated b p → content b1 p = content b p) ∧
        (∀ p, page_table_ b !! p = None → page_table_ b1 !! p = None) ∧
        (∀ p f, page_table_ b !! p = Some f → f ≠ v → page_table_ b1 !! p = Some f) ∧
        (∀ f, page_of b1 f = page_of b f) ∧
        (∀ p f, page_table_ b !! p = Some f → 0 < pin_count_ (page_of b f) → f ≠ v)
    end.
Proof.
  intros Hinv. unfold find_frame. destruct (free_list_ b) as [|v rest] eqn:Hfree.
  - (* eviction *)
    pose proof (inv_replacer _ _ _ Hinv) as Hwf.
    pose proof (LRUKReplacer.Evict_well_formed (replacer_ b) Hwf) as He.
    unfold evict_and_write_back.
    destruct (LRUKReplacer.victim (replacer_ b)) as [v|].
    + destruct He as (r1 & -> & Hwf1 & Hev & Hnext & Hsize & _ & Hev1 & _).
      cbn [obind fst snd].
      destruct (evicted_inv steps b v r1 Hinv Hfree Hwf1 Hev Hnext Hsize Hev1)
        as (Hv & Hinv1 & Hcontent & Hnot & Hkeep & Hpin).
      assert (Hframe : frame_at (set_replacer r1 b) v = Done (page_of b v)).
      { apply (frame_at_page_of (set_replacer r1 b) v). cbn [set_replacer pages_].
        rewrite (inv_pages _ _ _ Hinv). exact Hv. }
      rewrite Hframe. cbn [obind].
      exists (Some v), (evicted b r1 (page_of b v)). split; [reflexivity|].
      destruct (evicted_fields b r1 (page_of b v)) as (Hps & Hpg & Htb & Hfl & Hnx & Hrp & Hdk).
      split; [exact Hinv1|]. split; [exact Hps|]. split; [exact Hnx|].
      split; [exact Hcontent|]. split; [|split; [exact Hkeep|split]].
      * intros p Hp. rewrite Htb. apply lookup_delete_None. right. exact Hp.
      * intros f. unfold page_of at 1. rewrite Hpg. reflexivity.
      * intros p f Hp Hpinned ->. lia.
    + destruct He as [-> Hempty]. cbn [obind fst snd].
      exists None, (set_replacer (replacer_ b) b). split; [reflexivity|].
      split; [reflexivity|]. split; [|reflexivity].
      intros f. destruct (LRUKReplacer.evictable_of (replacer_ b) f) eqn:E; [|reflexivity].
      apply LRUKReplacer.elem_of_evictable_frames in E. rewrite Hempty in E. inversion E.
  - (* a free frame *)
    unfold acquire_frame_from_free_list. rewrite Hfree.
    exists (Some v), (set_free_list rest b). split; [reflexivity|].
    assert (Hvfree : v ∈ free_list_ b) by (rewrite Hfree; left).
    destruct (inv_free _ _ _ Hinv v Hvfree) as (Hv & _ & Hvid).
    pose proof (inv_free_nodup _ _ _ Hinv) as Hnd. rewrite Hfree in Hnd.
    apply list.NoDup_cons in Hnd as [Hvrest Hnd].
    assert (Hnot : ∀ p, page_table_ b !! p = Some v → False).
    { intros p Hp. destruct (inv_table _ _ _ Hinv p v Hp) as (_ & _ & Hid & Halloc).
      rewrite Hvid in Hid. subst p. exact (INVALID_PAGE_ID_not_allocated b Halloc). }
    split; [|repeat split; try reflexivity; try (intros; assumption)].
    + constructor; cbn [set_free_list pool_size_ pages_ page_table_ free_list_ next_page_id_
                        replacer_ disk_].
      * apply (inv_size _ _ _ Hinv).
      * apply (inv_pages _ _ _ Hinv).
      * apply (inv_replacer _ _ _ Hinv).
      * apply (inv_replacer_size _ _ _ Hinv).
      * apply (inv_steps _ _ _ Hinv).
      * apply (inv_next _ _ _ Hinv).
      * intros p f Hp. destruct (inv_table _ _ _ Hinv p f Hp) as (Hf & _ & Hid & Halloc).
        split; [exact Hf|]. split; [|split; [exact Hid|exact Halloc]].
        intros E. injection E as ->. exact (Hnot p Hp).
      * intros f Hf _ Hvalid. apply (inv_frames _ _ _ Hinv f Hf); [discriminate|exact Hvalid].
      * intros f Hf.
        destruct (inv_free _ _ _ Hinv f) as (Hr & _ & Hid); [rewrite Hfree; right; exact Hf|].
        split; [exact Hr|]. split; [|exact Hid]. intros E. injection E as ->. contradiction.
      * exact Hnd.
      * apply (inv_clean _ _ _ Hinv).
      * apply (inv_disk _ _ _ Hinv).
      * intros f _ Hf. apply (inv_pins _ _ _ Hinv f); [discriminate|exact Hf].
      * intros w E. injection E as <-. exact Hv.
    + intros p f Hp Hpinned ->. exact (Hnot p Hp).
Qed.

(** The pool after the frame [v] was given to the page [id]. *)
Definition installed (b : t) (v id : Z) (data : page_data) (next : Z) (r : LRUKReplacer.t)
    (trace : list event) : t :=
  mk (pool_size_ b) (<[Z.to_nat v := mkPage data id 1 false]> (pages_ b))
     (<[id := v]> (page_table_ b)) (free_list_ b) next r (disk_ b) trace.

Lemma pin_replacer (steps : nat) (b : t) (v : Z) (hole : option Z) :
  pool_inv steps hole b → 0 ≤ v < pool_size_ b → Z.of_nat steps + 1 < 2 ^ 64 →
  ∃ r1 r2,
    LRUKReplacer.SetEvictable v false (replacer_ b) = Done r1 ∧
    LRUKReplacer.RecordAccess v r1 = Done r2 ∧
    LRUKReplacer.well_formed r2 ∧
    LRUKReplacer.replacer_size_ r2 = pool_size_ b ∧
    LRUKReplacer.next_node_ r2 = S (LRUKReplacer.next_node_ (replacer_ b)) ∧
    (∀ g, LRUKReplacer.evictable_of r2 g =
          if decide (g = v) then false else LRUKReplacer.evictable_of (replacer_ b) g).
Proof.
  intros Hinv Hv Hsteps.
  pose proof (inv_replacer _ _ _ Hinv) as Hwf.
  pose proof (inv_replacer_size _ _ _ Hinv) as Hrs.
  pose proof (inv_steps _ _ _ Hinv) as Hn.
  destruct (LRUKReplacer.SetEvictable_well_formed (replacer_ b) v false Hwf ltac:(lia))
    as (r1 & Hset & Hwf1 & Hn1 & Hs1 & Hac1 & _ & _ & Hev1).
  destruct (LRUKReplacer.RecordAccess_well_formed r1 v Hwf1 ltac:(lia) ltac:(lia))
    as (r2 & Hacc & Hwf2 & Hn2 & Hs2 & Hev2 & _).
  exists r1, r2. split; [exact Hset|]. split; [exact Hacc|]. split; [exact Hwf2|].
  split; [congruence|]. split; [congruence|].
  intros g. unfold LRUKReplacer.evictable_of at 1. rewrite Hev2.
  fold (LRUKReplacer.evictable_of r1 g). rewrite Hev1.
  destruct (decide (g = v)) as [->|Hne].
  - destruct (decide (v = v ∧ LRUKReplacer.count_of (replacer_ b) v ≠ 0)) as [_|Hno];
      [reflexivity|].
    destruct (LRUKReplacer.evictable_of (replacer_ b) v) eqn:E; [|reflexivity].
    exfalso. apply Hno. split; [reflexivity|]. apply (LRUKReplacer.wf_evictable _ Hwf). exact E.
  - rewrite decide_False by tauto. reflexivity.
Qed.

Lemma installed_inv (steps : nat) (b : t) (v id : Z) (data : page_data) (next : Z)
    (r : LRUKReplacer.t) (trace : list event) :
  pool_inv steps (Some v) b →
  page_table_ b !! id = None →
  LRUKReplacer.well_formed r →
  LRUKReplacer.replacer_size_ r = pool_size_ b →
  LRUKReplacer.next_node_ r = S (LRUKReplacer.next_node_ (replacer_ b)) →
  (∀ g, LRUKReplacer.evictable_of r g =
        if decide (g = v) then false else LRUKReplacer.evictable_of (replacer_ b) g) →
  let b' := installed b v id data next r trace in
  (0 ≤ id < next → next_page_id_ b ≤ next → next < 2 ^ 31 → data = disk_read b id →
   pool_inv (S steps) None b') ∧
  page_of b' v = mkPage data id 1 false ∧
  (∀ f, 0 ≤ f → f ≠ v → page_of b' f = page_of b f) ∧
  (∀ p, p ≠ id → content b' p = content b p) ∧
  content b' id = data.
Proof.
  intros Hinv Hid Hwf Hrs Hnn Hev b'.
  destruct (inv_hole _ _ _ Hinv v eq_refl) as [Hv0 Hv1].
  pose proof (inv_pages _ _ _ Hinv) as Hlen.
  assert (Hpage : ∀ f, 0 ≤ f → page_of b' f = if decide (f = v) then mkPage data id 1 false
                                              else page_of b f).
  { intros f Hf. unfold page_of, b', installed. cbn [pages_].
    destruct (decide (f = v)) as [->|Hne].
    - rewrite list_lookup_insert_eq by lia. reflexivity.
    - rewrite list_lookup_insert_ne by lia. reflexivity. }
  assert (Hother : ∀ p f, page_table_ b !! p = Some f → f ≠ v ∧ p ≠ id ∧ 0 ≤ f).
  { intros p f Hp. destruct (inv_table _ _ _ Hinv p f Hp) as (Hf & Hh & _).
    split; [congruence|]. split; [congruence|lia]. }
  split; [|split; [|split; [|split]]].
  - intros Hrange Hnext Hbound Hdata.
    constructor; cbn [b' installed pool_size_ pages_ page_table_ free_list_ next_page_id_
                      replacer_ disk_].
    + apply (inv_size _ _ _ Hinv).
    + rewrite length_insert. exact Hlen.
    + exact Hwf.
    + exact Hrs.
    + rewrite Hnn. pose proof (inv_steps _ _ _ Hinv). lia.
    + lia.
    + intros p f Hp. destruct (decide (p = id)) as [->|Hne].
      * rewrite lookup_insert_eq in Hp. injection Hp as <-.
        split; [lia|]. split; [discriminate|]. rewrite Hpage by lia.
        rewrite decide_True by reflexivity. split; [reflexivity|exact Hrange].
      * rewrite lookup_insert_ne in Hp by congruence.
        destruct (inv_table _ _ _ Hinv p f Hp) as (Hf & Hh & Hpid & Halloc).
        split; [exact Hf|]. split; [discriminate|]. rewrite Hpage by lia.
        rewrite decide_False by congruence. split; [exact Hpid|].
        unfold allocated, b', installed in *. cbn [next_page_id_]. lia.
    + intros f Hf _. rewrite Hpage by lia. destruct (decide (f = v)) as [->|Hne].
      * cbn [page_id_]. intros _. apply lookup_insert_eq.
      * intros Hvalid.
        assert (Ht : page_table_ b !! page_id_ (page_of b f) = Some f)
          by (apply (inv_frames _ _ _ Hinv f Hf); [congruence|exact Hvalid]).
        rewrite lookup_insert_ne; [exact Ht|]. intros E. rewrite <- E in Ht. congruence.
    + intros f Hf. destruct (inv_free _ _ _ Hinv f Hf) as (Hr & Hh & Hfid).
      split; [exact Hr|]. split; [discriminate|]. rewrite Hpage by lia.
      rewrite decide_False by congruence. exact Hfid.
    + apply (inv_free_nodup _ _ _ Hinv).
    + intros p f Hp. destruct (decide (p = id)) as [->|Hne].
      * rewrite lookup_insert_eq in Hp. injection Hp as <-. rewrite Hpage by lia.
        rewrite decide_True by reflexivity. intros _. exact Hdata.
      * rewrite lookup_insert_ne in Hp by congruence.
        destruct (Hother p f Hp) as (Hfv & _ & Hf0). rewrite Hpage by lia.
        rewrite decide_False by exact Hfv. apply (inv_clean _ _ _ Hinv p f Hp).
    + intros p Hp. apply (inv_disk _ _ _ Hinv). lia.
    + intros f _ Hf. rewrite Hev in Hf. destruct (decide (f = v)) as [->|Hne]; [discriminate|].
      destruct (Z.lt_ge_cases f 0) as [Hneg|Hpos].
      * pose proof (LRUKReplacer.wf_frames _ (inv_replacer _ _ _ Hinv) f
                      (LRUKReplacer.wf_evictable _ (inv_replacer _ _ _ Hinv) f Hf)). lia.
      * rewrite Hpage by lia. rewrite decide_False by exact Hne.
        apply (inv_pins _ _ _ Hinv f); [congruence|exact Hf].
    + intros w E. discriminate.
  - rewrite Hpage by lia. rewrite decide_True by reflexivity. reflexivity.
  - intros f Hf Hne. rewrite Hpage by lia. rewrite decide_False by exact Hne. reflexivity.
  - intros p Hne. unfold content. cbn [b' installed page_table_].
    rewrite lookup_insert_ne by congruence.
    destruct (page_table_ b !! p) as [f|] eqn:Hp; [|reflexivity].
    destruct (Hother p f Hp) as (Hfv & _ & Hf0). rewrite Hpage by lia.
    rewrite decide_False by exact Hfv. reflexivity.
  - unfold content. cbn [b' installed page_table_]. rewrite lookup_insert_eq.
    rewrite Hpage by lia. rewrite decide_True by reflexivity. reflexivity.
Qed.

Lemma set_replacer_same (b : t) : set_replacer (replacer_ b) b = b.
Proof. destruct b. reflexivity. Qed.

Lemma map_insert_if_absent_None (k v : Z) (m : gmap Z Z) :
  m !! k = None → map_insert_if_absent k v m = <[k := v]> m.
Proof. intros H. unfold map_insert_if_absent. rewrite H. reflexivity. Qed.

Lemma pin_and_record_installs (steps : nat) (b : t) (v id : Z) (data : page_data) (next : Z)
    (trace : list event) :
  pool_inv steps (Some v) b → Z.of_nat steps + 1 < 2 ^ 64 →
  page_table_ b !! id = None →
  ∃ r,
    pin_and_record v
      (mk (pool_size_ b) (<[Z.to_nat v := mkPage data id 0 false]> (pages_ b))
          (<[id := v]> (page_table_ b)) (free_list_ b) next (replacer_ b) (disk_ b) trace) =
      Done (installed b v id data next r trace) ∧
    LRUKReplacer.well_formed r ∧
    LRUKReplacer.replacer_size_ r = pool_size_ b ∧
    LRUKReplacer.next_node_ r = S (LRUKReplacer.next_node_ (replacer_ b)) ∧
    (∀ g, LRUKReplacer.evictable_of r g =
          if decide (g = v) then false else LRUKReplacer.evictable_of (replacer_ b) g).
Proof.
  intros Hinv Hsteps Hid.
  destruct (inv_hole _ _ _ Hinv v eq_refl) as [Hv0 Hv1].
  pose proof (inv_pages _ _ _ Hinv) as Hlen.
  destruct (pin_replacer steps b v (Some v) Hinv (conj Hv0 Hv1) Hsteps)
    as (r1 & r2 & Hset & Hacc & Hwf & Hrs & Hnn & Hev).
  exists r2. split; [|auto].
  unfold pin_and_record. cbn [replacer_]. rewrite Hset. cbn [obind]. rewrite Hacc. cbn [obind].
  unfold frame_at. cbn [set_replacer pages_].
  destruct (Z.ltb_spec v 0) as [Hneg|_]; [lia|].
  rewrite list_lookup_insert_eq by lia. cbn [obind].
  unfold installed, set_frame, set_replacer.
  cbn [pool_size_ pages_ page_table_ free_list_ next_page_id_ replacer_ disk_ trace_
       data_ page_id_ pin_count_ is_dirty_].
  rewrite list_insert_insert_eq. reflexivity.
Qed.

Lemma NewPage_spec (steps : nat) (b : t) :
  pool_inv steps None b → Z.of_nat steps + 1 < 2 ^ 64 →
  ∃ res b', NewPage b = Done (res, b') ∧
    (next_page_id_ b < 2 ^ 31 - 1 → pool_inv (S steps) None b') ∧
    match res with
    | None =>
        free_list_ b = [] ∧
        (∀ f, LRUKReplacer.evictable_of (replacer_ b) f = false) ∧
        b' = b
    | Some (v, id) =>
        id = next_page_id_ b ∧
        next_page_id_ b' = to_int32 (id + 1) ∧
        page_table_ b' !! id = Some v ∧
        page_of b' v = mkPage zero_page id 1 false ∧
        (∀ p, allocated b p → content b' p = content b p) ∧
        (∀ p f, page_table_ b !! p = Some f → 0 < pin_count_ (page_of b f) →
                page_table_ b' !! p = Some f ∧ page_of b' f = page_of b f)
    end.
Proof.
  intros Hinv Hsteps. unfold NewPage. fold (find_frame b).
  destruct (find_frame_spec steps b Hinv) as (res & b1 & -> & Hres). cbn [obind fst snd].
  destruct res as [v|].
  - destruct Hres as (Hinv1 & Hps & Hnx & Hcontent & Hnone & Hkeep & Hpage & Hpinned).
    destruct (inv_hole _ _ _ Hinv1 v eq_refl) as [Hv0 Hv1].
    pose proof (inv_pages _ _ _ Hinv1) as Hlen.
    assert (Hfresh : page_table_ b1 !! next_page_id_ b1 = None).
    { destruct (page_table_ b1 !! next_page_id_ b1) as [f|] eqn:E; [|reflexivity].
      destruct (inv_table _ _ _ Hinv1 _ _ E) as (_ & _ & _ & Halloc).
      unfold allocated in Halloc. lia. }
    unfold frame_at at 1. cbn [pages_].
    destruct (Z.ltb_spec v 0) as [Hneg|_]; [lia|].
    destruct (pages_ b1 !! Z.to_nat v) as [pg|] eqn:Epg;
      [|apply lookup_ge_None in Epg; lia].
    cbn [obind]. unfold set_frame, set_page_table.
    cbn [pool_size_ pages_ page_table_ free_list_ next_page_id_ replacer_ disk_ trace_].
    rewrite (map_insert_if_absent_None _ _ _ Hfresh).
    destruct (pin_and_record_installs steps b1 v (next_page_id_ b1) zero_page
                (to_int32 (next_page_id_ b1 + 1)) (trace_ b1) Hinv1 Hsteps Hfresh)
      as (r & Hpin & Hwf & Hrs & Hnn & Hev).
    rewrite Hpin. cbn [obind].
    eexists (Some (v, next_page_id_ b1)), _. split; [reflexivity|].
    destruct (installed_inv steps b1 v (next_page_id_ b1) zero_page
                (to_int32 (next_page_id_ b1 + 1))
                r (trace_ b1) Hinv1 Hfresh) as (Hinv' & Hv' & Hothers & Hcont & Hnew);
      try assumption.
    pose proof (inv_next _ _ _ Hinv1) as Hnext1.
    split.
    { intros Hbound. rewrite <- Hnx in Hbound.
      rewrite to_int32_next in Hinv' |- * by lia. apply Hinv'; try lia.
      unfold disk_read. rewrite (inv_disk _ _ _ Hinv1) by lia. reflexivity. }
    split; [exact Hnx|]. split; [cbn [installed next_page_id_]; rewrite Hnx; reflexivity|].
    split; [apply lookup_insert_eq|]. split; [exact Hv'|]. split.
    + intros p Hp. rewrite Hcont; [apply Hcontent; exact Hp|].
      unfold allocated in Hp. lia.
    + intros p f Hp Hpin0.
      pose proof (Hpinned p f Hp Hpin0) as Hne.
      destruct (inv_table _ _ _ Hinv p f Hp) as (Hf & _ & _ & Halloc).
      split.
      * cbn [installed page_table_]. rewrite lookup_insert_ne.
        -- apply Hkeep; assumption.
        -- unfold allocated in Halloc. lia.
      * rewrite Hothers by (try lia; exact Hne). apply Hpage.
  - destruct Hres as (Hfree & Hnone & ->). rewrite set_replacer_same.
    exists None, b. split; [reflexivity|].
    split; [intros _; apply (pool_inv_mono steps); [lia|exact Hinv]|]. auto.
Qed.

Lemma FetchPage_spec (steps : nat) (b : t) (page_id : Z) :
  pool_inv steps None b → allocated b page_id → Z.of_nat steps + 1 < 2 ^ 64 →
  ∃ res b', FetchPage page_id b = Done (res, b') ∧ pool_inv (S steps) None b' ∧
    next_page_id_ b' = next_page_id_ b ∧
    (∀ p, allocated b p → content b' p = content b p) ∧
    (∀ p f, page_table_ b !! p = Some f → 0 < pin_count_ (page_of b f) →
            page_table_ b' !! p = Some f ∧ page_of b' f = page_of b f) ∧
    match res with
    | None =>
        page_table_ b !! page_id = None ∧ free_list_ b = [] ∧
        (∀ f, LRUKReplacer.evictable_of (replacer_ b) f = false) ∧ b' = b
    | Some frame =>
        page_table_ b' !! page_id = Some frame ∧
        match page_table_ b !! page_id with
        | Some resident => frame = resident ∧ b' = b
        | None => page_of b' frame = mkPage (content b page_id) page_id 1 false
        end
    end.
Proof.
  intros Hinv Halloc Hsteps. unfold FetchPage.
  destruct (page_table_ b !! page_id) as [resident|] eqn:Hres.
  - exists (Some resident), b. split; [reflexivity|].
    split; [apply (pool_inv_mono steps); [lia|exact Hinv]|].
    split; [reflexivity|]. split; [reflexivity|]. split; [auto|]. split; [exact Hres|].
    auto.
  - fold (find_frame b).
    destruct (find_frame_spec steps b Hinv) as (res & b1 & -> & Hfound). cbn [obind fst snd].
    destruct res as [v|].
    + destruct Hfound as (Hinv1 & Hps & Hnx & Hcontent & Hnone & Hkeep & Hpage & Hpinned).
      destruct (inv_hole _ _ _ Hinv1 v eq_refl) as [Hv0 Hv1].
      pose proof (inv_pages _ _ _ Hinv1) as Hlen.
      pose proof (Hnone page_id Hres) as Hfresh.
      unfold frame_at at 1. cbn [pages_].
      destruct (Z.ltb_spec v 0) as [Hneg|_]; [lia|].
      destruct (pages_ b1 !! Z.to_nat v) as [pg|] eqn:Epg;
        [|apply lookup_ge_None in Epg; lia].
      cbn [obind]. unfold set_frame, set_page_table, log, disk_read.
      cbn [pool_size_ pages_ page_table_ free_list_ next_page_id_ replacer_ disk_ trace_].
      rewrite list_insert_insert_eq.
      rewrite (map_insert_if_absent_None _ _ _ Hfresh).
      fold (disk_read b1 page_id).
      set (tr := trace_ b1 ++ [EvSchedule false page_id (disk_read b1 page_id)]).
      destruct (pin_and_record_installs steps b1 v page_id (disk_read b1 page_id)
                  (next_page_id_ b1) tr Hinv1 Hsteps Hfresh)
        as (r & Hpin & Hwf & Hrs & Hnn & Hev).
      rewrite Hpin. cbn [obind].
      destruct (installed_inv steps b1 v page_id (disk_read b1 page_id) (next_page_id_ b1)
                  r (tr ++ [EvFutureGet false page_id]) Hinv1 Hfresh)
        as (Hinv' & Hv' & Hothers & Hcont & Hnew); try assumption.
      assert (Hinv2 : pool_inv (S steps) None
                        (installed b1 v page_id (disk_read b1 page_id) (next_page_id_ b1)
                                   r (tr ++ [EvFutureGet false page_id]))).
      { pose proof (inv_next _ _ _ Hinv1). unfold allocated in Halloc.
        apply Hinv'; try lia. reflexivity. }
      assert (Hdata : disk_read b1 page_id = content b page_id).
      { rewrite <- (Hcontent page_id Halloc). unfold content. rewrite Hfresh. reflexivity. }
      exists (Some v), (installed b1 v page_id (disk_read b1 page_id) (next_page_id_ b1) r
                          (tr ++ [EvFutureGet false page_id])).
      split; [reflexivity|].
      split; [exact Hinv2|]. split; [exact Hnx|]. split; [|split; [|split]].
      * intros p Hp. destruct (Z.eq_dec p page_id) as [->|Hne].
        -- transitivity (disk_read b1 page_id); [exact Hnew|exact Hdata].
        -- transitivity (content b1 p); [apply (Hcont p Hne)|apply Hcontent; exact Hp].
      * intros p f Hp Hpin0.
        pose proof (Hpinned p f Hp Hpin0) as Hne.
        destruct (inv_table _ _ _ Hinv p f Hp) as (Hf & _ & _ & _).
        split.
        -- cbn [installed page_table_]. rewrite lookup_insert_ne.
           ++ apply Hkeep; assumption.
           ++ intros <-. congruence.
        -- transitivity (page_of b1 f); [|apply Hpage].
           apply (Hothers f); [lia|exact Hne].
      * cbn [installed page_table_]. apply lookup_insert_eq.
      * rewrite <- Hdata. exact Hv'.
    + destruct Hfound as (Hfree & Hnone & ->). rewrite set_replacer_same.
      exists None, b. split; [reflexivity|].
      split; [apply (pool_inv_mono steps); [lia|exact Hinv]|].
      split; [reflexivity|]. split; [reflexivity|]. split; [auto|]. auto.
Qed.

Lemma pool_inv_trace (steps : nat) (hole : option Z) (b : t) (trace : list event) :
  pool_inv steps hole b →
  pool_inv steps hole
    (mk (pool_size_ b) (pages_ b) (page_table_ b) (free_list_ b) (next_page_id_ b)
        (replacer_ b) (disk_ b) trace).
Proof. intros Hinv. destruct Hinv. constructor; assumption. Qed.

(** The pool after the page in the frame of a resident page was rewritten,
    possibly with a write of its data to disk. *)
Lemma updated_frame_inv (steps : nat) (b : t) (p f : Z) (page : Page) (r : LRUKReplacer.t)
    (disk : gmap Z page_data) (trace : list event) :
  pool_inv steps None b → page_table_ b !! p = Some f →
  page_id_ page = p →
  (disk = disk_ b ∨ disk = <[p := data_ page]> (disk_ b)) →
  (is_dirty_ page = false → data_ page = default zero_page (disk !! p)) →
  LRUKReplacer.well_formed r →
  LRUKReplacer.replacer_size_ r = pool_size_ b →
  LRUKReplacer.next_node_ r = LRUKReplacer.next_node_ (replacer_ b) →
  (∀ g, LRUKReplacer.evictable_of r g = true →
        (g = f → pin_count_ page ≤ 0) ∧
        (g ≠ f → LRUKReplacer.evictable_of (replacer_ b) g = true)) →
  let b' := mk (pool_size_ b) (<[Z.to_nat f := page]> (pages_ b)) (page_table_ b)
               (free_list_ b) (next_page_id_ b) r disk trace in
  pool_inv steps None b' ∧
  page_of b' f = page ∧
  (∀ g, 0 ≤ g → g ≠ f → page_of b' g = page_of b g) ∧
  content b' p = data_ page ∧
  (∀ q, q ≠ p → content b' q = content b q).
Proof.
  intros Hinv Hp Hid Hdisk Hclean Hwf Hrs Hnn Hev b'.
  destruct (inv_table _ _ _ Hinv p f Hp) as (Hf & _ & Hpid & Halloc).
  pose proof (inv_pages _ _ _ Hinv) as Hlen.
  assert (Hpage : ∀ g, 0 ≤ g → page_of b' g = if decide (g = f) then page else page_of b g).
  { intros g Hg. unfold page_of, b'. cbn [pages_].
    destruct (decide (g = f)) as [->|Hne].
    - rewrite list_lookup_insert_eq by lia. reflexivity.
    - rewrite list_lookup_insert_ne by lia. reflexivity. }
  assert (Hdisk' : ∀ q, q ≠ p → disk !! q = disk_ b !! q).
  { intros q Hq. destruct Hdisk as [->| ->]; [reflexivity|].
    apply lookup_insert_ne. congruence. }
  assert (Hframe : ∀ q g, page_table_ b !! q = Some g → 0 ≤ g ∧ (g = f ↔ q = p)).
  { intros q g Hq. destruct (inv_table _ _ _ Hinv q g Hq) as (Hg & _ & Hgid & _).
    split; [lia|]. split.
    - intros ->. congruence.
    - intros ->. congruence. }
  split; [|split; [|split; [|split]]].
  - constructor; cbn [b' pool_size_ pages_ page_table_ free_list_ next_page_id_ replacer_ disk_].
    + apply (inv_size _ _ _ Hinv).
    + rewrite length_insert. exact Hlen.
    + exact Hwf.
    + exact Hrs.
    + rewrite Hnn. apply (inv_steps _ _ _ Hinv).
    + apply (inv_next _ _ _ Hinv).
    + intros q g Hq. destruct (inv_table _ _ _ Hinv q g Hq) as (Hg & _ & Hgid & Hqa).
      split; [exact Hg|]. split; [discriminate|]. rewrite Hpage by lia.
      destruct (decide (g = f)) as [->|Hne]; [|split; [exact Hgid|exact Hqa]].
      split; [congruence|exact Hqa].
    + intros g Hg _. rewrite Hpage by lia. destruct (decide (g = f)) as [->|Hne].
      * intros _. rewrite Hid. exact Hp.
      * apply (inv_frames _ _ _ Hinv g Hg). discriminate.
    + intros g Hg. destruct (inv_free _ _ _ Hinv g Hg) as (Hr & _ & Hgid).
      split; [exact Hr|]. split; [discriminate|]. rewrite Hpage by lia.
      rewrite decide_False; [exact Hgid|]. intros ->. rewrite Hpid in Hgid.
      rewrite Hgid in Halloc. exact (INVALID_PAGE_ID_not_allocated b Halloc).
    + apply (inv_free_nodup _ _ _ Hinv).
    + intros q g Hq. destruct (Hframe q g Hq) as [Hg0 Hiff]. rewrite Hpage by lia.
      unfold disk_read. cbn [disk_].
      destruct (decide (g = f)) as [->|Hne].
      * assert (q = p) as -> by (apply Hiff; reflexivity). exact Hclean.
      * rewrite Hdisk' by (intros ->; apply Hne; apply Hiff; reflexivity).
        apply (inv_clean _ _ _ Hinv q g Hq).
    + intros q Hq. rewrite Hdisk'; [apply (inv_disk _ _ _ Hinv q Hq)|].
      unfold allocated in Halloc. lia.
    + intros g _ Hg. destruct (Hev g Hg) as [Hsame Hother].
      assert (Hg0 : 0 ≤ g).
      { destruct (decide (g = f)) as [->|Hne]; [lia|].
        pose proof (LRUKReplacer.wf_frames _ (inv_replacer _ _ _ Hinv) g
                      (LRUKReplacer.wf_evictable _ (inv_replacer _ _ _ Hinv) g
                         (Hother Hne))). lia. }
      rewrite Hpage by exact Hg0. destruct (decide (g = f)) as [->|Hne]; [auto|].
      apply (inv_pins _ _ _ Hinv g); [discriminate|auto].
    + intros w E. discriminate.
  - rewrite Hpage by lia. rewrite decide_True by reflexivity. reflexivity.
  - intros g Hg Hne. rewrite Hpage by exact Hg. rewrite decide_False by exact Hne. reflexivity.
  - unfold content. cbn [b' page_table_]. rewrite Hp, Hpage by lia.
    rewrite decide_True by reflexivity. reflexivity.
  - intros q Hq. unfold content, disk_read. cbn [b' page_table_ disk_].
    destruct (page_table_ b !! q) as [g|] eqn:Hg.
    + destruct (Hframe q g Hg) as [Hg0 Hiff]. rewrite Hpage by exact Hg0.
      rewrite decide_False; [reflexivity|]. intros E. apply Hq. apply Hiff. exact E.
    + rewrite Hdisk' by exact Hq. reflexivity.
Qed.

Lemma UnpinPage_frame (steps : nat) (b : t) (p f : Z) (is_dirty : bool) (data : page_data) :
  pool_inv steps None b → page_table_ b !! p = Some f → 0 < pin_count_ (page_of b f) →
  (is_dirty = false → data = data_ (page_of b f)) →
  let page := mkPage data p (pin_count_ (page_of b f) - 1)
                     (if is_dirty then is_dirty else is_dirty_ (page_of b f)) in
  ∃ b', UnpinPage p is_dirty
          (set_frame f (mkPage data (page_id_ (page_of b f)) (pin_count_ (page_of b f))
                               (is_dirty_ (page_of b f))) b) = Done (true, b') ∧
        pool_inv steps None b' ∧
        next_page_id_ b' = next_page_id_ b ∧
        page_table_ b' = page_table_ b ∧
        page_of b' f = page ∧
        content b' p = data ∧
        (∀ q, q ≠ p → content b' q = content b q).
Proof.
  intros Hinv Hp Hpin Hdata page.
  destruct (inv_table _ _ _ Hinv p f Hp) as (Hf & _ & Hpid & Halloc).
  pose proof (inv_pages _ _ _ Hinv) as Hlen.
  pose proof (inv_replacer _ _ _ Hinv) as Hwf.
  pose proof (inv_replacer_size _ _ _ Hinv) as Hrs.
  unfold UnpinPage, log, set_frame.
  cbn [page_table_ pool_size_ pages_ free_list_ next_page_id_ replacer_ disk_ trace_].
  rewrite Hp. unfold frame_at. cbn [pages_].
  destruct (Z.ltb_spec f 0) as [Hneg|_]; [lia|].
  rewrite list_lookup_insert_eq by lia. cbn [obind pin_count_ data_ page_id_ is_dirty_].
  destruct (Z.leb_spec (pin_count_ (page_of b f)) 0) as [Hle|_]; [lia|].
  assert (Hrep : ∃ r, (if pin_count_ (page_of b f) - 1 <=? 0
                       then LRUKReplacer.SetEvictable f true (replacer_ b)
                       else Done (replacer_ b)) = Done r ∧
                 LRUKReplacer.well_formed r ∧
                 LRUKReplacer.replacer_size_ r = pool_size_ b ∧
                 LRUKReplacer.next_node_ r = LRUKReplacer.next_node_ (replacer_ b) ∧
                 (∀ g, LRUKReplacer.evictable_of r g = true →
                       (g = f → pin_count_ (page_of b f) - 1 ≤ 0) ∧
                       (g ≠ f → LRUKReplacer.evictable_of (replacer_ b) g = true))).
  { destruct (Z.leb_spec (pin_count_ (page_of b f) - 1) 0) as [Hzero|Hmore].
    - destruct (LRUKReplacer.SetEvictable_well_formed (replacer_ b) f true Hwf ltac:(lia))
        as (r & Hset & Hwf1 & Hn1 & Hs1 & _ & _ & _ & Hev1).
      exists r. split; [exact Hset|]. split; [exact Hwf1|]. split; [congruence|].
      split; [exact Hn1|]. intros g Hg. split; [intros _; exact Hzero|].
      intros Hne. rewrite Hev1 in Hg. rewrite decide_False in Hg by tauto. exact Hg.
    - exists (replacer_ b). split; [reflexivity|]. split; [exact Hwf|]. split; [exact Hrs|].
      split; [reflexivity|]. intros g Hg. split; [|intros _; exact Hg].
      intros ->. pose proof (inv_pins _ _ _ Hinv f ltac:(discriminate) Hg). lia. }
  destruct Hrep as (r & -> & Hwf1 & Hrs1 & Hnn1 & Hev1). cbn [obind].
  unfold set_replacer.
  cbn [pool_size_ pages_ page_table_ free_list_ next_page_id_ replacer_ disk_ trace_].
  rewrite list_insert_insert_eq, Hpid. fold page.
  eexists. split; [reflexivity|].
  destruct (updated_frame_inv steps b p f page r (disk_ b)
              (trace_ b ++ [EvUnpinPage p is_dirty]) Hinv Hp)
    as (Hinv' & Hf' & _ & Hcp & Hcq); try assumption; try reflexivity.
  - left. reflexivity.
  - subst page. cbn [is_dirty_ data_]. destruct is_dirty; [discriminate|].
    intros Hclean. rewrite (Hdata eq_refl). apply (inv_clean _ _ _ Hinv p f Hp Hclean).
  - split; [exact Hinv'|]. split; [reflexivity|]. split; [reflexivity|].
    split; [exact Hf'|]. split; [exact Hcp|exact Hcq].
Qed.

Lemma set_frame_same (b : t) (f : Z) :
  0 ≤ f < Z.of_nat (length (pages_ b)) →
  set_frame f (mkPage (data_ (page_of b f)) (page_id_ (page_of b f))
                      (pin_count_ (page_of b f)) (is_dirty_ (page_of b f))) b = b.
Proof.
  intros Hf. unfold set_frame, page_of.
  destruct (pages_ b !! Z.to_nat f) as [pg|] eqn:E;
    [|apply lookup_ge_None in E; lia].
  cbn [default from_option id]. destruct pg as [d i n dirty]. cbn [data_ page_id_ pin_count_ is_dirty_].
  rewrite list_insert_id by exact E. destruct b. reflexivity.
Qed.

Lemma log_inv (steps : nat) (b : t) (e : event) :
  pool_inv steps None b →
  pool_inv steps None (log e b) ∧ next_page_id_ (log e b) = next_page_id_ b ∧
  page_table_ (log e b) = page_table_ b ∧
  (∀ f, page_of (log e b) f = page_of b f) ∧ (∀ q, content (log e b) q = content b q).
Proof.
  intros Hinv. split; [apply (pool_inv_trace steps None b _ Hinv)|]. repeat split.
Qed.

Lemma UnpinPage_spec (steps : nat) (b : t) (p : Z) (is_dirty : bool) :
  pool_inv steps None b →
  ∃ res b', UnpinPage p is_dirty b = Done (res, b') ∧ pool_inv steps None b' ∧
    next_page_id_ b' = next_page_id_ b ∧
    page_table_ b' = page_table_ b ∧
    (∀ q, content b' q = content b q) ∧
    match page_table_ b !! p with
    | None => res = false ∧ ∀ f, page_of b' f = page_of b f
    | Some f =>
        if 0 <? pin_count_ (page_of b f)
        then res = true ∧
             page_of b' f = mkPage (data_ (page_of b f)) p (pin_count_ (page_of b f) - 1)
                                   (if is_dirty then is_dirty else is_dirty_ (page_of b f))
        else res = false ∧ ∀ f, page_of b' f = page_of b f
    end.
Proof.
  intros Hinv. destruct (log_inv steps b (EvUnpinPage p is_dirty) Hinv)
    as (Hlog & Hlnext & Hltable & Hlpage & Hlcontent).
  destruct (page_table_ b !! p) as [f|] eqn:Hp.
  - destruct (inv_table _ _ _ Hinv p f Hp) as (Hf & _ & Hpid & Halloc).
    pose proof (inv_pages _ _ _ Hinv) as Hlen.
    destruct (Z.ltb_spec 0 (pin_count_ (page_of b f))) as [Hpin|Hpin].
    + destruct (UnpinPage_frame steps b p f is_dirty (data_ (page_of b f)) Hinv Hp Hpin)
        as (b' & Hrun & Hinv' & Hnx & Htb & Hpg & Hcp & Hcq); [reflexivity|].
      rewrite set_frame_same in Hrun by lia.
      exists true, b'. split; [exact Hrun|]. split; [exact Hinv'|]. split; [exact Hnx|].
      split; [exact Htb|]. split; [|split; [reflexivity|exact Hpg]].
      intros q. destruct (Z.eq_dec q p) as [->|Hne]; [|apply Hcq; exact Hne].
      rewrite Hcp. unfold content. rewrite Hp. reflexivity.
    + exists false, (log (EvUnpinPage p is_dirty) b). split.
      * unfold UnpinPage. rewrite Hltable, Hp.
        rewrite (frame_at_page_of (log (EvUnpinPage p is_dirty) b) f) by (cbn [log pages_]; lia).
        cbn [obind]. rewrite Hlpage.
        destruct (Z.leb_spec (pin_count_ (page_of b f)) 0); [reflexivity|lia].
      * split; [exact Hlog|]. split; [exact Hlnext|]. split; [exact Hltable|].
        split; [exact Hlcontent|]. split; [reflexivity|exact Hlpage].
  - exists false, (log (EvUnpinPage p is_dirty) b). split.
    + unfold UnpinPage. rewrite Hltable, Hp. reflexivity.
    + split; [exact Hlog|]. split; [exact Hlnext|]. split; [exact Hltable|].
      split; [exact Hlcontent|]. split; [reflexivity|exact Hlpage].
Qed.

Lemma write_and_unpin_spec (steps : nat) (b : t) (p f : Z) (data : page_data) :
  pool_inv steps None b → page_table_ b !! p = Some f → 0 < pin_count_ (page_of b f) →
  ∃ b', write_and_unpin p data b = Done (true, b') ∧ pool_inv steps None b' ∧
        next_page_id_ b' = next_page_id_ b ∧
        page_table_ b' = page_table_ b ∧
        page_of b' f = mkPage data p (pin_count_ (page_of b f) - 1) true ∧
        content b' p = data ∧
        (∀ q, q ≠ p → content b' q = content b q).
Proof.
  intros Hinv Hp Hpin.
  destruct (inv_table _ _ _ Hinv p f Hp) as (Hf & _ & _).
  pose proof (inv_pages _ _ _ Hinv) as Hlen.
  unfold write_and_unpin. rewrite Hp, (frame_at_page_of b f) by lia. cbn [obind].
  destruct (UnpinPage_frame steps b p f true data Hinv Hp Hpin)
    as (b' & Hrun & Hinv' & Hnx & Htb & Hpg & Hcp & Hcq); [discriminate|].
  exists b'. split; [exact Hrun|]. split; [exact Hinv'|]. split; [exact Hnx|].
  split; [exact Htb|]. split; [exact Hpg|]. split; [exact Hcp|exact Hcq].
Qed.

(** The pool after the page of a frame was written to disk. *)
Lemma flushed_frame (steps : nat) (b : t) (p f : Z) :
  pool_inv steps None b → page_table_ b !! p = Some f →
  let page := page_of b f in
  let b' := set_frame f (mkPage (data_ page) (page_id_ page) (pin_count_ page) false)
                      (schedule_write_and_wait (page_id_ page) (data_ page) b) in
  pool_inv steps None b' ∧
  next_page_id_ b' = next_page_id_ b ∧
  page_table_ b' = page_table_ b ∧
  (∀ q, content b' q = content b q) ∧
  disk_read b' p = data_ page ∧
  page_of b' f = mkPage (data_ page) p (pin_count_ page) false ∧
  (∀ g, 0 ≤ g → g ≠ f → page_of b' g = page_of b g).
Proof.
  intros Hinv Hp page b'.
  destruct (inv_table _ _ _ Hinv p f Hp) as (Hf & _ & Hpid & Halloc).
  fold page in Hpid.
  destruct (updated_frame_inv steps b p f (mkPage (data_ page) p (pin_count_ page) false)
              (replacer_ b) (<[p := data_ page]> (disk_ b))
              (trace_ b ++ [EvSchedule true p (data_ page)] ++ [EvFutureGet true p]) Hinv Hp)
    as (Hinv' & Hf' & Hothers & Hcp & Hcq); try reflexivity.
  - right. reflexivity.
  - intros _. cbn [data_]. rewrite lookup_insert_eq. reflexivity.
  - apply (inv_replacer _ _ _ Hinv).
  - apply (inv_replacer_size _ _ _ Hinv).
  - intros g Hg. split; [|auto]. intros ->. cbn [pin_count_].
    apply (inv_pins _ _ _ Hinv f); [discriminate|exact Hg].
  - assert (Hb' : b' = mk (pool_size_ b)
                          (<[Z.to_nat f := mkPage (data_ page) p (pin_count_ page) false]>
                             (pages_ b))
                          (page_table_ b) (free_list_ b) (next_page_id_ b) (replacer_ b)
                          (<[p := data_ page]> (disk_ b))
                          (trace_ b ++ [EvSchedule true p (data_ page)] ++
                           [EvFutureGet true p])).
    { unfold b', set_frame, schedule_write_and_wait, log.
      cbn [pool_size_ pages_ page_table_ free_list_ next_page_id_ replacer_ disk_ trace_].
      rewrite Hpid, <- app_assoc. reflexivity. }
    rewrite Hb'. split; [exact Hinv'|]. split; [reflexivity|]. split; [reflexivity|].
    split; [|split; [|split; [exact Hf'|exact Hothers]]].
    + intros q. destruct (Z.eq_dec q p) as [->|Hne]; [|apply Hcq; exact Hne].
      rewrite Hcp. unfold content. rewrite Hp. reflexivity.
    + unfold disk_read. cbn [disk_]. rewrite lookup_insert_eq. reflexivity.
Qed.

Lemma FlushPage_spec (steps : nat) (b : t) (p : Z) :
  pool_inv steps None b → allocated b p →
  ∃ res b', FlushPage p b = Done (res, b') ∧ pool_inv steps None b' ∧
    next_page_id_ b' = next_page_id_ b ∧
    page_table_ b' = page_table_ b ∧
    (∀ q, content b' q = content b q) ∧
    match page_table_ b !! p with
    | None => res = false ∧ b' = b
    | Some f =>
        res = true ∧ disk_read b' p = content b p ∧
        page_of b' f = mkPage (data_ (page_of b f)) p (pin_count_ (page_of b f)) false
    end.
Proof.
  intros Hinv Halloc. unfold FlushPage, BUSTUB_ASSERT.
  assert (Hvalid : (p =? INVALID_PAGE_ID) = false).
  { apply Z.eqb_neq. intros ->. exact (INVALID_PAGE_ID_not_allocated b Halloc). }
  rewrite Hvalid. cbn [negb].
  destruct (page_table_ b !! p) as [f|] eqn:Hp.
  - destruct (inv_table _ _ _ Hinv p f Hp) as (Hf & _ & _).
    pose proof (inv_pages _ _ _ Hinv) as Hlen.
    rewrite (frame_at_page_of b f) by lia. cbn [obind].
    destruct (flushed_frame steps b p f Hinv Hp)
      as (Hinv' & Hnx & Htb & Hcontent & Hdisk & Hpage & _).
    eexists true, _. split; [reflexivity|]. split; [exact Hinv'|]. split; [exact Hnx|].
    split; [exact Htb|]. split; [exact Hcontent|]. split; [reflexivity|].
    split; [|exact Hpage]. rewrite Hdisk. unfold content. rewrite Hp. reflexivity.
  - exists false, b. split; [reflexivity|]. split; [exact Hinv|]. auto.
Qed.

Lemma flush_entries_spec (steps : nat) (order : list (Z * Z)) :
  ∀ b, pool_inv steps None b →
       (∀ e, e ∈ order → page_table_ b !! e.1 = Some e.2) →
       ∃ b', flush_entries order b = Done b' ∧ pool_inv steps None b' ∧
             next_page_id_ b' = next_page_id_ b ∧
             page_table_ b' = page_table_ b ∧
             (∀ q, content b' q = content b q) ∧
             (∀ g, 0 ≤ g → is_dirty_ (page_of b g) = false → is_dirty_ (page_of b' g) = false) ∧
             (∀ e, e ∈ order → is_dirty_ (page_of b' e.2) = false) ∧
             (∀ g, 0 ≤ g → data_ (page_of b' g) = data_ (page_of b g) ∧
                           pin_count_ (page_of b' g) = pin_count_ (page_of b g)).
Proof.
  induction order as [|[p f] order IH]; intros b Hinv Horder.
  - exists b. split; [reflexivity|]. split; [exact Hinv|]. repeat split; try auto.
    intros e He. inversion He.
  - assert (Hp : page_table_ b !! p = Some f) by (apply (Horder (p, f)); left).
    destruct (inv_table _ _ _ Hinv p f Hp) as (Hf & _ & _ & Halloc).
    pose proof (inv_pages _ _ _ Hinv) as Hlen.
    cbn [flush_entries]. unfold flush_entry, BUSTUB_ASSERT. cbn [fst snd].
    assert (Hvalid : (p =? INVALID_PAGE_ID) = false).
    { apply Z.eqb_neq. intros ->. exact (INVALID_PAGE_ID_not_allocated b Halloc). }
    rewrite Hvalid. cbn [negb]. rewrite (frame_at_page_of b f) by lia. cbn [obind].
    destruct (flushed_frame steps b p f Hinv Hp)
      as (Hinv1 & Hnx1 & Htb1 & Hcontent1 & _ & Hpage1 & Hothers1).
    set (b1 := set_frame f _ _) in *.
    destruct (IH b1 Hinv1)
      as (b' & Hrun & Hinv' & Hnx & Htb & Hcontent & Hclean & Hdone & Hsame).
    { intros e He. rewrite Htb1. apply Horder. right. exact He. }
    exists b'. split; [exact Hrun|]. split; [exact Hinv'|]. split; [congruence|].
    split; [congruence|]. split; [|split; [|split]].
    + intros q. rewrite Hcontent. apply Hcontent1.
    + intros g Hg Hd. apply Hclean; [exact Hg|].
      destruct (Z.eq_dec g f) as [->|Hne]; [rewrite Hpage1; reflexivity|].
      rewrite Hothers1 by assumption. exact Hd.
    + intros e He. apply elem_of_cons in He as [->|He]; [|apply Hdone; exact He].
      cbn [snd]. apply Hclean; [lia|]. rewrite Hpage1. reflexivity.
    + intros g Hg. destruct (Hsame g Hg) as [Hd Hn]. rewrite Hd, Hn.
      destruct (Z.eq_dec g f) as [->|Hne]; [rewrite Hpage1; split; reflexivity|].
      rewrite Hothers1 by assumption. split; reflexivity.
Qed.

Lemma DeletePage_spec (steps : nat) (b : t) (p : Z) :
  pool_inv steps None b → allocated b p →
  ∃ res b', DeletePage p b = Done (res, b') ∧ pool_inv steps None b' ∧
    next_page_id_ b' = next_page_id_ b ∧
    (∀ q, q ≠ p → content b' q = content b q) ∧
    match page_table_ b !! p with
    | None => res = true ∧ b' = b
    | Some f =>
        if 0 <? pin_count_ (page_of b f) then res = false ∧ b' = b
        else res = true ∧ page_table_ b' !! p = None ∧
             free_list_ b' = free_list_ b ++ [f] ∧
             page_of b' f = mkPage zero_page INVALID_PAGE_ID 0 false ∧
             content b' p = disk_read b p
    end.
Proof.
  intros Hinv Halloc. unfold DeletePage, BUSTUB_ASSERT.
  assert (Hvalid : (p =? INVALID_PAGE_ID) = false).
  { apply Z.eqb_neq. intros ->. exact (INVALID_PAGE_ID_not_allocated b Halloc). }
  rewrite Hvalid. cbn [negb].
  destruct (page_table_ b !! p) as [f|] eqn:Hp.
  - destruct (inv_table _ _ _ Hinv p f Hp) as (Hf & _ & Hpid & _).
    pose proof (inv_pages _ _ _ Hinv) as Hlen.
    rewrite (frame_at_page_of b f) by lia. cbn [obind].
    destruct (Z.ltb_spec 0 (pin_count_ (page_of b f))) as [Hpin|Hpin].
    + exists false, b. split; [reflexivity|]. split; [exact Hinv|]. auto.
    + eexists true, _. split; [reflexivity|].
      unfold set_frame, set_free_list, set_page_table.
      cbn [pool_size_ pages_ page_table_ free_list_ next_page_id_ replacer_ disk_ trace_].
      set (b' := mk _ _ _ _ _ _ _ _).
      assert (Hpage : ∀ g, 0 ≤ g → page_of b' g =
                if decide (g = f) then mkPage zero_page INVALID_PAGE_ID 0 false
                else page_of b g).
      { intros g Hg. unfold page_of, b'. cbn [pages_].
        destruct (decide (g = f)) as [->|Hne].
        - rewrite list_lookup_insert_eq by lia. reflexivity.
        - rewrite list_lookup_insert_ne by lia. reflexivity. }
      assert (Hframe : ∀ q g, page_table_ b !! q = Some g → 0 ≤ g ∧ (g = f ↔ q = p)).
      { intros q g Hq. destruct (inv_table _ _ _ Hinv q g Hq) as (Hg & _ & Hgid & _).
        split; [lia|]. split.
        - intros ->. congruence.
        - intros ->. congruence. }
      assert (Hnotfree : f ∉ free_list_ b).
      { intros Hin. destruct (inv_free _ _ _ Hinv f Hin) as (_ & _ & Hfid).
        rewrite Hpid in Hfid. rewrite Hfid in Halloc.
        exact (INVALID_PAGE_ID_not_allocated b Halloc). }
      split; [|split; [reflexivity|split; [|split; [reflexivity|split]]]].
      * constructor; cbn [b' pool_size_ pages_ page_table_ free_list_ next_page_id_ replacer_
                          disk_].
        -- apply (inv_size _ _ _ Hinv).
        -- rewrite length_insert. exact Hlen.
        -- apply (inv_replacer _ _ _ Hinv).
        -- apply (inv_replacer_size _ _ _ Hinv).
        -- apply (inv_steps _ _ _ Hinv).
        -- apply (inv_next _ _ _ Hinv).
        -- intros q g Hq. apply lookup_delete_Some in Hq as [Hne Hq].
           destruct (inv_table _ _ _ Hinv q g Hq) as (Hg & _ & Hgid & Hqa).
           destruct (Hframe q g Hq) as [Hg0 Hiff].
           split; [exact Hg|]. split; [discriminate|]. rewrite Hpage by exact Hg0.
           rewrite decide_False by (intros E; apply Hne; symmetry; apply Hiff; exact E).
           split; [exact Hgid|exact Hqa].
        -- intros g Hg _. rewrite Hpage by lia. destruct (decide (g = f)) as [->|Hne].
           ++ intros H. contradiction.
           ++ intros Hv. apply lookup_delete_Some.
              assert (Ht : page_table_ b !! page_id_ (page_of b g) = Some g)
                by (apply (inv_frames _ _ _ Hinv g Hg); [discriminate|exact Hv]).
              split; [|exact Ht]. intros E. rewrite <- E in Ht.
              apply Hne. congruence.
        -- intros g Hg. apply elem_of_app in Hg as [Hg|Hg].
           ++ destruct (inv_free _ _ _ Hinv g Hg) as (Hr & _ & Hgid).
              split; [exact Hr|]. split; [discriminate|]. rewrite Hpage by lia.
              rewrite decide_False by (intros ->; contradiction). exact Hgid.
           ++ apply list_elem_of_singleton in Hg as ->.
              split; [exact Hf|]. split; [discriminate|]. rewrite Hpage by lia.
              rewrite decide_True by reflexivity. reflexivity.
        -- apply list.NoDup_app. split; [apply (inv_free_nodup _ _ _ Hinv)|].
           split; [|apply list.NoDup_singleton].
           intros g Hg Hg'. apply list_elem_of_singleton in Hg' as ->. contradiction.
        -- intros q g Hq. apply lookup_delete_Some in Hq as [Hne Hq].
           destruct (Hframe q g Hq) as [Hg0 Hiff]. rewrite Hpage by exact Hg0.
           rewrite decide_False by (intros E; apply Hne; symmetry; apply Hiff; exact E).
           apply (inv_clean _ _ _ Hinv q g Hq).
        -- apply (inv_disk _ _ _ Hinv).
        -- intros g _ Hg.
           pose proof (LRUKReplacer.wf_frames _ (inv_replacer _ _ _ Hinv) g
                         (LRUKReplacer.wf_evictable _ (inv_replacer _ _ _ Hinv) g Hg)) as Hr.
           rewrite Hpage by lia. destruct (decide (g = f)); [cbn; lia|].
           apply (inv_pins _ _ _ Hinv g); [discriminate|exact Hg].
        -- intros w E. discriminate.
      * intros q Hne. unfold content. cbn [b' page_table_].
        rewrite lookup_delete_ne by congruence.
        destruct (page_table_ b !! q) as [g|] eqn:Hq; [|reflexivity].
        destruct (Hframe q g Hq) as [Hg0 Hiff]. rewrite Hpage by exact Hg0.
        rewrite decide_False by (intros E; apply Hne; apply Hiff; exact E). reflexivity.
      * apply lookup_delete_eq.
      * split; [reflexivity|]. split.
        -- rewrite Hpage by lia. rewrite decide_True by reflexivity. reflexivity.
        -- unfold content. cbn [b' page_table_]. rewrite lookup_delete_eq. reflexivity.
  - exists true, b. split; [reflexivity|]. split; [exact Hinv|]. auto.
Qed.

(** The pages a call leaves alone. *)
Definition untouched (c : call) (page_id : Z) : Prop :=
  match c with
  | CWriteAndUnpin q _ | CDeletePage q => page_id ≠ q
  | _ => True
  end.

Lemma do_call_spec (steps : nat) (b : t) (c : call) :
  pool_inv steps None b → admissible b c → Z.of_nat steps + 1 < 2 ^ 64 →
  ∃ b', do_call c b = Done b' ∧ pool_inv (S steps) None b' ∧
        (∀ p, allocated b p → untouched c p → content b' p = content b p) ∧
        (∀ q data, c = CWriteAndUnpin q data → content b' q = data).
Proof.
  intros Hinv Hadm Hsteps.
  assert (Hmono : ∀ b', pool_inv steps None b' → pool_inv (S steps) None b').
  { intros b'. apply pool_inv_mono. lia. }
  destruct c as [|p|p d|p data|p|order|p]; cbn [do_call admissible untouched] in *.
  - destruct (NewPage_spec steps b Hinv Hsteps) as (res & b' & -> & Hinv' & Hres).
    exists b'. cbn [obind snd]. split; [reflexivity|]. split; [exact (Hinv' Hadm)|].
    split; [|intros; discriminate].
    destruct res as [[v id]|].
    + destruct Hres as (_ & _ & _ & _ & Hcontent & _). intros p Hp _. apply Hcontent. exact Hp.
    + destruct Hres as (_ & _ & ->). reflexivity.
  - destruct (FetchPage_spec steps b p Hinv Hadm Hsteps)
      as (res & b' & -> & Hinv' & _ & Hcontent & _).
    exists b'. cbn [obind snd]. split; [reflexivity|]. split; [exact Hinv'|].
    split; [|intros; discriminate]. intros q Hq _. apply Hcontent. exact Hq.
  - destruct (UnpinPage_spec steps b p d Hinv) as (res & b' & -> & Hinv' & _ & _ & Hcontent & _).
    exists b'. cbn [obind snd]. split; [reflexivity|]. split; [apply Hmono; exact Hinv'|].
    split; [|intros; discriminate]. intros q _ _. apply Hcontent.
  - destruct Hadm as (f & Hp & Hpin).
    destruct (write_and_unpin_spec steps b p f data Hinv Hp Hpin)
      as (b' & -> & Hinv' & _ & _ & _ & Hcp & Hcq).
    exists b'. cbn [obind snd]. split; [reflexivity|]. split; [apply Hmono; exact Hinv'|].
    split; [intros q _ Hq; apply Hcq; exact Hq|].
    intros q data' E. injection E as <- <-. exact Hcp.
  - destruct (FlushPage_spec steps b p Hinv Hadm) as (res & b' & -> & Hinv' & _ & _ & Hcontent & _).
    exists b'. cbn [obind snd]. split; [reflexivity|]. split; [apply Hmono; exact Hinv'|].
    split; [|intros; discriminate]. intros q _ _. apply Hcontent.
  - destruct (flush_entries_spec steps order b Hinv)
      as (b' & Hrun & Hinv' & _ & _ & Hcontent & _).
    { intros [p f] He. rewrite Hadm in He. apply elem_of_map_to_list in He. exact He. }
    exists b'. split; [exact Hrun|]. split; [apply Hmono; exact Hinv'|].
    split; [|intros; discriminate]. intros q _ _. apply Hcontent.
  - destruct (DeletePage_spec steps b p Hinv Hadm) as (res & b' & -> & Hinv' & _ & Hcontent & _).
    exists b'. cbn [obind snd]. split; [reflexivity|]. split; [apply Hmono; exact Hinv'|].
    split; [|intros; discriminate]. intros q _ Hq. apply Hcontent. exact Hq.
Qed.

Lemma reachable_inv (steps : nat) (b : t) :
  reachable steps b → Z.of_nat steps < 2 ^ 64 → pool_inv steps None b.
Proof.
  induction 1 as [pool_size Hsize|steps b c b' _ IH Hadm Hrun]; intros Hsteps.
  - apply new_pool_inv. exact Hsize.
  - destruct (do_call_spec steps b c (IH ltac:(lia)) Hadm ltac:(lia)) as (b'' & Hrun' & Hinv & _).
    rewrite Hrun in Hrun'. injection Hrun' as ->. exact Hinv.
Qed.

(** X22. In a pool reached by admissible calls from a new pool with
    [k = 2] on an empty disk, every admissible call returns, and it leaves
    the content of every allocated page it does not name as it was, whether
    the page is resident or has been evicted in between: a victim that was
    written is written back before its frame is reused, and a page fetched
    again is read back.  After [write_and_unpin] the page holds the data
    written. *)
Theorem X22_pages_keep_their_content_across_calls (steps : nat) (b : t) (c : call) :
  reachable steps b → Z.of_nat steps + 1 < 2 ^ 64 → admissible b c →
  ∃ b', do_call c b = Done b' ∧
        (∀ p, allocated b p → untouched c p → content b' p = content b p) ∧
        (∀ q data, c = CWriteAndUnpin q data → content b' q = data).
Proof.
  intros Hreach Hsteps Hadm.
  destruct (do_call_spec steps b c (reachable_inv steps b Hreach ltac:(lia)) Hadm Hsteps)
    as (b' & Hrun & _ & Hcontent & Hwritten).
  exists b'. split; [exact Hrun|]. split; [exact Hcontent|exact Hwritten].
Qed.

(** X23. In such a pool [FetchPage] of an allocated page returns.  For a
    page that is not resident it returns a frame that now holds the page with
    its content, pinned once and clean; it returns [nullptr] exactly when the
    free list is empty and no frame is evictable, and then nothing has
    changed.  For a resident page it returns the frame of the page and
    changes nothing: the pin count is not incremented and no access is
    recorded. *)
Theorem X23_fetch_page_returns_the_page (steps : nat) (b : t) (page_id : Z) :
  reachable steps b → Z.of_nat steps + 1 < 2 ^ 64 → allocated b page_id →
  ∃ res b', FetchPage page_id b = Done (res, b') ∧
    match res, page_table_ b !! page_id with
    | Some frame, Some resident => frame = resident ∧ b' = b
    | Some frame, None =>
        page_table_ b' !! page_id = Some frame ∧
        page_of b' frame = mkPage (content b page_id) page_id 1 false ∧
        (free_list_ b ≠ [] ∨
         ∃ f, LRUKReplacer.evictable_of (replacer_ b) f = true)
    | None, Some _ => False
    | None, None =>
        free_list_ b = [] ∧
        (∀ f, LRUKReplacer.evictable_of (replacer_ b) f = false) ∧ b' = b
    end.
Proof.
  intros Hreach Hsteps Halloc.
  pose proof (reachable_inv steps b Hreach ltac:(lia)) as Hinv.
  destruct (FetchPage_spec steps b page_id Hinv Halloc Hsteps)
    as (res & b' & Hrun & _ & _ & _ & _ & Hres).
  exists res, b'. split; [exact Hrun|].
  destruct res as [frame|], (page_table_ b !! page_id) as [resident|] eqn:Hp.
  - destruct Hres as [_ Hres]. exact Hres.
  - destruct Hres as [Htable Hpage]. split; [exact Htable|]. split; [exact Hpage|].
    destruct (free_list_ b) as [|f0 rest] eqn:Hfree; [right|left; discriminate].
    unfold FetchPage in Hrun. rewrite Hp, Hfree in Hrun.
    pose proof (LRUKReplacer.Evict_well_formed (replacer_ b) (inv_replacer _ _ _ Hinv)) as He.
    destruct (LRUKReplacer.victim (replacer_ b)) as [v|].
    + destruct He as (r' & _ & _ & Hev & _). exists v. exact Hev.
    + destruct He as [He _]. unfold evict_and_write_back in Hrun. rewrite He in Hrun.
      cbn [obind fst snd] in Hrun. discriminate.
  - destruct Hres as (Hnone & _). discriminate.
  - destruct Hres as (_ & Hfree & Hnone & Hsame). auto.
Qed.

(** X24. In such a pool [NewPage] returns.  It hands out the page ids in
    sequence: the id is [next_page_id_], and the counter is then incremented
    on 32 bits, which is the next integer as long as the id is below
    [2^31 - 1]; the frame returned holds the new page zeroed, pinned once and
    clean.  It returns [nullptr], and changes nothing, exactly when the free
    list is empty and no frame is evictable. *)
Theorem X24_new_page_hands_out_the_next_page_id (steps : nat) (b : t) :
  reachable steps b → Z.of_nat steps + 1 < 2 ^ 64 →
  ∃ res b', NewPage b = Done (res, b') ∧
    match res with
    | Some (frame, page_id) =>
        page_id = next_page_id_ b ∧
        next_page_id_ b' = to_int32 (page_id + 1) ∧
        (page_id < 2 ^ 31 - 1 → next_page_id_ b' = page_id + 1) ∧
        page_table_ b' !! page_id = Some frame ∧
        page_of b' frame = mkPage zero_page page_id 1 false ∧
        (free_list_ b ≠ [] ∨ ∃ f, LRUKReplacer.evictable_of (replacer_ b) f = true)
    | None =>
        free_list_ b = [] ∧
        (∀ f, LRUKReplacer.evictable_of (replacer_ b) f = false) ∧ b' = b
    end.
Proof.
  intros Hreach Hsteps.
  pose proof (reachable_inv steps b Hreach ltac:(lia)) as Hinv.
  destruct (NewPage_spec steps b Hinv Hsteps) as (res & b' & Hrun & _ & Hres).
  exists res, b'. split; [exact Hrun|].
  destruct res as [[frame page_id]|]; [|exact Hres].
  destruct Hres as (Hid & Hnext & Htable & Hpage & _).
  split; [exact Hid|]. split; [exact Hnext|].
  split.
  { intros Hsmall. rewrite Hnext. apply to_int32_next.
    pose proof (inv_next _ _ _ Hinv). lia. }
  split; [exact Htable|]. split; [exact Hpage|].
  destruct (free_list_ b) as [|f0 rest] eqn:Hfree; [right|left; discriminate].
  unfold NewPage in Hrun. rewrite Hfree in Hrun.
  pose proof (LRUKReplacer.Evict_well_formed (replacer_ b) (inv_replacer _ _ _ Hinv)) as He.
  destruct (LRUKReplacer.victim (replacer_ b)) as [v|].
  - destruct He as (r' & _ & _ & Hev & _). exists v. exact Hev.
  - destruct He as [He _]. unfold evict_and_write_back in Hrun. rewrite He in Hrun.
    cbn [obind fst snd] in Hrun. discriminate.
Qed.

(** X25. In such a pool a resident page whose pin count is positive stays
    in its frame, with its data, pin count and dirty flag, across [NewPage]
    and across [FetchPage] of any allocated page: only frames with pin count
    zero are evicted. *)
Theorem X25_pinned_pages_are_not_evicted (steps : nat) (b : t) (c : call) (p f : Z) :
  reachable steps b → Z.of_nat steps + 1 < 2 ^ 64 →
  (c = CNewPage ∨ ∃ q, c = CFetchPage q ∧ allocated b q) →
  page_table_ b !! p = Some f → 0 < pin_count_ (page_of b f) →
  ∃ b', do_call c b = Done b' ∧ page_table_ b' !! p = Some f ∧ page_of b' f = page_of b f.
Proof.
  intros Hreach Hsteps Hc Hp Hpin.
  pose proof (reachable_inv steps b Hreach ltac:(lia)) as Hinv.
  destruct Hc as [->|(q & -> & Halloc)]; cbn [do_call].
  - destruct (NewPage_spec steps b Hinv Hsteps) as (res & b' & -> & _ & Hres).
    exists b'. cbn [obind snd]. split; [reflexivity|].
    destruct res as [[v id]|].
    + destruct Hres as (_ & _ & _ & _ & _ & Hkeep). apply (Hkeep p f Hp Hpin).
    + destruct Hres as (_ & _ & ->). auto.
  - destruct (FetchPage_spec steps b q Hinv Halloc Hsteps)
      as (res & b' & -> & _ & _ & _ & Hkeep & _).
    exists b'. cbn [obind snd]. split; [reflexivity|]. apply (Hkeep p f Hp Hpin).
Qed.

(** X26. In such a pool [FlushAllPages] returns, whatever the order in
    which the page table is walked; afterwards the disk holds the data of
    every resident page and no resident page is dirty, and the page table,
    the data and the pin counts are as they were. *)
Theorem X26_flush_all_pages_writes_every_resident_page
    (steps : nat) (b : t) (order : list (Z * Z)) :
  reachable steps b → Z.of_nat steps < 2 ^ 64 → order ≡ₚ map_to_list (page_table_ b) →
  ∃ b', FlushAllPages order b = Done b' ∧
        page_table_ b' = page_table_ b ∧
        ∀ p f, page_table_ b !! p = Some f →
               disk_read b' p = data_ (page_of b f) ∧
               page_of b' f = mkPage (data_ (page_of b f)) p (pin_count_ (page_of b f)) false.
Proof.
  intros Hreach Hsteps Horder.
  pose proof (reachable_inv steps b Hreach Hsteps) as Hinv.
  destruct (flush_entries_spec steps order b Hinv)
    as (b' & Hrun & Hinv' & _ & Htb & _ & _ & Hdone & Hsame).
  { intros [p f] He. rewrite Horder in He. apply elem_of_map_to_list in He. exact He. }
  exists b'. split; [exact Hrun|]. split; [exact Htb|].
  intros p f Hp.
  destruct (inv_table _ _ _ Hinv p f Hp) as (Hf & _ & _ & _).
  assert (Hclean : is_dirty_ (page_of b' f) = false).
  { apply (Hdone (p, f)). rewrite Horder. apply elem_of_map_to_list. exact Hp. }
  assert (Hp' : page_table_ b' !! p = Some f) by (rewrite Htb; exact Hp).
  destruct (Hsame f ltac:(lia)) as [Hdata Hpins].
  destruct (inv_table _ _ _ Hinv' p f Hp') as (_ & _ & Hid & _).
  split.
  - rewrite <- Hdata. symmetry. apply (inv_clean _ _ _ Hinv' p f Hp' Hclean).
  - rewrite <- Hdata, <- Hpins, <- Hid, <- Hclean. destruct (page_of b' f). reflexivity.
Qed.

(** A pool of one frame: page 0 is created, then written and unpinned. *)
Definition sevens : page_data := {[0%nat := 7]}.

Definition created_pool : t := pool_of (do_call CNewPage (new 1 2 ∅)).

Definition written_pool : t := pool_of (do_call (CWriteAndUnpin 0 sevens) created_pool).

Lemma created_pool_reachable : reachable 1 created_pool.
Proof.
  apply (reachable_call 0 (new 1 2 ∅) CNewPage).
  - apply reachable_new. lia.
  - vm_compute. reflexivity.
  - vm_compute. reflexivity.
Qed.

Lemma written_pool_reachable : reachable 2 written_pool.
Proof.
  apply (reachable_call 1 created_pool (CWriteAndUnpin 0 sevens)).
  - exact created_pool_reachable.
  - exists 0. split; vm_compute; reflexivity.
  - vm_compute. reflexivity.
Qed.

Lemma written_pool_allocated : allocated written_pool 0.
Proof.
  unfold allocated.
  assert (E : next_page_id_ written_pool = 1) by (vm_compute; reflexivity).
  rewrite E. lia.
Qed.

Lemma X22_pages_keep_their_content_across_calls_witness :
  ∃ b', do_call CNewPage written_pool = Done b' ∧
        (∀ p, allocated written_pool p → untouched CNewPage p →
              content b' p = content written_pool p) ∧
        (∀ q data, CNewPage = CWriteAndUnpin q data → content b' q = data).
Proof.
  apply (X22_pages_keep_their_content_across_calls 2 written_pool CNewPage).
  - exact written_pool_reachable.
  - lia.
  - vm_compute. reflexivity.
Defined.

Lemma X23_fetch_page_returns_the_page_witness :
  ∃ res b', FetchPage 0 written_pool = Done (res, b') ∧
    match res, page_table_ written_pool !! 0 with
    | Some frame, Some resident => frame = resident ∧ b' = written_pool
    | Some frame, None =>
        page_table_ b' !! 0 = Some frame ∧
        page_of b' frame = mkPage (content written_pool 0) 0 1 false ∧
        (free_list_ written_pool ≠ [] ∨
         ∃ f, LRUKReplacer.evictable_of (replacer_ written_pool) f = true)
    | None, Some _ => False
    | None, None =>
        free_list_ written_pool = [] ∧
        (∀ f, LRUKReplacer.evictable_of (replacer_ written_pool) f = false) ∧
        b' = written_pool
    end.
Proof.
  apply (X23_fetch_page_returns_the_page 2 written_pool 0).
  - exact written_pool_reachable.
  - lia.
  - exact written_pool_allocated.
Defined.

Lemma X24_new_page_hands_out_the_next_page_id_witness :
  ∃ res b', NewPage written_pool = Done (res, b') ∧
    match res with
    | Some (frame, page_id) =>
        page_id = next_page_id_ written_pool ∧
        next_page_id_ b' = to_int32 (page_id + 1) ∧
        (page_id < 2 ^ 31 - 1 → next_page_id_ b' = page_id + 1) ∧
        page_table_ b' !! page_id = Some frame ∧
        page_of b' frame = mkPage zero_page page_id 1 false ∧
        (free_list_ written_pool ≠ [] ∨
         ∃ f, LRUKReplacer.evictable_of (replacer_ written_pool) f = true)
    | None =>
        free_list_ written_pool = [] ∧
        (∀ f, LRUKReplacer.evictable_of (replacer_ written_pool) f = false) ∧
        b' = written_pool
    end.
Proof.
  apply (X24_new_page_hands_out_the_next_page_id 2 written_pool).
  - exact written_pool_reachable.
  - lia.
Defined.

Lemma X25_pinned_pages_are_not_evicted_witness :
  ∃ b', do_call CNewPage created_pool = Done b' ∧ page_table_ b' !! 0 = Some 0 ∧
        page_of b' 0 = page_of created_pool 0.
Proof.
  apply (X25_pinned_pages_are_not_evicted 1 created_pool CNewPage 0 0).
  - exact created_pool_reachable.
  - lia.
  - left. reflexivity.
  - vm_compute. reflexivity.
  - vm_compute. reflexivity.
Defined.

Lemma X26_flush_all_pages_writes_every_resident_page_witness :
  ∃ b', FlushAllPages (map_to_list (page_table_ written_pool)) written_pool = Done b' ∧
        page_table_ b' = page_table_ written_pool ∧
        ∀ p f, page_table_ written_pool !! p = Some f →
               disk_read b' p = data_ (page_of written_pool f) ∧
               page_of b' f = mkPage (data_ (page_of written_pool f)) p
                                     (pin_count_ (page_of written_pool f)) false.
Proof.
  apply (X26_flush_all_pages_writes_every_resident_page 2 written_pool).
  - exact written_pool_reachable.
  - lia.
  - reflexivity.
Defined.


(** X30. In such a pool [DeletePage] of an allocated page returns.  It
    refuses a page whose pin count is positive and answers [true] without a
    change for a page that is not resident.  A resident page that is not
    pinned is dropped without a write-back: its frame is reset and put at
    the back of the free list, the other pages keep their content, and the
    page itself falls back to what the disk holds, which is what a later
    [FetchPage] of the same id brings back, in a frame pinned once. *)
Theorem X30_delete_page_frees_the_frame_of_an_unpinned_page
    (steps : nat) (b : t) (p : Z) :
  reachable steps b → Z.of_nat steps + 1 < 2 ^ 64 → allocated b p →
  ∃ res b', DeletePage p b = Done (res, b') ∧
    (∀ q, q ≠ p → content b' q = content b q) ∧
    match page_table_ b !! p with
    | None => res = true ∧ b' = b
    | Some f =>
        if 0 <? pin_count_ (page_of b f) then res = false ∧ b' = b
        else res = true ∧ page_table_ b' !! p = None ∧
             free_list_ b' = free_list_ b ++ [f] ∧
             page_of b' f = mkPage zero_page INVALID_PAGE_ID 0 false ∧
             content b' p = disk_read b p ∧
             ∃ frame b'', FetchPage p b' = Done (Some frame, b'') ∧
                          page_table_ b'' !! p = Some frame ∧
                          page_of b'' frame = mkPage (disk_read b p) p 1 false
    end.
Proof.
  intros Hreach Hsteps Halloc.
  pose proof (reachable_inv steps b Hreach ltac:(lia)) as Hinv.
  destruct (DeletePage_spec steps b p Hinv Halloc)
    as (res & b' & Hrun & Hinv' & Hnext & Hcontent & Hres).
  exists res, b'. split; [exact Hrun|]. split; [exact Hcontent|].
  destruct (page_table_ b !! p) as [f|] eqn:Hp; [|exact Hres].
  destruct (0 <? pin_count_ (page_of b f)); [exact Hres|].
  destruct Hres as (Htrue & Hgone & Hfree & Hpage & Hdisk).
  split; [exact Htrue|]. split; [exact Hgone|]. split; [exact Hfree|].
  split; [exact Hpage|]. split; [exact Hdisk|].
  assert (Halloc' : allocated b' p) by (unfold allocated in *; rewrite Hnext; exact Halloc).
  destruct (FetchPage_spec steps b' p Hinv' Halloc' Hsteps)
    as (got & b'' & Hfetch & _ & _ & _ & _ & Hgot).
  destruct got as [frame|].
  - exists frame, b''. split; [exact Hfetch|].
    destruct Hgot as [Htable Hrest]. split; [exact Htable|].
    rewrite Hgone in Hrest. rewrite Hrest, Hdisk. reflexivity.
  - destruct Hgot as (_ & Hempty & _). rewrite Hfree in Hempty.
    destruct (free_list_ b); discriminate.
Qed.

Lemma X30_delete_page_frees_the_frame_of_an_unpinned_page_witness :
  ∃ res b', DeletePage 0 written_pool = Done (res, b') ∧
    (∀ q, q ≠ 0 → content b' q = content written_pool q) ∧
    match page_table_ written_pool !! 0 with
    | None => res = true ∧ b' = written_pool
    | Some f =>
        if 0 <? pin_count_ (page_of written_pool f) then res = false ∧ b' = written_pool
        else res = true ∧ page_table_ b' !! 0 = None ∧
             free_list_ b' = free_list_ written_pool ++ [f] ∧
             page_of b' f = mkPage zero_page INVALID_PAGE_ID 0 false ∧
             content b' 0 = disk_read written_pool 0 ∧
             ∃ frame b'', FetchPage 0 b' = Done (Some frame, b'') ∧
                          page_table_ b'' !! 0 = Some frame ∧
                          page_of b'' frame = mkPage (disk_read written_pool 0) 0 1 false
    end.
Proof.
  apply (X30_delete_page_frees_the_frame_of_an_unpinned_page 2 written_pool 0).
  - exact written_pool_reachable.
  - lia.
  - exact written_pool_allocated.
Defined.

End BufferPoolManager.

(** ** Page guards (page_guard.cpp) and the guarded fetches of the pool

    A [Page *] is the frame it points to; [None] is [nullptr].  The class
    declarations (page_guard.h) are not part of the sources at hand: a guard
    is taken to have the three members the method bodies read and write,
    value-initialised to null and [false] as [Drop] leaves them, and the
    two-argument [BasicPageGuard] constructor stores its arguments. *)

Module PageGuard.

Module BPM := BufferPoolManager.

Record BasicPageGuard : Type := mkBasic {
  bpm_ : bool;
  page_ : option Z;
  is_dirty_ : bool
}.

Definition null_guard : BasicPageGuard := mkBasic false None false.

(** [BasicPageGuard(bpm, page)] *)
Definition BasicPageGuard_new (page : option Z) : BasicPageGuard :=
  mkBasic true page false.

Record ReadPageGuard : Type := mkRead { read_guard_ : BasicPageGuard }.
Record WritePageGuard : Type := mkWrite { write_guard_ : BasicPageGuard }.

(** [ReadPageGuard::ReadPageGuard(BufferPoolManager *bpm, Page *page) {}]:
    the body is empty and there is no member initialiser, so [guard_] is the
    default guard whatever the arguments are. *)
Definition ReadPageGuard_new (bpm : bool) (page : option Z) : ReadPageGuard :=
  mkRead null_guard.

(** [WritePageGuard::WritePageGuard(BufferPoolManager *bpm, Page *page) {}] *)
Definition WritePageGuard_new (bpm : bool) (page : option Z) : WritePageGuard :=
  mkWrite null_guard.

(** [bpm_->UnpinPage(page_->GetPageId(), is_dirty_)] *)
Definition unpin_through (g : BasicPageGuard) (frame : Z) (b : BPM.t) : outcome BPM.t :=
  if bpm_ g then
    p ←! BPM.frame_at b frame;
    r ←! BPM.UnpinPage (BPM.page_id_ p) (is_dirty_ g) b;
    Done r.2
  else Undefined.

(** [BasicPageGuard::Drop] *)
Definition BasicPageGuard_Drop (g : BasicPageGuard) (b : BPM.t)
  : outcome (BasicPageGuard * BPM.t) :=
  match page_ g with
  | Some frame => b1 ←! unpin_through g frame b; Done (null_guard, b1)
  | None => Done (null_guard, b)
  end.

(** [BasicPageGuard::UpgradeRead]: the latch is taken through [page_] first. *)
Definition UpgradeRead (g : BasicPageGuard) (b : BPM.t)
  : outcome (ReadPageGuard * BasicPageGuard * BPM.t) :=
  match page_ g with
  | None => Undefined
  | Some frame =>
      let b1 := BPM.log (BPM.EvRLatch frame) b in
      Done (ReadPageGuard_new (bpm_ g) (page_ g), null_guard, b1)
  end.

(** [BasicPageGuard::UpgradeWrite] *)
Definition UpgradeWrite (g : BasicPageGuard) (b : BPM.t)
  : outcome (WritePageGuard * BasicPageGuard * BPM.t) :=
  match page_ g with
  | None => Undefined
  | Some frame =>
      let b1 := BPM.log (BPM.EvWLatch frame) b in
      Done (WritePageGuard_new (bpm_ g) (page_ g), null_guard, b1)
  end.

(** [ReadPageGuard::Drop] *)
Definition ReadPageGuard_Drop (g : ReadPageGuard) (b : BPM.t)
  : outcome (ReadPageGuard * BPM.t) :=
  let basic_guard := read_guard_ g in
  match page_ basic_guard with
  | Some frame =>
      b1 ←! unpin_through basic_guard frame b;
      Done (mkRead null_guard, BPM.log (BPM.EvRUnlatch frame) b1)
  | None => Done (mkRead null_guard, b)
  end.

(** [WritePageGuard::Drop] *)
Definition WritePageGuard_Drop (g : WritePageGuard) (b : BPM.t)
  : outcome (WritePageGuard * BPM.t) :=
  let basic_guard := write_guard_ g in
  match page_ basic_guard with
  | Some frame =>
      b1 ←! unpin_through basic_guard frame b;
      Done (mkWrite null_guard, BPM.log (BPM.EvWUnlatch frame) b1)
  | None => Done (mkWrite null_guard, b)
  end.

(** [BufferPoolManager::FetchPageRead]: [page->RLatch()] comes before the
    [assert(page != nullptr)], so a failed fetch is a null dereference. *)
Definition FetchPageRead (page_id : Z) (b : BPM.t) : outcome (ReadPageGuard * BPM.t) :=
  p ←! BPM.FetchPage page_id b;
  match p.1 with
  | None => Undefined
  | Some frame =>
      Done (ReadPageGuard_new true (Some frame), BPM.log (BPM.EvRLatch frame) p.2)
  end.

(** [BufferPoolManager::FetchPageWrite] *)
Definition FetchPageWrite (page_id : Z) (b : BPM.t) : outcome (WritePageGuard * BPM.t) :=
  p ←! BPM.FetchPage page_id b;
  match p.1 with
  | None => Undefined
  | Some frame =>
      Done (WritePageGuard_new true (Some frame), BPM.log (BPM.EvWLatch frame) p.2)
  end.

(** [BufferPoolManager::FetchPageBasic] *)
Definition FetchPageBasic (page_id : Z) (b : BPM.t) : outcome (BasicPageGuard * BPM.t) :=
  p ←! BPM.FetchPage page_id b;
  Done (BasicPageGuard_new p.1, p.2).

(** [BufferPoolManager::NewPageGuarded] *)
Definition NewPageGuarded (b : BPM.t) : outcome (BasicPageGuard * Z * BPM.t) :=
  p ←! BPM.NewPage b;
  match p.1 with
  | None => AssertionFailed "new_page != nullptr"
  | Some (frame, page_id) => Done (BasicPageGuard_new (Some frame), page_id, p.2)
  end.

(** Fetch page 5 for reading from a fresh pool of two frames, then drop the
    guard twice. *)
Definition fetch_read_then_drop_twice : outcome (ReadPageGuard * BPM.t) :=
  p ←! FetchPageRead 5 (BPM.new 2 2 ∅);
  q ←! ReadPageGuard_Drop p.1 p.2;
  ReadPageGuard_Drop q.1 q.2.

Definition fetch_write_then_drop : outcome (WritePageGuard * BPM.t) :=
  p ←! FetchPageWrite 5 (BPM.new 2 2 ∅);
  WritePageGuard_Drop p.1 p.2.

Definition is_unpin (e : BPM.event) : bool :=
  match e with
  | BPM.EvUnpinPage _ _ => true
  | _ => false
  end.

Definition count_unpins (tr : list BPM.event) : nat :=
  length (filter (λ e, is_unpin e = true) tr).

(** A guard obtained from a guarded fetch never holds its page. *)
Lemma fetched_read_guard_is_empty page_id b g b1 :
  FetchPageRead page_id b = Done (g, b1) → page_ (read_guard_ g) = None.
Proof.
  unfold FetchPageRead. destruct (BPM.FetchPage page_id b) as [[[f|] b2]| | |];
    simpl; intros H; try discriminate.
  injection H as <- _. reflexivity.
Qed.

Lemma fetched_write_guard_is_empty page_id b g b1 :
  FetchPageWrite page_id b = Done (g, b1) → page_ (write_guard_ g) = None.
Proof.
  unfold FetchPageWrite. destruct (BPM.FetchPage page_id b) as [[[f|] b2]| | |];
    simpl; intros H; try discriminate.
  injection H as <- _. reflexivity.
Qed.

(** C5 (the code loses the obligation): the guard returned by
    [FetchPageRead] was built by the constructor with the empty body, so its
    [page_] is null; [Drop] then skips both the unlatch and the unpin.  After
    fetch and two drops the trace holds the read of the page and the
    [RLatch], and neither an [RUnlatch] nor any [UnpinPage]; the frame keeps
    its pin count of 1. *)
Theorem C5_fetched_guard_never_unpins :
  omap (λ p, (BPM.trace_ p.2, count_unpins (BPM.trace_ p.2),
              BPM.pin_count_ <$> BPM.pages_ p.2 !! 0%nat))
       fetch_read_then_drop_twice
  = Done ([BPM.EvSchedule false 5 BPM.zero_page; BPM.EvFutureGet false 5;
           BPM.EvRLatch 0],
          0%nat, Some 1).
Proof. vm_compute. reflexivity. Qed.

Lemma fetched_write_guard_never_unpins :
  omap (λ p, BPM.trace_ p.2) fetch_write_then_drop
  = Done [BPM.EvSchedule false 5 BPM.zero_page; BPM.EvFutureGet false 5;
          BPM.EvWLatch 0].
Proof. vm_compute. reflexivity. Qed.

(** The order inside [Drop], on a guard that does hold a page (one the
    empty constructors never produce): [UnpinPage] is called first, the
    latch is released after it. *)
Lemma read_guard_drop_unpins_before_unlatch :
  (p ←! BPM.FetchPage 5 (BPM.new 2 2 ∅);
   q ←! ReadPageGuard_Drop (mkRead (mkBasic true p.1 false)) p.2;
   Done (p.1, BPM.appended p.2 q.2, page_ (read_guard_ q.1)))
  = Done (Some 0, [BPM.EvUnpinPage 5 false; BPM.EvRUnlatch 0], None).
Proof. vm_compute. reflexivity. Qed.

(** Dropping a dropped guard does nothing. *)
Lemma read_guard_second_drop_is_noop g b g1 b1 :
  ReadPageGuard_Drop g b = Done (g1, b1) → ReadPageGuard_Drop g1 b1 = Done (g1, b1).
Proof.
  unfold ReadPageGuard_Drop. destruct (page_ (read_guard_ g)) as [f|].
  - destruct (unpin_through (read_guard_ g) f b); simpl; intros H; try discriminate.
    injection H as <- <-. reflexivity.
  - intros H. injection H as <- <-. reflexivity.
Qed.


(** *** Guards on the pools the buffer pool manager reaches

    A guard that holds frame [f] of page [p] hands [p] to [UnpinPage] when it
    is dropped, and is empty afterwards. *)
Lemma held_guard_drop (steps : nat) (b : BPM.t) (p f : Z) (dirty : bool) :
  BPM.pool_inv steps None b → BPM.page_table_ b !! p = Some f →
  ∃ res b', BPM.UnpinPage p dirty b = Done (res, b') ∧
            BasicPageGuard_Drop (mkBasic true (Some f) dirty) b = Done (null_guard, b').
Proof.
  intros Hinv Hp.
  destruct (BPM.inv_table _ _ _ Hinv p f Hp) as (Hf & _ & Hid & _).
  pose proof (BPM.inv_pages _ _ _ Hinv) as Hlen.
  destruct (BPM.UnpinPage_spec steps b p dirty Hinv) as (res & b' & Hrun & _).
  exists res, b'. split; [exact Hrun|].
  unfold BasicPageGuard_Drop, unpin_through. cbn [page_ bpm_ is_dirty_].
  rewrite BPM.frame_at_page_of by lia. cbn [obind]. rewrite Hid, Hrun. reflexivity.
Qed.

(** X27. In a pool reached by admissible calls, [FetchPageBasic] of an
    allocated page followed by [Drop] of the guard returns and keeps the
    content of every allocated page.  A page that was not resident is left
    resident, clean and with pin count 0: the guard gives back the pin of the
    fetch.  A page that was resident is not pinned by the fetch, so the drop
    takes a pin away from whoever held the page: its pin count is one less
    than before the fetch (and unchanged when it was not positive).  When no
    frame can be had the guard holds no page and the pool is unchanged. *)
Theorem X27_basic_guard_drop_unpins_once (steps : nat) (b : BPM.t) (page_id : Z) :
  BPM.reachable steps b → Z.of_nat steps + 1 < 2 ^ 64 → BPM.allocated b page_id →
  ∃ g b1 b2,
    FetchPageBasic page_id b = Done (g, b1) ∧
    BasicPageGuard_Drop g b1 = Done (null_guard, b2) ∧
    (∀ p, BPM.allocated b p → BPM.content b2 p = BPM.content b p) ∧
    match page_ g, BPM.page_table_ b !! page_id with
    | Some f, Some resident =>
        f = resident ∧ BPM.page_table_ b2 !! page_id = Some f ∧
        BPM.pin_count_ (BPM.page_of b2 f) =
          (if 0 <? BPM.pin_count_ (BPM.page_of b f)
           then BPM.pin_count_ (BPM.page_of b f) - 1
           else BPM.pin_count_ (BPM.page_of b f))
    | Some f, None =>
        BPM.page_table_ b2 !! page_id = Some f ∧
        BPM.page_of b2 f = BPM.mkPage (BPM.content b page_id) page_id 0 false
    | None, Some _ => False
    | None, None => b2 = b
    end.
Proof.
  intros Hreach Hsteps Halloc.
  pose proof (BPM.reachable_inv steps b Hreach ltac:(lia)) as Hinv.
  destruct (BPM.FetchPage_spec steps b page_id Hinv Halloc Hsteps)
    as (res & b1 & Hrun & Hinv1 & _ & Hcontent & _ & Hres).
  exists (BasicPageGuard_new res), b1.
  unfold FetchPageBasic. rewrite Hrun. cbn [obind fst snd].
  destruct res as [f|].
  - destruct Hres as [Hp1 Hres].
    destruct (held_guard_drop (S steps) b1 page_id f false Hinv1 Hp1) as (r & b2 & Hunpin & Hdrop).
    destruct (BPM.UnpinPage_spec (S steps) b1 page_id false Hinv1)
      as (r' & b2' & Hunpin' & _ & _ & Htable & Hcontent2 & Hpage).
    rewrite Hunpin in Hunpin'. injection Hunpin' as <- <-.
    exists b2. split; [reflexivity|]. split; [exact Hdrop|].
    split; [intros p Hpa; rewrite Hcontent2; apply Hcontent; exact Hpa|].
    cbn [BasicPageGuard_new page_]. rewrite Hp1 in Hpage.
    destruct (BPM.page_table_ b !! page_id) as [resident|] eqn:Hp.
    + destruct Hres as [-> ->]. split; [reflexivity|].
      split; [rewrite Htable; exact Hp|].
      destruct (0 <? BPM.pin_count_ (BPM.page_of b resident)).
      * destruct Hpage as [_ ->]. reflexivity.
      * destruct Hpage as [_ ->]. reflexivity.
    + split; [rewrite Htable; exact Hp1|].
      rewrite Hres in Hpage. cbn [BPM.pin_count_ BPM.data_ BPM.is_dirty_] in Hpage.
      destruct Hpage as [_ ->]. reflexivity.
  - destruct Hres as (Hnone & _ & _ & ->).
    exists b. split; [reflexivity|]. split; [reflexivity|]. split; [reflexivity|].
    cbn [BasicPageGuard_new page_]. rewrite Hnone. reflexivity.
Qed.

(** [NewPage] finds a frame only on the free list or through the replacer. *)
Lemma new_page_needs_a_frame (steps : nat) (b b' : BPM.t) (res : Z * Z) :
  BPM.pool_inv steps None b → BPM.NewPage b = Done (Some res, b') →
  BPM.free_list_ b ≠ [] ∨ ∃ f, LRUKReplacer.evictable_of (BPM.replacer_ b) f = true.
Proof.
  intros Hinv Hrun.
  destruct (BPM.free_list_ b) as [|f0 rest] eqn:Hfree; [right|left; discriminate].
  unfold BPM.NewPage in Hrun. rewrite Hfree in Hrun.
  pose proof (LRUKReplacer.Evict_well_formed (BPM.replacer_ b) (BPM.inv_replacer _ _ _ Hinv)) as He.
  destruct (LRUKReplacer.victim (BPM.replacer_ b)) as [v|].
  - destruct He as (r' & _ & _ & Hev & _). exists v. exact Hev.
  - destruct He as [He _]. unfold BPM.evict_and_write_back in Hrun. rewrite He in Hrun.
    cbn [obind fst snd] in Hrun. discriminate.
Qed.

(** X28. In a pool reached by admissible calls in which a further
    [NewPage] is admissible, [NewPageGuarded] fails its
    assertion exactly when the free list is empty and no frame is evictable.
    Otherwise it hands out the next page id with a guard that holds the new
    page, zeroed and pinned once.  Dropping that guard returns the pin: the
    page stays resident with pin count 0 and the content of the other pages
    is kept.  Upgrading the guard instead loses the pin: the write guard
    that [UpgradeWrite] returns and the guard it leaves behind are both
    empty, their drops change nothing, and the page keeps its pin count of 1
    and its latch. *)
Theorem X28_new_page_guard_returns_its_pin_unless_upgraded (steps : nat) (b : BPM.t) :
  BPM.reachable steps b → Z.of_nat steps + 1 < 2 ^ 64 → BPM.admissible b BPM.CNewPage →
  match NewPageGuarded b with
  | Done (g, page_id, b1) =>
      (BPM.free_list_ b ≠ [] ∨
       ∃ f, LRUKReplacer.evictable_of (BPM.replacer_ b) f = true) ∧
      page_id = BPM.next_page_id_ b ∧
      ∃ f b2,
        page_ g = Some f ∧
        BPM.page_of b1 f = BPM.mkPage BPM.zero_page page_id 1 false ∧
        BasicPageGuard_Drop g b1 = Done (null_guard, b2) ∧
        BPM.page_table_ b2 !! page_id = Some f ∧
        BPM.page_of b2 f = BPM.mkPage BPM.zero_page page_id 0 false ∧
        (∀ p, BPM.allocated b p → BPM.content b2 p = BPM.content b p) ∧
        let b3 := BPM.log (BPM.EvWLatch f) b1 in
        UpgradeWrite g b1 = Done (mkWrite null_guard, null_guard, b3) ∧
        WritePageGuard_Drop (mkWrite null_guard) b3 = Done (mkWrite null_guard, b3) ∧
        BasicPageGuard_Drop null_guard b3 = Done (null_guard, b3) ∧
        BPM.page_of b3 f = BPM.mkPage BPM.zero_page page_id 1 false
  | AssertionFailed _ =>
      BPM.free_list_ b = [] ∧
      ∀ f, LRUKReplacer.evictable_of (BPM.replacer_ b) f = false
  | _ => False
  end.
Proof.
  intros Hreach Hsteps Hadm.
  pose proof (BPM.reachable_inv steps b Hreach ltac:(lia)) as Hinv.
  destruct (BPM.NewPage_spec steps b Hinv Hsteps) as (res & b1 & Hrun & Hinv1 & Hres).
  specialize (Hinv1 Hadm).
  unfold NewPageGuarded. rewrite Hrun. cbn [obind fst snd].
  destruct res as [[f id]|].
  - destruct Hres as (Hid & _ & Htable & Hpage & Hcontent & _).
    split; [apply (new_page_needs_a_frame steps b b1 (f, id) Hinv Hrun)|].
    split; [exact Hid|].
    destruct (held_guard_drop (S steps) b1 id f false Hinv1 Htable) as (r & b2 & Hunpin & Hdrop).
    destruct (BPM.UnpinPage_spec (S steps) b1 id false Hinv1)
      as (r' & b2' & Hunpin' & _ & _ & Htable2 & Hcontent2 & Hpage2).
    rewrite Hunpin in Hunpin'. injection Hunpin' as <- <-.
    exists f, b2. split; [reflexivity|]. split; [exact Hpage|].
    split; [exact Hdrop|]. split; [rewrite Htable2; exact Htable|].
    rewrite Htable, Hpage in Hpage2. cbn [BPM.pin_count_ BPM.data_ BPM.is_dirty_] in Hpage2.
    split; [destruct Hpage2 as [_ ->]; reflexivity|].
    split; [intros p Hp; rewrite Hcontent2; apply Hcontent; exact Hp|].
    cbn zeta. split; [reflexivity|]. split; [reflexivity|]. split; [reflexivity|].
    destruct (BPM.log_inv (S steps) b1 (BPM.EvWLatch f) Hinv1) as (_ & _ & _ & Hsame & _).
    rewrite Hsame. exact Hpage.
  - destruct Hres as (Hfree & Hnone & _). split; [exact Hfree|exact Hnone].
Qed.

(** A pinned page stays in its frame across [NewPage] and [FetchPage],
    whatever was logged in between. *)
Lemma pinned_page_stays (steps : nat) (b : BPM.t) (c : BPM.call) (p f : Z) :
  BPM.pool_inv steps None b → Z.of_nat steps + 1 < 2 ^ 64 →
  (c = BPM.CNewPage ∨ ∃ q, c = BPM.CFetchPage q ∧ BPM.allocated b q) →
  BPM.page_table_ b !! p = Some f → 0 < BPM.pin_count_ (BPM.page_of b f) →
  ∃ b', BPM.do_call c b = Done b' ∧ BPM.page_table_ b' !! p = Some f ∧
        BPM.page_of b' f = BPM.page_of b f.
Proof.
  intros Hinv Hsteps Hc Hp Hpin.
  destruct Hc as [->|(q & -> & Halloc)]; cbn [BPM.do_call].
  - destruct (BPM.NewPage_spec steps b Hinv Hsteps) as (res & b' & -> & _ & Hres).
    exists b'. cbn [obind snd]. split; [reflexivity|].
    destruct res as [[v id]|].
    + destruct Hres as (_ & _ & _ & _ & _ & Hkeep). apply (Hkeep p f Hp Hpin).
    + destruct Hres as (_ & _ & ->). auto.
  - destruct (BPM.FetchPage_spec steps b q Hinv Halloc Hsteps)
      as (res & b' & -> & _ & _ & _ & Hkeep & _).
    exists b'. cbn [obind snd]. split; [reflexivity|]. apply (Hkeep p f Hp Hpin).
Qed.

(** X29. In a pool reached by admissible calls, [FetchPageRead] and
    [FetchPageWrite] of an allocated page dereference a null pointer exactly
    when [FetchPage] finds no frame.  Otherwise they latch the frame and
    return a guard that holds nothing, so dropping the guard changes
    nothing: the latch is not released and no page is unpinned.  A page that
    was not resident is therefore left with pin count 1, and it stays in its
    frame across every later [NewPage] and every later [FetchPage] of an
    allocated page. *)
Theorem X29_latching_guards_never_give_back_the_pin
    (steps : nat) (b : BPM.t) (page_id : Z) :
  BPM.reachable steps b → Z.of_nat steps + 2 < 2 ^ 64 → BPM.allocated b page_id →
  ∃ res b1, BPM.FetchPage page_id b = Done (res, b1) ∧
    match res with
    | None => FetchPageRead page_id b = Undefined ∧ FetchPageWrite page_id b = Undefined
    | Some f =>
        let br := BPM.log (BPM.EvRLatch f) b1 in
        let bw := BPM.log (BPM.EvWLatch f) b1 in
        FetchPageRead page_id b = Done (mkRead null_guard, br) ∧
        ReadPageGuard_Drop (mkRead null_guard) br = Done (mkRead null_guard, br) ∧
        FetchPageWrite page_id b = Done (mkWrite null_guard, bw) ∧
        WritePageGuard_Drop (mkWrite null_guard) bw = Done (mkWrite null_guard, bw) ∧
        (BPM.page_table_ b !! page_id = None →
         ∀ b2, b2 = br ∨ b2 = bw →
           BPM.page_table_ b2 !! page_id = Some f ∧
           BPM.pin_count_ (BPM.page_of b2 f) = 1 ∧
           ∀ c, c = BPM.CNewPage ∨ (∃ q, c = BPM.CFetchPage q ∧ BPM.allocated b2 q) →
                ∃ b', BPM.do_call c b2 = Done b' ∧
                      BPM.page_table_ b' !! page_id = Some f ∧
                      BPM.page_of b' f = BPM.page_of b2 f)
    end.
Proof.
  intros Hreach Hsteps Halloc.
  pose proof (BPM.reachable_inv steps b Hreach ltac:(lia)) as Hinv.
  destruct (BPM.FetchPage_spec steps b page_id Hinv Halloc ltac:(lia))
    as (res & b1 & Hrun & Hinv1 & _ & _ & _ & Hres).
  exists res, b1. split; [exact Hrun|].
  unfold FetchPageRead, FetchPageWrite. rewrite Hrun. cbn [obind fst snd].
  destruct res as [f|]; [|split; reflexivity].
  cbn zeta. split; [reflexivity|]. split; [reflexivity|].
  split; [reflexivity|]. split; [reflexivity|].
  intros Hnone. rewrite Hnone in Hres. destruct Hres as [Htable Hpage].
  assert (Hlog : ∀ e,
    BPM.pool_inv (S steps) None (BPM.log e b1) ∧
    BPM.page_table_ (BPM.log e b1) !! page_id = Some f ∧
    BPM.pin_count_ (BPM.page_of (BPM.log e b1) f) = 1).
  { intros e. destruct (BPM.log_inv (S steps) b1 e Hinv1) as (Hinv2 & _ & Htb & Hsame & _).
    split; [exact Hinv2|]. split; [rewrite Htb; exact Htable|].
    rewrite Hsame, Hpage. reflexivity. }
  intros b2 Hb2.
  assert (H2 : BPM.pool_inv (S steps) None b2 ∧ BPM.page_table_ b2 !! page_id = Some f ∧
               BPM.pin_count_ (BPM.page_of b2 f) = 1).
  { destruct Hb2 as [->| ->]; apply Hlog. }
  destruct H2 as (Hinv2 & Htable2 & Hpin2).
  split; [exact Htable2|]. split; [exact Hpin2|].
  intros c Hc. apply (pinned_page_stays (S steps) b2 c page_id f Hinv2); try assumption; lia.
Qed.

Lemma X27_basic_guard_drop_unpins_once_witness :
  ∃ g b1 b2,
    FetchPageBasic 0 BPM.written_pool = Done (g, b1) ∧
    BasicPageGuard_Drop g b1 = Done (null_guard, b2) ∧
    (∀ p, BPM.allocated BPM.written_pool p →
          BPM.content b2 p = BPM.content BPM.written_pool p) ∧
    match page_ g, BPM.page_table_ BPM.written_pool !! 0 with
    | Some f, Some resident =>
        f = resident ∧ BPM.page_table_ b2 !! 0 = Some f ∧
        BPM.pin_count_ (BPM.page_of b2 f) =
          (if 0 <? BPM.pin_count_ (BPM.page_of BPM.written_pool f)
           then BPM.pin_count_ (BPM.page_of BPM.written_pool f) - 1
           else BPM.pin_count_ (BPM.page_of BPM.written_pool f))
    | Some f, None =>
        BPM.page_table_ b2 !! 0 = Some f ∧
        BPM.page_of b2 f = BPM.mkPage (BPM.content BPM.written_pool 0) 0 0 false
    | None, Some _ => False
    | None, None => b2 = BPM.written_pool
    end.
Proof.
  apply (X27_basic_guard_drop_unpins_once 2 BPM.written_pool 0).
  - exact BPM.written_pool_reachable.
  - lia.
  - exact BPM.written_pool_allocated.
Defined.

Lemma X28_new_page_guard_returns_its_pin_unless_upgraded_witness :
  match NewPageGuarded BPM.written_pool with
  | Done (g, page_id, b1) =>
      (BPM.free_list_ BPM.written_pool ≠ [] ∨
       ∃ f, LRUKReplacer.evictable_of (BPM.replacer_ BPM.written_pool) f = true) ∧
      page_id = BPM.next_page_id_ BPM.written_pool ∧
      ∃ f b2,
        page_ g = Some f ∧
        BPM.page_of b1 f = BPM.mkPage BPM.zero_page page_id 1 false ∧
        BasicPageGuard_Drop g b1 = Done (null_guard, b2) ∧
        BPM.page_table_ b2 !! page_id = Some f ∧
        BPM.page_of b2 f = BPM.mkPage BPM.zero_page page_id 0 false ∧
        (∀ p, BPM.allocated BPM.written_pool p →
              BPM.content b2 p = BPM.content BPM.written_pool p) ∧
        let b3 := BPM.log (BPM.EvWLatch f) b1 in
        UpgradeWrite g b1 = Done (mkWrite null_guard, null_guard, b3) ∧
        WritePageGuard_Drop (mkWrite null_guard) b3 = Done (mkWrite null_guard, b3) ∧
        BasicPageGuard_Drop null_guard b3 = Done (null_guard, b3) ∧
        BPM.page_of b3 f = BPM.mkPage BPM.zero_page page_id 1 false
  | AssertionFailed _ =>
      BPM.free_list_ BPM.written_pool = [] ∧
      ∀ f, LRUKReplacer.evictable_of (BPM.replacer_ BPM.written_pool) f = false
  | _ => False
  end.
Proof.
  apply (X28_new_page_guard_returns_its_pin_unless_upgraded 2 BPM.written_pool).
  - exact BPM.written_pool_reachable.
  - lia.
  - vm_compute. reflexivity.
Defined.

(** The pool of one frame after page 0 was written and unpinned, page 1
    was created in its place and unpinned: page 0 is on disk only. *)
Definition evicted_pool : BPM.t :=
  BPM.pool_of (BPM.do_call (BPM.CUnpinPage 1 false)
                 (BPM.pool_of (BPM.do_call BPM.CNewPage BPM.written_pool))).

Lemma evicted_pool_reachable : BPM.reachable 4 evicted_pool.
Proof.
  apply (BPM.reachable_call 3 (BPM.pool_of (BPM.do_call BPM.CNewPage BPM.written_pool))
           (BPM.CUnpinPage 1 false)).
  - apply (BPM.reachable_call 2 BPM.written_pool BPM.CNewPage).
    + exact BPM.written_pool_reachable.
    + vm_compute. reflexivity.
    + vm_compute. reflexivity.
  - unfold BPM.admissible, BPM.allocated.
    assert (E : BPM.next_page_id_ (BPM.pool_of (BPM.do_call BPM.CNewPage BPM.written_pool)) = 2)
      by (vm_compute; reflexivity).
    rewrite E. lia.
  - vm_compute. reflexivity.
Qed.

Lemma evicted_pool_page_0_not_resident : BPM.page_table_ evicted_pool !! 0 = None.
Proof. vm_compute. reflexivity. Qed.

Lemma X29_latching_guards_never_give_back_the_pin_witness :
  ∃ res b1, BPM.FetchPage 0 evicted_pool = Done (res, b1) ∧
    match res with
    | None => FetchPageRead 0 evicted_pool = Undefined ∧
              FetchPageWrite 0 evicted_pool = Undefined
    | Some f =>
        let br := BPM.log (BPM.EvRLatch f) b1 in
        let bw := BPM.log (BPM.EvWLatch f) b1 in
        FetchPageRead 0 evicted_pool = Done (mkRead null_guard, br) ∧
        ReadPageGuard_Drop (mkRead null_guard) br = Done (mkRead null_guard, br) ∧
        FetchPageWrite 0 evicted_pool = Done (mkWrite null_guard, bw) ∧
        WritePageGuard_Drop (mkWrite null_guard) bw = Done (mkWrite null_guard, bw) ∧
        (BPM.page_table_ evicted_pool !! 0 = None →
         ∀ b2, b2 = br ∨ b2 = bw →
           BPM.page_table_ b2 !! 0 = Some f ∧
           BPM.pin_count_ (BPM.page_of b2 f) = 1 ∧
           ∀ c, c = BPM.CNewPage ∨ (∃ q, c = BPM.CFetchPage q ∧ BPM.allocated b2 q) →
                ∃ b', BPM.do_call c b2 = Done b' ∧
                      BPM.page_table_ b' !! 0 = Some f ∧
                      BPM.page_of b' f = BPM.page_of b2 f)
    end.
Proof.
  apply (X29_latching_guards_never_give_back_the_pin 4 evicted_pool 0).
  - exact evicted_pool_reachable.
  - lia.
  - unfold BPM.allocated.
    assert (E : BPM.next_page_id_ evicted_pool = 2) by (vm_compute; reflexivity).
    rewrite E. lia.
Defined.

End PageGuard.

(** ** Executor-layer values

    Modelled from the spec: [Value], [Tuple], [RID], [TupleMeta] and the
    three-valued [CmpBool] are declared in headers that are not part of the
    sources at hand.  A value is a type tag with an optional payload ([None]
    is SQL NULL); comparisons involving NULL yield [CmpNull]. *)

Inductive TypeId : Type := BOOLEAN | INTEGER | VARCHAR.

Record Value : Type := mkValue { type_id_ : TypeId; payload_ : option Z }.

Inductive CmpBool : Type := CmpFalse | CmpTrue | CmpNull.

(** [static_cast<bool>(CmpBool)]: the enumerators are 0, 1 and 2. *)
Definition CmpBool_to_bool (c : CmpBool) : bool :=
  match c with
  | CmpFalse => false
  | CmpTrue | CmpNull => true
  end.

Definition IsNull (v : Value) : bool :=
  match payload_ v with
  | None => true
  | Some _ => false
  end.

(** [Value::GetAs<bool>]: the stored value read as a [bool], with no test
    for NULL.  A BOOLEAN holds 0, 1 or, when it is NULL, the marker
    [BUSTUB_BOOLEAN_NULL = -128], which reads as [true]; the NULL markers of
    the other types have a zero low byte. *)
Definition GetAs_bool (v : Value) : bool :=
  match payload_ v with
  | Some n => negb (n =? 0)
  | None =>
      match type_id_ v with
      | BOOLEAN => true
      | _ => false
      end
  end.

Definition compare_with (rel : Z → Z → bool) (a b : Value) : CmpBool :=
  match payload_ a, payload_ b with
  | Some x, Some y => if rel x y then CmpTrue else CmpFalse
  | _, _ => CmpNull
  end.

Definition CompareLessThan : Value → Value → CmpBool := compare_with Z.ltb.
Definition CompareGreaterThan : Value → Value → CmpBool := compare_with Z.gtb.
Definition CompareEquals : Value → Value → CmpBool := compare_with Z.eqb.

(** [ValueFactory::GetNullValueByType] *)
Definition GetNullValueByType (ty : TypeId) : Value := mkValue ty None.

Definition Integer (n : Z) : Value := mkValue INTEGER (Some n).

Record RID : Type := mkRID { rid_page_id_ : Z; slot_num_ : Z }.

(** [RID()] *)
Definition RID_default : RID := mkRID (-1) 0.

Global Instance RID_eq_dec : EqDecision RID.
Proof. solve_decision. Defined.

Global Instance RID_countable : Countable RID.
Proof.
  refine (inj_countable' (λ r, (rid_page_id_ r, slot_num_ r))
                         (λ p, mkRID p.1 p.2) _).
  intros []. reflexivity.
Defined.

Record Tuple : Type := mkTuple { values_ : list Value; rid_ : RID }.

(** [Tuple{values, schema}] *)
Definition Tuple_of_values (vs : list Value) : Tuple := mkTuple vs RID_default.

Record TupleMeta : Type := mkTupleMeta { ts_ : Z; is_deleted_ : bool }.

(** A child executor whose output is known: [Init] rewinds, [Next] hands out
    the rows one after the other and then keeps returning [false]. *)
Module ChildExecutor.

Record t : Type := mk { rows_ : list (Tuple * RID); pos_ : nat }.

Definition of_rows (rows : list (Tuple * RID)) : t := mk rows 0%nat.

Definition Init (c : t) : t := mk (rows_ c) 0%nat.

Definition Next (c : t) : option (Tuple * RID) * t :=
  match rows_ c !! pos_ c with
  | Some row => (Some row, mk (rows_ c) (S (pos_ c)))
  | None => (None, c)
  end.

End ChildExecutor.

(** ** Index scan (index_scan_executor.cpp) *)

Module IndexScanExecutor.

Record t : Type := mk {
  filter_predicate_ : option (Tuple → Value);
  table_heap_ : gmap RID (TupleMeta * Tuple);
  rid_list_ : list RID;
  cursor_ : nat
}.

(** [IndexScanExecutor::Next].  One round of the [while (true)] per unit of
    fuel.  A RID the table heap does not know is outside the contract of
    [GetTupleMeta]. *)
Fixpoint Next (fuel : nat) (e : t) : outcome (option (Tuple * RID) * t) :=
  match fuel with
  | O => OutOfFuel
  | S fuel' =>
      match rid_list_ e !! cursor_ e with
      | None => Done (None, e)
      | Some rid =>
          match table_heap_ e !! rid with
          | None => Undefined
          | Some (meta, tuple) =>
              if is_deleted_ meta then Next fuel' e
              else
                let e' := mk (filter_predicate_ e) (table_heap_ e) (rid_list_ e)
                             (S (cursor_ e)) in
                match filter_predicate_ e with
                | Some pred =>
                    if GetAs_bool (pred tuple)
                    then Done (Some (tuple, rid), e')
                    else Done (Some (tuple, rid), e')
                | None => Done (Some (tuple, rid), e')
                end
          end
      end
  end.

(** An index that still lists the RID of a deleted tuple. *)
Definition stale_rid : RID := mkRID 0 0.

Definition stale_scan : t :=
  mk None
     {[ stale_rid := (mkTupleMeta 0 true, Tuple_of_values [Integer 7]) ]}
     [stale_rid] 0%nat.

(** A round that meets a deleted tuple leaves the executor as it was. *)
Lemma Next_stuck_on_deleted (e : t) (rid : RID) (meta : TupleMeta) (tuple : Tuple) :
  rid_list_ e !! cursor_ e = Some rid →
  table_heap_ e !! rid = Some (meta, tuple) →
  is_deleted_ meta = true →
  ∀ fuel, Next fuel e = OutOfFuel.
Proof.
  intros Hrid Hheap Hdel fuel. induction fuel as [|fuel IH]; simpl.
  - reflexivity.
  - rewrite Hrid, Hheap, Hdel. exact IH.
Qed.

(** C4 (the code does not terminate): with a RID list holding one RID whose
    tuple is marked deleted, [Next] never returns, however many rounds of its
    loop are run: [continue] is reached before [cursor_++]. *)
Theorem C4_next_loops_on_deleted_entry : ∀ fuel, Next fuel stale_scan = OutOfFuel.
Proof.
  apply (Next_stuck_on_deleted stale_scan stale_rid (mkTupleMeta 0 true)
                               (Tuple_of_values [Integer 7])).
  - reflexivity.
  - vm_compute. reflexivity.
  - reflexivity.
Qed.

(** Without deleted entries under the cursor the call does return. *)
Lemma Next_returns_live_entry (e : t) (rid : RID) (meta : TupleMeta) (tuple : Tuple) fuel :
  rid_list_ e !! cursor_ e = Some rid →
  table_heap_ e !! rid = Some (meta, tuple) →
  is_deleted_ meta = false →
  Next (S fuel) e =
    Done (Some (tuple, rid),
          mk (filter_predicate_ e) (table_heap_ e) (rid_list_ e) (S (cursor_ e))).
Proof.
  intros Hrid Hheap Hdel. simpl. rewrite Hrid, Hheap, Hdel.
  destruct (filter_predicate_ e) as [pred|]; [destruct (GetAs_bool (pred tuple))|]; reflexivity.
Qed.

Lemma Next_at_end (e : t) fuel :
  rid_list_ e !! cursor_ e = None → Next (S fuel) e = Done (None, e).
Proof. intros H. simpl. rewrite H. reflexivity. Qed.

(** Successive [Next] calls until the first [false]. *)
Fixpoint drain (calls fuel : nat) (e : t) : outcome (list (Tuple * RID)) :=
  match calls with
  | O => OutOfFuel
  | S calls' =>
      p ←! Next fuel e;
      match p.1 with
      | None => Done []
      | Some row => rest ←! drain calls' fuel p.2; Done (row :: rest)
      end
  end.

(** [row] is the tuple the table heap holds at [rid], not marked deleted. *)
Definition live_at (heap : gmap RID (TupleMeta * Tuple)) (rid : RID) (row : Tuple * RID) : Prop :=
  row.2 = rid ∧ ∃ meta, heap !! rid = Some (meta, row.1) ∧ is_deleted_ meta = false.

(** X11. When no RID from the cursor on belongs to a deleted tuple,
    successive [Next] calls return the tuple of every such RID, in the order
    of the RID list, and then [false]; one round of the loop per call is
    enough.  The tuples are returned whether or not the filter predicate holds
    for them. *)
Theorem X11_index_scan_returns_every_listed_tuple
    (e : t) (rows : list (Tuple * RID)) (calls fuel : nat) :
  Forall2 (live_at (table_heap_ e)) (drop (cursor_ e) (rid_list_ e)) rows →
  (length rows < calls)%nat → (0 < fuel)%nat →
  drain calls fuel e = Done rows.
Proof.
  intros Hrows. revert e Hrows calls.
  induction rows as [|[tuple rid] rows IH]; intros e Hrows calls Hcalls Hfuel;
    (destruct calls as [|calls]; [simpl in Hcalls; lia|]);
    (destruct fuel as [|fuel]; [lia|]).
  - apply Forall2_nil_inv_r in Hrows.
    assert (Hend : rid_list_ e !! cursor_ e = None).
    { destruct (rid_list_ e !! cursor_ e) as [r|] eqn:E; [|reflexivity].
      rewrite (drop_S _ _ _ E) in Hrows. discriminate. }
    cbn [drain]. rewrite (Next_at_end e fuel Hend). reflexivity.
  - apply Forall2_cons_inv_r in Hrows as (rid' & pending & Hlive & Hrest & Hdrop).
    destruct Hlive as (Hrid & meta & Hheap & Hdel). cbn [fst snd] in Hrid, Hheap. subst rid'.
    assert (Hcur : rid_list_ e !! cursor_ e = Some rid ∧
                   drop (S (cursor_ e)) (rid_list_ e) = pending).
    { destruct (rid_list_ e !! cursor_ e) as [r|] eqn:E.
      - rewrite (drop_S _ _ _ E) in Hdrop. injection Hdrop as -> ->. split; reflexivity.
      - rewrite drop_ge in Hdrop by (apply lookup_ge_None_1; exact E). discriminate. }
    destruct Hcur as [Hcur Hpending].
    cbn [drain]. rewrite (Next_returns_live_entry e rid meta tuple fuel Hcur Hheap Hdel).
    cbn [obind fst snd].
    rewrite (IH (mk (filter_predicate_ e) (table_heap_ e) (rid_list_ e) (S (cursor_ e)))).
    + reflexivity.
    + cbn [table_heap_ cursor_ rid_list_]. rewrite Hpending. exact Hrest.
    + simpl in Hcalls. lia.
    + lia.
Qed.

(** A scan whose filter no listed tuple satisfies. *)
Definition unfiltered_scan : t :=
  mk (Some (λ _, mkValue BOOLEAN (Some 0)))
     {[ mkRID 0 0 := (mkTupleMeta 0 false, Tuple_of_values [Integer 7]);
        mkRID 0 1 := (mkTupleMeta 0 false, Tuple_of_values [Integer 8]) ]}
     [mkRID 0 1; mkRID 0 0] 0%nat.

Lemma X11_index_scan_returns_every_listed_tuple_witness :
  drain 3 1 unfiltered_scan =
  Done [(Tuple_of_values [Integer 8], mkRID 0 1); (Tuple_of_values [Integer 7], mkRID 0 0)].
Proof.
  apply X11_index_scan_returns_every_listed_tuple.
  - repeat constructor; exists (mkTupleMeta 0 false); split; vm_compute; reflexivity.
  - simpl. lia.
  - lia.
Defined.

End IndexScanExecutor.

(** ** Sequential scan (seq_scan_executor.cpp)

    The table heap is seen through its [TableIterator], declared outside the
    sources at hand: the entries of the heap in heap order, each with its
    meta data, its tuple and its RID, and the position of the iterator. *)

Module SeqScanExecutor.

Record t : Type := mk {
  filter_predicate_ : option (Tuple → Value);
  (** the entries [*table_iter_] ranges over *)
  entries_ : list (TupleMeta * Tuple * RID);
  (** how often [++*table_iter_] has run *)
  table_iter_ : nat
}.

(** [SeqScanExecutor::Init]: a new iterator over the heap of the plan's
    table. *)
Definition Init (table_heap : list (TupleMeta * Tuple * RID)) (e : t) : t :=
  mk (filter_predicate_ e) table_heap 0%nat.

(** [SeqScanExecutor::Next]: one round of the [while (true)] per unit of
    fuel. *)
Fixpoint Next (fuel : nat) (e : t) : outcome (option (Tuple * RID) * t) :=
  match fuel with
  | O => OutOfFuel
  | S fuel' =>
      match entries_ e !! table_iter_ e with
      | None => Done (None, e)
      | Some (tuple_meta, tuple, rid) =>
          let e' := mk (filter_predicate_ e) (entries_ e) (S (table_iter_ e)) in
          if is_deleted_ tuple_meta then Next fuel' e'
          else
            match filter_predicate_ e with
            | Some pred =>
                if GetAs_bool (pred tuple) then Done (Some (tuple, rid), e')
                else Next fuel' e'
            | None => Done (Some (tuple, rid), e')
            end
      end
  end.

(** Successive [Next] calls until the first [false]. *)
Fixpoint drain (calls fuel : nat) (e : t) : outcome (list (Tuple * RID)) :=
  match calls with
  | O => OutOfFuel
  | S calls' =>
      p ←! Next fuel e;
      match p.1 with
      | None => Done []
      | Some row => rest ←! drain calls' fuel p.2; Done (row :: rest)
      end
  end.

(** The entries a scan shows: not deleted, and satisfying the filter when
    there is one. *)
Definition visible (filter : option (Tuple → Value)) (entry : TupleMeta * Tuple * RID) : bool :=
  negb (is_deleted_ entry.1.1) &&
  match filter with
  | Some pred => GetAs_bool (pred entry.1.2)
  | None => true
  end.

Definition scan (filter : option (Tuple → Value)) (table_heap : list (TupleMeta * Tuple * RID))
  : list (Tuple * RID) :=
  map (λ entry : TupleMeta * Tuple * RID, (entry.1.2, entry.2))
      (List.filter (visible filter) table_heap).

Lemma Next_skips (fuel : nat) :
  ∀ e, (length (entries_ e) - table_iter_ e < fuel)%nat →
    match scan (filter_predicate_ e) (drop (table_iter_ e) (entries_ e)) with
    | [] => ∃ e', Next fuel e = Done (None, e') ∧
                  scan (filter_predicate_ e') (drop (table_iter_ e') (entries_ e')) = []
    | row :: rest =>
        ∃ pos, Next fuel e = Done (Some row, mk (filter_predicate_ e) (entries_ e) pos) ∧
               scan (filter_predicate_ e) (drop pos (entries_ e)) = rest
    end.
Proof.
  induction fuel as [|fuel IH]; intros e Hfuel; [lia|].
  cbn [Next]. destruct (entries_ e !! table_iter_ e) as [[[meta tuple] rid]|] eqn:Hcur.
  - rewrite (drop_S _ _ _ Hcur). unfold scan at 1. cbn [List.filter].
    pose proof (lookup_lt_Some _ _ _ Hcur) as Hlt.
    specialize (IH (mk (filter_predicate_ e) (entries_ e) (S (table_iter_ e)))).
    cbn [entries_ table_iter_ filter_predicate_] in IH.
    unfold visible at 1. cbn [fst snd].
    destruct (is_deleted_ meta).
    + cbn [negb andb]. apply IH. lia.
    + cbn [negb andb]. destruct (filter_predicate_ e) as [pred|] eqn:Hpred.
      * destruct (GetAs_bool (pred tuple)).
        -- cbn [map fst snd]. exists (S (table_iter_ e)). split; reflexivity.
        -- apply IH. lia.
      * cbn [map fst snd]. exists (S (table_iter_ e)). split; reflexivity.
  - rewrite drop_ge by (apply lookup_ge_None_1; exact Hcur).
    cbn [scan List.filter map]. exists e. split; [reflexivity|].
    rewrite drop_ge by (apply lookup_ge_None_1; exact Hcur). reflexivity.
Qed.

Lemma drain_scan (calls fuel : nat) :
  ∀ e, (length (scan (filter_predicate_ e) (drop (table_iter_ e) (entries_ e))) < calls)%nat →
       (length (entries_ e) < fuel)%nat →
       drain calls fuel e = Done (scan (filter_predicate_ e) (drop (table_iter_ e) (entries_ e))).
Proof.
  induction calls as [|calls IH]; intros e Hcalls Hfuel; [lia|].
  cbn [drain]. pose proof (Next_skips fuel e ltac:(lia)) as Hnext.
  destruct (scan (filter_predicate_ e) (drop (table_iter_ e) (entries_ e))) as [|row rest].
  - destruct Hnext as (e' & -> & _). reflexivity.
  - destruct Hnext as (pos & -> & Hrest). cbn [obind fst snd].
    rewrite IH.
    + cbn [filter_predicate_ entries_ table_iter_]. rewrite Hrest. reflexivity.
    + cbn [filter_predicate_ entries_ table_iter_]. rewrite Hrest. simpl in Hcalls. lia.
    + exact Hfuel.
Qed.

(** X12. After [Init], successive [Next] calls return, in heap order and
    each with its RID, exactly the tuples of the table heap that are not
    marked deleted and, when the plan has a filter, for which the value of
    the filter reads as [true] through [GetAs<bool>]; then [false].  The
    value is not tested for NULL, so a tuple on which the filter evaluates
    to NULL is returned as well. *)
Theorem X12_seq_scan_returns_the_visible_tuples
    (table_heap : list (TupleMeta * Tuple * RID)) (e : t) (calls fuel : nat) :
  (length (scan (filter_predicate_ e) table_heap) < calls)%nat →
  (length table_heap < fuel)%nat →
  drain calls fuel (Init table_heap e) = Done (scan (filter_predicate_ e) table_heap).
Proof.
  intros Hcalls Hfuel. apply (drain_scan calls fuel (Init table_heap e)); assumption.
Qed.

(** A heap of three tuples, the second deleted, under the filter [column 0 > 1]. *)
Definition sample_heap : list (TupleMeta * Tuple * RID) :=
  [(mkTupleMeta 0 false, Tuple_of_values [Integer 1], mkRID 0 0);
   (mkTupleMeta 0 true, Tuple_of_values [Integer 2], mkRID 0 1);
   (mkTupleMeta 0 false, Tuple_of_values [Integer 3], mkRID 0 2)].

Definition greater_than_one (a : Tuple) : Value :=
  match values_ a with
  | v :: _ =>
      match CompareGreaterThan v (Integer 1) with
      | CmpTrue => mkValue BOOLEAN (Some 1)
      | CmpFalse => mkValue BOOLEAN (Some 0)
      | CmpNull => mkValue BOOLEAN None
      end
  | [] => mkValue BOOLEAN None
  end.

(** The same heap with a fourth tuple whose column is NULL. *)
Definition heap_with_null : list (TupleMeta * Tuple * RID) :=
  sample_heap ++ [(mkTupleMeta 0 false, Tuple_of_values [GetNullValueByType INTEGER], mkRID 0 3)].

Lemma X12_seq_scan_returns_the_visible_tuples_witness :
  drain 3 5 (Init heap_with_null (mk (Some greater_than_one) [] 0)) =
  Done [(Tuple_of_values [Integer 3], mkRID 0 2);
        (Tuple_of_values [GetNullValueByType INTEGER], mkRID 0 3)].
Proof.
  apply (X12_seq_scan_returns_the_visible_tuples heap_with_null
           (mk (Some greater_than_one) [] 0)).
  - vm_compute. lia.
  - vm_compute. lia.
Defined.

End SeqScanExecutor.

(** ** Insert (insert_executor.cpp)

    The table heap and the indexes belong to the catalog, which is outside
    the sources at hand; they are parameters of the executor. *)

Module InsertExecutor.

Section WithCatalog.

Variable TableHeap : Type.
(** [TableHeap::InsertTuple(meta, tuple, lock_mgr, txn, oid)] *)
Variable InsertTuple : TupleMeta → Tuple → TableHeap → option RID * TableHeap.
Variable Index : Type.
(** [tuple.KeyFromTuple(schema, key_schema, key_attrs)] for one index *)
Variable KeyFromTuple : Tuple → Index → Tuple.
(** [index->InsertEntry(key, rid, txn)] *)
Variable InsertEntry : Tuple → RID → Index → Index.

Record t : Type := mk {
  child_executor_ : ChildExecutor.t;
  has_called_ : bool;
  table_ : TableHeap;
  indexes_ : list Index;
  temp_ts_ : Z
}.

(** [InsertExecutor::Init] *)
Definition Init (e : t) : t :=
  mk (ChildExecutor.Init (child_executor_ e)) false (table_ e) (indexes_ e) (temp_ts_ e).

(** The body of [while (child_executor_->Next(&child_tuple, rid))], over the
    rows the child still has to deliver.  [affected_row] is an [int]: the
    increment is taken on 32 bits (past [2^31 - 1] it overflows, a wrap on
    the machine). *)
Fixpoint insert_rows (ts : Z) (rows : list (Tuple * RID))
    (heap : TableHeap) (indexes : list Index) (affected_row : Z)
  : TableHeap * list Index * Z :=
  match rows with
  | [] => (heap, indexes, affected_row)
  | (child_tuple, child_rid) :: rest =>
      let insert_result := InsertTuple (mkTupleMeta ts false) child_tuple heap in
      let rid := match insert_result.1 with
                 | Some r => if decide (child_rid = RID_default) then r else child_rid
                 | None => child_rid
                 end in
      let indexes' :=
        map (λ index_info, InsertEntry (KeyFromTuple child_tuple index_info) rid index_info)
            indexes in
      insert_rows ts rest insert_result.2 indexes' (to_int32 (affected_row + 1))
  end.

(** [InsertExecutor::Next]: [None] is [return false]. *)
Definition Next (e : t) : option Tuple * t :=
  if has_called_ e then (None, e) else
  let c := child_executor_ e in
  let pending := drop (ChildExecutor.pos_ c) (ChildExecutor.rows_ c) in
  let '(heap, indexes, affected_row) :=
    insert_rows (temp_ts_ e) pending (table_ e) (indexes_ e) 0 in
  (Some (Tuple_of_values [mkValue INTEGER (Some affected_row)]),
   mk (ChildExecutor.mk (ChildExecutor.rows_ c)
                        (Nat.max (ChildExecutor.pos_ c) (length (ChildExecutor.rows_ c))))
      true heap indexes (temp_ts_ e)).

(** The executor after [n] further calls of [Next]. *)
Fixpoint after_calls (n : nat) (e : t) : t :=
  match n with
  | O => e
  | S n' => after_calls n' (Next e).2
  end.

Lemma Next_sets_has_called e : has_called_ (Next e).2 = true.
Proof.
  unfold Next. destruct (has_called_ e) eqn:H; [exact H|].
  destruct (insert_rows _ _ _ _ _) as [[h i] a]. reflexivity.
Qed.

Lemma Next_when_called e : has_called_ e = true → Next e = (None, e).
Proof. intros H. unfold Next. rewrite H. reflexivity. Qed.

Lemma after_calls_when_called n e : has_called_ e = true → after_calls n e = e.
Proof.
  intros H. induction n as [|n IH]; simpl; [reflexivity|].
  rewrite (Next_when_called e H). exact IH.
Qed.

(** C10: when the child produces no tuple, the first [Next] after [Init]
    returns [true] with the one-row tuple [(INTEGER 0)], and every later call
    returns [false]; and whatever the child produces, the first [Next] after
    [Init] does not return [false]. *)
Theorem C10_insert_reports_zero_rows_once
    (flag : bool) (pos : nat) (heap : TableHeap) (indexes : list Index) (ts : Z) :
  let e := Init (mk (ChildExecutor.mk [] pos) flag heap indexes ts) in
  (Next e).1 = Some (Tuple_of_values [Integer 0]) ∧
  (∀ n, (Next (after_calls n (Next e).2)).1 = None) ∧
  (∀ e0 : t, (Next (Init e0)).1 ≠ None).
Proof.
  split; [reflexivity|]. split.
  - intros n. rewrite after_calls_when_called by apply Next_sets_has_called.
    rewrite Next_when_called by apply Next_sets_has_called. reflexivity.
  - intros e0. unfold Next, Init. simpl.
    destruct (insert_rows _ _ _ _ _) as [[h i] a]. discriminate.
Qed.

Lemma insert_rows_count (ts : Z) (rows : list (Tuple * RID)) :
  ∀ heap indexes affected_row,
    0 ≤ affected_row → affected_row + Z.of_nat (length rows) < 2 ^ 31 →
    (insert_rows ts rows heap indexes affected_row).2 = affected_row + Z.of_nat (length rows).
Proof.
  induction rows as [|[child_tuple child_rid] rows IH];
    intros heap indexes affected_row Hpos Hbound.
  - simpl. lia.
  - cbn [insert_rows length] in *. rewrite to_int32_next by lia. rewrite IH; lia.
Qed.

(** X13. When the child delivers fewer than [2^31] tuples, the first
    [Next] after [Init] returns the one-row tuple holding their number,
    whatever [InsertTuple] answers for them (a tuple the heap refuses is
    counted as well); every later call returns [false]. *)
Theorem X13_insert_reports_the_number_of_child_rows (e : t) :
  Z.of_nat (length (ChildExecutor.rows_ (child_executor_ e))) < 2 ^ 31 →
  (Next (Init e)).1 =
    Some (Tuple_of_values
            [Integer (Z.of_nat (length (ChildExecutor.rows_ (child_executor_ e))))]) ∧
  ∀ n, (Next (after_calls n (Next (Init e)).2)).1 = None.
Proof.
  intros Hbound. split.
  - unfold Next, Init. cbn [has_called_ child_executor_ ChildExecutor.Init ChildExecutor.pos_
                             ChildExecutor.rows_ drop table_ indexes_ temp_ts_].
    pose proof (insert_rows_count (temp_ts_ e) (ChildExecutor.rows_ (child_executor_ e))
                  (table_ e) (indexes_ e) 0 ltac:(lia) ltac:(lia)) as Hcount.
    destruct (insert_rows _ _ _ _ _) as [[heap indexes] affected_row].
    cbn [fst snd] in *. subst affected_row. reflexivity.
  - intros n. rewrite after_calls_when_called by apply Next_sets_has_called.
    rewrite Next_when_called by apply Next_sets_has_called. reflexivity.
Qed.

End WithCatalog.

(** A heap that is the list of the tuples inserted; the slot of a tuple is
    its position. *)
Definition list_heap_insert (meta : TupleMeta) (tuple : Tuple) (heap : list (TupleMeta * Tuple))
  : option RID * list (TupleMeta * Tuple) :=
  (Some (mkRID 0 (Z.of_nat (length heap))), heap ++ [(meta, tuple)]).

Definition sample_insert : t (list (TupleMeta * Tuple)) unit :=
  mk _ _ (ChildExecutor.of_rows [(Tuple_of_values [Integer 3], RID_default);
                                 (Tuple_of_values [Integer 4], RID_default)])
     true [] [] 5.

Lemma X13_insert_reports_the_number_of_child_rows_witness :
  (Next _ list_heap_insert unit (λ key _, key) (λ _ _ index, index)
        (Init _ _ sample_insert)).1 = Some (Tuple_of_values [Integer 2]) ∧
  ∀ n, (Next _ list_heap_insert unit (λ key _, key) (λ _ _ index, index)
             (after_calls _ list_heap_insert unit (λ key _, key) (λ _ _ index, index) n
                (Next _ list_heap_insert unit (λ key _, key) (λ _ _ index, index)
                      (Init _ _ sample_insert)).2)).1 = None.
Proof.
  apply (X13_insert_reports_the_number_of_child_rows _ list_heap_insert unit (λ key _, key)
           (λ _ _ index, index) sample_insert).
  simpl. lia.
Defined.

End InsertExecutor.

(** ** Delete (delete_executor.cpp)

    As for insert, the table heap and the indexes are parameters of the
    executor. *)

Module DeleteExecutor.

Section WithCatalog.

Variable TableHeap : Type.
(** [TableHeap::UpdateTupleMeta(meta, rid)] *)
Variable UpdateTupleMeta : TupleMeta → RID → TableHeap → TableHeap.
Variable Index : Type.
(** [tuple.KeyFromTuple(schema, key_schema, key_attrs)] for one index *)
Variable KeyFromTuple : Tuple → Index → Tuple.
(** [index->DeleteEntry(key, rid, txn)] *)
Variable DeleteEntry : Tuple → RID → Index → Index.

Record t : Type := mk {
  child_executor_ : ChildExecutor.t;
  has_called_ : bool;
  table_ : TableHeap;
  indexes_ : list Index;
  temp_ts_ : Z
}.

(** [DeleteExecutor::Init] *)
Definition Init (e : t) : t :=
  mk (ChildExecutor.Init (child_executor_ e)) false (table_ e) (indexes_ e) (temp_ts_ e).

(** The body of [while (child_executor_->Next(&child_tuple, &emit_rid))],
    over the rows the child still has to deliver.  [affected_row] is an
    [int]: the increment is taken on 32 bits (past [2^31 - 1] it overflows, a
    wrap on the machine). *)
Fixpoint delete_rows (ts : Z) (rows : list (Tuple * RID))
    (heap : TableHeap) (indexes : list Index) (affected_row : Z)
  : TableHeap * list Index * Z :=
  match rows with
  | [] => (heap, indexes, affected_row)
  | (child_tuple, emit_rid) :: rest =>
      let heap' := UpdateTupleMeta (mkTupleMeta ts true) emit_rid heap in
      let indexes' :=
        map (λ index_info, DeleteEntry (KeyFromTuple child_tuple index_info) emit_rid index_info)
            indexes in
      delete_rows ts rest heap' indexes' (to_int32 (affected_row + 1))
  end.

(** [DeleteExecutor::Next]: [None] is [return false]. *)
Definition Next (e : t) : option Tuple * t :=
  if has_called_ e then (None, e) else
  let c := child_executor_ e in
  let pending := drop (ChildExecutor.pos_ c) (ChildExecutor.rows_ c) in
  let '(heap, indexes, affected_row) :=
    delete_rows (temp_ts_ e) pending (table_ e) (indexes_ e) 0 in
  (Some (Tuple_of_values [mkValue INTEGER (Some affected_row)]),
   mk (ChildExecutor.mk (ChildExecutor.rows_ c)
                        (Nat.max (ChildExecutor.pos_ c) (length (ChildExecutor.rows_ c))))
      true heap indexes (temp_ts_ e)).

(** What a table iterator sees of the heap, and what [UpdateTupleMeta] does
    to it: the entry at the RID gets the new meta data. *)
Variable entries : TableHeap → list (TupleMeta * Tuple * RID).

Definition set_meta (meta : TupleMeta) (rid : RID) (entry : TupleMeta * Tuple * RID)
  : TupleMeta * Tuple * RID :=
  if decide (entry.2 = rid) then (meta, entry.1.2, entry.2) else entry.

Hypothesis UpdateTupleMeta_entries : ∀ meta rid heap,
  entries (UpdateTupleMeta meta rid heap) = map (set_meta meta rid) (entries heap).

Definition kept (rids : list RID) (row : Tuple * RID) : bool := bool_decide (row.2 ∉ rids).

Lemma scan_set_deleted (filter : option (Tuple → Value)) (ts : Z) (rid : RID)
    (heap : list (TupleMeta * Tuple * RID)) :
  SeqScanExecutor.scan filter (map (set_meta (mkTupleMeta ts true) rid) heap) =
  List.filter (kept [rid]) (SeqScanExecutor.scan filter heap).
Proof.
  unfold SeqScanExecutor.scan. induction heap as [|[[meta tuple] r] heap IH]; [reflexivity|].
  assert (Hset : set_meta (mkTupleMeta ts true) rid (meta, tuple, r) =
                 if decide (r = rid) then (mkTupleMeta ts true, tuple, r) else (meta, tuple, r))
    by reflexivity.
  cbn [map List.filter]. rewrite Hset. destruct (decide (r = rid)) as [->|Hne].
  - assert (Hv : SeqScanExecutor.visible filter (mkTupleMeta ts true, tuple, rid) = false)
      by reflexivity.
    rewrite Hv, IH. destruct (SeqScanExecutor.visible filter (meta, tuple, rid)); [|reflexivity].
    cbn [map List.filter fst snd].
    assert (Hk : kept [rid] (tuple, rid) = false).
    { apply bool_decide_eq_false_2. intros H. apply H. apply list_elem_of_singleton. reflexivity. }
    rewrite Hk. reflexivity.
  - destruct (SeqScanExecutor.visible filter (meta, tuple, r)); [|exact IH].
    cbn [map List.filter fst snd].
    assert (Hk : kept [rid] (tuple, r) = true).
    { apply bool_decide_eq_true_2. intros H. apply list_elem_of_singleton in H. contradiction. }
    rewrite Hk, IH. reflexivity.
Qed.

Lemma filter_kept_cons (rid : RID) (rids : list RID) (rows : list (Tuple * RID)) :
  List.filter (kept rids) (List.filter (kept [rid]) rows) = List.filter (kept (rid :: rids)) rows.
Proof.
  induction rows as [|row rows IH]; [reflexivity|]. cbn [List.filter].
  assert (E : kept (rid :: rids) row = kept [rid] row && kept rids row).
  { unfold kept. apply eq_true_iff_eq.
    rewrite andb_true_iff, !bool_decide_eq_true, !not_elem_of_cons.
    split; [intros [? ?]|intros [[? _] ?]]; repeat split; try assumption.
    apply not_elem_of_nil. }
  rewrite E. destruct (kept [rid] row); cbn [List.filter andb]; rewrite IH; reflexivity.
Qed.

Lemma delete_rows_spec (filter : option (Tuple → Value)) (ts : Z) (rows : list (Tuple * RID)) :
  ∀ heap indexes affected_row,
    (0 ≤ affected_row → affected_row + Z.of_nat (length rows) < 2 ^ 31 →
     (delete_rows ts rows heap indexes affected_row).2 = affected_row + Z.of_nat (length rows)) ∧
    SeqScanExecutor.scan filter (entries (delete_rows ts rows heap indexes affected_row).1.1) =
    List.filter (kept rows.*2) (SeqScanExecutor.scan filter (entries heap)).
Proof.
  induction rows as [|[child_tuple emit_rid] rows IH]; intros heap indexes affected_row.
  - cbn [delete_rows fst snd length]. split; [lia|].
    symmetry. rewrite <- (List.filter_true (SeqScanExecutor.scan filter (entries heap))) at 2.
    apply List.filter_ext. intros row. unfold kept.
    apply bool_decide_eq_true_2. apply not_elem_of_nil.
  - cbn [delete_rows length]. destruct (IH (UpdateTupleMeta (mkTupleMeta ts true) emit_rid heap)
      (map (λ index_info, DeleteEntry (KeyFromTuple child_tuple index_info) emit_rid index_info)
           indexes) (to_int32 (affected_row + 1))) as [Hcount Hscan].
    split.
    + intros Hpos Hbound. rewrite to_int32_next in Hcount |- * by lia. rewrite Hcount; lia.
    + rewrite Hscan, UpdateTupleMeta_entries, scan_set_deleted, fmap_cons.
      apply filter_kept_cons.
Qed.

(** X14. A sequential scan of the table heap after the first [Next] after
    [Init] returns what it returned before without the tuples at the RIDs
    the child delivered: they are marked deleted, every other entry is as it
    was.  When the child delivers fewer than [2^31] tuples, that [Next]
    returns their number. *)
Theorem X14_deleted_rows_disappear_from_scans (e : t) (filter : option (Tuple → Value)) :
  let rows := ChildExecutor.rows_ (child_executor_ e) in
  (Z.of_nat (length rows) < 2 ^ 31 →
   (Next (Init e)).1 = Some (Tuple_of_values [Integer (Z.of_nat (length rows))])) ∧
  SeqScanExecutor.scan filter (entries (table_ (Next (Init e)).2)) =
  List.filter (kept rows.*2) (SeqScanExecutor.scan filter (entries (table_ e))).
Proof.
  intros rows. unfold Next, Init.
  cbn [has_called_ child_executor_ ChildExecutor.Init ChildExecutor.pos_
       ChildExecutor.rows_ drop table_ indexes_ temp_ts_].
  fold rows.
  pose proof (delete_rows_spec filter (temp_ts_ e) rows (table_ e) (indexes_ e) 0) as [Hcount Hscan].
  destruct (delete_rows _ _ _ _ _) as [[heap indexes] affected_row].
  cbn [fst snd table_] in *. split; [|exact Hscan].
  intros Hbound. rewrite Hcount by lia. reflexivity.
Qed.

End WithCatalog.

(** A heap that is the list of its entries. *)
Definition list_heap_set_meta (meta : TupleMeta) (rid : RID)
    (heap : list (TupleMeta * Tuple * RID)) : list (TupleMeta * Tuple * RID) :=
  map (set_meta meta rid) heap.

Definition sample_delete : t (list (TupleMeta * Tuple * RID)) unit :=
  mk _ _ (ChildExecutor.of_rows [(Tuple_of_values [Integer 3], mkRID 0 2)]) false
     SeqScanExecutor.sample_heap [] 0.

Lemma X14_deleted_rows_disappear_from_scans_witness :
  (Next _ list_heap_set_meta unit (λ key _, key) (λ _ _ index, index) (Init _ _ sample_delete)).1 =
    Some (Tuple_of_values [Integer 1]) ∧
  SeqScanExecutor.scan None
    (table_ _ _ (Next _ list_heap_set_meta unit (λ key _, key) (λ _ _ index, index)
                      (Init _ _ sample_delete)).2) =
  [(Tuple_of_values [Integer 1], mkRID 0 0)].
Proof.
  destruct (X14_deleted_rows_disappear_from_scans _ list_heap_set_meta unit (λ key _, key)
              (λ _ _ index, index) (λ heap, heap) (λ _ _ _, eq_refl) sample_delete None)
    as [Hcount Hscan].
  split; [apply Hcount; simpl; lia|exact Hscan].
Defined.

End DeleteExecutor.

(** ** Update (update_executor.cpp) *)

Module UpdateExecutor.

Section WithCatalog.

Variable TableHeap : Type.
(** [TableHeap::UpdateTupleInPlace(meta, tuple, rid)] *)
Variable UpdateTupleInPlace : TupleMeta → Tuple → RID → TableHeap → bool * TableHeap.
Variable Index : Type.
(** [tuple.KeyFromTuple(schema, key_schema, key_attrs)] for one index *)
Variable KeyFromTuple : Tuple → Index → Tuple.
(** [index->DeleteEntry(key, rid, txn)] and [index->InsertEntry(key, rid, txn)] *)
Variable DeleteEntry : Tuple → RID → Index → Index.
Variable InsertEntry : Tuple → RID → Index → Index.

Record t : Type := mk {
  (** [plan_->target_expressions_], each as its [Evaluate] *)
  target_expressions_ : list (Tuple → Value);
  child_executor_ : ChildExecutor.t;
  has_called_ : bool;
  table_ : TableHeap;
  indexes_ : list Index;
  temp_ts_ : Z
}.

(** [UpdateExecutor::Init] *)
Definition Init (e : t) : t :=
  mk (target_expressions_ e) (ChildExecutor.Init (child_executor_ e)) false (table_ e)
     (indexes_ e) (temp_ts_ e).

Definition new_tuple_of (targets : list (Tuple → Value)) (old_tuple : Tuple) : Tuple :=
  Tuple_of_values (map (λ expr, expr old_tuple) targets).

(** The body of [while (child_executor_->Next(&old_tuple, rid))], over the
    rows the child still has to deliver.  [affected_row] is an [int]: the
    increment is taken on 32 bits (past [2^31 - 1] it overflows, a wrap on
    the machine). *)
Fixpoint update_rows (targets : list (Tuple → Value)) (ts : Z) (rows : list (Tuple * RID))
    (heap : TableHeap) (indexes : list Index) (affected_row : Z)
  : TableHeap * list Index * Z :=
  match rows with
  | [] => (heap, indexes, affected_row)
  | (old_tuple, rid) :: rest =>
      let new_tuple := new_tuple_of targets old_tuple in
      let updated := UpdateTupleInPlace (mkTupleMeta ts false) new_tuple rid heap in
      if negb updated.1 then update_rows targets ts rest updated.2 indexes affected_row
      else
        let indexes' :=
          map (λ index,
                 InsertEntry (KeyFromTuple new_tuple index) rid
                   (DeleteEntry (KeyFromTuple old_tuple index) rid index))
              indexes in
        update_rows targets ts rest updated.2 indexes' (to_int32 (affected_row + 1))
  end.

(** [UpdateExecutor::Next]: [None] is [return false]. *)
Definition Next (e : t) : option Tuple * t :=
  if has_called_ e then (None, e) else
  let c := child_executor_ e in
  let pending := drop (ChildExecutor.pos_ c) (ChildExecutor.rows_ c) in
  let '(heap, indexes, affected_row) :=
    update_rows (target_expressions_ e) (temp_ts_ e) pending (table_ e) (indexes_ e) 0 in
  (Some (Tuple_of_values [mkValue INTEGER (Some affected_row)]),
   mk (target_expressions_ e)
      (ChildExecutor.mk (ChildExecutor.rows_ c)
                        (Nat.max (ChildExecutor.pos_ c) (length (ChildExecutor.rows_ c))))
      true heap indexes (temp_ts_ e)).

(** What a table iterator sees of the heap, and what [UpdateTupleInPlace]
    (called without a check function) does to it: the entry at the RID gets
    the new meta data and the new tuple, and the call answers [true]. *)
Variable entries : TableHeap → list (TupleMeta * Tuple * RID).

Definition set_entry (meta : TupleMeta) (tuple : Tuple) (rid : RID)
    (entry : TupleMeta * Tuple * RID) : TupleMeta * Tuple * RID :=
  if decide (entry.2 = rid) then (meta, tuple, entry.2) else entry.

Hypothesis UpdateTupleInPlace_entries : ∀ meta tuple rid heap,
  (UpdateTupleInPlace meta tuple rid heap).1 = true ∧
  entries (UpdateTupleInPlace meta tuple rid heap).2 =
    map (set_entry meta tuple rid) (entries heap).

(** The entry after the update: when the child delivered its RID, the target
    expressions evaluated on the tuple the child delivered with it, not
    deleted. *)
Definition updated (targets : list (Tuple → Value)) (ts : Z) (rows : list (Tuple * RID))
    (entry : TupleMeta * Tuple * RID) : TupleMeta * Tuple * RID :=
  match List.find (λ row : Tuple * RID, bool_decide (row.2 = entry.2)) rows with
  | Some (old_tuple, _) => (mkTupleMeta ts false, new_tuple_of targets old_tuple, entry.2)
  | None => entry
  end.

Lemma updated_rid targets ts rows entry : (updated targets ts rows entry).2 = entry.2.
Proof.
  unfold updated. destruct (List.find _ rows) as [[old_tuple r]|]; reflexivity.
Qed.

Lemma find_absent (rid : RID) (rows : list (Tuple * RID)) :
  rid ∉ rows.*2 → List.find (λ row : Tuple * RID, bool_decide (row.2 = rid)) rows = None.
Proof.
  induction rows as [|[tuple r] rows IH]; intros Hnot; [reflexivity|].
  rewrite fmap_cons in Hnot. apply not_elem_of_cons in Hnot as [Hne Hnot]. cbn [List.find snd].
  rewrite bool_decide_eq_false_2 by (intros ->; apply Hne; reflexivity). apply IH. exact Hnot.
Qed.

Lemma update_rows_spec (targets : list (Tuple → Value)) (ts : Z) (rows : list (Tuple * RID)) :
  NoDup rows.*2 →
  ∀ heap indexes affected_row,
    (0 ≤ affected_row → affected_row + Z.of_nat (length rows) < 2 ^ 31 →
     (update_rows targets ts rows heap indexes affected_row).2 =
       affected_row + Z.of_nat (length rows)) ∧
    entries (update_rows targets ts rows heap indexes affected_row).1.1 =
      map (updated targets ts rows) (entries heap).
Proof.
  induction rows as [|[old_tuple rid] rows IH]; intros Hnodup heap indexes affected_row.
  - cbn [update_rows fst snd length]. split; [lia|].
    symmetry. rewrite <- (map_id (entries heap)) at 2. reflexivity.
  - rewrite fmap_cons in Hnodup. apply list.NoDup_cons in Hnodup as [Hfresh Hnodup].
    cbn [update_rows length].
    destruct (UpdateTupleInPlace_entries (mkTupleMeta ts false) (new_tuple_of targets old_tuple)
                rid heap) as [Htrue Hentries].
    rewrite Htrue. cbn [negb].
    destruct (IH Hnodup (UpdateTupleInPlace (mkTupleMeta ts false)
                           (new_tuple_of targets old_tuple) rid heap).2
                (map (λ index,
                        InsertEntry (KeyFromTuple (new_tuple_of targets old_tuple) index) rid
                          (DeleteEntry (KeyFromTuple old_tuple index) rid index)) indexes)
                (to_int32 (affected_row + 1))) as [Hcount Hheap].
    split.
    { intros Hpos Hbound. rewrite to_int32_next in Hcount |- * by lia. rewrite Hcount; lia. }
    rewrite Hheap, Hentries, map_map. apply map_ext. intros [[meta tuple] r].
    unfold set_entry, updated. cbn [fst snd List.find].
    destruct (decide (r = rid)) as [->|Hne].
    + cbn [snd]. rewrite (find_absent rid rows Hfresh).
      rewrite bool_decide_eq_true_2 by reflexivity. reflexivity.
    + cbn [snd]. rewrite bool_decide_eq_false_2 by (intros H; apply Hne; symmetry; exact H).
      reflexivity.
Qed.

(** X15. When the child delivers every RID at most once, the table heap
    after the first [Next] after [Init] holds, at every RID the child
    delivered, the values of the target expressions on the tuple the child
    delivered with it, not marked deleted; every other entry is as it was.
    When the child delivers fewer than [2^31] tuples, that [Next] returns
    their number. *)
Theorem X15_update_rewrites_the_rows_of_the_child (e : t) :
  let rows := ChildExecutor.rows_ (child_executor_ e) in
  NoDup rows.*2 →
  (Z.of_nat (length rows) < 2 ^ 31 →
   (Next (Init e)).1 = Some (Tuple_of_values [Integer (Z.of_nat (length rows))])) ∧
  entries (table_ (Next (Init e)).2) =
    map (updated (target_expressions_ e) (temp_ts_ e) rows) (entries (table_ e)).
Proof.
  intros rows Hnodup. unfold Next, Init.
  cbn [has_called_ child_executor_ ChildExecutor.Init ChildExecutor.pos_
       ChildExecutor.rows_ drop table_ indexes_ temp_ts_ target_expressions_].
  fold rows.
  pose proof (update_rows_spec (target_expressions_ e) (temp_ts_ e) rows Hnodup
                (table_ e) (indexes_ e) 0) as [Hcount Hheap].
  destruct (update_rows _ _ _ _ _ _) as [[heap indexes] affected_row].
  cbn [fst snd table_] in *. split; [|exact Hheap].
  intros Hbound. rewrite Hcount by lia. reflexivity.
Qed.

End WithCatalog.

(** A heap that is the list of its entries; the update sets the first column
    to 9. *)
Definition list_heap_update (meta : TupleMeta) (tuple : Tuple) (rid : RID)
    (heap : list (TupleMeta * Tuple * RID)) : bool * list (TupleMeta * Tuple * RID) :=
  (true, map (set_entry meta tuple rid) heap).

Definition sample_update : t (list (TupleMeta * Tuple * RID)) unit :=
  mk _ _ [λ _, Integer 9]
     (ChildExecutor.of_rows [(Tuple_of_values [Integer 3], mkRID 0 2)]) false
     SeqScanExecutor.sample_heap [] 5.

Lemma X15_update_rewrites_the_rows_of_the_child_witness :
  (Next _ list_heap_update unit (λ key _, key) (λ _ _ index, index) (λ _ _ index, index)
        (Init _ _ sample_update)).1 = Some (Tuple_of_values [Integer 1]) ∧
  table_ _ _ (Next _ list_heap_update unit (λ key _, key) (λ _ _ index, index)
                   (λ _ _ index, index) (Init _ _ sample_update)).2 =
  [(mkTupleMeta 0 false, Tuple_of_values [Integer 1], mkRID 0 0);
   (mkTupleMeta 0 true, Tuple_of_values [Integer 2], mkRID 0 1);
   (mkTupleMeta 5 false, Tuple_of_values [Integer 9], mkRID 0 2)].
Proof.
  destruct (X15_update_rewrites_the_rows_of_the_child _ list_heap_update unit (λ key _, key)
              (λ _ _ index, index) (λ _ _ index, index) (λ heap, heap)
              (λ _ _ _ _, conj eq_refl eq_refl) sample_update) as [Hcount Hheap].
  - apply list.NoDup_cons. split; [apply not_elem_of_nil|apply base.NoDup_nil_2].
  - split; [apply Hcount; simpl; lia|exact Hheap].
Defined.

End UpdateExecutor.

(** ** Nested-loop join (nested_loop_join_executor.cpp) *)

Module NestedLoopJoinExecutor.

Inductive JoinType : Type := INVALID | LEFT | RIGHT | INNER | OUTER.

Record t : Type := mk {
  join_type_ : JoinType;
  (** [plan_->Predicate()->EvaluateJoin(left, left_schema, right, right_schema)] *)
  predicate_ : Tuple → Tuple → Value;
  (** column types of the right plan's output schema *)
  right_schema_ : list TypeId;
  left_executor_ : ChildExecutor.t;
  right_executor_ : ChildExecutor.t;
  left_tuple_ : Tuple;
  left_has_next : bool;
  current_left_has_done : bool
}.

(** The constructor: any join type but LEFT and INNER throws. *)
Definition new (join_type : JoinType) (predicate : Tuple → Tuple → Value)
    (right_schema : list TypeId) (left right : ChildExecutor.t)
    (current_left_has_done0 : bool) : option t :=
  match join_type with
  | LEFT | INNER =>
      Some (mk join_type predicate right_schema left right (Tuple_of_values [])
               false current_left_has_done0)
  | _ => None
  end.

(** [NestedLoopJoinExecutor::Init].  It does not assign
    [current_left_has_done]: the flag keeps the value it had. *)
Definition Init (e : t) : t :=
  let l := ChildExecutor.Init (left_executor_ e) in
  let r := ChildExecutor.Init (right_executor_ e) in
  let p := ChildExecutor.Next l in
  mk (join_type_ e) (predicate_ e) (right_schema_ e) p.2 r
     (match p.1 with Some row => row.1 | None => left_tuple_ e end)
     (bool_decide (is_Some p.1)) (current_left_has_done e).

(** [LeftJoinRemainedLeftTuple]: tuples carry as many values as their schema
    has columns. *)
Definition LeftJoinRemainedLeftTuple (e : t) (left_tuple : Tuple) : Tuple :=
  Tuple_of_values (values_ left_tuple ++ map GetNullValueByType (right_schema_ e)).

(** [InnerJoinTuple] *)
Definition InnerJoinTuple (left_tuple right_tuple : Tuple) : Tuple :=
  Tuple_of_values (values_ left_tuple ++ values_ right_tuple).

Definition is_LEFT (j : JoinType) : bool :=
  match j with
  | LEFT => true
  | _ => false
  end.

(** [NestedLoopJoinExecutor::Next]: one round of the [while (true)] per unit
    of fuel; [None] in the result is [return false]. *)
Fixpoint Next (fuel : nat) (e : t) : outcome (option Tuple * t) :=
  match fuel with
  | O => OutOfFuel
  | S fuel' =>
      if negb (left_has_next e) then Done (None, e) else
      let r := ChildExecutor.Next (right_executor_ e) in
      match r.1 with
      | None =>
          if is_LEFT (join_type_ e) && negb (current_left_has_done e) then
            Done (Some (LeftJoinRemainedLeftTuple e (left_tuple_ e)),
                  mk (join_type_ e) (predicate_ e) (right_schema_ e)
                     (left_executor_ e) r.2 (left_tuple_ e) (left_has_next e) true)
          else
            let l := ChildExecutor.Next (left_executor_ e) in
            Next fuel'
              (mk (join_type_ e) (predicate_ e) (right_schema_ e)
                  l.2 (ChildExecutor.Init r.2)
                  (match l.1 with Some row => row.1 | None => left_tuple_ e end)
                  (bool_decide (is_Some l.1)) false)
      | Some (right_tuple, _) =>
          let is_match := predicate_ e (left_tuple_ e) right_tuple in
          if negb (IsNull is_match) && GetAs_bool is_match then
            Done (Some (InnerJoinTuple (left_tuple_ e) right_tuple),
                  mk (join_type_ e) (predicate_ e) (right_schema_ e)
                     (left_executor_ e) r.2 (left_tuple_ e) (left_has_next e) true)
          else
            Next fuel'
              (mk (join_type_ e) (predicate_ e) (right_schema_ e)
                  (left_executor_ e) r.2 (left_tuple_ e) (left_has_next e)
                  (current_left_has_done e))
      end
  end.

(** Successive [Next] calls until the first [false]: the value lists of the
    tuples returned, in order. *)
Fixpoint drain (calls fuel : nat) (e : t) : outcome (list (list Value)) :=
  match calls with
  | O => OutOfFuel
  | S calls' =>
      p ←! Next fuel e;
      match p.1 with
      | None => Done []
      | Some tuple => rest ←! drain calls' fuel p.2; Done (values_ tuple :: rest)
      end
  end.

(** The scenario of the specification: left [(1),(2)], right [(2),(3)],
    predicate [l = r] on the single columns. *)
Definition row (n : Z) : Tuple * RID := (Tuple_of_values [Integer n], RID_default).

(** [ComparisonExpression(=)::EvaluateJoin]: the boolean value of
    [CompareEquals], NULL when either side is NULL. *)
Definition equal_first_columns (l r : Tuple) : Value :=
  match values_ l, values_ r with
  | a :: _, b :: _ =>
      match CompareEquals a b with
      | CmpTrue => mkValue BOOLEAN (Some 1)
      | CmpFalse => mkValue BOOLEAN (Some 0)
      | CmpNull => mkValue BOOLEAN None
      end
  | _, _ => mkValue BOOLEAN None
  end.

Definition scenario (current_left_has_done0 : bool) : option t :=
  Init <$> new LEFT equal_first_columns [INTEGER]
                (ChildExecutor.of_rows [row 1; row 2])
                (ChildExecutor.of_rows [row 2; row 3])
                current_left_has_done0.

Definition scenario_output (current_left_has_done0 : bool) : outcome (list (list Value)) :=
  match scenario current_left_has_done0 with
  | Some e => drain 10 20 e
  | None => Undefined
  end.

Definition null_int : Value := GetNullValueByType INTEGER.

(** C3 as stated fails: the output of the scenario is not [(2,2)] followed
    by [(1,null)], whatever [current_left_has_done] held when the executor
    was built. *)
Lemma C3_output_is_not_match_first :
  scenario_output false ≠ Done [[Integer 2; Integer 2]; [Integer 1; null_int]] ∧
  scenario_output true ≠ Done [[Integer 2; Integer 2]; [Integer 1; null_int]].
Proof. split; vm_compute; discriminate. Qed.

(** C3 (amended): on the scenario, with [current_left_has_done] initially
    [false], successive [Next] calls return exactly [(1,null)] and then
    [(2,2)], and the third call returns [false]: the left rows are answered
    in the order the left child delivers them, and the count is 2. *)
Theorem C3_left_join_follows_left_order :
  scenario_output false = Done [[Integer 1; null_int]; [Integer 2; Integer 2]] ∧
  omap length (scenario_output false) = Done 2%nat.
Proof. split; vm_compute; reflexivity. Qed.

(** With the flag initially set, the first left row loses its padded row. *)
Lemma scenario_with_flag_set :
  scenario_output true = Done [[Integer 2; Integer 2]].
Proof. vm_compute. reflexivity. Qed.

(** *** The join computed by successive [Next] calls *)

Section JoinOutput.

Variables (join_type : JoinType) (predicate : Tuple → Tuple → Value)
          (right_schema : list TypeId) (L R : list (Tuple * RID)).

(** The test [Next] applies to a pair of rows. *)
Definition is_match (l r : Tuple) : bool :=
  negb (IsNull (predicate l r)) && GetAs_bool (predicate l r).

Definition padded (l : Tuple) : list Value :=
  values_ l ++ map GetNullValueByType right_schema.

(** What is still to come for the left row [l] when the right child stands
    before its row [j] and [done] tells whether [l] has produced a row. *)
Definition rows_of_left (l : Tuple) (j : nat) (done : bool) : list (list Value) :=
  let ms := filter (λ r : Tuple * RID, is_match l r.1 = true) (drop j R) in
  map (λ r : Tuple * RID, values_ l ++ values_ r.1) ms ++
  (if is_LEFT join_type && negb (done || bool_decide (ms ≠ [])) then [padded l] else []).

(** The join of the two inputs: for every left row, in order, its matches in
    the order of the right rows, or for a LEFT join the padded row when it
    has none. *)
Definition join_rows : list (list Value) :=
  flat_map (λ l : Tuple * RID, rows_of_left l.1 0 false) L.

Definition running (l : Tuple) (i j : nat) (done : bool) : t :=
  mk join_type predicate right_schema (ChildExecutor.mk L i) (ChildExecutor.mk R j) l true done.

Definition to_come (l : Tuple) (i j : nat) (done : bool) : list (list Value) :=
  rows_of_left l j done ++ flat_map (λ l : Tuple * RID, rows_of_left l.1 0 false) (drop i L).

(** Rounds of the loop of [Next] that the state may still need. *)
Definition rounds (i j : nat) : nat :=
  (length R - j) + 1 + (length L - i) * (length R + 2).

Definition stopped (l : Tuple) (i : nat) : t :=
  mk join_type predicate right_schema (ChildExecutor.mk L i) (ChildExecutor.mk R 0) l false false.

Lemma rounds_next_left (i j : nat) :
  (i < length L)%nat → (length R ≤ j)%nat → (rounds (S i) 0 < rounds i j)%nat.
Proof.
  intros Hi Hj. unfold rounds.
  replace (length L - i)%nat with (S (length L - S i)) by lia.
  replace (length R - j)%nat with 0%nat by lia. rewrite Nat.mul_succ_l.
  generalize ((length L - S i) * (length R + 2))%nat. intros x. lia.
Qed.

(** One round of the loop on a running join. *)
Lemma Next_round (fuel : nat) (l : Tuple) (i j : nat) (done : bool) :
  Next (S fuel) (running l i j done) =
  match R !! j with
  | Some (right_tuple, _) =>
      if is_match l right_tuple
      then Done (Some (Tuple_of_values (values_ l ++ values_ right_tuple)),
                 running l i (S j) true)
      else Next fuel (running l i (S j) done)
  | None =>
      if is_LEFT join_type && negb done
      then Done (Some (Tuple_of_values (padded l)), running l i j true)
      else match L !! i with
           | Some (next_tuple, _) => Next fuel (running next_tuple (S i) 0 false)
           | None => Next fuel (stopped l i)
           end
  end.
Proof.
  cbn [Next]. unfold running, stopped, is_match, ChildExecutor.Next. simpl.
  destruct (R !! j) as [[right_tuple right_rid]|]; simpl.
  - reflexivity.
  - destruct (is_LEFT join_type && negb done); [reflexivity|].
    destruct (L !! i) as [[next_tuple next_rid]|]; simpl; reflexivity.
Qed.

Lemma Next_of_running (fuel : nat) :
  ∀ l i j done, (rounds i j < fuel)%nat →
    match to_come l i j done with
    | [] => ∃ e', Next fuel (running l i j done) = Done (None, e') ∧ left_has_next e' = false
    | row :: rest =>
        ∃ l' i' j' done',
          Next fuel (running l i j done) =
            Done (Some (Tuple_of_values row), running l' i' j' done') ∧
          to_come l' i' j' done' = rest ∧ (rounds i' j' ≤ rounds i j)%nat
    end.
Proof.
  induction fuel as [|fuel IH]; intros l i j done Hfuel; [lia|].
  rewrite Next_round.
  destruct (R !! j) as [[right_tuple right_rid]|] eqn:Hj.
  - (* the right child has a row *)
    pose proof (lookup_lt_Some _ _ _ Hj) as Hlt.
    assert (Hdrop : drop j R = (right_tuple, right_rid) :: drop (S j) R)
      by (apply drop_S; exact Hj).
    destruct (is_match l right_tuple) eqn:Hm.
    + assert (E : to_come l i j done =
                  (values_ l ++ values_ right_tuple) :: to_come l i (S j) true).
      { unfold to_come, rows_of_left. rewrite Hdrop, filter_cons. cbn [fst].
        rewrite decide_True by exact Hm. cbn [map app].
        rewrite bool_decide_eq_true_2 by discriminate.
        rewrite orb_true_r. cbn [orb negb]. rewrite !andb_false_r.
        rewrite !app_nil_r. reflexivity. }
      rewrite E. exists l, i, (S j), true. split; [reflexivity|]. split; [reflexivity|].
      unfold rounds. lia.
    + assert (E : to_come l i j done = to_come l i (S j) done).
      { unfold to_come, rows_of_left. rewrite Hdrop, filter_cons. cbn [fst].
        rewrite decide_False by (rewrite Hm; discriminate). reflexivity. }
      rewrite E. specialize (IH l i (S j) done ltac:(unfold rounds in *; lia)).
      destruct (to_come l i (S j) done) as [|row rest].
      * exact IH.
      * destruct IH as (l' & i' & j' & done' & Hrun & Hrest & Hle).
        exists l', i', j', done'. split; [exact Hrun|]. split; [exact Hrest|].
        unfold rounds in *. lia.
  - (* the right child is exhausted *)
    pose proof (lookup_ge_None_1 _ _ Hj) as Hge.
    assert (Hdrop : drop j R = []) by (apply drop_ge; exact Hge).
    destruct (is_LEFT join_type && negb done) eqn:Hpad.
    + assert (E : to_come l i j done = padded l :: to_come l i j true).
      { unfold to_come, rows_of_left. rewrite Hdrop, filter_nil. cbn [map app].
        rewrite bool_decide_eq_false_2 by (intros H; apply H; reflexivity).
        apply andb_true_iff in Hpad as [-> Hd]. apply negb_true_iff in Hd. subst done.
        reflexivity. }
      rewrite E. exists l, i, j, true. split; [reflexivity|]. split; [reflexivity|lia].
    + assert (E0 : rows_of_left l j done = []).
      { unfold rows_of_left. rewrite Hdrop, filter_nil. cbn [map app].
        rewrite bool_decide_eq_false_2 by (intros H; apply H; reflexivity).
        rewrite orb_false_r, Hpad. reflexivity. }
      destruct (L !! i) as [[next_tuple next_rid]|] eqn:Hi.
      * pose proof (lookup_lt_Some _ _ _ Hi) as Hlt.
        assert (HdropL : drop i L = (next_tuple, next_rid) :: drop (S i) L)
          by (apply drop_S; exact Hi).
        assert (E : to_come l i j done = to_come next_tuple (S i) 0 false).
        { unfold to_come. rewrite E0, HdropL. reflexivity. }
        rewrite E.
        pose proof (rounds_next_left i j Hlt Hge) as Hrounds.
        specialize (IH next_tuple (S i) 0%nat false ltac:(lia)).
        destruct (to_come next_tuple (S i) 0 false) as [|row rest].
        -- exact IH.
        -- destruct IH as (l' & i' & j' & done' & Hrun & Hrest & Hle).
           exists l', i', j', done'. split; [exact Hrun|]. split; [exact Hrest|]. lia.
      * assert (HdropL : drop i L = [])
          by (apply drop_ge; apply lookup_ge_None_1; exact Hi).
        assert (E : to_come l i j done = []).
        { unfold to_come. rewrite E0, HdropL. reflexivity. }
        rewrite E.
        assert (Hpos : (1 ≤ rounds i j)%nat).
        { unfold rounds. generalize ((length L - i) * (length R + 2))%nat. intros x. lia. }
        destruct fuel as [|fuel']; [lia|].
        cbn [Next stopped left_has_next negb]. eexists. split; reflexivity.
Qed.

End JoinOutput.

Lemma drain_of_running (join_type : JoinType) (predicate : Tuple → Tuple → Value)
    (right_schema : list TypeId) (L R : list (Tuple * RID)) (fuel calls : nat) :
  ∀ l i j done,
    (length (to_come join_type predicate right_schema L R l i j done) < calls)%nat →
    (rounds L R i j < fuel)%nat →
    drain calls fuel (running join_type predicate right_schema L R l i j done) =
      Done (to_come join_type predicate right_schema L R l i j done).
Proof.
  induction calls as [|calls IH]; intros l i j done Hcalls Hfuel; [lia|].
  cbn [drain].
  pose proof (Next_of_running join_type predicate right_schema L R fuel l i j done Hfuel)
    as Hnext.
  destruct (to_come join_type predicate right_schema L R l i j done) as [|row rest].
  - destruct Hnext as (e' & -> & _). reflexivity.
  - destruct Hnext as (l' & i' & j' & done' & -> & Hrest & Hle).
    cbn [obind fst snd]. rewrite IH; [|rewrite Hrest; simpl in Hcalls; lia|lia].
    rewrite Hrest. reflexivity.
Qed.

(** X9.  A nested-loop join built over two children, initialised and then
    drained by successive [Next] calls, returns exactly the join of the two
    inputs and then [false]: for every left row in the order of the left
    child, the concatenation with each right row on which the predicate is
    true (not NULL), in the order of the right child, and for a LEFT join
    the left row padded with NULLs when no right row matches.  For a LEFT
    join [current_left_has_done], which [Init] does not assign, has to be
    false when the executor is built. *)
Theorem X9_nested_loop_join_returns_the_join
    (join_type : JoinType) (predicate : Tuple → Tuple → Value)
    (right_schema : list TypeId) (L R : list (Tuple * RID))
    (flag : bool) (e : t) (calls fuel : nat) :
  new join_type predicate right_schema
      (ChildExecutor.of_rows L) (ChildExecutor.of_rows R) flag = Some e →
  (is_LEFT join_type = true → flag = false) →
  (length (join_rows join_type predicate right_schema L R) < calls)%nat →
  ((length L + 1) * (length R + 2) < fuel)%nat →
  drain calls fuel (Init e) = Done (join_rows join_type predicate right_schema L R).
Proof.
  intros Hnew Hflag Hcalls Hfuel.
  assert (He : e = mk join_type predicate right_schema (ChildExecutor.of_rows L)
                      (ChildExecutor.of_rows R) (Tuple_of_values []) false flag).
  { unfold new in Hnew. destruct join_type; try discriminate; injection Hnew as <-; reflexivity. }
  subst e. destruct L as [|[l0 rid0] L'].
  - destruct calls as [|calls]; [simpl in Hcalls; lia|].
    destruct fuel as [|fuel]; [lia|]. reflexivity.
  - assert (Hinit : Init (mk join_type predicate right_schema
                            (ChildExecutor.of_rows ((l0, rid0) :: L'))
                            (ChildExecutor.of_rows R) (Tuple_of_values []) false flag) =
                    running join_type predicate right_schema ((l0, rid0) :: L') R l0 1 0 flag)
      by reflexivity.
    rewrite Hinit.
    assert (Hout : to_come join_type predicate right_schema ((l0, rid0) :: L') R l0 1 0 flag =
                   join_rows join_type predicate right_schema ((l0, rid0) :: L') R).
    { unfold to_come, join_rows. cbn [flat_map drop fst]. f_equal.
      unfold rows_of_left. destruct (is_LEFT join_type) eqn:HL.
      - rewrite (Hflag eq_refl). reflexivity.
      - reflexivity. }
    rewrite <- Hout. apply drain_of_running.
    + rewrite Hout. exact Hcalls.
    + unfold rounds. cbn [length] in *.
      replace (S (length L') - 1)%nat with (length L') by lia.
      rewrite Nat.mul_add_distr_r in Hfuel. simpl in Hfuel.
      generalize dependent (length L' * (length R + 2))%nat. intros x Hx. lia.
Qed.

Lemma X9_nested_loop_join_returns_the_join_witness :
  drain 7 30
    (Init (mk LEFT equal_first_columns [INTEGER]
              (ChildExecutor.of_rows [row 1; row 2; row 2])
              (ChildExecutor.of_rows [row 2; row 3; row 2])
              (Tuple_of_values []) false false)) =
  Done (join_rows LEFT equal_first_columns [INTEGER] [row 1; row 2; row 2] [row 2; row 3; row 2]).
Proof.
  apply (X9_nested_loop_join_returns_the_join LEFT equal_first_columns [INTEGER]
           [row 1; row 2; row 2] [row 2; row 3; row 2] false).
  - reflexivity.
  - reflexivity.
  - vm_compute. lia.
  - vm_compute. lia.
Defined.

End NestedLoopJoinExecutor.

(** ** Hash join (hash_join_executor.h, hash_join_executor.cpp)

    [std::unordered_map<HashJoinKey, std::vector<Tuple>>] is modelled by its
    entries in the order they were inserted; [find], [count] and [at] reach
    the entry whose key compares equal to the given one under
    [HashJoinKey::operator==].  The hash ([HashUtil], outside the sources at
    hand) only decides which entries the container compares: keys that
    compare equal are taken to hash alike. *)

Module HashJoinExecutor.

Module NLJ := NestedLoopJoinExecutor.

(** [HashJoinKey]: the vector [hash_keys_]. *)
Definition HashJoinKey : Type := list Value.

(** [HashJoinKey::operator==(other)]: the loop runs over the indices of
    [other]; reading [hash_keys_[i]] past the end of a shorter key is
    undefined. *)
Fixpoint key_equal (hash_keys other : HashJoinKey) : outcome bool :=
  match other with
  | [] => Done true
  | o :: other' =>
      match hash_keys with
      | [] => Undefined
      | x :: hash_keys' =>
          match CompareEquals x o with
          | CmpTrue => key_equal hash_keys' other'
          | _ => Done false
          end
      end
  end.

(** [SimpleHashJoinHashTable] *)
Definition SimpleHashJoinHashTable : Type := list (HashJoinKey * list Tuple).

(** [ht_.find(join_key)]: the position of the entry found. *)
Fixpoint find_entry (join_key : HashJoinKey) (ht : SimpleHashJoinHashTable)
  : outcome (option nat) :=
  match ht with
  | [] => Done None
  | (k, _) :: rest =>
      b ←! key_equal join_key k;
      if b then Done (Some 0%nat)
      else (r ←! find_entry join_key rest; Done (S <$> r))
  end.

(** [InsertKey] *)
Definition InsertKey (join_key : HashJoinKey) (tuple : Tuple) (ht : SimpleHashJoinHashTable)
  : outcome SimpleHashJoinHashTable :=
  r ←! find_entry join_key ht;
  match r with
  | None => Done (ht ++ [(join_key, [tuple])])
  | Some n => Done (alter (λ e : HashJoinKey * list Tuple, (e.1, e.2 ++ [tuple])) n ht)
  end.

(** [GetValue]: [None] is [nullptr]. *)
Definition GetValue (join_key : HashJoinKey) (ht : SimpleHashJoinHashTable)
  : outcome (option (list Tuple)) :=
  r ←! find_entry join_key ht;
  Done (n ← r; snd <$> ht !! n).

Record t : Type := mk {
  join_type_ : NLJ.JoinType;
  (** [plan_->LeftJoinKeyExpressions()], each as its [Evaluate] *)
  left_key_expressions_ : list (Tuple → Value);
  right_key_expressions_ : list (Tuple → Value);
  right_schema_ : list TypeId;
  left_executor_ : ChildExecutor.t;
  right_executor_ : ChildExecutor.t;
  left_tuple_ : Tuple;
  current_left_has_done_ : bool;
  left_has_next_ : bool;
  jht_ : SimpleHashJoinHashTable;
  (** [right_tuple_list_], a pointer into [jht_], which is not written after
      [Init]: the vector it points to *)
  right_tuple_list_ : option (list Tuple);
  jht_right_tuple_list_cursor_ : nat
}.

(** The constructor: any join type but LEFT and INNER throws. *)
Definition new (join_type : NLJ.JoinType) (left_keys right_keys : list (Tuple → Value))
    (right_schema : list TypeId) (left right : ChildExecutor.t) (flag : bool) : option t :=
  match join_type with
  | NLJ.LEFT | NLJ.INNER =>
      Some (mk join_type left_keys right_keys right_schema left right (Tuple_of_values [])
               flag false [] None 0%nat)
  | _ => None
  end.

(** [expr->Evaluate(tuple, schema)] for a key expression, which reads
    columns of the tuple.  A default-constructed [Tuple], as [left_tuple_] is
    until the left child has delivered a tuple, holds no data (here: no
    values): the read is out of bounds. *)
Definition Evaluate (expr : Tuple → Value) (tuple : Tuple) : outcome Value :=
  match values_ tuple with
  | [] => Undefined
  | _ => Done (expr tuple)
  end.

(** The loop [for (const auto &expr : ...) values.emplace_back(...)]. *)
Fixpoint make_key (exprs : list (Tuple → Value)) (tuple : Tuple) : outcome HashJoinKey :=
  match exprs with
  | [] => Done []
  | expr :: rest =>
      v ←! Evaluate expr tuple;
      values ←! make_key rest tuple;
      Done (v :: values)
  end.

Definition MakeHashJoinLeftKey (e : t) (left_tuple : Tuple) : outcome HashJoinKey :=
  make_key (left_key_expressions_ e) left_tuple.

Definition MakeHashJoinRightKey (e : t) (right_tuple : Tuple) : outcome HashJoinKey :=
  make_key (right_key_expressions_ e) right_tuple.

Definition LeftJoinRemainedLeftTuple (e : t) (left_tuple : Tuple) : Tuple :=
  Tuple_of_values (values_ left_tuple ++ map GetNullValueByType (right_schema_ e)).

Definition InnerJoinTuple (left_tuple right_tuple : Tuple) : Tuple :=
  Tuple_of_values (values_ left_tuple ++ values_ right_tuple).

(** The loop of [Init] over the rows the right child delivers. *)
Fixpoint build (e : t) (rows : list (Tuple * RID)) (ht : SimpleHashJoinHashTable)
  : outcome SimpleHashJoinHashTable :=
  match rows with
  | [] => Done ht
  | (right_tuple, _) :: rest =>
      right_key ←! MakeHashJoinRightKey e right_tuple;
      ht' ←! InsertKey right_key right_tuple ht;
      build e rest ht'
  end.

(** The lines [Init] and [Next] share: look the left tuple up and set the
    cursor and [current_left_has_done_]. *)
Definition probe (next : ChildExecutor.t) (left_tuple : Tuple) (left_has_next : bool)
    (right : ChildExecutor.t) (ht : SimpleHashJoinHashTable) (e : t) : outcome t :=
  left_hash_key ←! MakeHashJoinLeftKey e left_tuple;
  right_tuple_list ←! GetValue left_hash_key ht;
  Done (mk (join_type_ e) (left_key_expressions_ e) (right_key_expressions_ e)
           (right_schema_ e) next right left_tuple
           (bool_decide (is_Some right_tuple_list)) left_has_next ht
           right_tuple_list 0%nat).

(** [HashJoinExecutor::Init] *)
Definition Init (e : t) : outcome t :=
  let l := ChildExecutor.Init (left_executor_ e) in
  let r := ChildExecutor.Init (right_executor_ e) in
  let p := ChildExecutor.Next l in
  let left_tuple := match p.1 with Some row => row.1 | None => left_tuple_ e end in
  let rows := ChildExecutor.rows_ r in
  ht ←! build e rows [];
  probe p.2 left_tuple (bool_decide (is_Some p.1))
        (ChildExecutor.mk rows (length rows)) ht e.

(** [HashJoinExecutor::Next]: one round of the [while (true)] per unit of
    fuel. *)
Fixpoint Next (fuel : nat) (e : t) : outcome (option Tuple * t) :=
  match fuel with
  | O => OutOfFuel
  | S fuel' =>
      if negb (left_has_next_ e) then Done (None, e) else
      match right_tuple_list_ e ≫= (λ l, l !! jht_right_tuple_list_cursor_ e) with
      | Some right_tuple =>
          Done (Some (InnerJoinTuple (left_tuple_ e) right_tuple),
                mk (join_type_ e) (left_key_expressions_ e) (right_key_expressions_ e)
                   (right_schema_ e) (left_executor_ e) (right_executor_ e) (left_tuple_ e)
                   (current_left_has_done_ e) (left_has_next_ e) (jht_ e)
                   (right_tuple_list_ e) (S (jht_right_tuple_list_cursor_ e)))
      | None =>
          if NLJ.is_LEFT (join_type_ e) && negb (current_left_has_done_ e) then
            Done (Some (LeftJoinRemainedLeftTuple e (left_tuple_ e)),
                  mk (join_type_ e) (left_key_expressions_ e) (right_key_expressions_ e)
                     (right_schema_ e) (left_executor_ e) (right_executor_ e) (left_tuple_ e)
                     true (left_has_next_ e) (jht_ e)
                     (right_tuple_list_ e) (jht_right_tuple_list_cursor_ e))
          else
            let p := ChildExecutor.Next (left_executor_ e) in
            let left_tuple := match p.1 with Some row => row.1 | None => left_tuple_ e end in
            e' ←! probe p.2 left_tuple (bool_decide (is_Some p.1))
                        (right_executor_ e) (jht_ e) e;
            Next fuel' e'
      end
  end.

(** Successive [Next] calls until the first [false]. *)
Fixpoint drain (calls fuel : nat) (e : t) : outcome (list (list Value)) :=
  match calls with
  | O => OutOfFuel
  | S calls' =>
      p ←! Next fuel e;
      match p.1 with
      | None => Done []
      | Some tuple => rest ←! drain calls' fuel p.2; Done (values_ tuple :: rest)
      end
  end.

(** *** Key equality and the table built from the right rows *)

Fixpoint keys_equal (a b : HashJoinKey) : bool :=
  match a, b with
  | [], [] => true
  | x :: a', y :: b' =>
      match CompareEquals x y with
      | CmpTrue => keys_equal a' b'
      | _ => false
      end
  | _, _ => false
  end.

Lemma key_equal_same_length (a b : HashJoinKey) :
  length a = length b → key_equal a b = Done (keys_equal a b).
Proof.
  revert a. induction b as [|y b IH]; intros [|x a] Hlen; try discriminate; simpl.
  - reflexivity.
  - destruct (CompareEquals x y); try reflexivity. apply IH. simpl in Hlen. lia.
Qed.

Lemma CompareEquals_true (x y : Value) :
  CompareEquals x y = CmpTrue ↔ ∃ n, payload_ x = Some n ∧ payload_ y = Some n.
Proof.
  unfold CompareEquals, compare_with.
  destruct (payload_ x) as [n|], (payload_ y) as [m|]; split;
    try discriminate; try (intros (k & ? & ?); discriminate).
  - destruct (Z.eqb_spec n m) as [->|]; [eauto|discriminate].
  - intros (k & Hn & Hm). injection Hn as ->. injection Hm as ->. rewrite Z.eqb_refl.
    reflexivity.
Qed.

Lemma keys_equal_spec (a b : HashJoinKey) :
  keys_equal a b = true ↔ Forall2 (λ x y, CompareEquals x y = CmpTrue) a b.
Proof.
  revert b. induction a as [|x a IH]; intros [|y b]; simpl.
  - split; [constructor|reflexivity].
  - split; [discriminate|intros H; inversion H].
  - split; [discriminate|intros H; inversion H].
  - destruct (CompareEquals x y) eqn:E.
    + split; [discriminate|]. intros H. inversion H; subst. congruence.
    + rewrite IH. split; [intros H; constructor; assumption|].
      intros H. inversion H; subst. assumption.
    + split; [discriminate|]. intros H. inversion H; subst. congruence.
Qed.

Lemma keys_equal_sym (a b : HashJoinKey) : keys_equal a b = true → keys_equal b a = true.
Proof.
  rewrite !keys_equal_spec. intros H. induction H as [|x y a b Hxy _ IH]; constructor.
  - apply CompareEquals_true in Hxy as (n & Hx & Hy). apply CompareEquals_true. eauto.
  - exact IH.
Qed.

Lemma keys_equal_trans (a b c : HashJoinKey) :
  keys_equal a b = true → keys_equal b c = true → keys_equal a c = true.
Proof.
  rewrite !keys_equal_spec. intros H. revert c.
  induction H as [|x y a b Hxy _ IH]; intros c Hc; inversion Hc as [|? z ? c' Hyz Hbc]; subst;
    constructor.
  - apply CompareEquals_true in Hxy as (n & Hx & Hy).
    apply CompareEquals_true in Hyz as (m & Hy' & Hz).
    apply CompareEquals_true. exists n. split; [exact Hx|]. congruence.
  - apply IH. exact Hbc.
Qed.

(** Keys that compare equal compare alike with every third key. *)
Lemma keys_equal_congruence (a b c : HashJoinKey) :
  keys_equal a b = true → keys_equal a c = keys_equal b c.
Proof.
  intros Hab. destruct (keys_equal a c) eqn:Hac, (keys_equal b c) eqn:Hbc; try reflexivity.
  - rewrite <- Hbc. symmetry. apply (keys_equal_trans b a c); [apply keys_equal_sym|]; assumption.
  - rewrite <- Hac. apply (keys_equal_trans a b c); assumption.
Qed.

Fixpoint lookup_key (k : HashJoinKey) (ht : SimpleHashJoinHashTable) : option (list Tuple) :=
  match ht with
  | [] => None
  | (k', v) :: rest => if keys_equal k k' then Some v else lookup_key k rest
  end.

Fixpoint insert_key (k : HashJoinKey) (tuple : Tuple) (ht : SimpleHashJoinHashTable)
  : SimpleHashJoinHashTable :=
  match ht with
  | [] => [(k, [tuple])]
  | (k', v) :: rest =>
      if keys_equal k k' then (k', v ++ [tuple]) :: rest
      else (k', v) :: insert_key k tuple rest
  end.

Definition keys_of_length (n : nat) (ht : SimpleHashJoinHashTable) : Prop :=
  Forall (λ e : HashJoinKey * list Tuple, length e.1 = n) ht.

Lemma find_entry_spec (k : HashJoinKey) (tuple : Tuple) (ht : SimpleHashJoinHashTable) :
  keys_of_length (length k) ht →
  ∃ r, find_entry k ht = Done r ∧
       (r ≫= (λ n, snd <$> ht !! n)) = lookup_key k ht ∧
       match r with
       | None => ht ++ [(k, [tuple])]
       | Some n => alter (λ e : HashJoinKey * list Tuple, (e.1, e.2 ++ [tuple])) n ht
       end = insert_key k tuple ht.
Proof.
  induction ht as [|[k' v] rest IH]; intros Hlen.
  - exists None. repeat split.
  - inversion Hlen as [|? ? Hk' Hrest]; subst. cbn [find_entry lookup_key insert_key].
    rewrite key_equal_same_length by (simpl in Hk'; congruence). cbn [obind].
    destruct (keys_equal k k').
    + exists (Some 0%nat). repeat split.
    + destruct (IH Hrest) as (r & -> & Hlook & Hins). cbn [obind].
      exists (S <$> r). split; [reflexivity|]. destruct r as [n|]; simpl in *.
      * split; [exact Hlook|]. rewrite <- Hins. reflexivity.
      * split; [exact Hlook|]. rewrite <- Hins. reflexivity.
Qed.

Lemma GetValue_lookup (k : HashJoinKey) (ht : SimpleHashJoinHashTable) :
  keys_of_length (length k) ht → GetValue k ht = Done (lookup_key k ht).
Proof.
  intros Hlen. unfold GetValue.
  destruct (find_entry_spec k (Tuple_of_values []) ht Hlen) as (r & -> & Hlook & _).
  cbn [obind]. rewrite Hlook. reflexivity.
Qed.

Lemma InsertKey_insert (k : HashJoinKey) (tuple : Tuple) (ht : SimpleHashJoinHashTable) :
  keys_of_length (length k) ht → InsertKey k tuple ht = Done (insert_key k tuple ht).
Proof.
  intros Hlen. unfold InsertKey.
  destruct (find_entry_spec k tuple ht Hlen) as (r & -> & _ & Hins).
  cbn [obind]. destruct r; rewrite <- Hins; reflexivity.
Qed.

Lemma insert_key_lengths (k : HashJoinKey) (tuple : Tuple) (ht : SimpleHashJoinHashTable) :
  keys_of_length (length k) ht → keys_of_length (length k) (insert_key k tuple ht).
Proof.
  induction ht as [|[k' v] rest IH]; intros Hlen; simpl.
  - constructor; [reflexivity|constructor].
  - inversion Hlen as [|? ? Hk' Hrest]; subst.
    destruct (keys_equal k k'); constructor; try assumption. apply IH. exact Hrest.
Qed.

Lemma lookup_key_congruence (a b : HashJoinKey) (ht : SimpleHashJoinHashTable) :
  keys_equal a b = true → lookup_key a ht = lookup_key b ht.
Proof.
  intros Hab. induction ht as [|[k' v] rest IH]; simpl; [reflexivity|].
  rewrite (keys_equal_congruence a b k' Hab). rewrite IH. reflexivity.
Qed.

Lemma lookup_insert_key (k kr : HashJoinKey) (tuple : Tuple) (ht : SimpleHashJoinHashTable) :
  lookup_key k (insert_key kr tuple ht) =
  if keys_equal k kr then Some (default [] (lookup_key kr ht) ++ [tuple])
  else lookup_key k ht.
Proof.
  induction ht as [|[k' v] rest IH]; simpl.
  - destruct (keys_equal k kr); reflexivity.
  - destruct (keys_equal kr k') eqn:Hr; simpl.
    + destruct (keys_equal k kr) eqn:Hk.
      * rewrite (keys_equal_trans k kr k' Hk Hr). reflexivity.
      * destruct (keys_equal k k') eqn:Hk'; [|reflexivity].
        rewrite (keys_equal_trans k k' kr Hk' (keys_equal_sym kr k' Hr)) in Hk. discriminate.
    + rewrite IH. destruct (keys_equal k k') eqn:Hk'; [|reflexivity].
      destruct (keys_equal k kr) eqn:Hk; [|reflexivity].
      rewrite (keys_equal_trans kr k k' (keys_equal_sym k kr Hk) Hk') in Hr. discriminate.
Qed.

(** *** The join computed by successive [Next] calls *)

(** A tuple that holds data can be read. *)
Lemma make_key_on_data (exprs : list (Tuple → Value)) (tuple : Tuple) :
  values_ tuple ≠ [] → make_key exprs tuple = Done (map (λ expr, expr tuple) exprs).
Proof.
  intros Hdata. induction exprs as [|expr rest IH]; [reflexivity|].
  cbn [make_key map]. unfold Evaluate.
  destruct (values_ tuple) as [|v vs]; [contradiction|].
  cbn [obind]. rewrite IH. reflexivity.
Qed.

Section JoinOutput.

Variables (join_type : NLJ.JoinType) (left_keys right_keys : list (Tuple → Value))
          (right_schema : list TypeId) (L R : list (Tuple * RID)).
Hypothesis Hkeys : length left_keys = length right_keys.

Definition left_key (l : Tuple) : HashJoinKey := map (λ expr, expr l) left_keys.
Definition right_key (r : Tuple) : HashJoinKey := map (λ expr, expr r) right_keys.

(** The join predicate the keys stand for: every left key value equals the
    right key value of its position, none of them NULL. *)
Definition key_predicate (l r : Tuple) : Value :=
  mkValue BOOLEAN (Some (if keys_equal (left_key l) (right_key r) then 1 else 0)).

(** The right rows whose key equals [k], in the order of the right child. *)
Definition group (k : HashJoinKey) (P : list (Tuple * RID)) : list Tuple :=
  (filter (λ r : Tuple * RID, keys_equal k (right_key r.1) = true) P).*1.

Definition combine (o : option (list Tuple)) (g : list Tuple) : option (list Tuple) :=
  match o, g with
  | None, [] => None
  | _, _ => Some (default [] o ++ g)
  end.

Lemma build_spec (e : t) (P : list (Tuple * RID)) :
  right_key_expressions_ e = right_keys →
  Forall (λ row : Tuple * RID, values_ row.1 ≠ []) P →
  ∀ ht, keys_of_length (length right_keys) ht →
    ∃ ht', build e P ht = Done ht' ∧ keys_of_length (length right_keys) ht' ∧
           ∀ k, lookup_key k ht' = combine (lookup_key k ht) (group k P).
Proof.
  intros He HP. induction P as [|[r rid] P IH]; intros ht Hlen.
  - exists ht. split; [reflexivity|]. split; [exact Hlen|]. intros k.
    unfold combine, group. simpl. destruct (lookup_key k ht); [rewrite app_nil_r|]; reflexivity.
  - inversion HP as [|? ? Hr0 HP']; subst. specialize (IH HP').
    cbn [build]. unfold MakeHashJoinRightKey. rewrite He.
    rewrite (make_key_on_data right_keys r Hr0). cbn [obind]. fold (right_key r).
    assert (Hr : length (right_key r) = length right_keys) by apply length_map.
    rewrite InsertKey_insert by (rewrite Hr; exact Hlen). cbn [obind].
    destruct (IH (insert_key (right_key r) r ht)) as (ht' & Hrun & Hlen' & Hlook).
    { rewrite <- Hr. apply insert_key_lengths. rewrite Hr. exact Hlen. }
    exists ht'. split; [exact Hrun|]. split; [exact Hlen'|]. intros k.
    rewrite Hlook, lookup_insert_key. unfold group. rewrite filter_cons. cbn [fst].
    destruct (keys_equal k (right_key r)) eqn:Hk.
    + rewrite decide_True by reflexivity. rewrite fmap_cons. cbn [fst].
      rewrite <- (lookup_key_congruence k (right_key r) ht Hk).
      unfold combine. destruct (lookup_key k ht) as [rows|]; simpl.
      * rewrite <- app_assoc. reflexivity.
      * reflexivity.
    + rewrite decide_False by discriminate. reflexivity.
Qed.

(** The table [Init] builds. *)
Variable ht : SimpleHashJoinHashTable.
Hypothesis Hht_len : keys_of_length (length right_keys) ht.
Hypothesis Hht : ∀ k, lookup_key k ht = combine None (group k R).
(** The tuples of the left child hold data. *)
Hypothesis HL : Forall (λ row : Tuple * RID, values_ row.1 ≠ []) L.

Definition found (l : Tuple) : option (list Tuple) := lookup_key (left_key l) ht.

Definition running (l : Tuple) (i : nat) (vec : option (list Tuple)) (c : nat) (done : bool) : t :=
  mk join_type left_keys right_keys right_schema (ChildExecutor.mk L i)
     (ChildExecutor.mk R (length R)) l done true ht vec c.

Definition stopped (l : Tuple) (i : nat) : t :=
  mk join_type left_keys right_keys right_schema (ChildExecutor.mk L i)
     (ChildExecutor.mk R (length R)) l (bool_decide (is_Some (found l))) false ht (found l) 0.

Lemma probe_spec (next right : ChildExecutor.t) (l : Tuple) (has_next : bool) (e : t) :
  left_key_expressions_ e = left_keys → values_ l ≠ [] →
  probe next l has_next right ht e =
    Done (mk (join_type_ e) left_keys (right_key_expressions_ e) (right_schema_ e)
             next right l (bool_decide (is_Some (found l))) has_next ht (found l) 0).
Proof.
  intros He Hl. unfold probe, MakeHashJoinLeftKey. rewrite He.
  rewrite (make_key_on_data left_keys l Hl). cbn [obind]. fold (left_key l).
  rewrite GetValue_lookup.
  - reflexivity.
  - unfold left_key. rewrite length_map, Hkeys. exact Hht_len.
Qed.

Lemma Next_round_hash (fuel : nat) (l : Tuple) (i : nat) (vec : option (list Tuple))
    (c : nat) (done : bool) :
  values_ l ≠ [] →
  Next (S fuel) (running l i vec c done) =
  match vec ≫= (λ rows, rows !! c) with
  | Some right_tuple =>
      Done (Some (Tuple_of_values (values_ l ++ values_ right_tuple)),
            running l i vec (S c) done)
  | None =>
      if NLJ.is_LEFT join_type && negb done
      then Done (Some (Tuple_of_values (NLJ.padded right_schema l)), running l i vec c true)
      else match L !! i with
           | Some (next_tuple, _) =>
               Next fuel (running next_tuple (S i) (found next_tuple) 0
                                  (bool_decide (is_Some (found next_tuple))))
           | None => Next fuel (stopped l i)
           end
  end.
Proof.
  intros Hl. unfold running, stopped.
  cbn [Next left_has_next_ negb right_tuple_list_ jht_right_tuple_list_cursor_ join_type_
       current_left_has_done_ left_executor_ left_tuple_ right_executor_ jht_
       left_key_expressions_ right_key_expressions_ right_schema_].
  destruct (vec ≫= (λ rows, rows !! c)) as [right_tuple|]; [reflexivity|].
  destruct (NLJ.is_LEFT join_type && negb done); [reflexivity|].
  unfold ChildExecutor.Next. cbn [ChildExecutor.rows_ ChildExecutor.pos_].
  destruct (L !! i) as [[next_tuple next_rid]|] eqn:Hi; cbn [fst snd].
  - rewrite probe_spec; [reflexivity|reflexivity|].
    apply (proj1 (Forall_lookup _ L) HL i (next_tuple, next_rid) Hi).
  - rewrite probe_spec; [reflexivity|reflexivity|exact Hl].
Qed.

Definition rows_of_left (l : Tuple) (vec : option (list Tuple)) (c : nat) (done : bool)
  : list (list Value) :=
  map (λ r : Tuple, values_ l ++ values_ r) (drop c (default [] vec)) ++
  (if NLJ.is_LEFT join_type && negb done then [NLJ.padded right_schema l] else []).

Definition all_of_left (l : Tuple * RID) : list (list Value) :=
  NLJ.rows_of_left join_type key_predicate right_schema R l.1 0 false.

Definition to_come (l : Tuple) (i : nat) (vec : option (list Tuple)) (c : nat) (done : bool)
  : list (list Value) :=
  rows_of_left l vec c done ++ flat_map all_of_left (drop i L).

Lemma all_of_left_found (l : Tuple * RID) :
  all_of_left l = rows_of_left l.1 (found l.1) 0 (bool_decide (is_Some (found l.1))).
Proof.
  unfold all_of_left, NLJ.rows_of_left, rows_of_left, found. rewrite Hht.
  unfold group.
  assert (Hf : ∀ P : list (Tuple * RID),
            filter (λ r : Tuple * RID, NLJ.is_match key_predicate l.1 r.1 = true) P =
            filter (λ r : Tuple * RID, keys_equal (left_key l.1) (right_key r.1) = true) P).
  { intros P. induction P as [|r P IH]; [reflexivity|]. rewrite !filter_cons, IH.
    assert (E : NLJ.is_match key_predicate l.1 r.1 = keys_equal (left_key l.1) (right_key r.1)).
    { unfold NLJ.is_match, key_predicate, IsNull, GetAs_bool. simpl.
      destruct (keys_equal (left_key l.1) (right_key r.1)); reflexivity. }
    rewrite E. reflexivity. }
  rewrite Hf. change (drop 0 R) with R.
  destruct (filter _ R) as [|r rs] eqn:Hms.
  - cbn [fmap list_fmap combine default drop map app orb].
    rewrite bool_decide_eq_false_2 by (intros H; apply H; reflexivity).
    rewrite bool_decide_eq_false_2 by (intros [? ?]; discriminate). reflexivity.
  - rewrite (bool_decide_eq_true_2 (r :: rs ≠ [])) by discriminate.
    unfold combine. simpl. rewrite !andb_false_r. do 2 f_equal.
    clear Hms. induction rs as [|m ms IH]; [reflexivity|].
    simpl. rewrite <- IH. reflexivity.
Qed.

Lemma Next_of_running_hash (fuel : nat) :
  ∀ l i vec c done, values_ l ≠ [] → (length L - i + 1 < fuel)%nat →
    match to_come l i vec c done with
    | [] => ∃ e', Next fuel (running l i vec c done) = Done (None, e') ∧
                  left_has_next_ e' = false
    | row :: rest =>
        ∃ l' i' vec' c' done',
          Next fuel (running l i vec c done) =
            Done (Some (Tuple_of_values row), running l' i' vec' c' done') ∧
          to_come l' i' vec' c' done' = rest ∧ (i ≤ i')%nat ∧ values_ l' ≠ []
    end.
Proof.
  induction fuel as [|fuel IH]; intros l i vec c done Hl Hfuel; [lia|].
  rewrite Next_round_hash by exact Hl.
  destruct (vec ≫= (λ rows, rows !! c)) as [right_tuple|] eqn:Hc.
  - destruct vec as [rows|]; [|discriminate]. cbn [mbind option_bind] in Hc.
    assert (E : to_come l i (Some rows) c done =
                (values_ l ++ values_ right_tuple) :: to_come l i (Some rows) (S c) done).
    { unfold to_come, rows_of_left. change (default [] (Some rows)) with rows.
      rewrite (drop_S _ _ _ Hc). reflexivity. }
    rewrite E. exists l, i, (Some rows), (S c), done.
    split; [reflexivity|]. split; [reflexivity|]. split; [lia|exact Hl].
  - assert (Hdrop : drop c (default [] vec) = []).
    { destruct vec as [rows|]; [|destruct c; reflexivity]. cbn [mbind option_bind] in Hc.
      change (default [] (Some rows)) with rows. apply drop_ge. apply lookup_ge_None_1. exact Hc. }
    destruct (NLJ.is_LEFT join_type && negb done) eqn:Hpad.
    + assert (E : to_come l i vec c done = NLJ.padded right_schema l :: to_come l i vec c true).
      { unfold to_come, rows_of_left. rewrite Hdrop, Hpad. cbn [map app negb].
        rewrite andb_false_r. reflexivity. }
      rewrite E. exists l, i, vec, c, true. split; [reflexivity|]. split; [reflexivity|].
      split; [lia|exact Hl].
    + assert (E0 : rows_of_left l vec c done = []).
      { unfold rows_of_left. rewrite Hdrop, Hpad. reflexivity. }
      destruct (L !! i) as [[next_tuple next_rid]|] eqn:Hi.
      * pose proof (lookup_lt_Some _ _ _ Hi) as Hlt.
        assert (E : to_come l i vec c done =
                    to_come next_tuple (S i) (found next_tuple) 0
                            (bool_decide (is_Some (found next_tuple)))).
        { unfold to_come. rewrite E0, (drop_S _ _ _ Hi). cbn [flat_map app].
          rewrite (all_of_left_found (next_tuple, next_rid)). reflexivity. }
        rewrite E.
        assert (Hnext : values_ next_tuple ≠ [])
          by apply (proj1 (Forall_lookup _ L) HL i (next_tuple, next_rid) Hi).
        specialize (IH next_tuple (S i) (found next_tuple) 0%nat
                       (bool_decide (is_Some (found next_tuple))) Hnext ltac:(lia)).
        destruct (to_come next_tuple (S i) (found next_tuple) 0 _) as [|row rest].
        -- exact IH.
        -- destruct IH as (l' & i' & vec' & c' & done' & Hrun & Hrest & Hle & Hl').
           exists l', i', vec', c', done'. split; [exact Hrun|]. split; [exact Hrest|].
           split; [lia|exact Hl'].
      * assert (E : to_come l i vec c done = []).
        { unfold to_come. rewrite E0. rewrite drop_ge by (apply lookup_ge_None_1; exact Hi).
          reflexivity. }
        rewrite E. destruct fuel as [|fuel']; [lia|].
        cbn [Next stopped left_has_next_ negb]. eexists. split; reflexivity.
Qed.

Lemma drain_of_running_hash (fuel calls : nat) :
  ∀ l i vec c done, values_ l ≠ [] →
    (length (to_come l i vec c done) < calls)%nat → (length L - i + 1 < fuel)%nat →
    drain calls fuel (running l i vec c done) = Done (to_come l i vec c done).
Proof.
  induction calls as [|calls IH]; intros l i vec c done Hl Hcalls Hfuel; [lia|].
  cbn [drain]. pose proof (Next_of_running_hash fuel l i vec c done Hl Hfuel) as Hnext.
  destruct (to_come l i vec c done) as [|row rest].
  - destruct Hnext as (e' & -> & _). reflexivity.
  - destruct Hnext as (l' & i' & vec' & c' & done' & -> & Hrest & Hle & Hl').
    cbn [obind fst snd]. rewrite IH; [|exact Hl'|rewrite Hrest; simpl in Hcalls; lia|lia].
    rewrite Hrest. reflexivity.
Qed.

End JoinOutput.

(** X10. A hash join over two children that deliver the rows [L] and [R],
    all holding data, with as many left as right key expressions, returns on
    successive [Next] calls after [Init] exactly the join of [L] and [R] on
    equality of the keys: for every left row, in the order of the left
    child, one row per right row with an equal key, in the order of the right
    child, and for a LEFT join the left row padded with NULLs when there is
    none; then [false].  A key holding a NULL equals no key.  When the left
    child delivers nothing, [Init] evaluates the left key expressions on the
    default-constructed [left_tuple_], which is undefined. *)
Theorem X10_hash_join_returns_the_join_on_equal_keys
    (join_type : NLJ.JoinType) (left_keys right_keys : list (Tuple → Value))
    (right_schema : list TypeId) (L R : list (Tuple * RID))
    (flag : bool) (e : t) (calls fuel : nat) :
  new join_type left_keys right_keys right_schema
      (ChildExecutor.of_rows L) (ChildExecutor.of_rows R) flag = Some e →
  length left_keys = length right_keys →
  Forall (λ row : Tuple * RID, values_ row.1 ≠ []) L →
  Forall (λ row : Tuple * RID, values_ row.1 ≠ []) R →
  (length (NLJ.join_rows join_type (key_predicate left_keys right_keys) right_schema L R)
   < calls)%nat →
  (length L + 2 < fuel)%nat →
  (e' ←! Init e; drain calls fuel e') =
  match L, left_keys with
  | [], _ :: _ => Undefined
  | _, _ =>
      Done (NLJ.join_rows join_type (key_predicate left_keys right_keys) right_schema L R)
  end.
Proof.
  intros Hnew Hkeys HL HR Hcalls Hfuel.
  assert (He : e = mk join_type left_keys right_keys right_schema (ChildExecutor.of_rows L)
                      (ChildExecutor.of_rows R) (Tuple_of_values []) flag false [] None 0).
  { unfold new in Hnew. destruct join_type; try discriminate; injection Hnew as <-; reflexivity. }
  subst e. unfold Init.
  cbn [left_executor_ right_executor_ left_tuple_].
  change (ChildExecutor.rows_ (ChildExecutor.Init (ChildExecutor.of_rows R))) with R.
  destruct (build_spec right_keys
              (mk join_type left_keys right_keys right_schema (ChildExecutor.of_rows L)
                  (ChildExecutor.of_rows R) (Tuple_of_values []) flag false [] None 0)
              R eq_refl HR []) as (ht & Hbuild & Hlen & Hlook).
  { constructor. }
  rewrite Hbuild. cbn [obind].
  destruct L as [|[l0 rid0] L'].
  - unfold probe, MakeHashJoinLeftKey. cbn [left_key_expressions_ ChildExecutor.Next
      ChildExecutor.Init ChildExecutor.of_rows ChildExecutor.rows_ ChildExecutor.pos_
      lookup fst snd].
    destruct left_keys as [|k left_keys]; [|reflexivity].
    cbn [make_key obind].
    rewrite GetValue_lookup by (cbn [length] in Hkeys; cbn [length]; rewrite Hkeys; exact Hlen).
    cbn [obind].
    destruct calls as [|calls]; [simpl in Hcalls; lia|].
    destruct fuel as [|fuel]; [lia|]. reflexivity.
  - inversion HL as [|? ? Hl0 HL']; subst. cbn [fst] in Hl0.
    change (ChildExecutor.Next (ChildExecutor.Init (ChildExecutor.of_rows ((l0, rid0) :: L'))))
      with (Some (l0, rid0), ChildExecutor.mk ((l0, rid0) :: L') 1).
    cbn [fst snd].
    rewrite (probe_spec left_keys right_keys Hkeys ht Hlen) by (reflexivity || exact Hl0).
    cbn [obind join_type_ right_key_expressions_ right_schema_].
    change (drain calls fuel
              (running join_type left_keys right_keys right_schema ((l0, rid0) :: L') R ht l0 1
                 (found left_keys ht l0) 0 (bool_decide (is_Some (found left_keys ht l0)))) =
            Done (NLJ.join_rows join_type (key_predicate left_keys right_keys) right_schema
                    ((l0, rid0) :: L') R)).
    assert (Hout : to_come join_type left_keys right_keys right_schema ((l0, rid0) :: L') R l0 1
                     (found left_keys ht l0) 0 (bool_decide (is_Some (found left_keys ht l0))) =
                   NLJ.join_rows join_type (key_predicate left_keys right_keys) right_schema
                     ((l0, rid0) :: L') R).
    { unfold to_come, NLJ.join_rows. cbn [flat_map drop]. f_equal.
      symmetry. apply (all_of_left_found join_type left_keys right_keys right_schema R ht Hlook
                         (l0, rid0)). }
    rewrite <- Hout. apply (drain_of_running_hash join_type left_keys right_keys right_schema
                              ((l0, rid0) :: L') R Hkeys ht Hlen Hlook HL).
    + exact Hl0.
    + rewrite Hout. exact Hcalls.
    + cbn [length] in *. lia.
Qed.

(** A LEFT join on the first columns. *)
Definition key_column (a : Tuple) : Value :=
  match values_ a with
  | v :: _ => v
  | [] => mkValue INTEGER None
  end.

Lemma X10_hash_join_returns_the_join_on_equal_keys_witness :
  (e' ←! Init (mk NLJ.LEFT [key_column] [key_column] [INTEGER]
                  (ChildExecutor.of_rows [NLJ.row 1; NLJ.row 2; NLJ.row 2])
                  (ChildExecutor.of_rows [NLJ.row 2; NLJ.row 3; NLJ.row 2])
                  (Tuple_of_values []) false false [] None 0);
   drain 7 6 e') =
  Done (NLJ.join_rows NLJ.LEFT (key_predicate [key_column] [key_column]) [INTEGER]
          [NLJ.row 1; NLJ.row 2; NLJ.row 2] [NLJ.row 2; NLJ.row 3; NLJ.row 2]).
Proof.
  apply (X10_hash_join_returns_the_join_on_equal_keys NLJ.LEFT [key_column] [key_column]
           [INTEGER] [NLJ.row 1; NLJ.row 2; NLJ.row 2] [NLJ.row 2; NLJ.row 3; NLJ.row 2] false).
  - reflexivity.
  - reflexivity.
  - repeat constructor; discriminate.
  - repeat constructor; discriminate.
  - vm_compute. lia.
  - vm_compute. lia.
Defined.

End HashJoinExecutor.

(** ** [std::sort] (libstdc++: bits/stl_algo.h, bits/stl_heap.h)

    [SortExecutor::Init] orders its vector with [std::sort].  The C++
    standard fixes only the contract of the call; what it does with rows of
    equal keys, or under a comparison that is no strict weak ordering, is
    decided by the implementation.  This is the one of libstdc++ (GCC 12),
    transcribed function by function.  Its [std::sort] is an introsort: ranges
    longer than [_S_threshold] are partitioned around the median of three
    elements until the budget of [2 * lg n] levels is used up, where the
    range at hand is sorted through a heap; one insertion sort over the whole
    range finishes the work.

    An iterator is an index into the vector, a range [first, last) a pair of
    indices with [first ≤ last].  Reading or writing outside the vector is
    undefined.  Moving a value is copying it.  Indices and distances are
    natural numbers.  Where the code subtracts below zero ([holeIndex - 1] at
    the root of a heap, [len - 1] and [len - 2] on a heap with nothing in it)
    it goes on to halve the number, and the truncating division of C++ makes
    0 of -1 as the subtraction of naturals does; only [(len - 2) / 2] is -1
    on the empty heap, and is written as the division of integers. *)

Module StdSort.

Section Sort.

Context {A : Type}.
(** The comparison object [comp]. *)
Variable comp : A → A → bool.

(** [*(first + i)] read *)
Definition at_index (l : list A) (i : nat) : outcome A :=
  match l !! i with
  | Some x => Done x
  | None => Undefined
  end.

(** [*(first + i) = x] *)
Definition assign (i : nat) (x : A) (l : list A) : outcome (list A) :=
  if decide (i < length l)%nat then Done (<[i := x]> l) else Undefined.

(** [std::iter_swap(a, b)] *)
Definition iter_swap (a b : nat) (l : list A) : outcome (list A) :=
  x ←! at_index l a;
  y ←! at_index l b;
  l1 ←! assign a y l;
  assign b x l1.

(** [_S_threshold] *)
Definition S_threshold : nat := 16.

(** *** Insertion sort *)

(** [__unguarded_linear_insert(last, comp)]: the value [val] at [last] moves
    left past the elements it compares less than.  [before] is the part of
    the vector before [last], its last element first; nothing stops the walk
    at the start of the vector.  The result is the vector up to and
    including [last], again its last element first. *)
Fixpoint unguarded_linear_insert (val : A) (before : list A) : outcome (list A) :=
  match before with
  | [] => Undefined
  | next :: rest =>
      if comp val next
      then (moved ←! unguarded_linear_insert val rest; Done (next :: moved))
      else Done (val :: before)
  end.

(** The body of the loop of [__unguarded_insertion_sort]: [done] is the
    vector before [i], [val] the value at [i]. *)
Definition unguarded_step (done : list A) (val : A) : outcome (list A) :=
  moved ←! unguarded_linear_insert val (reverse done);
  Done (reverse moved).

(** The body of the loop of [__insertion_sort]: [done] is the range before
    [i], which starts with [*first]. *)
Definition insertion_step (done : list A) (val : A) : outcome (list A) :=
  match done with
  | [] => Undefined
  | first :: _ =>
      if comp val first then Done (val :: done) else unguarded_step done val
  end.

(** [for (i = ...; i != last; ++i) step(i)] over the values [todo] from [i]
    to [last]. *)
Fixpoint insert_all (step : list A → A → outcome (list A)) (done todo : list A)
  : outcome (list A) :=
  match todo with
  | [] => Done done
  | val :: rest => done1 ←! step done val; insert_all step done1 rest
  end.

(** [__insertion_sort(first, last, comp)] on the range [l]. *)
Definition insertion_sort (l : list A) : outcome (list A) :=
  match l with
  | [] => Done []
  | first :: rest => insert_all insertion_step [first] rest
  end.

(** [__unguarded_insertion_sort(first, last, comp)]: [done] is the vector
    before [first], [todo] the range. *)
Definition unguarded_insertion_sort (done todo : list A) : outcome (list A) :=
  insert_all unguarded_step done todo.

(** [__final_insertion_sort(first, last, comp)] on the whole vector. *)
Definition final_insertion_sort (l : list A) : outcome (list A) :=
  if decide (S_threshold < length l)%nat
  then (done ←! insertion_sort (take S_threshold l);
        unguarded_insertion_sort done (drop S_threshold l))
  else insertion_sort l.

(** *** Partition *)

(** [__move_median_to_first(result, a, b, c, comp)] *)
Definition move_median_to_first (result a b c : nat) (l : list A) : outcome (list A) :=
  xa ←! at_index l a;
  xb ←! at_index l b;
  xc ←! at_index l c;
  if comp xa xb then
    if comp xb xc then iter_swap result b l
    else if comp xa xc then iter_swap result c l
    else iter_swap result a l
  else if comp xa xc then iter_swap result a l
  else if comp xb xc then iter_swap result c l
  else iter_swap result b l.

(** [while (test(it)) ++it;] (or [--it]) over the values [from] met on the
    way: the number of steps taken.  Leaving the vector is undefined. *)
Fixpoint skip_while (test : A → bool) (from : list A) : outcome nat :=
  match from with
  | [] => Undefined
  | x :: rest => if test x then (n ←! skip_while test rest; Done (S n)) else Done 0%nat
  end.

(** [__unguarded_partition(first, last, pivot, comp)]: one round of the
    [while (true)] for each unit of fuel. *)
Fixpoint unguarded_partition (fuel : nat) (first last pivot : nat) (l : list A)
  : outcome (nat * list A) :=
  match fuel with
  | O => OutOfFuel
  | S fuel' =>
      p ←! at_index l pivot;
      up ←! skip_while (λ x, comp x p) (drop first l);
      let first1 := (first + up)%nat in
      if decide (last = 0)%nat then Undefined else
      down ←! skip_while (λ x, comp p x) (reverse (take last l));
      let last1 := (last - 1 - down)%nat in
      if decide (first1 < last1)%nat
      then (l1 ←! iter_swap first1 last1 l;
            unguarded_partition fuel' (first1 + 1) last1 pivot l1)
      else Done (first1, l)
  end.

(** [__unguarded_partition_pivot(first, last, comp)] *)
Definition unguarded_partition_pivot (first last : nat) (l : list A) : outcome (nat * list A) :=
  let mid := (first + (last - first) / 2)%nat in
  l1 ←! move_median_to_first first (first + 1) mid (last - 1) l;
  unguarded_partition (last - first) (first + 1) last first l1.

(** *** Heap sort (bits/stl_heap.h) *)

(** [__push_heap(first, holeIndex, topIndex, value, comp)] *)
Fixpoint push_heap (fuel : nat) (first holeIndex topIndex : nat) (value : A) (l : list A)
  : outcome (list A) :=
  match fuel with
  | O => OutOfFuel
  | S fuel' =>
      let parent := ((holeIndex - 1) / 2)%nat in
      if decide (topIndex < holeIndex)%nat then
        x ←! at_index l (first + parent);
        if comp x value then
          l1 ←! assign (first + holeIndex) x l;
          push_heap fuel' first parent topIndex value l1
        else assign (first + holeIndex) value l
      else assign (first + holeIndex) value l
  end.

(** The first loop of [__adjust_heap]: the hole moves down to the larger of
    its children.  [holeIndex] and [secondChild] are equal whenever the
    condition of the loop is read. *)
Fixpoint move_hole_down (fuel : nat) (first len holeIndex : nat) (l : list A)
  : outcome (nat * list A) :=
  match fuel with
  | O => OutOfFuel
  | S fuel' =>
      if decide (holeIndex < (len - 1) / 2)%nat then
        let secondChild := (2 * (holeIndex + 1))%nat in
        x ←! at_index l (first + secondChild);
        y ←! at_index l (first + (secondChild - 1));
        let secondChild := (if comp x y then secondChild - 1 else secondChild)%nat in
        z ←! at_index l (first + secondChild);
        l1 ←! assign (first + holeIndex) z l;
        move_hole_down fuel' first len secondChild l1
      else Done (holeIndex, l)
  end.

(** [__adjust_heap(first, holeIndex, len, value, comp)] *)
Definition adjust_heap (first holeIndex len : nat) (value : A) (l : list A)
  : outcome (list A) :=
  let topIndex := holeIndex in
  r ←! move_hole_down (S len) first len holeIndex l;
  let '(secondChild, l1) := r in
  r ←! (if (len mod 2 =? 0)%nat && (Z.of_nat secondChild =? (Z.of_nat len - 2) ÷ 2)
         then (let secondChild2 := (2 * (secondChild + 1))%nat in
               x ←! at_index l1 (first + (secondChild2 - 1));
               l2 ←! assign (first + secondChild) x l1;
               Done ((secondChild2 - 1)%nat, l2))
         else Done (secondChild, l1));
  let '(holeIndex1, l2) := r in
  push_heap (S holeIndex1) first holeIndex1 topIndex value l2.

(** [__pop_heap(first, last, result, comp)] *)
Definition pop_heap (first last result : nat) (l : list A) : outcome (list A) :=
  value ←! at_index l result;
  x ←! at_index l first;
  l1 ←! assign result x l;
  adjust_heap first 0 (last - first) value l1.

(** The loop of [__make_heap], from [parent] down to 0. *)
Fixpoint make_heap_from (parent : nat) (first len : nat) (l : list A) : outcome (list A) :=
  value ←! at_index l (first + parent);
  l1 ←! adjust_heap first parent len value l;
  match parent with
  | O => Done l1
  | S parent' => make_heap_from parent' first len l1
  end.

(** [__make_heap(first, last, comp)] *)
Definition make_heap (first last : nat) (l : list A) : outcome (list A) :=
  if decide (last - first < 2)%nat then Done l
  else
    let len := (last - first)%nat in
    make_heap_from ((len - 2) / 2) first len l.

(** [__sort_heap(first, last, comp)]: one round of the loop for each unit
    of fuel. *)
Fixpoint sort_heap (fuel : nat) (first last : nat) (l : list A) : outcome (list A) :=
  if decide (1 < last - first)%nat then
    match fuel with
    | O => OutOfFuel
    | S fuel' =>
        let last := (last - 1)%nat in
        l1 ←! pop_heap first last last l;
        sort_heap fuel' first last l1
    end
  else Done l.

(** The loop of [__heap_select] over the [count] iterators from [i]. *)
Fixpoint heap_select_from (count : nat) (first middle i : nat) (l : list A) : outcome (list A) :=
  match count with
  | O => Done l
  | S count' =>
      x ←! at_index l i;
      y ←! at_index l first;
      l1 ←! (if comp x y then pop_heap first middle i l else Done l);
      heap_select_from count' first middle (i + 1) l1
  end.

(** [__heap_select(first, middle, last, comp)] *)
Definition heap_select (first middle last : nat) (l : list A) : outcome (list A) :=
  l1 ←! make_heap first middle l;
  heap_select_from (last - middle) first middle middle l1.

(** [__partial_sort(first, middle, last, comp)] *)
Definition partial_sort (first middle last : nat) (l : list A) : outcome (list A) :=
  l1 ←! heap_select first middle last l;
  sort_heap (middle - first) first middle l1.

(** *** Introsort *)

(** [__introsort_loop(first, last, depth_limit, comp)]: a round of the
    [while] continues as the same function on [first, cut). *)
Fixpoint introsort_loop (depth_limit : nat) (first last : nat) (l : list A)
  : outcome (list A) :=
  if decide (S_threshold < last - first)%nat then
    match depth_limit with
    | O => partial_sort first last last l
    | S depth_limit' =>
        r ←! unguarded_partition_pivot first last l;
        let '(cut, l1) := r in
        l2 ←! introsort_loop depth_limit' cut last l1;
        introsort_loop depth_limit' first cut l2
    end
  else Done l.

(** [std::__lg(n)], the position of the highest bit set. *)
Definition lg (n : nat) : nat := Nat.log2 n.

(** [std::sort(first, last, comp)] on the whole vector. *)
Definition sort (l : list A) : outcome (list A) :=
  match l with
  | [] => Done l
  | _ :: _ =>
      l1 ←! introsort_loop (lg (length l) * 2) 0 (length l) l;
      final_insertion_sort l1
  end.

End Sort.

(** Arithmetic with halves: the quotient and the remainder of every
    division by two in sight are introduced by their equation. *)
Ltac halve x :=
  lazymatch goal with
  | _ : x = (2 * (x / 2) + x mod 2)%nat |- _ => fail
  | _ => pose proof (Nat.div_mod_eq x 2);
         pose proof (Nat.mod_upper_bound x 2 ltac:(discriminate))
  end.

Ltac halves :=
  intros;
  repeat match goal with
         | |- context [(?x / 2)%nat] => halve x
         | |- context [(?x mod 2)%nat] => halve x
         | _ : context [(?x / 2)%nat] |- _ => halve x
         | _ : context [(?x mod 2)%nat] |- _ => halve x
         end;
  lia.

(** *** What the pieces do under a strict weak ordering

    [dom] holds of the values of the vector; on them [comp] is irreflexive
    and transitive, and so is being equivalent under it. *)

Section Correctness.

Local Open Scope nat_scope.

Context {A : Type}.
Variable comp : A → A → bool.
Variable dom : A → Prop.

Hypothesis comp_irreflexive : ∀ a, dom a → comp a a = false.
Hypothesis comp_transitive :
  ∀ a b c, dom a → dom b → dom c → comp a b = true → comp b c = true → comp a c = true.
Hypothesis comp_equivalence :
  ∀ a b c, dom a → dom b → dom c →
    comp a b = false → comp b a = false → comp b c = false → comp c b = false →
    comp a c = false ∧ comp c a = false.

(** [a] may stand before [b]. *)
Definition ordered (a b : A) : Prop := comp b a = false.

Definition ascending (l : list A) : Prop := StronglySorted ordered l.

Lemma comp_asymmetric a b : dom a → dom b → comp a b = true → comp b a = false.
Proof.
  intros Ha Hb Hab. destruct (comp b a) eqn:Hba; [|reflexivity].
  rewrite <- (comp_irreflexive a Ha). symmetry. exact (comp_transitive a b a Ha Hb Ha Hab Hba).
Qed.

Lemma ordered_transitive a b c :
  dom a → dom b → dom c → ordered a b → ordered b c → ordered a c.
Proof.
  unfold ordered. intros Ha Hb Hc Hab Hbc.
  destruct (comp c a) eqn:Hca; [exfalso|reflexivity].
  destruct (comp a b) eqn:Hab'.
  { rewrite (comp_transitive c a b Hc Ha Hb Hca Hab') in Hbc. discriminate. }
  destruct (comp b c) eqn:Hbc'.
  { rewrite (comp_transitive b c a Hb Hc Ha Hbc' Hca) in Hab. discriminate. }
  destruct (comp_equivalence a b c Ha Hb Hc Hab' Hab Hbc' Hbc) as [_ H].
  congruence.
Qed.

Lemma less_ordered a b : dom a → dom b → comp a b = true → ordered a b.
Proof. apply comp_asymmetric. Qed.

Lemma ordered_reflexive a : dom a → ordered a a.
Proof. apply comp_irreflexive. Qed.

(** **** Insertion sort *)

Lemma ascending_reverse (l : list A) :
  ascending l ↔ StronglySorted (flip ordered) (reverse l).
Proof.
  unfold ascending. induction l as [|x l IH].
  - split; constructor.
  - rewrite reverse_cons, StronglySorted_cons, StronglySorted_app, IH.
    split.
    + intros [Hx Hl]. split; [|split; [exact Hl|repeat constructor]].
      intros y z Hy Hz. apply (proj1 (elem_of_reverse _ _)) in Hy.
      apply list_elem_of_singleton in Hz.
      subst z. rewrite Forall_forall in Hx. apply Hx. exact Hy.
    + intros (Hx & Hl & _). split; [|exact Hl].
      apply Forall_forall. intros y Hy. apply (Hx y x).
      * apply elem_of_reverse. exact Hy.
      * apply list_elem_of_singleton. reflexivity.
Qed.

Lemma ascending_lookup (l : list A) (i j : nat) (a b : A) :
  ascending l → i < j → l !! i = Some a → l !! j = Some b → ordered a b.
Proof.
  intros Hl. revert i j. induction Hl as [|x l Hl IH Hx]; intros i j Hij Hi Hj; [discriminate|].
  destruct j as [|j]; [lia|]. simpl in Hj. destruct i as [|i].
  - simpl in Hi. injection Hi as <-. rewrite Forall_forall in Hx. apply Hx.
    eapply list_elem_of_lookup_2. exact Hj.
  - simpl in Hi. apply (IH i j); (assumption || lia).
Qed.

(** The value stops before the start of the vector when something there may
    stand before it; it lands behind everything that may. *)
Lemma unguarded_linear_insert_spec (val : A) (before : list A) :
  dom val → Forall dom before →
  StronglySorted (flip ordered) before →
  Exists (λ y, ordered y val) before →
  ∃ r, unguarded_linear_insert comp val before = Done r ∧
       r ≡ₚ val :: before ∧ StronglySorted (flip ordered) r.
Proof.
  intros Hval. induction before as [|next rest IH]; intros Hdom Hsorted Hstop.
  - inversion Hstop.
  - apply Forall_cons in Hdom as [Hnext Hrest].
    apply StronglySorted_cons in Hsorted as [Hall Hsorted].
    simpl. destruct (comp val next) eqn:Hc.
    + destruct IH as (moved & -> & Hperm & Hmoved); [exact Hrest|exact Hsorted| |].
      { inversion Hstop as [? ? H|? ? H]; subst; [|exact H].
        unfold ordered in H. congruence. }
      simpl. eexists. split; [reflexivity|]. split.
      * rewrite Hperm. apply Permutation_swap.
      * apply StronglySorted_cons. split; [|exact Hmoved].
        apply Forall_forall. intros y Hy. rewrite Hperm in Hy.
        apply elem_of_cons in Hy as [->|Hy].
        -- unfold flip. apply less_ordered; assumption.
        -- rewrite Forall_forall in Hall. apply Hall. exact Hy.
    + eexists. split; [reflexivity|]. split; [reflexivity|].
      apply StronglySorted_cons. split.
      * apply Forall_cons. split; [exact Hc|].
        apply Forall_forall. intros y Hy. unfold flip.
        rewrite Forall_forall in Hall, Hrest.
        apply (ordered_transitive y next val); auto. apply Hall. exact Hy.
      * apply StronglySorted_cons. split; assumption.
Qed.

Lemma unguarded_step_spec (done : list A) (val : A) :
  dom val → Forall dom done → ascending done →
  Exists (λ y, ordered y val) done →
  ∃ r, unguarded_step comp done val = Done r ∧ r ≡ₚ done ++ [val] ∧ ascending r.
Proof.
  intros Hval Hdom Hsorted Hstop. unfold unguarded_step.
  destruct (unguarded_linear_insert_spec val (reverse done)) as (moved & -> & Hperm & Hmoved).
  - exact Hval.
  - apply Forall_reverse. exact Hdom.
  - apply ascending_reverse. exact Hsorted.
  - apply Exists_exists. apply Exists_exists in Hstop as (y & Hy & Hle).
    exists y. split; [apply elem_of_reverse; exact Hy|exact Hle].
  - simpl. eexists. split; [reflexivity|]. split.
    + rewrite reverse_Permutation, Hperm, reverse_Permutation.
      rewrite (Permutation_app_comm done [val]). reflexivity.
    + apply ascending_reverse. rewrite reverse_involutive. exact Hmoved.
Qed.

Lemma insertion_step_spec (done : list A) (val : A) :
  dom val → Forall dom done → ascending done → done ≠ [] →
  ∃ r, insertion_step comp done val = Done r ∧ r ≡ₚ done ++ [val] ∧ ascending r.
Proof.
  intros Hval Hdom Hsorted Hne. destruct done as [|first rest]; [done|].
  simpl. destruct (comp val first) eqn:Hc.
  - eexists. split; [reflexivity|]. split.
    + rewrite (Permutation_app_comm (first :: rest) [val]). reflexivity.
    + apply StronglySorted_cons. split; [|exact Hsorted].
      apply Forall_cons in Hdom as [Hfirst Hrest].
      apply StronglySorted_cons in Hsorted as [Hall _].
      apply Forall_cons. split; [apply less_ordered; assumption|].
      apply Forall_forall. intros y Hy. rewrite Forall_forall in Hall, Hrest.
      apply (ordered_transitive val first y); auto. apply less_ordered; assumption.
  - apply unguarded_step_spec; try assumption.
    apply Exists_cons_hd. exact Hc.
Qed.

(** Every value still to be inserted has one before it that may stand before
    it. *)
Fixpoint guarded (seen todo : list A) : Prop :=
  match todo with
  | [] => True
  | x :: rest => Exists (λ y, ordered y x) seen ∧ guarded (seen ++ [x]) rest
  end.

Lemma guarded_Permutation (seen seen' todo : list A) :
  seen ≡ₚ seen' → guarded seen todo → guarded seen' todo.
Proof.
  revert seen seen'. induction todo as [|x rest IH]; intros seen seen' Hperm; [done|].
  simpl. intros [Hx Hrest]. split.
  - rewrite <- Hperm. exact Hx.
  - apply (IH (seen ++ [x])); [|exact Hrest]. rewrite Hperm. reflexivity.
Qed.

Lemma insert_all_unguarded_spec (done todo : list A) :
  Forall dom done → Forall dom todo → ascending done → guarded done todo →
  ∃ r, insert_all (unguarded_step comp) done todo = Done r ∧
       r ≡ₚ done ++ todo ∧ ascending r.
Proof.
  revert done. induction todo as [|x rest IH]; intros done Hdone Htodo Hsorted Hguard.
  - simpl. eexists. split; [reflexivity|]. rewrite app_nil_r. split; [reflexivity|exact Hsorted].
  - apply Forall_cons in Htodo as [Hx Hrest]. destruct Hguard as [Hstop Hguard].
    destruct (unguarded_step_spec done x Hx Hdone Hsorted Hstop) as (done1 & Hstep & Hperm & Hs1).
    simpl. rewrite Hstep. simpl.
    destruct (IH done1) as (r & -> & Hperm' & Hr).
    + rewrite Hperm. apply Forall_app. split; [exact Hdone|repeat constructor; exact Hx].
    + exact Hrest.
    + exact Hs1.
    + apply (guarded_Permutation (done ++ [x])); [symmetry; exact Hperm|exact Hguard].
    + eexists. split; [reflexivity|]. split; [|exact Hr].
      rewrite Hperm', Hperm, <- app_assoc. reflexivity.
Qed.

Lemma insert_all_guarded_spec (done todo : list A) :
  Forall dom done → Forall dom todo → ascending done → done ≠ [] →
  ∃ r, insert_all (insertion_step comp) done todo = Done r ∧
       r ≡ₚ done ++ todo ∧ ascending r.
Proof.
  revert done. induction todo as [|x rest IH]; intros done Hdone Htodo Hsorted Hne.
  - simpl. eexists. split; [reflexivity|]. rewrite app_nil_r. split; [reflexivity|exact Hsorted].
  - apply Forall_cons in Htodo as [Hx Hrest].
    destruct (insertion_step_spec done x Hx Hdone Hsorted Hne) as (done1 & Hstep & Hperm & Hs1).
    simpl. rewrite Hstep. simpl.
    destruct (IH done1) as (r & -> & Hperm' & Hr).
    + rewrite Hperm. apply Forall_app. split; [exact Hdone|repeat constructor; exact Hx].
    + exact Hrest.
    + exact Hs1.
    + intros ->. apply Permutation_nil_l in Hperm. destruct done; discriminate.
    + eexists. split; [reflexivity|]. split; [|exact Hr].
      rewrite Hperm', Hperm, <- app_assoc. reflexivity.
Qed.

Lemma insertion_sort_spec (l : list A) :
  Forall dom l → ∃ r, insertion_sort comp l = Done r ∧ r ≡ₚ l ∧ ascending r.
Proof.
  intros Hdom. destruct l as [|first rest].
  - exists []. repeat split; constructor.
  - apply Forall_cons in Hdom as [Hfirst Hrest]. unfold insertion_sort.
    apply (insert_all_guarded_spec [first] rest); try done.
    + repeat constructor. exact Hfirst.
    + repeat constructor.
Qed.

(** From the threshold on, every value has one before it that may stand
    before it: the unguarded part of the final pass is safe. *)
Definition has_guards (from : nat) (l : list A) : Prop :=
  ∀ i x, (from ≤ i)%nat → l !! i = Some x →
    ∃ j y, (j < i)%nat ∧ l !! j = Some y ∧ ordered y x.

Lemma has_guards_guarded (l : list A) (k : nat) :
  has_guards k l → guarded (take k l) (drop k l).
Proof.
  intros Hg. remember (length l - k)%nat as n eqn:Hn. revert k Hg Hn.
  induction n as [|n IH]; intros k Hg Hn.
  - rewrite drop_ge by lia. exact I.
  - destruct (l !! k) as [x|] eqn:Hx.
    2:{ apply lookup_ge_None in Hx. lia. }
    rewrite (drop_S l x k Hx). simpl. split.
    + destruct (Hg k x) as (j & y & Hj & Hy & Hle); [lia|exact Hx|].
      apply Exists_exists. exists y. split; [|exact Hle].
      apply list_elem_of_lookup. exists j. rewrite lookup_take_lt by lia. exact Hy.
    + rewrite <- (take_S_r l k x Hx). apply IH; [|lia].
      intros i z Hi. apply Hg. lia.
Qed.

Lemma final_insertion_sort_spec (l : list A) :
  Forall dom l → has_guards S_threshold l →
  ∃ r, final_insertion_sort comp l = Done r ∧ r ≡ₚ l ∧ ascending r.
Proof.
  intros Hdom Hg. unfold final_insertion_sort.
  destruct (decide (S_threshold < length l)%nat) as [Hlong|Hshort].
  - destruct (insertion_sort_spec (take S_threshold l)) as (done & -> & Hperm & Hdone).
    { apply Forall_take. exact Hdom. }
    simpl. unfold unguarded_insertion_sort.
    destruct (insert_all_unguarded_spec done (drop S_threshold l)) as (r & -> & Hperm' & Hr).
    + rewrite Hperm. apply Forall_take. exact Hdom.
    + apply Forall_drop. exact Hdom.
    + exact Hdone.
    + apply (guarded_Permutation (take S_threshold l)); [symmetry; exact Hperm|].
      apply has_guards_guarded. exact Hg.
    + eexists. split; [reflexivity|]. split; [|exact Hr].
      rewrite Hperm', Hperm, take_drop. reflexivity.
  - apply insertion_sort_spec. exact Hdom.
Qed.

(** **** Ranges of the vector *)

(** [l'] is [l] with the values of the range [first, last) rearranged. *)
Definition rearranged (first last : nat) (l l' : list A) : Prop :=
  l ≡ₚ l' ∧ ∀ i, (i < first ∨ last ≤ i)%nat → l' !! i = l !! i.

Lemma rearranged_refl first last l : rearranged first last l l.
Proof. split; [reflexivity|auto]. Qed.

Lemma rearranged_trans first last l1 l2 l3 :
  rearranged first last l1 l2 → rearranged first last l2 l3 → rearranged first last l1 l3.
Proof.
  intros [Hp1 Hf1] [Hp2 Hf2]. split; [etrans; eassumption|].
  intros i Hi. rewrite Hf2, Hf1 by exact Hi. reflexivity.
Qed.

Lemma rearranged_widen first last first' last' l l' :
  (first' ≤ first)%nat → (last ≤ last')%nat →
  rearranged first last l l' → rearranged first' last' l l'.
Proof. intros Hf Hl [Hp Hframe]. split; [exact Hp|]. intros i Hi. apply Hframe. lia. Qed.

Lemma rearranged_length first last l l' : rearranged first last l l' → length l' = length l.
Proof. intros [Hp _]. symmetry. apply Permutation_length. exact Hp. Qed.

Lemma rearranged_dom first last l l' : rearranged first last l l' → Forall dom l → Forall dom l'.
Proof. intros [Hp _] H. rewrite <- Hp. exact H. Qed.

Lemma rearranged_range first last l l' :
  (first ≤ last)%nat → rearranged first last l l' →
  take (last - first) (drop first l) ≡ₚ take (last - first) (drop first l').
Proof.
  intros Hle [Hp Hframe].
  assert (Hsplit : ∀ k : list A,
            k = take first k ++ take (last - first) (drop first k) ++ drop last k).
  { intros k. rewrite <- (take_drop first k) at 1. f_equal.
    rewrite <- (take_drop (last - first) (drop first k)) at 1. f_equal.
    rewrite drop_drop. f_equal. lia. }
  assert (Htake : take first l' = take first l).
  { apply list_eq. intros i. destruct (decide (i < first)%nat).
    - rewrite !lookup_take_lt by lia. apply Hframe. lia.
    - rewrite !lookup_take_ge by lia. reflexivity. }
  assert (Hdrop : drop last l' = drop last l).
  { apply list_eq. intros i. rewrite !lookup_drop. apply Hframe. lia. }
  rewrite (Hsplit l), (Hsplit l'), Htake, Hdrop in Hp.
  apply Permutation_app_inv_l, Permutation_app_inv_r in Hp. exact Hp.
Qed.

(** A value found in the range afterwards was in the range before. *)
Lemma rearranged_lookup first last l l' i x :
  rearranged first last l l' → (first ≤ i < last)%nat → l' !! i = Some x →
  ∃ j, (first ≤ j < last)%nat ∧ l !! j = Some x.
Proof.
  intros Hr Hi Hx.
  assert (Hin : x ∈ take (last - first) (drop first l)).
  { rewrite (rearranged_range first last l l') by (lia || exact Hr).
    apply list_elem_of_lookup. exists (i - first)%nat.
    rewrite lookup_take_lt by lia. rewrite lookup_drop.
    replace (first + (i - first))%nat with i by lia. exact Hx. }
  apply list_elem_of_lookup in Hin as [k Hk].
  apply lookup_take_Some in Hk as [Hk Hlt]. rewrite lookup_drop in Hk.
  exists (first + k)%nat. split; [lia|exact Hk].
Qed.

Lemma iter_swap_spec (a b : nat) (l : list A) (x y : A) :
  l !! a = Some x → l !! b = Some y →
  iter_swap a b l = Done (<[b := x]> (<[a := y]> l)).
Proof.
  intros Ha Hb. unfold iter_swap, at_index, assign. rewrite Ha, Hb. simpl.
  rewrite decide_True by (eapply lookup_lt_Some; exact Ha). simpl.
  rewrite decide_True by (rewrite length_insert; eapply lookup_lt_Some; exact Hb).
  reflexivity.
Qed.

Lemma swapped_rearranged (first last a b : nat) (l : list A) (x y : A) :
  l !! a = Some x → l !! b = Some y →
  (first ≤ a < last)%nat → (first ≤ b < last)%nat →
  rearranged first last l (<[b := x]> (<[a := y]> l)).
Proof.
  intros Ha Hb Hia Hib. split.
  - symmetry. apply Permutation_insert_swap; assumption.
  - intros i Hi. rewrite !list_lookup_insert_ne by lia. reflexivity.
Qed.

(** **** Partition *)

Lemma skip_while_spec (test : A → bool) (from : list A) (i : nat) (x : A) :
  from !! i = Some x → test x = false →
  ∃ n y, skip_while test from = Done n ∧ (n ≤ i)%nat ∧
         from !! n = Some y ∧ test y = false ∧
         ∀ k z, (k < n)%nat → from !! k = Some z → test z = true.
Proof.
  revert i. induction from as [|z0 from IH]; intros i Hi Hx; [discriminate|].
  simpl. destruct (test z0) eqn:Hz0.
  - destruct i as [|i]; [simpl in Hi; congruence|]. simpl in Hi.
    destruct (IH i Hi Hx) as (n & y & -> & Hn & Hy & Hty & Hbefore).
    simpl. exists (S n), y. split; [reflexivity|]. split; [lia|].
    split; [exact Hy|]. split; [exact Hty|].
    intros [|k] z Hk Hz; simpl in Hz; [congruence|]. apply (Hbefore k); [lia|exact Hz].
  - exists 0%nat, z0. split; [reflexivity|]. split; [lia|].
    split; [reflexivity|]. split; [exact Hz0|]. intros k z Hk. lia.
Qed.

(** The median of three stands at [first]; one of the other two, which
    does not compare less than it, is left somewhere behind. *)
Lemma move_median_to_first_spec (first last : nat) (l : list A) :
  (3 < last - first)%nat → (last ≤ length l)%nat → Forall dom l →
  ∃ l1 p, move_median_to_first comp first (first + 1) (first + (last - first) / 2)
            (last - 1) l = Done l1 ∧
          rearranged first last l l1 ∧ l1 !! first = Some p ∧
          ∃ i z, (first + 1 ≤ i < last)%nat ∧ l1 !! i = Some z ∧ comp z p = false.
Proof.
  intros Hlong Hlen Hdom.
  set (a := (first + 1)%nat). set (b := (first + (last - first) / 2)%nat).
  set (c := (last - 1)%nat).
  assert (Hab : (a < b)%nat) by (unfold a, b; halves).
  assert (Hbc : (b < c)%nat) by (unfold b, c; halves).
  assert (Hc : (c < last)%nat) by (unfold c; lia).
  destruct (lookup_lt_is_Some_2 l first) as [q Hq]; [lia|].
  destruct (lookup_lt_is_Some_2 l a) as [xa Hxa]; [lia|].
  destruct (lookup_lt_is_Some_2 l b) as [xb Hxb]; [lia|].
  destruct (lookup_lt_is_Some_2 l c) as [xc Hxc]; [lia|].
  assert (Ha : dom xa) by (eapply Forall_lookup_1; eauto).
  assert (Hb : dom xb) by (eapply Forall_lookup_1; eauto).
  assert (Hcd : dom xc) by (eapply Forall_lookup_1; eauto).
  assert (Hswap : ∀ (m g : nat) (p z : A),
            (first < m < last)%nat → (first < g < last)%nat → m ≠ g →
            l !! m = Some p → l !! g = Some z → comp z p = false →
            ∃ l1 p, iter_swap first m l = Done l1 ∧
              rearranged first last l l1 ∧ l1 !! first = Some p ∧
              ∃ i z, (first + 1 ≤ i < last)%nat ∧ l1 !! i = Some z ∧ comp z p = false).
  { intros m g p z Hm Hg Hmg Hp Hz Hzp.
    exists (<[m := q]> (<[first := p]> l)), p.
    split; [apply iter_swap_spec; assumption|].
    split; [apply swapped_rearranged; (assumption || lia)|].
    split.
    - rewrite list_lookup_insert_ne by lia. apply list_lookup_insert_eq. lia.
    - exists g, z. split; [lia|]. split; [|exact Hzp].
      rewrite !list_lookup_insert_ne by lia. exact Hz. }
  unfold move_median_to_first, at_index. fold a b c. rewrite Hxa, Hxb, Hxc. simpl.
  destruct (comp xa xb) eqn:E1; [destruct (comp xb xc) eqn:E2; [|destruct (comp xa xc) eqn:E3]
                                |destruct (comp xa xc) eqn:E3; [|destruct (comp xb xc) eqn:E2]].
  - apply (Hswap b c xb xc); try (assumption || lia). apply comp_asymmetric; assumption.
  - apply (Hswap c b xc xb); try (assumption || lia).
  - apply (Hswap a b xa xb); try (assumption || lia). apply comp_asymmetric; assumption.
  - apply (Hswap a c xa xc); try (assumption || lia). apply comp_asymmetric; assumption.
  - apply (Hswap c a xc xa); try (assumption || lia).
  - apply (Hswap b a xb xa); try (assumption || lia).
Qed.

Lemma unguarded_partition_spec (fuel first last pivot last0 : nat) (l : list A) (p : A) :
  Forall dom l → (last0 ≤ length l)%nat →
  (pivot < first)%nat → (pivot < last)%nat → (last ≤ last0)%nat →
  (last - first < fuel)%nat →
  l !! pivot = Some p →
  (∀ i x, (pivot < i < first)%nat → l !! i = Some x → ordered x p) →
  (∀ i x, (last ≤ i < last0)%nat → l !! i = Some x → ordered p x) →
  (∃ i x, (first ≤ i < last0)%nat ∧ l !! i = Some x ∧ comp x p = false) →
  ∃ cut l', unguarded_partition comp fuel first last pivot l = Done (cut, l') ∧
            rearranged (pivot + 1) last0 l l' ∧ (pivot < cut < last0)%nat ∧
            (∀ i x, (pivot ≤ i < cut)%nat → l' !! i = Some x → ordered x p) ∧
            (∀ i x, (cut ≤ i < last0)%nat → l' !! i = Some x → ordered p x).
Proof.
  revert first last l.
  induction fuel as [|fuel IH];
    intros first last l Hdom Hlen Hfirst Hlast Hlast0 Hfuel Hp Hleft Hright Hstop; [lia|].
  assert (Hpd : dom p) by (eapply Forall_lookup_1; eauto).
  destruct Hstop as (i0 & x0 & Hi0 & Hx0 & Hx0p).
  cbn [unguarded_partition]. unfold at_index at 1. rewrite Hp. cbn [obind].
  destruct (skip_while_spec (λ x, comp x p) (drop first l) (i0 - first) x0)
    as (up & y & -> & Hup & Hy & Hyp & Hbelow).
  { rewrite lookup_drop. replace (first + (i0 - first))%nat with i0 by lia. exact Hx0. }
  { exact Hx0p. }
  cbn [obind]. rewrite lookup_drop in Hy.
  rewrite decide_False by lia.
  assert (Hrev : ∀ k, (k < last)%nat → reverse (take last l) !! k = l !! (last - 1 - k)%nat).
  { intros k Hk. rewrite reverse_lookup by (rewrite length_take; lia).
    rewrite length_take, Nat.min_l by lia.
    rewrite lookup_take_lt by lia. f_equal. lia. }
  destruct (skip_while_spec (λ x, comp p x) (reverse (take last l)) (last - 1 - pivot) p)
    as (down & y' & -> & Hdown & Hy' & Hpy' & Habove).
  { rewrite Hrev by lia. replace (last - 1 - (last - 1 - pivot))%nat with pivot by lia.
    exact Hp. }
  { apply comp_irreflexive. exact Hpd. }
  cbn [obind]. rewrite Hrev in Hy' by lia.
  assert (Hup_less : ∀ i x, (first ≤ i < first + up)%nat → l !! i = Some x → ordered x p).
  { intros i x Hi Hx. apply less_ordered; [eapply Forall_lookup_1; eauto|exact Hpd|].
    apply (Hbelow (i - first)%nat); [lia|].
    rewrite lookup_drop. replace (first + (i - first))%nat with i by lia. exact Hx. }
  assert (Hdown_more : ∀ i x, (last - 1 - down < i < last)%nat → l !! i = Some x → ordered p x).
  { intros i x Hi Hx. apply less_ordered; [exact Hpd|eapply Forall_lookup_1; eauto|].
    apply (Habove (last - 1 - i)%nat); [lia|].
    rewrite Hrev by lia. replace (last - 1 - (last - 1 - i))%nat with i by lia. exact Hx. }
  set (first1 := (first + up)%nat) in *. set (last1 := (last - 1 - down)%nat) in *.
  destruct (decide (first1 < last1)%nat) as [Hmore|Hmet].
  - rewrite (iter_swap_spec first1 last1 l y y' Hy Hy'). cbn [obind].
    assert (Hy'd : dom y') by (eapply Forall_lookup_1; eauto).
    assert (Hyd : dom y) by (eapply Forall_lookup_1; eauto).
    destruct (IH (first1 + 1)%nat last1 (<[last1 := y]> (<[first1 := y']> l)))
      as (cut & l' & -> & Hr & Hcut & Hl & Hg).
    + apply Forall_insert; [apply Forall_insert|]; assumption.
    + rewrite !length_insert. exact Hlen.
    + lia.
    + lia.
    + lia.
    + lia.
    + rewrite !list_lookup_insert_ne by lia. exact Hp.
    + intros i x Hi Hx. destruct (decide (i = first1)) as [->|Hne].
      * rewrite list_lookup_insert_ne, list_lookup_insert_eq in Hx by lia.
        injection Hx as <-. exact Hpy'.
      * rewrite !list_lookup_insert_ne in Hx by lia.
        destruct (decide (i < first)%nat); [apply (Hleft i)|apply (Hup_less i)];
          (exact Hx || lia).
    + intros i x Hi Hx. destruct (decide (i = last1)) as [->|Hne].
      * rewrite list_lookup_insert_eq in Hx by (rewrite length_insert; lia).
        injection Hx as <-. exact Hyp.
      * rewrite !list_lookup_insert_ne in Hx by lia.
        destruct (decide (i < last)%nat); [apply (Hdown_more i)|apply (Hright i)];
          (exact Hx || lia).
    + exists last1, y. split; [lia|]. split; [|exact Hyp].
      apply list_lookup_insert_eq. rewrite length_insert. lia.
    + exists cut, l'. split; [reflexivity|]. split; [|auto].
      eapply rearranged_trans; [|exact Hr].
      apply swapped_rearranged; (assumption || lia).
  - exists first1, l. split; [reflexivity|]. split; [apply rearranged_refl|].
    split; [lia|]. split.
    + intros i x Hi Hx. destruct (decide (i = pivot)) as [->|Hne].
      * rewrite Hp in Hx. injection Hx as <-. apply ordered_reflexive. exact Hpd.
      * destruct (decide (i < first)%nat); [apply (Hleft i)|apply (Hup_less i)];
          (exact Hx || lia).
    + intros i x Hi Hx. destruct (decide (i = first1)) as [->|Hne].
      * rewrite Hy in Hx. injection Hx as <-. exact Hyp.
      * destruct (decide (i < last)%nat); [apply (Hdown_more i)|apply (Hright i)];
          (exact Hx || lia).
Qed.

(** Every value before the cut may stand before every value from the cut
    on, and both sides of it have something in them. *)
Lemma unguarded_partition_pivot_spec (first last : nat) (l : list A) :
  (3 < last - first)%nat → (last ≤ length l)%nat → Forall dom l →
  ∃ cut l', unguarded_partition_pivot comp first last l = Done (cut, l') ∧
            rearranged first last l l' ∧ (first < cut < last)%nat ∧
            ∀ i j x y, (first ≤ i < cut)%nat → (cut ≤ j < last)%nat →
                       l' !! i = Some x → l' !! j = Some y → ordered x y.
Proof.
  intros Hlong Hlen Hdom. unfold unguarded_partition_pivot.
  destruct (move_median_to_first_spec first last l Hlong Hlen Hdom)
    as (l1 & p & -> & Hr1 & Hp & Hstop).
  cbn [obind].
  assert (Hdom1 : Forall dom l1) by (eapply rearranged_dom; eauto).
  destruct (unguarded_partition_spec (last - first) (first + 1) last first last l1 p)
    as (cut & l' & -> & Hr & Hcut & Hl & Hg); try (assumption || lia).
  - rewrite (rearranged_length _ _ _ _ Hr1). exact Hlen.
  - exists cut, l'. split; [reflexivity|].
    split; [eapply rearranged_trans; [exact Hr1|]; eapply rearranged_widen; [| |exact Hr]; lia|].
    split; [lia|].
    intros i j x y Hi Hj Hx Hy.
    assert (Hdom' : Forall dom l') by (eapply rearranged_dom; eauto).
    apply (ordered_transitive x p y).
    + eapply Forall_lookup_1; [exact Hdom'|exact Hx].
    + eapply Forall_lookup_1; [exact Hdom1|exact Hp].
    + eapply Forall_lookup_1; [exact Hdom'|exact Hy].
    + apply (Hl i); [lia|exact Hx].
    + apply (Hg j); [lia|exact Hy].
Qed.

(** **** Heap sort *)

(** [k] lies in the subtree of [top]. *)
Inductive descends (top : nat) : nat → Prop :=
| descends_top : descends top top
| descends_child k : (1 ≤ k)%nat → descends top ((k - 1) / 2) → descends top k.

Lemma descends_ge top k : descends top k → (top ≤ k)%nat.
Proof. induction 1; [lia|halves]. Qed.

Lemma descends_parent top k :
  descends top k → k ≠ top → (1 ≤ k)%nat ∧ descends top ((k - 1) / 2).
Proof. intros [|k' H1 H2] Hne; [done|auto]. Qed.

(** Among the [len] values from [first], no node from [top] on compares
    less than one of its children. *)
Definition heap_from (top first len : nat) (l : list A) : Prop :=
  ∀ k x y, (1 ≤ k < len)%nat → (top ≤ (k - 1) / 2)%nat →
    l !! (first + (k - 1) / 2) = Some x → l !! (first + k) = Some y → ordered y x.

(** The state of [__adjust_heap] and [__push_heap] while [value] is held
    aside: the vector [l] has a hole at [hole], which lies in the subtree of
    [top]; putting [value] there gives the values of [l0] with [value] at
    [top]; the heap order holds on the edges away from the hole, and the node
    above the hole does not compare less than the nodes below it. *)
Definition holed (top first len : nat) (value : A) (l0 : list A) (hole : nat) (l : list A)
  : Prop :=
  descends top hole ∧ (hole < len)%nat ∧ (first + len ≤ length l)%nat ∧ Forall dom l ∧
  <[first + hole := value]> l ≡ₚ <[first + top := value]> l0 ∧
  (∀ i, (i < first ∨ first + len ≤ i)%nat → l !! i = l0 !! i) ∧
  (∀ k x y, (1 ≤ k < len)%nat → (top ≤ (k - 1) / 2)%nat →
     k ≠ hole → ((k - 1) / 2)%nat ≠ hole →
     l !! (first + (k - 1) / 2) = Some x → l !! (first + k) = Some y → ordered y x) ∧
  (hole ≠ top → ∀ k x y, (1 ≤ k < len)%nat → ((k - 1) / 2)%nat = hole →
     l !! (first + (hole - 1) / 2) = Some x → l !! (first + k) = Some y → ordered y x).

Lemma hole_moves (l : list A) (h c : nat) (v z : A) :
  h ≠ c → (h < length l)%nat → l !! c = Some z →
  <[c := v]> (<[h := z]> l) ≡ₚ <[h := v]> l.
Proof.
  intros Hne Hh Hz. rewrite <- (list_insert_insert_eq l h z v).
  apply Permutation_insert_swap.
  - apply list_lookup_insert_eq. exact Hh.
  - rewrite list_lookup_insert_ne by exact Hne. exact Hz.
Qed.

(** The hole moves down to the child [c], whose value no child of the hole
    compares greater than. *)
Lemma holed_down top first len value l0 hole l c z :
  holed top first len value l0 hole l →
  (1 ≤ c < len)%nat → ((c - 1) / 2)%nat = hole → l !! (first + c) = Some z →
  (∀ k y, (1 ≤ k < len)%nat → ((k - 1) / 2)%nat = hole → k ≠ c →
          l !! (first + k) = Some y → ordered y z) →
  holed top first len value l0 c (<[first + hole := z]> l).
Proof.
  intros (Hdesc & Hlt & Hlen & Hdom & Hperm & Hframe & Hedges & Habove) Hc Hpar Hz Hsib.
  assert (Hhc : (hole < c)%nat) by halves.
  assert (Htop : (top ≤ hole)%nat) by (apply descends_ge; exact Hdesc).
  assert (Hzd : dom z) by (eapply Forall_lookup_1; eauto).
  split; [apply descends_child; [lia|rewrite Hpar; exact Hdesc]|].
  split; [lia|].
  split; [rewrite length_insert; exact Hlen|].
  split; [apply Forall_insert; assumption|].
  split; [etrans; [apply hole_moves; (lia || exact Hz)|exact Hperm]|].
  split; [intros i Hi; rewrite list_lookup_insert_ne by lia; apply Hframe; exact Hi|].
  split.
  - intros k x y Hk Hktop Hkc Hpc Hx Hy.
    destruct (decide (k = hole)) as [->|Hkh].
    + rewrite list_lookup_insert_eq in Hy by lia. injection Hy as <-.
      rewrite list_lookup_insert_ne in Hx by halves.
      assert (Hne : hole ≠ top) by halves.
      apply (Habove Hne c x z); (assumption || lia).
    + destruct (decide (((k - 1) / 2)%nat = hole)) as [Hkp|Hkp].
      * rewrite Hkp in Hx. rewrite list_lookup_insert_eq in Hx by lia. injection Hx as <-.
        rewrite list_lookup_insert_ne in Hy by lia. apply (Hsib k y); assumption.
      * rewrite list_lookup_insert_ne in Hx by lia.
        rewrite list_lookup_insert_ne in Hy by lia.
        apply (Hedges k x y); assumption.
  - intros _ k x y Hk Hkpar Hx Hy. rewrite Hpar in Hx.
    rewrite list_lookup_insert_eq in Hx by lia. injection Hx as <-.
    rewrite list_lookup_insert_ne in Hy by halves.
    apply (Hedges k z y); try (assumption || halves).
    rewrite Hkpar. exact Hz.
Qed.

(** The hole moves up to its parent, whose value compares less than
    [value]. *)
Lemma holed_up top first len value l0 hole l x :
  holed top first len value l0 hole l → dom value →
  hole ≠ top → l !! (first + (hole - 1) / 2) = Some x → comp x value = true →
  holed top first len value l0 ((hole - 1) / 2) (<[first + hole := x]> l) ∧
  ∀ k y, (1 ≤ k < len)%nat → ((k - 1) / 2)%nat = ((hole - 1) / 2)%nat →
         <[first + hole := x]> l !! (first + k) = Some y → ordered y value.
Proof.
  intros (Hdesc & Hlt & Hlen & Hdom & Hperm & Hframe & Hedges & Habove) Hvd Hne Hx Hxv.
  destruct (descends_parent top hole Hdesc Hne) as [Hpos Hdesc'].
  set (par := ((hole - 1) / 2)%nat) in *.
  assert (Hph : (par < hole)%nat) by (unfold par; halves).
  assert (Htop : (top ≤ par)%nat) by (apply descends_ge; exact Hdesc').
  assert (Hxd : dom x) by (eapply Forall_lookup_1; eauto).
  assert (Hbelow : ∀ k y, (1 ≤ k < len)%nat → ((k - 1) / 2)%nat = par →
            <[first + hole := x]> l !! (first + k) = Some y → ordered y x).
  { intros k y Hk Hkp Hy. destruct (decide (k = hole)) as [->|Hkh].
    - rewrite list_lookup_insert_eq in Hy by lia. injection Hy as <-.
      apply ordered_reflexive. exact Hxd.
    - rewrite list_lookup_insert_ne in Hy by lia.
      apply (Hedges k x y); try (assumption || lia). rewrite Hkp. exact Hx. }
  assert (Hdom' : Forall dom (<[first + hole := x]> l)) by (apply Forall_insert; assumption).
  split.
  - split; [exact Hdesc'|].
    split; [lia|].
    split; [rewrite length_insert; exact Hlen|].
    split; [exact Hdom'|].
    split; [etrans; [apply hole_moves; (lia || exact Hx)|exact Hperm]|].
    split; [intros i Hi; rewrite list_lookup_insert_ne by lia; apply Hframe; exact Hi|].
    split.
    + intros k x' y Hk Hktop Hkc Hpc Hx' Hy.
      destruct (decide (((k - 1) / 2)%nat = hole)) as [Hkp|Hkp].
      * rewrite Hkp in Hx'. rewrite list_lookup_insert_eq in Hx' by lia. injection Hx' as <-.
        rewrite list_lookup_insert_ne in Hy by halves.
        apply (Habove Hne k x y); assumption.
      * assert (Hkh : k ≠ hole) by (intros ->; apply Hpc; reflexivity).
        rewrite list_lookup_insert_ne in Hx' by lia.
        rewrite list_lookup_insert_ne in Hy by lia.
        apply (Hedges k x' y); assumption.
    + intros Hpt k g y Hk Hkp Hg Hy.
      destruct (descends_parent top par Hdesc' Hpt) as [Hppos Hdesc''].
      assert (Htop' := descends_ge _ _ Hdesc'').
      rewrite list_lookup_insert_ne in Hg by halves.
      assert (Hxg : ordered x g).
      { apply (Hedges par g x); try (assumption || halves). }
      apply (ordered_transitive y x g).
      * eapply Forall_lookup_1; [exact Hdom'|exact Hy].
      * exact Hxd.
      * eapply Forall_lookup_1; [exact Hdom|exact Hg].
      * apply (Hbelow k y); assumption.
      * exact Hxg.
  - intros k y Hk Hkp Hy. apply (ordered_transitive y x value).
    + eapply Forall_lookup_1; [exact Hdom'|exact Hy].
    + exact Hxd.
    + exact Hvd.
    + apply (Hbelow k y); assumption.
    + apply less_ordered; assumption.
Qed.

(** [value] goes into the hole. *)
Lemma holed_fill top first len value l0 hole l :
  holed top first len value l0 hole l → dom value →
  (∀ k y, (1 ≤ k < len)%nat → ((k - 1) / 2)%nat = hole →
          l !! (first + k) = Some y → ordered y value) →
  (hole = top ∨ ∃ x, l !! (first + (hole - 1) / 2) = Some x ∧ comp x value = false) →
  heap_from top first len (<[first + hole := value]> l) ∧
  <[first + hole := value]> l ≡ₚ <[first + top := value]> l0 ∧
  (∀ i, (i < first ∨ first + len ≤ i)%nat → <[first + hole := value]> l !! i = l0 !! i) ∧
  Forall dom (<[first + hole := value]> l).
Proof.
  intros (Hdesc & Hlt & Hlen & Hdom & Hperm & Hframe & Hedges & Habove) Hvd Hbelow Hup.
  split; [|split; [exact Hperm|split]].
  - intros k x y Hk Hktop Hx Hy.
    destruct (decide (k = hole)) as [->|Hkh].
    + rewrite list_lookup_insert_eq in Hy by lia. injection Hy as <-.
      rewrite list_lookup_insert_ne in Hx by halves.
      destruct Hup as [->|(x' & Hx' & Hc)]; [halves|].
      rewrite Hx in Hx'. injection Hx' as <-. exact Hc.
    + rewrite list_lookup_insert_ne in Hy by lia.
      destruct (decide (((k - 1) / 2)%nat = hole)) as [Hkp|Hkp].
      * rewrite Hkp in Hx. rewrite list_lookup_insert_eq in Hx by lia. injection Hx as <-.
        apply (Hbelow k y); assumption.
      * rewrite list_lookup_insert_ne in Hx by lia. apply (Hedges k x y); assumption.
  - intros i Hi. rewrite list_lookup_insert_ne by lia. apply Hframe. exact Hi.
  - apply Forall_insert; assumption.
Qed.

(** With something in the heap, the truncating [(len - 2) / 2] is the
    halving of naturals. *)
Lemma lone_child_test (len hole : nat) :
  1 ≤ len → (Z.of_nat hole =? (Z.of_nat len - 2) ÷ 2)%Z = (hole =? (len - 2) / 2)%nat.
Proof.
  intros Hlen. destruct (decide (len = 1)) as [->|Hbig].
  - change ((Z.of_nat 1 - 2) ÷ 2)%Z with 0%Z. change ((1 - 2) / 2) with 0.
    destruct hole; reflexivity.
  - replace (Z.of_nat len - 2)%Z with (Z.of_nat (len - 2)) by lia.
    rewrite Z.quot_div_nonneg by lia. change 2%Z with (Z.of_nat 2).
    rewrite <- Nat2Z.inj_div.
    destruct (Nat.eqb_spec hole ((len - 2) / 2)) as [->|Hne].
    + apply Z.eqb_refl.
    + apply Z.eqb_neq. intros H. apply Nat2Z.inj in H. contradiction.
Qed.

Lemma push_heap_spec (fuel top first len : nat) (value : A) (l0 : list A) (hole : nat)
    (l : list A) :
  holed top first len value l0 hole l → dom value → (hole < fuel)%nat →
  (∀ k y, (1 ≤ k < len)%nat → ((k - 1) / 2)%nat = hole →
          l !! (first + k) = Some y → ordered y value) →
  ∃ l', push_heap comp fuel first hole top value l = Done l' ∧
        heap_from top first len l' ∧ l' ≡ₚ <[first + top := value]> l0 ∧
        (∀ i, (i < first ∨ first + len ≤ i)%nat → l' !! i = l0 !! i) ∧ Forall dom l'.
Proof.
  revert hole l. induction fuel as [|fuel IH]; intros hole l Hh Hvd Hfuel Hbelow; [lia|].
  pose proof Hh as (Hdesc & Hlt & Hlen & Hdom & _).
  assert (Htop := descends_ge _ _ Hdesc).
  cbn [push_heap]. unfold assign.
  destruct (decide (top < hole)%nat) as [Hdeep|Hat].
  - destruct (lookup_lt_is_Some_2 l (first + (hole - 1) / 2)) as [x Hx]; [halves|].
    unfold at_index. rewrite Hx. cbn [obind].
    destruct (comp x value) eqn:Hc.
    + rewrite decide_True by lia. cbn [obind].
      destruct (holed_up top first len value l0 hole l x) as [Hh' Hbelow'];
        try (assumption || lia).
      apply (IH ((hole - 1) / 2)%nat (<[first + hole := x]> l)); try assumption. halves.
    + rewrite decide_True by lia. eexists. split; [reflexivity|].
      apply holed_fill; try assumption. right. exists x. split; assumption.
  - rewrite decide_True by lia. eexists. split; [reflexivity|].
    apply holed_fill; try assumption. left. lia.
Qed.

Lemma move_hole_down_spec (fuel top first len : nat) (value : A) (l0 : list A) (hole : nat)
    (l : list A) :
  holed top first len value l0 hole l → (len - hole ≤ fuel)%nat →
  ∃ hole' l', move_hole_down comp fuel first len hole l = Done (hole', l') ∧
              holed top first len value l0 hole' l' ∧ ¬ (hole' < (len - 1) / 2)%nat.
Proof.
  revert hole l. induction fuel as [|fuel IH]; intros hole l Hh Hfuel.
  { destruct Hh as (_ & Hlt & _). lia. }
  pose proof Hh as (Hdesc & Hlt & Hlen & Hdom & _ & _ & Hedges & _).
  assert (Htop := descends_ge _ _ Hdesc).
  cbn [move_hole_down].
  destruct (decide (hole < (len - 1) / 2)%nat) as [Hinner|Hleaf].
  - assert (Hr : (2 * (hole + 1) < len)%nat) by halves.
    destruct (lookup_lt_is_Some_2 l (first + 2 * (hole + 1))) as [x Hx]; [lia|].
    destruct (lookup_lt_is_Some_2 l (first + (2 * (hole + 1) - 1))) as [y Hy]; [lia|].
    unfold at_index at 1 2. rewrite Hx, Hy. cbn [obind].
    assert (Hxd : dom x) by (eapply Forall_lookup_1; eauto).
    assert (Hyd : dom y) by (eapply Forall_lookup_1; eauto).
    assert (Hkids : ∀ k, (1 ≤ k)%nat → ((k - 1) / 2)%nat = hole →
              k = (2 * (hole + 1))%nat ∨ k = (2 * (hole + 1) - 1)%nat) by halves.
    destruct (comp x y) eqn:Hc.
    + unfold at_index, assign. rewrite Hy. cbn [obind].
      rewrite decide_True by lia. cbn [obind].
      apply IH; [|lia].
      apply holed_down; try (assumption || halves).
      intros k w Hk Hkp Hkc Hw. destruct (Hkids k) as [->| ->]; [lia|exact Hkp| |done].
      rewrite Hx in Hw. injection Hw as <-. apply less_ordered; assumption.
    + unfold at_index, assign. rewrite Hx. cbn [obind].
      rewrite decide_True by lia. cbn [obind].
      apply IH; [|lia].
      apply holed_down; try (assumption || halves).
      intros k w Hk Hkp Hkc Hw. destruct (Hkids k) as [->| ->]; [lia|exact Hkp|done|].
      rewrite Hy in Hw. injection Hw as <-. exact Hc.
  - exists hole, l. split; [reflexivity|]. split; assumption.
Qed.

(** [value] replaces the value at [top], whose subtrees are heaps: the
    subtree of [top] becomes a heap. *)
Lemma adjust_heap_spec (top first len : nat) (value : A) (l : list A) :
  (top < len)%nat → (first + len ≤ length l)%nat → Forall dom l → dom value →
  heap_from (S top) first len l →
  ∃ l', adjust_heap comp first top len value l = Done l' ∧
        heap_from top first len l' ∧ l' ≡ₚ <[first + top := value]> l ∧
        (∀ i, (i < first ∨ first + len ≤ i)%nat → l' !! i = l !! i) ∧ Forall dom l'.
Proof.
  intros Htop Hlen Hdom Hvd Hheap.
  assert (Hstart : holed top first len value l top l).
  { split; [constructor|]. split; [exact Htop|]. split; [exact Hlen|]. split; [exact Hdom|].
    split; [reflexivity|]. split; [reflexivity|]. split; [|done].
    intros k x y Hk Hktop Hkt Hpt. apply Hheap; lia. }
  unfold adjust_heap.
  destruct (move_hole_down_spec (S len) top first len value l top l Hstart) as
    (hole & l1 & -> & Hh1 & Hleaf); [lia|].
  cbn [obind].
  pose proof Hh1 as (Hdesc1 & Hlt1 & Hlen1 & Hdom1 & _ & _ & Hedges1 & _).
  rewrite (lone_child_test len hole) by lia.
  destruct ((len mod 2 =? 0)%nat && (hole =? (len - 2) / 2)%nat) eqn:Hlone.
  - apply andb_true_iff in Hlone as [Heven Hh]. apply Nat.eqb_eq in Heven, Hh.
    assert (Hc : (2 * (hole + 1) - 1 < len)%nat) by halves.
    destruct (lookup_lt_is_Some_2 l1 (first + (2 * (hole + 1) - 1))) as [x Hx]; [lia|].
    unfold at_index, assign. rewrite Hx. cbn [obind].
    rewrite decide_True by lia. cbn [obind].
    apply push_heap_spec; try (assumption || halves).
    apply holed_down; (assumption || halves).
  - cbn [obind]. apply push_heap_spec; try (assumption || lia).
    intros k y Hk Hkp. exfalso.
    apply andb_false_iff in Hlone as [Hodd|Hother];
      [apply Nat.eqb_neq in Hodd|apply Nat.eqb_neq in Hother]; halves.
Qed.

Lemma heap_from_root (first len : nat) (l : list A) (k : nat) (x y : A) :
  heap_from 0 first len l → (first + len ≤ length l)%nat → Forall dom l →
  (k < len)%nat → l !! first = Some x → l !! (first + k) = Some y → ordered y x.
Proof.
  intros Hheap Hlen Hdom. revert y.
  induction k as [k IH] using lt_wf_ind. intros y Hk Hx Hy.
  assert (Hxd : dom x) by (eapply Forall_lookup_1; eauto).
  assert (Hyd : dom y) by (eapply Forall_lookup_1; eauto).
  destruct (decide (k = 0%nat)) as [->|Hpos].
  - rewrite Nat.add_0_r in Hy. rewrite Hx in Hy. injection Hy as <-.
    apply ordered_reflexive. exact Hxd.
  - destruct (lookup_lt_is_Some_2 l (first + (k - 1) / 2)) as [z Hz]; [halves|].
    apply (ordered_transitive y z x); try assumption.
    + eapply Forall_lookup_1; eauto.
    + apply (Hheap k z y); (assumption || lia).
    + apply (IH ((k - 1) / 2)%nat); (assumption || halves).
Qed.

Lemma make_heap_from_spec (parent first len : nat) (l : list A) :
  (parent < len)%nat → (first + len ≤ length l)%nat → Forall dom l →
  heap_from (S parent) first len l →
  ∃ l', make_heap_from comp parent first len l = Done l' ∧
        heap_from 0 first len l' ∧ rearranged first (first + len) l l'.
Proof.
  revert l. induction parent as [|parent IH]; intros l Hp Hlen Hdom Hheap.
  - destruct (lookup_lt_is_Some_2 l (first + 0)) as [value Hv]; [lia|].
    cbn [make_heap_from]. unfold at_index. rewrite Hv. cbn [obind].
    destruct (adjust_heap_spec 0 first len value l) as (l' & -> & Hheap' & Hperm & Hframe & _);
      try assumption.
    { eapply Forall_lookup_1; eauto. }
    cbn [obind]. exists l'. split; [reflexivity|]. split; [exact Hheap'|].
    rewrite list_insert_id in Hperm by exact Hv.
    split; [symmetry; exact Hperm|exact Hframe].
  - destruct (lookup_lt_is_Some_2 l (first + S parent)) as [value Hv]; [lia|].
    cbn [make_heap_from]. unfold at_index. rewrite Hv. cbn [obind].
    destruct (adjust_heap_spec (S parent) first len value l)
      as (l1 & -> & Hheap1 & Hperm1 & Hframe1 & Hdom1); try assumption.
    { eapply Forall_lookup_1; eauto. }
    cbn [obind]. rewrite list_insert_id in Hperm1 by exact Hv.
    destruct (IH l1) as (l' & -> & Hheap' & Hr); try (assumption || lia).
    { rewrite (Permutation_length Hperm1). exact Hlen. }
    exists l'. split; [reflexivity|]. split; [exact Hheap'|].
    eapply rearranged_trans; [|exact Hr]. split; [symmetry; exact Hperm1|exact Hframe1].
Qed.

Lemma make_heap_spec (first last : nat) (l : list A) :
  (first ≤ last ≤ length l)%nat → Forall dom l →
  ∃ l', make_heap comp first last l = Done l' ∧
        heap_from 0 first (last - first) l' ∧ rearranged first last l l'.
Proof.
  intros Hrange Hdom. unfold make_heap.
  destruct (decide (last - first < 2)%nat) as [Hsmall|Hbig].
  - exists l. split; [reflexivity|]. split; [|apply rearranged_refl].
    intros k x y Hk. lia.
  - destruct (make_heap_from_spec ((last - first - 2) / 2) first (last - first) l)
      as (l' & -> & Hheap & Hr); try (assumption || halves).
    { intros k x y Hk Hkp. halves. }
    exists l'. split; [reflexivity|]. split; [exact Hheap|].
    replace (first + (last - first))%nat with last in Hr by lia. exact Hr.
Qed.

(** The root of the heap goes to [last], the value there into the heap of
    the values before it. *)
Lemma pop_heap_spec (first last : nat) (l : list A) (root : A) :
  (first < last)%nat → (last < length l)%nat → Forall dom l →
  heap_from 0 first (last - first + 1) l → l !! first = Some root →
  ∃ l', pop_heap comp first last last l = Done l' ∧
        heap_from 0 first (last - first) l' ∧ rearranged first (last + 1) l l' ∧
        l' !! last = Some root.
Proof.
  intros Hfl Hlen Hdom Hheap Hroot.
  destruct (lookup_lt_is_Some_2 l last) as [value Hv]; [lia|].
  unfold pop_heap, at_index, assign. rewrite Hv, Hroot. cbn [obind].
  rewrite decide_True by lia. cbn [obind].
  destruct (adjust_heap_spec 0 first (last - first) value (<[last := root]> l))
    as (l' & -> & Hheap' & Hperm & Hframe & _).
  - lia.
  - rewrite length_insert. lia.
  - apply Forall_insert; [exact Hdom|]. eapply Forall_lookup_1; eauto.
  - eapply Forall_lookup_1; eauto.
  - intros k x y Hk Hkp Hx Hy.
    rewrite list_lookup_insert_ne in Hx by halves.
    rewrite list_lookup_insert_ne in Hy by lia.
    apply (Hheap k x y); (assumption || lia).
  - exists l'. split; [reflexivity|]. split; [exact Hheap'|]. split; [split|].
    + rewrite Hperm. rewrite Nat.add_0_r. symmetry.
      apply Permutation_insert_swap; assumption.
    + intros i Hi. rewrite Hframe by lia. apply list_lookup_insert_ne. lia.
    + rewrite Hframe by lia. apply list_lookup_insert_eq. lia.
Qed.

Lemma sort_heap_spec (fuel first last last0 : nat) (l : list A) :
  (first ≤ last ≤ last0)%nat → (last0 ≤ length l)%nat → Forall dom l →
  (last - first ≤ fuel)%nat →
  heap_from 0 first (last - first) l →
  (∀ i j x y, (first ≤ i < j)%nat → (last ≤ j < last0)%nat →
              l !! i = Some x → l !! j = Some y → ordered x y) →
  ∃ l', sort_heap comp fuel first last l = Done l' ∧ rearranged first last0 l l' ∧
        ∀ i j x y, (first ≤ i)%nat → (i < j)%nat → (j < last0)%nat →
                   l' !! i = Some x → l' !! j = Some y → ordered x y.
Proof.
  revert last l. induction fuel as [|fuel IH]; intros last l Hrange Hlen Hdom Hfuel Hheap Htail.
  - exists l. cbn [sort_heap]. rewrite decide_False by lia.
    split; [reflexivity|]. split; [apply rearranged_refl|].
    intros i j x y Hi Hij Hj. apply Htail; lia.
  - cbn [sort_heap]. destruct (decide (1 < last - first)%nat) as [Hmore|Hdone].
    + destruct (lookup_lt_is_Some_2 l first) as [root Hroot]; [lia|].
      destruct (pop_heap_spec first (last - 1) l root) as (l1 & -> & Hheap1 & Hr1 & Hlast);
        try (assumption || lia).
      { replace (last - 1 - first + 1)%nat with (last - first)%nat by lia. exact Hheap. }
      cbn [obind]. replace (last - 1 + 1)%nat with last in Hr1 by lia.
      assert (Hdom1 : Forall dom l1) by (eapply rearranged_dom; eauto).
      assert (Hlen1 := rearranged_length _ _ _ _ Hr1).
      destruct (IH (last - 1)%nat l1) as (l' & -> & Hr & Hsorted); try (assumption || lia).
      * intros i j x y Hi Hj Hx Hy.
        assert (Hbefore : ∀ i x, (first ≤ i < last)%nat → l1 !! i = Some x →
                  ∃ i', (first ≤ i' < last)%nat ∧ l !! i' = Some x).
        { intros i0 x0 Hi0 Hx0. apply (rearranged_lookup first last l l1 i0); assumption. }
        destruct (decide (j = last - 1)%nat) as [->|Hjl].
        -- rewrite Hlast in Hy. injection Hy as <-.
           destruct (Hbefore i x) as (i' & Hi' & Hx'); [lia|exact Hx|].
           replace i' with (first + (i' - first))%nat in Hx' by lia.
           apply (heap_from_root first (last - first) l (i' - first) root x);
             (assumption || lia).
        -- destruct Hr1 as [_ Hf1]. rewrite Hf1 in Hy by lia.
           destruct (decide (i < last)%nat) as [Hil|Hil].
           ++ destruct (Hbefore i x) as (i' & Hi' & Hx'); [lia|exact Hx|].
              apply (Htail i' j); (assumption || lia).
           ++ rewrite Hf1 in Hx by lia. apply (Htail i j); (assumption || lia).
      * exists l'. split; [reflexivity|]. split; [|exact Hsorted].
        eapply rearranged_trans; [|exact Hr].
        eapply rearranged_widen; [| |exact Hr1]; lia.
    + exists l. split; [reflexivity|]. split; [apply rearranged_refl|].
      intros i j x y Hi Hij Hj. apply Htail; lia.
Qed.

(** [__partial_sort(first, last, last, comp)] sorts the range. *)
Lemma partial_sort_spec (first last : nat) (l : list A) :
  (first ≤ last ≤ length l)%nat → Forall dom l →
  ∃ l', partial_sort comp first last last l = Done l' ∧
        rearranged first last l l' ∧
        ∀ i j x y, (first ≤ i)%nat → (i < j)%nat → (j < last)%nat →
                   l' !! i = Some x → l' !! j = Some y → ordered x y.
Proof.
  intros Hrange Hdom. unfold partial_sort, heap_select.
  destruct (make_heap_spec first last l Hrange Hdom) as (l1 & -> & Hheap & Hr1).
  cbn [obind]. rewrite Nat.sub_diag. cbn [heap_select_from obind].
  assert (Hlen1 := rearranged_length _ _ _ _ Hr1).
  destruct (sort_heap_spec (last - first) first last last l1) as (l' & -> & Hr & Hsorted);
    try (assumption || lia).
  - eapply rearranged_dom; eauto.
  - exists l'. split; [reflexivity|]. split; [|exact Hsorted].
    eapply rearranged_trans; eassumption.
Qed.

(** **** Introsort *)

(** In the range, every value from the threshold on has one before it that
    may stand before it. *)
Definition guards_in (first last : nat) (l : list A) : Prop :=
  ∀ i x, (first + S_threshold ≤ i < last)%nat → l !! i = Some x →
    ∃ j y, (first ≤ j < i)%nat ∧ l !! j = Some y ∧ ordered y x.

Lemma introsort_loop_spec (depth_limit first last : nat) (l : list A) :
  (first ≤ last ≤ length l)%nat → Forall dom l →
  ∃ l', introsort_loop comp depth_limit first last l = Done l' ∧
        rearranged first last l l' ∧ guards_in first last l'.
Proof.
  revert first last l. induction depth_limit as [|depth IH]; intros first last l Hrange Hdom.
  - cbn [introsort_loop]. destruct (decide (S_threshold < last - first)%nat) as [Hlong|Hshort].
    + destruct (partial_sort_spec first last l) as (l' & -> & Hr & Hs); [lia|exact Hdom|].
      exists l'. split; [reflexivity|]. split; [exact Hr|].
      intros i x Hi Hx.
      destruct (lookup_lt_is_Some_2 l' first) as [y Hy].
      { rewrite (rearranged_length _ _ _ _ Hr). unfold S_threshold in *. lia. }
      exists first, y. split; [unfold S_threshold in *; lia|]. split; [exact Hy|].
      apply (Hs first i); (assumption || unfold S_threshold in *; lia).
    + exists l. split; [reflexivity|]. split; [apply rearranged_refl|].
      intros i x Hi. lia.
  - cbn [introsort_loop]. destruct (decide (S_threshold < last - first)%nat) as [Hlong|Hshort].
    + destruct (unguarded_partition_pivot_spec first last l) as (cut & l1 & -> & Hr1 & Hcut & Hord);
        [unfold S_threshold in *; lia|lia|exact Hdom|].
      cbn [obind].
      assert (Hdom1 : Forall dom l1) by (eapply rearranged_dom; eauto).
      assert (Hlen1 := rearranged_length _ _ _ _ Hr1).
      destruct (IH cut last l1) as (l2 & -> & Hr2 & Hg2); [lia|exact Hdom1|].
      cbn [obind].
      assert (Hdom2 : Forall dom l2) by (eapply rearranged_dom; eauto).
      assert (Hlen2 := rearranged_length _ _ _ _ Hr2).
      destruct (IH first cut l2) as (l3 & -> & Hr3 & Hg3); [lia|exact Hdom2|].
      assert (Hlen3 := rearranged_length _ _ _ _ Hr3).
      exists l3. split; [reflexivity|]. split.
      * eapply rearranged_trans; [exact Hr1|].
        eapply rearranged_trans; eapply rearranged_widen; try eassumption; lia.
      * intros i x Hi Hx.
        destruct (decide (i < cut)%nat) as [Hleft|Hright]; [apply (Hg3 i); [lia|exact Hx]|].
        pose proof Hr3 as [_ Hf3].
        destruct (decide (cut + S_threshold ≤ i)%nat) as [Hfar|Hnear].
        -- rewrite Hf3 in Hx by lia.
           destruct (Hg2 i x) as (j & y & Hj & Hy & Hle); [lia|exact Hx|].
           exists j, y. split; [lia|]. split; [|exact Hle]. rewrite Hf3 by lia. exact Hy.
        -- destruct (lookup_lt_is_Some_2 l3 first) as [y Hy]; [lia|].
           exists first, y. split; [lia|]. split; [exact Hy|].
           destruct (rearranged_lookup first cut l2 l3 first y) as (j' & Hj' & Hy2);
             [exact Hr3|lia|exact Hy|].
           rewrite Hf3 in Hx by lia.
           destruct (rearranged_lookup cut last l1 l2 i x) as (i' & Hi' & Hx1);
             [exact Hr2|lia|exact Hx|].
           destruct Hr2 as [_ Hf2]. rewrite Hf2 in Hy2 by lia.
           apply (Hord j' i'); (assumption || lia).
    + exists l. split; [reflexivity|]. split; [apply rearranged_refl|].
      intros i x Hi. lia.
Qed.

(** Under a strict weak ordering [std::sort] returns, and leaves a
    permutation of the vector in which no value compares less than one
    before it. *)
Theorem sort_spec (l : list A) :
  Forall dom l → ∃ r, sort comp l = Done r ∧ l ≡ₚ r ∧ ascending r.
Proof.
  intros Hdom. destruct l as [|x l]; [exists []; repeat split; constructor|].
  unfold sort.
  destruct (introsort_loop_spec (lg (length (x :: l)) * 2) 0 (length (x :: l)) (x :: l))
    as (l1 & -> & Hr & Hg); [lia|exact Hdom|].
  cbn [obind].
  destruct (final_insertion_sort_spec l1) as (r & -> & Hperm & Hsorted).
  - eapply rearranged_dom; eauto.
  - intros i y Hi Hy. destruct (Hg i y) as (j & z & Hj & Hz & Hle).
    + split; [exact Hi|]. rewrite <- (rearranged_length _ _ _ _ Hr).
      eapply lookup_lt_Some. exact Hy.
    + exact Hy.
    + exists j, z. split; [lia|]. split; assumption.
  - exists r. split; [reflexivity|]. split; [|exact Hsorted].
    destruct Hr as [Hp _]. rewrite Hp. symmetry. exact Hperm.
Qed.

(** **** Short vectors keep the order of equivalent values *)

(** [a] stands somewhere before [b] in [l]. *)
Definition in_order (l : list A) (a b : A) : Prop := [a; b] `sublist_of` l.

(** Values neither of which compares less than the other stand in [r] as
    they stand in [l]. *)
Definition keeps_order (l r : list A) : Prop :=
  ∀ a b, comp a b = false → comp b a = false → in_order l a b → in_order r a b.

Lemma in_order_lookup (l : list A) (a b : A) :
  in_order l a b ↔ ∃ i j, i < j ∧ l !! i = Some a ∧ l !! j = Some b.
Proof.
  unfold in_order. split.
  - intros H. apply sublist_cons_l in H as (k1 & k2 & -> & H).
    apply sublist_cons_l in H as (k3 & k4 & -> & _).
    exists (length k1), (length (k1 ++ a :: k3)). split; [rewrite length_app; simpl; lia|].
    split; [apply list_lookup_middle; reflexivity|].
    change (k1 ++ a :: k3 ++ b :: k4) with (k1 ++ (a :: k3) ++ b :: k4).
    rewrite app_assoc. apply list_lookup_middle. reflexivity.
  - intros (i & j & Hij & Hi & Hj).
    rewrite <- (take_drop_middle l i a Hi).
    apply sublist_inserts_l. apply sublist_skip.
    assert (Hb : b ∈ drop (S i) l).
    { apply list_elem_of_lookup. exists (j - S i). rewrite lookup_drop.
      replace (S i + (j - S i)) with j by lia. exact Hj. }
    apply list_elem_of_split in Hb as (k3 & k4 & ->).
    apply sublist_inserts_l. apply sublist_skip. apply sublist_nil_l.
Qed.

Lemma in_order_snoc (l : list A) (x a b : A) :
  in_order (l ++ [x]) a b → in_order l a b ∨ (a ∈ l ∧ b = x).
Proof.
  intros H. apply in_order_lookup in H as (i & j & Hij & Hi & Hj).
  assert (Hjl := lookup_lt_Some _ _ _ Hj). rewrite length_app in Hjl. simpl in Hjl.
  destruct (decide (j < length l)) as [Hin|Hout].
  - left. apply in_order_lookup. exists i, j.
    rewrite lookup_app_l in Hi by lia. rewrite lookup_app_l in Hj by lia. auto.
  - right. rewrite lookup_app_l in Hi by lia.
    rewrite lookup_app_r in Hj by lia. replace (j - length l) with 0 in Hj by lia.
    simpl in Hj. injection Hj as <-.
    split; [eapply list_elem_of_lookup_2; exact Hi|reflexivity].
Qed.

Lemma in_order_insert (before behind : list A) (x a b : A) :
  in_order (before ++ behind) a b → in_order (before ++ x :: behind) a b.
Proof.
  unfold in_order. intros H. etrans; [exact H|].
  apply sublist_app; [reflexivity|]. apply sublist_cons. reflexivity.
Qed.

Lemma in_order_new (before behind : list A) (x a : A) :
  a ∈ before → in_order (before ++ x :: behind) a x.
Proof.
  intros Ha. apply list_elem_of_split in Ha as (k1 & k2 & ->).
  unfold in_order. change [a; x] with ([a] ++ [x]).
  apply sublist_app.
  - apply sublist_inserts_l. apply sublist_skip. apply sublist_nil_l.
  - apply sublist_skip. apply sublist_nil_l.
Qed.

(** Where the inserted value lands: behind it stand values it compares
    less than. *)
Lemma unguarded_linear_insert_shape (val : A) (before r : list A) :
  unguarded_linear_insert comp val before = Done r →
  ∃ passed rest, before = passed ++ rest ∧ r = passed ++ val :: rest ∧
                 Forall (λ y, comp val y = true) passed.
Proof.
  revert r. induction before as [|next rest IH]; intros r H; [discriminate|].
  simpl in H. destruct (comp val next) eqn:Hc.
  - destruct (unguarded_linear_insert comp val rest) as [moved| | |] eqn:Hm; try discriminate.
    simpl in H. injection H as <-.
    destruct (IH moved eq_refl) as (passed & rest' & -> & -> & Hp).
    exists (next :: passed), rest'. split; [reflexivity|]. split; [reflexivity|].
    constructor; assumption.
  - injection H as <-. exists [], (next :: rest). repeat split. constructor.
Qed.

Lemma unguarded_step_shape (done r : list A) (val : A) :
  unguarded_step comp done val = Done r →
  ∃ before behind, done = before ++ behind ∧ r = before ++ val :: behind ∧
                   Forall (λ y, comp val y = true) behind.
Proof.
  unfold unguarded_step. intros H.
  destruct (unguarded_linear_insert comp val (reverse done)) as [moved| | |] eqn:Hm;
    try discriminate.
  simpl in H. injection H as <-.
  destruct (unguarded_linear_insert_shape _ _ _ Hm) as (passed & rest & Hd & -> & Hp).
  exists (reverse rest), (reverse passed). split; [|split].
  - rewrite <- reverse_app, <- Hd, reverse_involutive. reflexivity.
  - rewrite reverse_app, reverse_cons, <- app_assoc. reflexivity.
  - apply Forall_reverse. exact Hp.
Qed.

Lemma insertion_step_shape (done r : list A) (val : A) :
  dom val → Forall dom done → ascending done →
  insertion_step comp done val = Done r →
  ∃ before behind, done = before ++ behind ∧ r = before ++ val :: behind ∧
                   Forall (λ y, comp val y = true) behind.
Proof.
  intros Hval Hdom Hsorted H. destruct done as [|first rest]; [discriminate|].
  simpl in H. destruct (comp val first) eqn:Hc; [|apply unguarded_step_shape; exact H].
  injection H as <-. exists [], (first :: rest). split; [reflexivity|]. split; [reflexivity|].
  apply Forall_cons in Hdom as [Hfirst Hrest].
  apply StronglySorted_cons in Hsorted as [Hall _].
  apply Forall_cons. split; [exact Hc|].
  apply Forall_forall. intros y Hy. rewrite Forall_forall in Hall, Hrest.
  destruct (comp val y) eqn:Hvy; [reflexivity|exfalso].
  assert (Hfv : ordered first val).
  { apply (ordered_transitive first y val); auto. }
  unfold ordered in Hfv. congruence.
Qed.

Lemma insert_all_guarded_stable (seen done todo : list A) :
  Forall dom done → Forall dom todo → ascending done → done ≠ [] →
  done ≡ₚ seen → keeps_order seen done →
  ∃ r, insert_all (insertion_step comp) done todo = Done r ∧ keeps_order (seen ++ todo) r.
Proof.
  revert seen done. induction todo as [|x rest IH];
    intros seen done Hdone Htodo Hsorted Hne Hperm Hkeeps.
  - simpl. exists done. split; [reflexivity|]. rewrite app_nil_r. exact Hkeeps.
  - apply Forall_cons in Htodo as [Hx Hrest].
    destruct (insertion_step_spec done x Hx Hdone Hsorted Hne) as (done1 & Hstep & Hperm1 & Hs1).
    destruct (insertion_step_shape done done1 x Hx Hdone Hsorted Hstep)
      as (before & behind & Hd & Hd1 & Hbehind).
    simpl. rewrite Hstep. simpl.
    destruct (IH (seen ++ [x]) done1) as (r & -> & Hr).
    + rewrite Hperm1. apply Forall_app. split; [exact Hdone|repeat constructor; exact Hx].
    + exact Hrest.
    + exact Hs1.
    + intros ->. apply Permutation_nil_l in Hperm1. destruct done; discriminate.
    + rewrite Hperm1, Hperm. reflexivity.
    + intros a b Hab Hba Hin. subst done done1.
      apply in_order_snoc in Hin as [Hin|[Ha ->]].
      * apply in_order_insert. apply Hkeeps; assumption.
      * apply in_order_new. rewrite <- Hperm in Ha.
        apply elem_of_app in Ha as [Ha|Ha]; [exact Ha|exfalso].
        rewrite Forall_forall in Hbehind. specialize (Hbehind a Ha). congruence.
    + exists r. split; [reflexivity|]. rewrite <- app_assoc in Hr. exact Hr.
Qed.

Lemma insertion_sort_stable (l : list A) :
  Forall dom l → ∃ r, insertion_sort comp l = Done r ∧ keeps_order l r.
Proof.
  intros Hdom. destruct l as [|first rest].
  - exists []. split; [reflexivity|]. intros a b _ _ H. exact H.
  - apply Forall_cons in Hdom as [Hfirst Hrest]. unfold insertion_sort.
    apply (insert_all_guarded_stable [first] [first] rest); try done.
    + repeat constructor. exact Hfirst.
    + repeat constructor.
    + intros a b _ _ H. exact H.
Qed.

(** A vector of at most [_S_threshold] values is sorted by insertion alone,
    which keeps equivalent values in their order. *)
Theorem sort_short_stable (l : list A) :
  Forall dom l → length l ≤ S_threshold →
  ∃ r, sort comp l = Done r ∧ keeps_order l r.
Proof.
  intros Hdom Hshort. destruct l as [|x l].
  - exists []. split; [reflexivity|]. intros a b _ _ H. exact H.
  - unfold sort.
    assert (Hloop : ∀ d, introsort_loop comp d 0 (length (x :: l)) (x :: l) = Done (x :: l)).
    { intros d. destruct d; cbn [introsort_loop]; rewrite decide_False by lia; reflexivity. }
    rewrite Hloop. cbn [obind]. unfold final_insertion_sort.
    rewrite decide_False by lia. apply insertion_sort_stable. exact Hdom.
Qed.

End Correctness.

End StdSort.

(** ** Sort (sort_executor.cpp) *)

Module SortExecutor.

Inductive OrderByType : Type := INVALID | DEFAULT | ASC | DESC.

(** An order key: the direction and [expr->Evaluate(&tuple, schema)]. *)
Definition order_key : Type := OrderByType * (Tuple → Value).

Definition is_DESC (ty : OrderByType) : bool :=
  match ty with
  | DESC => true
  | _ => false
  end.

(** The lambda [cmp] of [SortExecutor::Init]. *)
Fixpoint cmp (order_bys : list order_key) (a b : Tuple) : bool :=
  match order_bys with
  | [] => false
  | order_key :: rest =>
      match order_key.1 with
      | INVALID | DEFAULT | ASC =>
          if CmpBool_to_bool (CompareLessThan (order_key.2 a) (order_key.2 b)) then true
          else if CmpBool_to_bool (CompareGreaterThan (order_key.2 a) (order_key.2 b)) then false
          else cmp rest a b
      | DESC =>
          if CmpBool_to_bool (CompareLessThan (order_key.2 a) (order_key.2 b)) then false
          else if CmpBool_to_bool (CompareGreaterThan (order_key.2 a) (order_key.2 b)) then true
          else cmp rest a b
      end
  end.

(** What the C++ standard asks of the comparison handed to [std::sort]: a
    strict weak ordering on the elements of the vector. *)
Definition strict_weak_order_on (lt : Tuple → Tuple → bool) (l : list Tuple) : Prop :=
  (∀ a, a ∈ l → lt a a = false) ∧
  (∀ a b c, a ∈ l → b ∈ l → c ∈ l → lt a b = true → lt b c = true → lt a c = true) ∧
  (∀ a b c, a ∈ l → b ∈ l → c ∈ l →
     lt a b = false → lt b a = false → lt b c = false → lt c b = false →
     lt a c = false ∧ lt c a = false).

(** No element compares less than an earlier one. *)
Definition sorted_by (lt : Tuple → Tuple → bool) (l : list Tuple) : Prop :=
  ∀ (i j : nat) (a b : Tuple),
    (i < j)%nat → l !! i = Some a → l !! j = Some b → lt b a = false.

Record t : Type := mk {
  order_by_ : list order_key;
  child_executor_ : ChildExecutor.t;
  tuple_list_ : list Tuple;
  cursor_ : nat
}.

(** The tuples the child delivers after its [Init]. *)
Definition child_tuples (e : t) : list Tuple := (ChildExecutor.rows_ (child_executor_ e)).*1.

(** [SortExecutor::Init]: the child is initialised and drained into the
    cleared [tuple_list_], the vector is sorted with [std::sort] under
    [cmp], and the cursor is set to its first element. *)
Definition Init (e : t) : outcome t :=
  let child := ChildExecutor.Init (child_executor_ e) in
  let rows := ChildExecutor.rows_ child in
  tuple_list ←! StdSort.sort (cmp (order_by_ e)) rows.*1;
  Done (mk (order_by_ e) (ChildExecutor.mk rows (length rows)) tuple_list 0%nat).

(** [SortExecutor::Next] *)
Definition Next (e : t) : option (Tuple * RID) * t :=
  match tuple_list_ e !! cursor_ e with
  | None => (None, e)
  | Some tuple =>
      (Some (tuple, rid_ tuple),
       mk (order_by_ e) (child_executor_ e) (tuple_list_ e) (S (cursor_ e)))
  end.

(** The tuples returned by [n] successive calls of [Next]. *)
Fixpoint emitted (n : nat) (e : t) : list Tuple :=
  match n with
  | O => []
  | S n' =>
      match Next e with
      | (Some row, e') => row.1 :: emitted n' e'
      | (None, _) => []
      end
  end.

(** Following the specification's words: [a] goes first when, at the first
    order key on which the two tuples differ, [a] is smaller for
    ASC/DEFAULT/INVALID and larger for DESC. *)
Inductive goes_first : list order_key → Tuple → Tuple → Prop :=
| first_ascending ty expr rest a b x y :
    is_DESC ty = false →
    payload_ (expr a) = Some x → payload_ (expr b) = Some y → x < y →
    goes_first ((ty, expr) :: rest) a b
| first_descending ty expr rest a b x y :
    is_DESC ty = true →
    payload_ (expr a) = Some x → payload_ (expr b) = Some y → y < x →
    goes_first ((ty, expr) :: rest) a b
| first_falls_through ty expr rest a b x :
    payload_ (expr a) = Some x → payload_ (expr b) = Some x →
    goes_first rest a b →
    goes_first ((ty, expr) :: rest) a b.

(** No tuple is emitted after one it should go before. *)
Definition lexicographically_sorted (order_bys : list order_key) (l : list Tuple) : Prop :=
  ∀ (i j : nat) (a b : Tuple),
    (i < j)%nat → l !! i = Some a → l !! j = Some b → ¬ goes_first order_bys b a.

(** Tuples that compare equal keep the order the child gave them. *)
Definition keeps_child_order (lt : Tuple → Tuple → bool) (input output : list Tuple) : Prop :=
  ∀ (i j : nat) (a b : Tuple),
    (i < j)%nat → input !! i = Some a → input !! j = Some b →
    lt a b = false → lt b a = false →
    ∃ i' j' : nat, (i' < j')%nat ∧ output !! i' = Some a ∧ output !! j' = Some b.

Definition keys_not_null (order_bys : list order_key) (a : Tuple) : Prop :=
  Forall (λ k : order_key, IsNull (k.2 a) = false) order_bys.

(** ORDER BY the first column, ascending. *)
Definition first_column (a : Tuple) : Value :=
  match values_ a with
  | v :: _ => v
  | [] => mkValue INTEGER None
  end.

Definition by_first_column : list order_key := [(ASC, first_column)].

Definition pair_tuple (x y : Z) : Tuple := Tuple_of_values [Integer x; Integer y].

(** A child delivering the given tuples, sorted by the first column. *)
Definition child_of (tuples : list Tuple) : t :=
  mk by_first_column (ChildExecutor.of_rows ((λ a, (a, RID_default)) <$> tuples)) [] 0%nat.

(** Rows with the same key, told apart by their second column. *)
Definition equal_keys (seconds : list Z) : list Tuple := pair_tuple 1 <$> seconds.

(** A row whose key is NULL. *)
Definition null_key : Tuple := Tuple_of_values [mkValue INTEGER None; Integer 0].

Lemma not_null_payload (v : Value) : IsNull v = false → ∃ x, payload_ v = Some x.
Proof. unfold IsNull. destruct (payload_ v) as [x|]; [eauto|discriminate]. Qed.

(** One order key on two non-NULL values. *)
Lemma cmp_cons (ty : OrderByType) (expr : Tuple → Value) (rest : list order_key) a b x y :
  payload_ (expr a) = Some x → payload_ (expr b) = Some y →
  cmp (@cons order_key (ty, expr) rest) a b =
    if x <? y then negb (is_DESC ty)
    else if y <? x then is_DESC ty
    else cmp rest a b.
Proof.
  intros Ha Hb. simpl. unfold CompareLessThan, CompareGreaterThan, compare_with.
  rewrite Ha, Hb. rewrite Z.gtb_ltb.
  destruct ty; simpl; destruct (x <? y); simpl; destruct (y <? x); reflexivity.
Qed.

Lemma cmp_goes_first order_bys a b :
  keys_not_null order_bys a → keys_not_null order_bys b →
  cmp order_bys a b = true ↔ goes_first order_bys a b.
Proof.
  induction order_bys as [|[ty expr] rest IH]; intros Ha Hb.
  - simpl. split; [discriminate|]. intros H. inversion H.
  - inversion Ha as [|? ? Ha1 Ha2]; subst. inversion Hb as [|? ? Hb1 Hb2]; subst.
    simpl in Ha1, Hb1.
    destruct (not_null_payload _ Ha1) as [x Hx].
    destruct (not_null_payload _ Hb1) as [y Hy].
    rewrite (cmp_cons ty expr rest a b x y Hx Hy).
    specialize (IH Ha2 Hb2).
    split.
    + destruct (x <? y) eqn:Hlt; [|destruct (y <? x) eqn:Hgt].
      * intros Hd. apply Z.ltb_lt in Hlt.
        eapply first_ascending; eauto. destruct (is_DESC ty); [discriminate|reflexivity].
      * intros Hd. apply Z.ltb_lt in Hgt. eapply first_descending; eauto.
      * intros Hc. apply Z.ltb_ge in Hlt, Hgt. assert (x = y) by lia. subst y.
        eapply first_falls_through; eauto. apply IH. exact Hc.
    + intros H. inversion H as [? ? ? ? ? x' y' Hd Hx' Hy' Hlt
                               |? ? ? ? ? x' y' Hd Hx' Hy' Hlt
                               |? ? ? ? ? x' Hx' Hy' Hrest]; subst;
        rewrite Hx in Hx'; rewrite Hy in Hy'; simplify_eq.
      * apply Z.ltb_lt in Hlt. rewrite Hlt, Hd. reflexivity.
      * assert ((x' <? y') = false) as -> by (apply Z.ltb_ge; lia).
        apply Z.ltb_lt in Hlt. rewrite Hlt. exact Hd.
      * rewrite Z.ltb_irrefl. apply IH. exact Hrest.
Qed.

Lemma cmp_irreflexive order_bys a : keys_not_null order_bys a → cmp order_bys a a = false.
Proof.
  induction order_bys as [|[ty expr] rest IH]; intros Ha; [reflexivity|].
  inversion Ha as [|? ? Ha1 Ha2]; subst. simpl in Ha1.
  destruct (not_null_payload _ Ha1) as [x Hx].
  rewrite (cmp_cons ty expr rest a a x x Hx Hx), Z.ltb_irrefl. auto.
Qed.

Lemma cmp_transitive order_bys a b c :
  keys_not_null order_bys a → keys_not_null order_bys b → keys_not_null order_bys c →
  cmp order_bys a b = true → cmp order_bys b c = true → cmp order_bys a c = true.
Proof.
  induction order_bys as [|[ty expr] rest IH]; intros Ha Hb Hc; [discriminate|].
  inversion Ha as [|? ? Ha1 Ha2]; subst. inversion Hb as [|? ? Hb1 Hb2]; subst.
  inversion Hc as [|? ? Hc1 Hc2]; subst. simpl in Ha1, Hb1, Hc1.
  destruct (not_null_payload _ Ha1) as [x Hx].
  destruct (not_null_payload _ Hb1) as [y Hy].
  destruct (not_null_payload _ Hc1) as [z Hz].
  rewrite (cmp_cons ty expr rest a b x y Hx Hy), (cmp_cons ty expr rest b c y z Hy Hz),
          (cmp_cons ty expr rest a c x z Hx Hz).
  specialize (IH Ha2 Hb2 Hc2).
  destruct (x <? y) eqn:Hxy, (y <? x) eqn:Hyx, (y <? z) eqn:Hyz, (z <? y) eqn:Hzy,
           (x <? z) eqn:Hxz, (z <? x) eqn:Hzx, (is_DESC ty); simpl;
    try (intros; congruence); try exact IH;
    repeat match goal with
           | H : (_ <? _) = true |- _ => apply Z.ltb_lt in H
           | H : (_ <? _) = false |- _ => apply Z.ltb_ge in H
           end; lia.
Qed.

(** Two tuples neither of which goes first agree on every key, so a third
    tuple compares with both alike. *)
Lemma cmp_equivalent_left order_bys a b c :
  keys_not_null order_bys a → keys_not_null order_bys b → keys_not_null order_bys c →
  cmp order_bys a b = false → cmp order_bys b a = false →
  cmp order_bys a c = cmp order_bys b c ∧ cmp order_bys c a = cmp order_bys c b.
Proof.
  induction order_bys as [|[ty expr] rest IH]; intros Ha Hb Hc; [auto|].
  inversion Ha as [|? ? Ha1 Ha2]; subst. inversion Hb as [|? ? Hb1 Hb2]; subst.
  inversion Hc as [|? ? Hc1 Hc2]; subst. simpl in Ha1, Hb1, Hc1.
  destruct (not_null_payload _ Ha1) as [x Hx].
  destruct (not_null_payload _ Hb1) as [y Hy].
  destruct (not_null_payload _ Hc1) as [z Hz].
  rewrite (cmp_cons ty expr rest a b x y Hx Hy), (cmp_cons ty expr rest b a y x Hy Hx),
          (cmp_cons ty expr rest a c x z Hx Hz), (cmp_cons ty expr rest b c y z Hy Hz),
          (cmp_cons ty expr rest c a z x Hz Hx), (cmp_cons ty expr rest c b z y Hz Hy).
  specialize (IH Ha2 Hb2 Hc2).
  destruct (x <? y) eqn:Hxy, (y <? x) eqn:Hyx; simpl.
  - apply Z.ltb_lt in Hxy, Hyx. lia.
  - destruct (is_DESC ty); simpl; intros; discriminate.
  - destruct (is_DESC ty); simpl; intros; discriminate.
  - apply Z.ltb_ge in Hxy, Hyx. assert (x = y) by lia. subst y.
    intros H1 H2. destruct (IH H1 H2) as [E1 E2]. rewrite E1, E2. split; reflexivity.
Qed.

Lemma cmp_strict_weak_order order_bys (l : list Tuple) :
  (∀ a, a ∈ l → keys_not_null order_bys a) →
  strict_weak_order_on (cmp order_bys) l.
Proof.
  intros Hk. repeat split.
  - intros a Ha. apply cmp_irreflexive; auto.
  - intros a b c Ha Hb Hc. apply cmp_transitive; auto.
  - destruct (cmp_equivalent_left order_bys a b c) as [E _]; auto. rewrite E. assumption.
  - destruct (cmp_equivalent_left order_bys a b c) as [_ E]; auto. rewrite E. assumption.
Qed.

Lemma emitted_from_cursor e n :
  (length (tuple_list_ e) - cursor_ e ≤ n)%nat →
  emitted n e = drop (cursor_ e) (tuple_list_ e).
Proof.
  revert e. induction n as [|n IH]; intros e Hn.
  - simpl. symmetry. apply drop_ge. lia.
  - simpl. unfold Next.
    destruct (tuple_list_ e !! cursor_ e) as [tuple|] eqn:Hl.
    + simpl. rewrite IH by (simpl; lia). simpl.
      symmetry. apply drop_S. exact Hl.
    + symmetry. apply drop_ge. apply lookup_ge_None. exact Hl.
Qed.

Lemma child_tuples_child_of (tuples : list Tuple) : child_tuples (child_of tuples) = tuples.
Proof.
  unfold child_tuples, child_of. cbn [child_executor_ ChildExecutor.of_rows ChildExecutor.rows_].
  rewrite <- list_fmap_compose. apply list_fmap_id.
Qed.

(** [Init] on keys that are not NULL: the comparison is a strict weak
    ordering, so [std::sort] returns a sorted permutation of the child's
    tuples, and one that keeps rows of equal keys in the child's order when
    there are at most [_S_threshold] of them. *)
Lemma Init_sorts (e : t) :
  (∀ a, a ∈ child_tuples e → keys_not_null (order_by_ e) a) →
  ∃ e', Init e = Done e' ∧
        cursor_ e' = 0%nat ∧
        child_tuples e ≡ₚ tuple_list_ e' ∧
        sorted_by (cmp (order_by_ e)) (tuple_list_ e') ∧
        ((length (child_tuples e) ≤ StdSort.S_threshold)%nat →
         keeps_child_order (cmp (order_by_ e)) (child_tuples e) (tuple_list_ e')).
Proof.
  intros Hk.
  destruct (cmp_strict_weak_order (order_by_ e) (child_tuples e) Hk) as (Hirr & Htrans & Heq).
  assert (Hdom : Forall (λ a, a ∈ child_tuples e) (child_tuples e)).
  { apply Forall_forall. auto. }
  destruct (StdSort.sort_spec (cmp (order_by_ e)) (λ a, a ∈ child_tuples e) Hirr Htrans Heq
              (child_tuples e) Hdom) as (r & Hsort & Hperm & Hsorted).
  unfold Init. cbn [ChildExecutor.Init ChildExecutor.rows_].
  fold (child_tuples e). rewrite Hsort. cbn [obind].
  eexists. split; [reflexivity|]. cbn [cursor_ tuple_list_].
  split; [reflexivity|]. split; [exact Hperm|]. split.
  - intros i j a b Hij Hi Hj.
    exact (StdSort.ascending_lookup (cmp (order_by_ e)) r i j a b Hsorted Hij Hi Hj).
  - intros Hshort.
    destruct (StdSort.sort_short_stable (cmp (order_by_ e)) (λ a, a ∈ child_tuples e)
                Hirr Htrans Heq (child_tuples e) Hdom Hshort) as (r' & Hsort' & Hkeeps).
    rewrite Hsort in Hsort'. injection Hsort' as <-.
    intros i j a b Hij Hi Hj Hab Hba.
    apply StdSort.in_order_lookup. apply Hkeeps; [exact Hab|exact Hba|].
    apply StdSort.in_order_lookup. exists i, j. auto.
Qed.

(** C7 as stated fails.

    First, [std::sort] is not stable.  Seventeen rows with the same key,
    numbered 0 to 16 in their second column, are one more than
    [_S_threshold], so [__introsort_loop] partitions the vector once.  No
    comparison answers [true]: [__move_median_to_first] takes its last branch
    and swaps the row in the middle, number 8, to the front;
    [__unguarded_partition] stops both scans at once in every round and swaps
    the rows at 1 and 16, 2 and 15, up to 8 and 9, and cuts at 9; both parts
    are short, and the final insertion sort moves nothing.  Row 8 is emitted
    first, before row 0.

    Second, a NULL key makes the comparison answer [true] both ways round
    (a [CmpNull] cast to [bool]).  Of the rows with keys 1, NULL, 5 the
    insertion sort moves the NULL row to the front, because it compares less
    than key 1; then key 5 compares less than the NULL row at the front and
    is moved to the front in turn.  Key 5 is emitted before key 1. *)
Lemma C7_equal_keys_and_null_keys_lose_the_order :
  (∃ e', Init (child_of (equal_keys [0; 1; 2; 3; 4; 5; 6; 7; 8; 9; 10; 11; 12; 13; 14; 15; 16]))
           = Done e' ∧
         emitted 17 e' =
           equal_keys [8; 16; 15; 14; 13; 12; 11; 10; 9; 0; 7; 6; 5; 4; 3; 2; 1] ∧
         ¬ keeps_child_order (cmp by_first_column)
             (child_tuples
                (child_of
                   (equal_keys [0; 1; 2; 3; 4; 5; 6; 7; 8; 9; 10; 11; 12; 13; 14; 15; 16])))
             (emitted 17 e')) ∧
  (∃ e', Init (child_of [pair_tuple 1 0; null_key; pair_tuple 5 0]) = Done e' ∧
         emitted 3 e' = [pair_tuple 5 0; null_key; pair_tuple 1 0] ∧
         ¬ lexicographically_sorted by_first_column (emitted 3 e')).
Proof.
  split.
  - eexists. split; [vm_compute; reflexivity|].
    assert (Hout : ∀ e', emitted 17 e' =
              equal_keys [8; 16; 15; 14; 13; 12; 11; 10; 9; 0; 7; 6; 5; 4; 3; 2; 1] →
              ¬ keeps_child_order (cmp by_first_column)
                  (child_tuples
                     (child_of
                        (equal_keys
                           [0; 1; 2; 3; 4; 5; 6; 7; 8; 9; 10; 11; 12; 13; 14; 15; 16])))
                  (emitted 17 e')).
    { intros e' -> H. rewrite child_tuples_child_of in H.
      destruct (H 0%nat 8%nat (pair_tuple 1 0) (pair_tuple 1 8))
        as (i' & j' & Hlt & Hi & Hj); try reflexivity; try lia.
      destruct j' as [|j']; [lia|].
      do 17 (destruct j' as [|j']; [discriminate Hj|]). discriminate Hj. }
    split; [vm_compute; reflexivity|]. apply Hout. vm_compute. reflexivity.
  - eexists. split; [vm_compute; reflexivity|].
    split; [vm_compute; reflexivity|].
    intros H. apply (H 0%nat 2%nat (pair_tuple 5 0) (pair_tuple 1 0)); [lia|reflexivity..|].
    apply (first_ascending ASC first_column [] (pair_tuple 1 0) (pair_tuple 5 0) 1 5);
      (reflexivity || lia).
Qed.

(** C7 (amended): when no order key evaluates to NULL on the child's
    tuples, [Init] returns, and the calls of [Next] then emit a permutation
    of the child's tuples in which no tuple comes after one it should go
    before under the lexicographic order of the keys (ASC/DEFAULT/INVALID
    ascending, DESC descending, equal keys falling through to the next key).
    Tuples whose keys are all equal are emitted in the child's order when the
    child delivers at most 16 tuples; nothing is promised about them for
    longer inputs. *)
Theorem C7_sort_emits_sorted_permutation (e : t) (n : nat) :
  (∀ a, a ∈ child_tuples e → keys_not_null (order_by_ e) a) →
  (length (child_tuples e) ≤ n)%nat →
  ∃ e', Init e = Done e' ∧
        child_tuples e ≡ₚ emitted n e' ∧
        lexicographically_sorted (order_by_ e) (emitted n e') ∧
        ((length (child_tuples e) ≤ 16)%nat →
         keeps_child_order (cmp (order_by_ e)) (child_tuples e) (emitted n e')).
Proof.
  intros Hk Hn.
  destruct (Init_sorts e Hk) as (e' & HInit & Hcur & Hperm & Hsorted & Hstable).
  exists e'. split; [exact HInit|].
  assert (Hemitted : emitted n e' = tuple_list_ e').
  { rewrite emitted_from_cursor by (rewrite <- (Permutation_length Hperm); lia).
    rewrite Hcur. reflexivity. }
  rewrite Hemitted. split; [exact Hperm|]. split; [|exact Hstable].
  intros i j a b Hij Hi Hj Hfirst.
  assert (Ha : a ∈ child_tuples e).
  { rewrite Hperm. eapply list_elem_of_lookup_2; eauto. }
  assert (Hb : b ∈ child_tuples e).
  { rewrite Hperm. eapply list_elem_of_lookup_2; eauto. }
  apply cmp_goes_first in Hfirst; auto.
  rewrite (Hsorted i j a b Hij Hi Hj) in Hfirst. discriminate.
Qed.

(** A child delivering [(2,_)] then [(1,_)], sorted by the first column. *)
Definition unsorted_child : t := child_of [pair_tuple 2 0; pair_tuple 1 0].

Lemma C7_sort_emits_sorted_permutation_witness :
  ∃ e', Init unsorted_child = Done e' ∧
        child_tuples unsorted_child ≡ₚ emitted 2 e' ∧
        lexicographically_sorted (order_by_ unsorted_child) (emitted 2 e') ∧
        ((length (child_tuples unsorted_child) ≤ 16)%nat →
         keeps_child_order (cmp (order_by_ unsorted_child)) (child_tuples unsorted_child)
           (emitted 2 e')).
Proof.
  apply (C7_sort_emits_sorted_permutation unsorted_child 2).
  - intros a Ha. apply list_elem_of_In in Ha. simpl in Ha.
    destruct Ha as [<-|[<-|[]]]; repeat constructor.
  - simpl. lia.
Defined.

End SortExecutor.

(** ** Top-N (topn_executor.cpp) *)

Module TopNExecutor.

Module Sort := SortExecutor.

(** The lambda [cmp] of [TopNExecutor::Init]. *)
Fixpoint cmp (order_bys : list Sort.order_key) (a b : Tuple) : bool :=
  match order_bys with
  | [] => false
  | order_key :: rest =>
      match order_key.1 with
      | Sort.INVALID | Sort.DEFAULT | Sort.ASC =>
          if CmpBool_to_bool (CompareLessThan (order_key.2 a) (order_key.2 b)) then true
          else if CmpBool_to_bool (CompareGreaterThan (order_key.2 a) (order_key.2 b)) then false
          else cmp rest a b
      | Sort.DESC =>
          if CmpBool_to_bool (CompareGreaterThan (order_key.2 a) (order_key.2 b)) then true
          else if CmpBool_to_bool (CompareLessThan (order_key.2 a) (order_key.2 b)) then false
          else cmp rest a b
      end
  end.

(** [std::priority_queue<Tuple, std::vector<Tuple>, decltype(cmp)>] by its
    contract: the queue is the collection of its elements, [top] is an
    element that compares less than no element of the queue, and [pop]
    removes it.  Which of several such elements is on top is not part of the
    contract. *)
Definition pops (lt : Tuple → Tuple → bool) (pq : list Tuple) (top : Tuple) (pq' : list Tuple)
  : Prop :=
  pq ≡ₚ top :: pq' ∧ ∀ x, x ∈ pq → lt top x = false.

(** The first loop of [Init]: [pq.push(child_tuple)], and [pq.pop()] when
    the queue has grown beyond [N]. *)
Inductive fills (lt : Tuple → Tuple → bool) (n : nat)
  : list Tuple → list Tuple → list Tuple → Prop :=
| fills_done pq : fills lt n [] pq pq
| fills_push child_tuple rows pq pq' :
    (length (child_tuple :: pq) ≤ n)%nat →
    fills lt n rows (child_tuple :: pq) pq' →
    fills lt n (child_tuple :: rows) pq pq'
| fills_push_pop child_tuple rows pq top pq1 pq' :
    (n < length (child_tuple :: pq))%nat →
    pops lt (child_tuple :: pq) top pq1 →
    fills lt n rows pq1 pq' →
    fills lt n (child_tuple :: rows) pq pq'.

(** The second loop: [tuple_list_.push_back(pq.top()); pq.pop()] until the
    queue is empty. *)
Inductive empties (lt : Tuple → Tuple → bool) : list Tuple → list Tuple → Prop :=
| empties_done : empties lt [] []
| empties_pop pq top pq1 popped :
    pops lt pq top pq1 → empties lt pq1 popped → empties lt pq (top :: popped).

Record t : Type := mk {
  order_by_ : list Sort.order_key;
  (** [plan_->GetN()] *)
  n_ : nat;
  child_executor_ : ChildExecutor.t;
  tuple_list_ : list Tuple;
  cursor_ : nat
}.

(** The tuples the child still has to deliver: [Init] does not call
    [child_executor_->Init()]. *)
Definition pending (e : t) : list Tuple :=
  (drop (ChildExecutor.pos_ (child_executor_ e)) (ChildExecutor.rows_ (child_executor_ e))).*1.

(** [TopNExecutor::Init]: the executor states the call may end in.  The
    tuples popped are appended to [tuple_list_], which is not cleared, and
    the whole vector is reversed. *)
Definition Init_post (e e' : t) : Prop :=
  ∃ pq popped,
    fills (cmp (order_by_ e)) (n_ e) (pending e) [] pq ∧
    empties (cmp (order_by_ e)) pq popped ∧
    e' = mk (order_by_ e) (n_ e)
            (ChildExecutor.mk (ChildExecutor.rows_ (child_executor_ e))
               (Nat.max (ChildExecutor.pos_ (child_executor_ e))
                        (length (ChildExecutor.rows_ (child_executor_ e)))))
            (rev (tuple_list_ e ++ popped)) 0.

(** [TopNExecutor::Next] *)
Definition Next (e : t) : option (Tuple * RID) * t :=
  match tuple_list_ e !! cursor_ e with
  | None => (None, e)
  | Some tuple =>
      (Some (tuple, rid_ tuple),
       mk (order_by_ e) (n_ e) (child_executor_ e) (tuple_list_ e) (S (cursor_ e)))
  end.

(** [TopNExecutor::GetNumInHeap] *)
Definition GetNumInHeap (e : t) : nat := length (tuple_list_ e).

(** The tuples returned by [n] successive calls of [Next]. *)
Fixpoint emitted (n : nat) (e : t) : list Tuple :=
  match n with
  | O => []
  | S n' =>
      match Next e with
      | (Some row, e') => row.1 :: emitted n' e'
      | (None, _) => []
      end
  end.



(** *** The priority queue under a strict weak ordering *)

Section Queue.

Variable lt : Tuple → Tuple → bool.
Variable U : list Tuple.
Hypothesis Hswo : Sort.strict_weak_order_on lt U.







End Queue.




(** The child of the specification's scenario: 5, 2, 9, 1, 7, the three
    largest wanted. *)
Definition int_tuple (x : Z) : Tuple := Tuple_of_values [Integer x].



(** X17. [Init] neither rewinds the child nor clears [tuple_list_]: a
    second [Init] finds the child exhausted, adds nothing, and reverses the
    vector, so that the executor then emits the tuples of the first [Init] in
    the opposite order. *)
Theorem X17_second_init_reverses_the_output (e e' e'' : t) :
  Init_post e e' → Init_post e' e'' →
  tuple_list_ e'' = rev (tuple_list_ e') ∧ cursor_ e'' = 0%nat.
Proof.
  intros (pq & popped & _ & _ & ->) (pq' & popped' & Hfill & Hpopped & ->).
  assert (Hpending : pending (mk (order_by_ e) (n_ e)
                       (ChildExecutor.mk (ChildExecutor.rows_ (child_executor_ e))
                          (Nat.max (ChildExecutor.pos_ (child_executor_ e))
                                   (length (ChildExecutor.rows_ (child_executor_ e)))))
                       (rev (tuple_list_ e ++ popped)) 0) = []).
  { unfold pending. cbn [child_executor_ ChildExecutor.pos_ ChildExecutor.rows_].
    rewrite drop_ge by lia. reflexivity. }
  rewrite Hpending in Hfill. inversion Hfill; subst.
  inversion Hpopped as [|? ? ? ? [Hperm _]]; subst.
  - cbn [tuple_list_ cursor_]. rewrite app_nil_r. split; reflexivity.
  - apply Permutation_nil_cons in Hperm. contradiction.
Qed.

Definition smallest_two : t :=
  mk [(Sort.ASC, Sort.first_column)] 2
     (ChildExecutor.of_rows
        [(int_tuple 2, RID_default); (int_tuple 1, RID_default); (int_tuple 3, RID_default)])
     [] 0.

Definition smallest_two_child : ChildExecutor.t :=
  ChildExecutor.mk (ChildExecutor.rows_ (child_executor_ smallest_two)) 3.

Lemma smallest_two_first_init :
  Init_post smallest_two
    (mk [(Sort.ASC, Sort.first_column)] 2 smallest_two_child [int_tuple 1; int_tuple 2] 0).
Proof.
  exists [int_tuple 1; int_tuple 2], [int_tuple 2; int_tuple 1].
  split; [|split; [|reflexivity]].
  - apply fills_push; [simpl; lia|]. apply fills_push; [simpl; lia|].
    apply (fills_push_pop _ _ _ _ _ (int_tuple 3) [int_tuple 1; int_tuple 2]); [simpl; lia| |].
    + split; [reflexivity|]. intros x Hx. apply list_elem_of_In in Hx. simpl in Hx.
      destruct Hx as [<-|[<-|[<-|[]]]]; reflexivity.
    + constructor.
  - apply (empties_pop _ _ (int_tuple 2) [int_tuple 1]).
    + split; [apply Permutation_swap|]. intros x Hx. apply list_elem_of_In in Hx. simpl in Hx.
      destruct Hx as [<-|[<-|[]]]; reflexivity.
    + apply (empties_pop _ _ (int_tuple 1) []); [|constructor].
      split; [reflexivity|]. intros x Hx. apply list_elem_of_In in Hx. simpl in Hx.
      destruct Hx as [<-|[]]; reflexivity.
Qed.

Lemma smallest_two_second_init :
  Init_post
    (mk [(Sort.ASC, Sort.first_column)] 2 smallest_two_child [int_tuple 1; int_tuple 2] 0)
    (mk [(Sort.ASC, Sort.first_column)] 2 smallest_two_child [int_tuple 2; int_tuple 1] 0).
Proof.
  exists [], []. split; [constructor|]. split; [constructor|reflexivity].
Qed.

Lemma X17_second_init_reverses_the_output_witness :
  tuple_list_ (mk [(Sort.ASC, Sort.first_column)] 2 smallest_two_child
                  [int_tuple 2; int_tuple 1] 0) =
    rev [int_tuple 1; int_tuple 2] ∧
  cursor_ (mk [(Sort.ASC, Sort.first_column)] 2 smallest_two_child
              [int_tuple 2; int_tuple 1] 0) = 0%nat.
Proof.
  exact (X17_second_init_reverses_the_output smallest_two _ _
           smallest_two_first_init smallest_two_second_init).
Defined.

End TopNExecutor.

(** ** The rule seq-scan-as-index-scan (seqscan_as_indexscan.cpp)

    Plan nodes and expressions are declared in headers outside the sources
    at hand; they are modelled by what the rule reads of them: the type of a
    node, its children, and for the two scans their fields. *)

Module Optimizer.

Inductive ComparisonType : Type :=
  Equal | NotEqual | LessThan | LessThanOrEqual | GreaterThan | GreaterThanOrEqual.

#[local] Unset Elimination Schemes.

Inductive Expression : Type :=
| ColumnValueExpression (tuple_idx col_idx : Z)
| ConstantValueExpression (val : Value)
| ComparisonExpression (comp_type : ComparisonType) (lhs rhs : Expression)
(** any other expression class *)
| OtherExpression (kind : Z) (children : list Expression).

Inductive PlanNode : Type :=
| SeqScanPlanNode (output_schema : list TypeId) (table_oid : Z) (table_name : string)
                  (filter_predicate : option Expression)
| IndexScanPlanNode (output_schema : list TypeId) (table_oid index_oid : Z)
                    (filter_predicate : option Expression)
(** a node of any other plan type, with its children *)
| OtherPlanNode (kind : Z) (children : list PlanNode).

#[local] Set Elimination Schemes.

Section WithCatalog.

(** [Optimizer::MatchIndex(table_name, index_key_idx)]: the id and the name
    of an index of the table on that column. *)
Variable MatchIndex : string → Z → option (Z * string).

(** The rewrite of one sequential scan, after its children are done. *)
Definition rewrite_scan (output_schema : list TypeId) (table_oid : Z) (table_name : string)
    (filter_predicate : option Expression) : PlanNode :=
  let optimized_plan := SeqScanPlanNode output_schema table_oid table_name filter_predicate in
  match filter_predicate with
  | None => optimized_plan
  | Some (ComparisonExpression Equal (ColumnValueExpression _ col_idx) rhs) =>
      let match_index := MatchIndex table_name col_idx in
      match rhs, match_index with
      | ConstantValueExpression _, Some (index_id, _) =>
          IndexScanPlanNode output_schema table_oid index_id filter_predicate
      | _, _ => optimized_plan
      end
  | Some _ => optimized_plan
  end.

(** [Optimizer::OptimizeSeqScanAsIndexScan] *)
Fixpoint OptimizeSeqScanAsIndexScan (plan : PlanNode) : PlanNode :=
  match plan with
  | SeqScanPlanNode output_schema table_oid table_name filter_predicate =>
      rewrite_scan output_schema table_oid table_name filter_predicate
  | IndexScanPlanNode _ _ _ _ => plan
  | OtherPlanNode kind children => OtherPlanNode kind (map OptimizeSeqScanAsIndexScan children)
  end.

(** A sequential scan filtered by [column = constant] on a column the table
    has an index on. *)
Definition indexable (plan : PlanNode) : Prop :=
  ∃ output_schema table_oid table_name tuple_idx col_idx val index,
    plan = SeqScanPlanNode output_schema table_oid table_name
             (Some (ComparisonExpression Equal (ColumnValueExpression tuple_idx col_idx)
                                         (ConstantValueExpression val))) ∧
    MatchIndex table_name col_idx = Some index.

(** The nodes of a plan. *)
Fixpoint nodes (plan : PlanNode) : list PlanNode :=
  plan :: match plan with
          | OtherPlanNode _ children => flat_map nodes children
          | _ => []
          end.

(** What the rule makes of one node, its children aside. *)
Definition rewritten (node : PlanNode) : PlanNode :=
  match node with
  | SeqScanPlanNode output_schema table_oid table_name filter_predicate =>
      rewrite_scan output_schema table_oid table_name filter_predicate
  | IndexScanPlanNode _ _ _ _ => node
  | OtherPlanNode kind _ => OtherPlanNode kind []
  end.

Definition shallow (node : PlanNode) : PlanNode :=
  match node with
  | OtherPlanNode kind _ => OtherPlanNode kind []
  | _ => node
  end.

Lemma PlanNode_induction (P : PlanNode → Prop) :
  (∀ s o n f, P (SeqScanPlanNode s o n f)) →
  (∀ s o i f, P (IndexScanPlanNode s o i f)) →
  (∀ kind children, Forall P children → P (OtherPlanNode kind children)) →
  ∀ plan, P plan.
Proof.
  intros Hseq Hindex Hother.
  fix IH 1. intros [s o n f|s o i f|kind children].
  - apply Hseq.
  - apply Hindex.
  - apply Hother. induction children as [|child children IHc]; constructor.
    + apply IH.
    + exact IHc.
Qed.

Lemma rewrite_scan_cases s o n f :
  (rewrite_scan s o n f = SeqScanPlanNode s o n f ∧ ¬ indexable (SeqScanPlanNode s o n f)) ∨
  (∃ index_id, rewrite_scan s o n f = IndexScanPlanNode s o index_id f ∧
               indexable (SeqScanPlanNode s o n f)).
Proof.
  unfold rewrite_scan.
  destruct f as [[t c|v|[| | | | |] [t c|v|ct l r|k cs] rhs|k cs]|];
    try (left; split; [reflexivity|];
         intros (s' & o' & n' & t' & c' & v' & index & Heq & _); discriminate).
  destruct rhs as [t' c'|v|ct l r|k cs];
    try (left; split; [reflexivity|];
         intros (s' & o' & n' & t'' & c'' & v' & index & Heq & _); discriminate).
  destruct (MatchIndex n c) as [[index_id index_name]|] eqn:Hmatch.
  - right. exists index_id. split; [reflexivity|].
    exists s, o, n, t, c, v, (index_id, index_name). auto.
  - left. split; [reflexivity|].
    intros (s' & o' & n' & t'' & c'' & v' & index & Heq & Hm).
    injection Heq as <- <- <- <- <- <-. congruence.
Qed.

(** X18. The rule is idempotent; the plan it returns has the nodes of the
    given plan in the same places, each sequential scan filtered by
    [column = constant] on an indexed column replaced by an index scan with
    the same output schema, table and filter, and every other node as it was;
    so no such scan is left. *)
Theorem X18_rule_rewrites_exactly_the_indexable_scans (plan : PlanNode) :
  OptimizeSeqScanAsIndexScan (OptimizeSeqScanAsIndexScan plan) = OptimizeSeqScanAsIndexScan plan ∧
  shallow <$> nodes (OptimizeSeqScanAsIndexScan plan) = rewritten <$> nodes plan ∧
  (∀ node, node ∈ nodes plan →
     (indexable node → ∃ s o n f index_id index_name col_idx tuple_idx val,
         node = SeqScanPlanNode s o n f ∧
         f = Some (ComparisonExpression Equal (ColumnValueExpression tuple_idx col_idx)
                                        (ConstantValueExpression val)) ∧
         MatchIndex n col_idx = Some (index_id, index_name) ∧
         rewritten node = IndexScanPlanNode s o index_id f) ∧
     (¬ indexable node → rewritten node = shallow node)) ∧
  (∀ node, node ∈ nodes (OptimizeSeqScanAsIndexScan plan) → ¬ indexable node).
Proof.
  split; [|split; [|split]].
  - induction plan as [s o n f|s o i f|kind children IH] using PlanNode_induction.
    + cbn [OptimizeSeqScanAsIndexScan].
      destruct (rewrite_scan_cases s o n f) as [[Heq Hnot]|(index_id & Heq & _)];
        rewrite Heq; [|reflexivity].
      cbn [OptimizeSeqScanAsIndexScan]. exact Heq.
    + reflexivity.
    + cbn [OptimizeSeqScanAsIndexScan]. f_equal. rewrite map_map.
      induction IH as [|child children Hchild _ IHc]; [reflexivity|].
      cbn [map]. rewrite Hchild, IHc. reflexivity.
  - induction plan as [s o n f|s o i f|kind children IH] using PlanNode_induction.
    + cbn [OptimizeSeqScanAsIndexScan nodes fmap list_fmap rewritten].
      destruct (rewrite_scan_cases s o n f) as [[Heq Hnot]|(index_id & Heq & _)];
        rewrite Heq; reflexivity.
    + reflexivity.
    + cbn [OptimizeSeqScanAsIndexScan nodes]. rewrite !fmap_cons. cbn [shallow rewritten].
      f_equal. induction IH as [|child children Hchild _ IHc]; [reflexivity|].
      cbn [map flat_map]. rewrite !fmap_app, Hchild, IHc. reflexivity.
  - intros node _. split.
    + intros (s & o & n & t & c & v & [index_id index_name] & -> & Hmatch).
      exists s, o, n, (Some (ComparisonExpression Equal (ColumnValueExpression t c)
                               (ConstantValueExpression v))), index_id, index_name, c, t, v.
      split; [reflexivity|]. split; [reflexivity|]. split; [exact Hmatch|].
      cbn [rewritten]. unfold rewrite_scan. rewrite Hmatch. reflexivity.
    + intros Hnot. destruct node as [s o n f|s o i f|kind children]; try reflexivity.
      cbn [rewritten shallow].
      destruct (rewrite_scan_cases s o n f) as [[Heq _]|(index_id & _ & Hyes)];
        [exact Heq|contradiction].
  - induction plan as [s o n f|s o i f|kind children IH] using PlanNode_induction;
      intros node Hnode.
    + cbn [OptimizeSeqScanAsIndexScan] in Hnode.
      destruct (rewrite_scan_cases s o n f) as [[Heq Hnot]|(index_id & Heq & _)];
        rewrite Heq in Hnode; cbn [nodes] in Hnode;
        apply list_elem_of_singleton in Hnode as ->; [exact Hnot|].
      intros (s' & o' & n' & t & c & v & index & Heq' & _); discriminate.
    + cbn [OptimizeSeqScanAsIndexScan nodes] in Hnode.
      apply list_elem_of_singleton in Hnode as ->.
      intros (s' & o' & n' & t & c & v & index & Heq' & _); discriminate.
    + cbn [OptimizeSeqScanAsIndexScan nodes] in Hnode.
      apply elem_of_cons in Hnode as [->|Hnode].
      { intros (s' & o' & n' & t & c & v & index & Heq' & _); discriminate. }
      induction IH as [|child children Hchild _ IHc]; [inversion Hnode|].
      cbn [map flat_map] in Hnode. apply elem_of_app in Hnode as [Hnode|Hnode].
      * apply Hchild. exact Hnode.
      * apply IHc. exact Hnode.
Qed.

End WithCatalog.

End Optimizer.

(** ** Powers of two and the 32-bit operations of the index *)

Lemma pow2_pos (n : Z) : 0 ≤ n → 0 < 2 ^ n.
Proof. intros. apply Z.pow_pos_nonneg; lia. Qed.

Lemma pow2_succ (n : Z) : 0 ≤ n → 2 ^ (n + 1) = 2 * 2 ^ n.
Proof. intros. rewrite Z.pow_add_r by lia. lia. Qed.

Lemma pow2_lt (m n : Z) : 0 ≤ m < n → 2 ^ m < 2 ^ n.
Proof. intros. apply Z.pow_lt_mono_r; lia. Qed.

Lemma shiftl_1_pow2 (n : Z) : Z.shiftl 1 n = 2 ^ n.
Proof. apply Z.shiftl_1_l. Qed.

Lemma land_mask (h n : Z) : 0 ≤ n → Z.land h (Z.shiftl 1 n - 1) = h mod 2 ^ n.
Proof.
  intros Hn. rewrite shiftl_1_pow2.
  replace (2 ^ n - 1) with (Z.ones n) by (rewrite Z.ones_equiv; lia).
  apply Z.land_ones. exact Hn.
Qed.

Lemma wrap_uint32_small (x : Z) : 0 ≤ x < 2 ^ 32 → wrap_uint32 x = x.
Proof. intros. unfold wrap_uint32. apply Z.mod_small. lia. Qed.

Lemma mod_mod_pow2 (x m n : Z) : 0 ≤ m ≤ n → (x mod 2 ^ n) mod 2 ^ m = x mod 2 ^ m.
Proof.
  intros Hmn. apply Z.mod_mod_divide.
  exists (2 ^ (n - m)). rewrite <- Z.pow_add_r by lia. f_equal. lia.
Qed.





(** Case analyses on the classes of a directory, on plain integers. *)

(** [INVALID_PAGE_ID] of common/config.h, as in [BufferPoolManager]. *)
Definition INVALID_PAGE_ID : Z := -1.

Definition fn_upd (f : Z → Z) (i v : Z) : Z → Z := λ j, if j =? i then v else f j.

(** Modelled from the spec: the header page class
    (extendible_htable_header_page), which is missing from the sources.  The
    directory of a hash is chosen by its top [max_depth] bits. *)
Module ExtendibleHTableHeaderPage.

Record t : Type := mk { max_depth_ : Z; directory_page_ids_ : Z → Z }.

Definition Init (max_depth : Z) : t := mk max_depth (λ _, INVALID_PAGE_ID).

Definition HashToDirectoryIndex (h : t) (hash : Z) : Z := Z.shiftr hash (32 - max_depth_ h).

Definition GetDirectoryPageId (h : t) (directory_idx : Z) : Z := directory_page_ids_ h directory_idx.

Definition SetDirectoryPageId (directory_idx directory_page_id : Z) (h : t) : t :=
  mk (max_depth_ h) (fn_upd (directory_page_ids_ h) directory_idx directory_page_id).

End ExtendibleHTableHeaderPage.

(** The directory page as the specification words it: the bucket of a hash
    is chosen by its low [global_depth] bits; every slot has a local depth
    and a bucket page id.  This is the second definition of the comparison
    in [DirectoryPageCode], which embeds the code of the class with its
    assertions, its fixed-width arithmetic and its undefined cases. *)
Module ExtendibleHTableDirectoryPage.

Record t : Type := mk {
  max_depth_ : Z;
  global_depth_ : Z;
  local_depths_ : Z → Z;
  bucket_page_ids_ : Z → Z
}.

Definition Init (max_depth : Z) : t := mk max_depth 0 (λ _, 0) (λ _, INVALID_PAGE_ID).

Definition GetGlobalDepth (d : t) : Z := global_depth_ d.
Definition GetMaxDepth (d : t) : Z := max_depth_ d.
Definition Size (d : t) : Z := Z.shiftl 1 (global_depth_ d).

Definition HashToBucketIndex (d : t) (hash : Z) : Z :=
  Z.land hash (Z.shiftl 1 (global_depth_ d) - 1).

Definition GetBucketPageId (d : t) (bucket_idx : Z) : Z := bucket_page_ids_ d bucket_idx.
Definition GetLocalDepth (d : t) (bucket_idx : Z) : Z := local_depths_ d bucket_idx.

Definition SetBucketPageId (bucket_idx bucket_page_id : Z) (d : t) : t :=
  mk (max_depth_ d) (global_depth_ d) (local_depths_ d)
     (fn_upd (bucket_page_ids_ d) bucket_idx bucket_page_id).

Definition SetLocalDepth (bucket_idx local_depth : Z) (d : t) : t :=
  mk (max_depth_ d) (global_depth_ d)
     (fn_upd (local_depths_ d) bucket_idx local_depth) (bucket_page_ids_ d).

Definition IncrLocalDepth (bucket_idx : Z) (d : t) : t :=
  SetLocalDepth bucket_idx (local_depths_ d bucket_idx + 1) d.

Definition DecrLocalDepth (bucket_idx : Z) (d : t) : t :=
  SetLocalDepth bucket_idx (local_depths_ d bucket_idx - 1) d.

Definition GetSplitImageIndex (d : t) (bucket_idx : Z) : Z :=
  let ld := local_depths_ d bucket_idx in
  Z.lxor (Z.land bucket_idx (Z.shiftl 1 ld - 1)) (Z.shiftl 1 (ld - 1)).

(** Slot [j] of the upper half takes what slot [j - Size()] holds. *)
Definition IncrGlobalDepth (d : t) : t :=
  let n := Size d in
  let grown (f : Z → Z) : Z → Z :=
    λ j, if (n <=? j) && (j <? 2 * n) then f (j - n) else f j in
  mk (max_depth_ d) (global_depth_ d + 1)
     (grown (local_depths_ d)) (grown (bucket_page_ids_ d)).

Definition DecrGlobalDepth (d : t) : t :=
  mk (max_depth_ d) (global_depth_ d - 1) (local_depths_ d) (bucket_page_ids_ d).

Definition CanShrink (d : t) : bool :=
  (0 <? global_depth_ d) &&
  forallb (λ i, local_depths_ d i <? global_depth_ d) (seqZ 0 (Size d)).

End ExtendibleHTableDirectoryPage.

(** Modelled from the spec: the bucket page class
    (extendible_htable_bucket_page), which is missing from the sources.
    [Lookup] searches the entries in slot order, [Insert] refuses a full
    bucket and a key that is there and otherwise fills the first empty slot,
    [Remove] takes out the entry of the key. *)
Module ExtendibleHTableBucketPage.

Section Entries.

Context {K V : Type} `{EqDecision K}.

(** The entries are the first [size_] slots of the array, in slot order. *)
Record t : Type := mk { max_size_ : Z; array_ : list (K * V) }.

Definition Init (max_size : Z) : t := mk max_size [].

Definition Size (b : t) : Z := Z.of_nat (length (array_ b)).
Definition IsFull (b : t) : bool := Size b =? max_size_ b.
Definition IsEmpty (b : t) : bool := Size b =? 0.
Definition Clear (b : t) : t := mk (max_size_ b) [].

Fixpoint lookup_entries (key : K) (l : list (K * V)) : option V :=
  match l with
  | [] => None
  | (k, v) :: rest => if decide (k = key) then Some v else lookup_entries key rest
  end.

Definition Lookup (key : K) (b : t) : option V := lookup_entries key (array_ b).

Definition Insert (key : K) (value : V) (b : t) : bool * t :=
  if IsFull b then (false, b)
  else if bool_decide (is_Some (Lookup key b)) then (false, b)
  else (true, mk (max_size_ b) (array_ b ++ [(key, value)])).

Fixpoint remove_entry (key : K) (l : list (K * V)) : list (K * V) :=
  match l with
  | [] => []
  | (k, v) :: rest => if decide (k = key) then rest else (k, v) :: remove_entry key rest
  end.

Definition Remove (key : K) (b : t) : bool * t :=
  if bool_decide (is_Some (Lookup key b))
  then (true, mk (max_size_ b) (remove_entry key (array_ b)))
  else (false, b).

End Entries.

Arguments t : clear implicits.

End ExtendibleHTableBucketPage.

(** ** Invariants of the directory

    What the formulas of the specification keep true of a directory: the
    slots in use, the classes of slots that share a bucket page, and the
    page a hash is routed to. *)

Module DiskExtendibleHashTable.

Module Directory := ExtendibleHTableDirectoryPage.

Local Abbreviation gd := Directory.global_depth_.
Local Abbreviation ld := Directory.local_depths_.
Local Abbreviation pg := Directory.bucket_page_ids_.

Definition in_dir (d : Directory.t) (i : Z) : Prop := 0 ≤ i < 2 ^ gd d.

(** The slots of a directory fall into classes: the slots that agree with
    [i] on the low [local_depth[i]] bits are those that hold the page of
    [i], and they all carry the local depth of [i]. *)
Record dir_ok (d : Directory.t) : Prop := mk_dir_ok {
  dir_depth_range : 0 ≤ gd d ≤ Directory.max_depth_ d ∧ Directory.max_depth_ d ≤ 30;
  dir_local_range : ∀ i, in_dir d i → 0 ≤ ld d i ≤ gd d;
  dir_class_page : ∀ i j, in_dir d i → in_dir d j →
                     (pg d i = pg d j ↔ i mod 2 ^ ld d i = j mod 2 ^ ld d i);
  dir_class_depth : ∀ i j, in_dir d i → in_dir d j → pg d i = pg d j → ld d i = ld d j
}.

(** The page a hash is routed to. *)
Definition route (d : Directory.t) (hash : Z) : Z :=
  Directory.GetBucketPageId d (Directory.HashToBucketIndex d hash).

Lemma route_eq d hash : 0 ≤ gd d → route d hash = pg d (hash mod 2 ^ gd d).
Proof.
  intros. unfold route, Directory.GetBucketPageId, Directory.HashToBucketIndex.
  rewrite land_mask by lia. reflexivity.
Qed.

Lemma Size_eq d : Directory.Size d = 2 ^ gd d.
Proof. apply shiftl_1_pow2. Qed.

(** Growing the directory: the upper half mirrors the lower half. *)
Lemma IncrGlobalDepth_slots d j :
  0 ≤ gd d → 0 ≤ j < 2 ^ (gd d + 1) →
  ld (Directory.IncrGlobalDepth d) j = ld d (j mod 2 ^ gd d) ∧
  pg (Directory.IncrGlobalDepth d) j = pg d (j mod 2 ^ gd d).
Proof.
  intros Hg Hj. rewrite pow2_succ in Hj by lia.
  pose proof (pow2_pos (gd d) Hg) as HN.
  unfold Directory.IncrGlobalDepth. simpl. rewrite Size_eq.
  destruct (Z.leb_spec (2 ^ gd d) j) as [Hge|Hlt]; simpl.
  - destruct (Z.ltb_spec j (2 * 2 ^ gd d)) as [_|?]; [|lia].
    assert (E : j mod 2 ^ gd d = j - 2 ^ gd d).
    { symmetry. apply (Z.mod_unique _ _ 1); lia. }
    rewrite E. auto.
  - rewrite Z.mod_small by lia. auto.
Qed.

(** Shrinking: allowed only when every slot in use has a local depth below
    the global depth. *)
Lemma CanShrink_true d :
  Directory.CanShrink d = true →
  0 < gd d ∧ ∀ i, in_dir d i → ld d i < gd d.
Proof.
  unfold Directory.CanShrink. intros H. apply andb_true_iff in H as [H1 H2].
  apply Z.ltb_lt in H1. split; [exact H1|].
  intros i Hi. rewrite forallb_forall in H2.
  specialize (H2 i). apply Z.ltb_lt. apply H2.
  apply list_elem_of_In. apply elem_of_seqZ. rewrite Size_eq. unfold in_dir in Hi. lia.
Qed.

Lemma in_dir_DecrGlobalDepth d i :
  0 < gd d → in_dir (Directory.DecrGlobalDepth d) i → in_dir d i.
Proof.
  unfold in_dir. simpl. intros Hg Hi.
  pose proof (pow2_lt (gd d - 1) (gd d) ltac:(lia)). lia.
Qed.

Lemma route_DecrGlobalDepth d hash :
  dir_ok d → Directory.CanShrink d = true →
  route (Directory.DecrGlobalDepth d) hash = route d hash.
Proof.
  intros [[Hg Hm] Hlr Hcp Hcd] Hs. apply CanShrink_true in Hs as [Hpos Hlow].
  rewrite !route_eq by (simpl; lia). simpl.
  pose proof (pow2_pos (gd d) ltac:(lia)) as HN.
  pose proof (pow2_pos (gd d - 1) ltac:(lia)) as HN'.
  assert (Hi : in_dir d (hash mod 2 ^ gd d)) by (apply Z.mod_pos_bound; exact HN).
  assert (Hj : in_dir d (hash mod 2 ^ (gd d - 1))).
  { apply (in_dir_DecrGlobalDepth d); [exact Hpos|]. apply Z.mod_pos_bound. exact HN'. }
  symmetry. apply Hcp; try assumption.
  specialize (Hlr _ Hi). specialize (Hlow _ Hi).
  rewrite !mod_mod_pow2 by lia. reflexivity.
Qed.

End DiskExtendibleHashTable.

(** ** The directory page (extendible_htable_directory_page.cpp)

    The code of the directory page class.  The page is the record of
    [ExtendibleHTableDirectoryPage] (the member names are those the methods
    use); the two arrays are functions of the index, since their lengths are
    fixed in a header outside the sources at hand.  [local_depths_] holds
    [uint8_t], the depths and indices are [uint32_t], and [1 << n] is formed
    on [int]. *)

Module DirectoryPageCode.

Module Model := ExtendibleHTableDirectoryPage.

Abbreviation t := ExtendibleHTableDirectoryPage.t.
Abbreviation mk := ExtendibleHTableDirectoryPage.mk.
Abbreviation max_depth_ := ExtendibleHTableDirectoryPage.max_depth_.
Abbreviation global_depth_ := ExtendibleHTableDirectoryPage.global_depth_.
Abbreviation local_depths_ := ExtendibleHTableDirectoryPage.local_depths_.
Abbreviation bucket_page_ids_ := ExtendibleHTableDirectoryPage.bucket_page_ids_.

Definition wrap_uint8 (x : Z) : Z := x mod 2 ^ 8.

(** [Size] and [MaxSize]: [1 << depth] returned as [uint32_t]. *)
Definition Size (d : t) : Z := wrap_uint32 (Z.shiftl 1 (global_depth_ d)).
Definition MaxSize (d : t) : Z := wrap_uint32 (Z.shiftl 1 (max_depth_ d)).

(** [Init]: the loop stores [INVALID_PAGE_ID] in the slots below [MaxSize()];
    the local depths are not written. *)
Definition Init (max_depth : Z) (d : t) : t :=
  let d1 := mk max_depth 0 (local_depths_ d) (bucket_page_ids_ d) in
  foldl (λ (x : t) (i : Z),
           mk (max_depth_ x) (global_depth_ x) (local_depths_ x)
              (fn_upd (bucket_page_ids_ x) i INVALID_PAGE_ID))
        d1 (seqZ 0 (MaxSize d1)).

Definition HashToBucketIndex (d : t) (hash : Z) : Z :=
  if max_depth_ d =? 0 then 0
  else Z.land hash (wrap_uint32 (Z.shiftl 1 (global_depth_ d) - 1)).

(** [assert(bucket_idx <= (pow(2, max_depth_)))] *)
Definition index_assert {A : Type} (d : t) (bucket_idx : Z) (k : outcome A) : outcome A :=
  BUSTUB_ASSERT (bucket_idx <=? 2 ^ max_depth_ d) "bucket_idx <= (pow(2, max_depth_))" k.

Definition GetBucketPageId (d : t) (bucket_idx : Z) : outcome Z :=
  index_assert d bucket_idx (Done (bucket_page_ids_ d bucket_idx)).

Definition SetBucketPageId (bucket_idx bucket_page_id : Z) (d : t) : outcome t :=
  index_assert d bucket_idx
    (Done (mk (max_depth_ d) (global_depth_ d) (local_depths_ d)
              (fn_upd (bucket_page_ids_ d) bucket_idx bucket_page_id))).

(** [assert(bucket_idx >= 0)] on a [uint32_t] never fails. *)
Definition GetLocalDepth (d : t) (bucket_idx : Z) : Z := local_depths_ d bucket_idx.

Definition GetLocalDepthMask (d : t) (bucket_idx : Z) : Z :=
  wrap_uint32 (Z.shiftl 1 (GetLocalDepth d bucket_idx) - 1).

(** [GetSplitImageIndex]: with a local depth of 0 the shift count
    [local_depth - 1] is [0xFFFFFFFF], which [<<] leaves undefined. *)
Definition GetSplitImageIndex (d : t) (bucket_idx : Z) : outcome Z :=
  let local_depth_mask := GetLocalDepthMask d bucket_idx in
  let local_depth := GetLocalDepth d bucket_idx in
  if local_depth =? 0 then Undefined
  else Done (Z.lxor (Z.land bucket_idx local_depth_mask)
                    (wrap_uint32 (Z.shiftl 1 (local_depth - 1)))).

Definition GetGlobalDepthMask (d : t) : outcome Z :=
  BUSTUB_ASSERT (global_depth_ d <=? max_depth_ d) "global_depth_ <= max_depth_"
    (Done (wrap_uint32 (Z.shiftl 1 (global_depth_ d) - 1))).

Definition GetGlobalDepth (d : t) : Z := global_depth_ d.

(** One round of the loop of [IncrGlobalDepth]. *)
Definition copy_slot (old_size : Z) (d : t) (i : Z) : t :=
  mk (max_depth_ d) (global_depth_ d)
     (fn_upd (local_depths_ d) i (local_depths_ d (i - old_size)))
     (fn_upd (bucket_page_ids_ d) i (bucket_page_ids_ d (i - old_size))).

Definition IncrGlobalDepth (d : t) : outcome t :=
  BUSTUB_ASSERT (global_depth_ d <=? max_depth_ d) "global_depth_ <= max_depth_"
    (if global_depth_ d =? max_depth_ d then Done d else
     let old_size := Size d in
     let d1 := mk (max_depth_ d) (wrap_uint32 (global_depth_ d + 1))
                  (local_depths_ d) (bucket_page_ids_ d) in
     let new_size := Size d1 in
     Done (foldl (copy_slot old_size) d1 (seqZ old_size (new_size - old_size)))).

Definition DecrGlobalDepth (d : t) : t :=
  if 0 <? global_depth_ d
  then mk (max_depth_ d) (global_depth_ d - 1) (local_depths_ d) (bucket_page_ids_ d)
  else d.

Definition CanShrink (d : t) : bool :=
  if global_depth_ d <=? 0 then false
  else forallb (λ i, negb (global_depth_ d =? local_depths_ d i)) (seqZ 0 (Size d)).

(** [SetLocalDepth(uint32_t bucket_idx, uint8_t local_depth)] *)
Definition SetLocalDepth (bucket_idx local_depth : Z) (d : t) : t :=
  mk (max_depth_ d) (global_depth_ d)
     (fn_upd (local_depths_ d) bucket_idx (wrap_uint8 local_depth)) (bucket_page_ids_ d).

Definition IncrLocalDepth (bucket_idx : Z) (d : t) : t :=
  mk (max_depth_ d) (global_depth_ d)
     (fn_upd (local_depths_ d) bucket_idx (wrap_uint8 (local_depths_ d bucket_idx + 1)))
     (bucket_page_ids_ d).

Definition DecrLocalDepth (bucket_idx : Z) (d : t) : outcome t :=
  index_assert d bucket_idx
    (Done (mk (max_depth_ d) (global_depth_ d)
              (fn_upd (local_depths_ d) bucket_idx
                      (wrap_uint8 (local_depths_ d bucket_idx - 1)))
              (bucket_page_ids_ d))).

(** A directory whose depths are in the range the page format allows. *)
Definition depths_ok (d : t) : Prop :=
  0 ≤ global_depth_ d ≤ max_depth_ d ∧ max_depth_ d ≤ 30.

Lemma Size_pow2 d : depths_ok d → Size d = 2 ^ global_depth_ d.
Proof.
  intros [[H0 H1] H2]. unfold Size. rewrite shiftl_1_pow2.
  apply wrap_uint32_small. pose proof (pow2_pos (global_depth_ d) H0).
  pose proof (pow2_lt (global_depth_ d) 32 ltac:(lia)). lia.
Qed.

Lemma mask_pow2 (n : Z) : 0 ≤ n ≤ 31 → wrap_uint32 (Z.shiftl 1 n - 1) = 2 ^ n - 1.
Proof.
  intros Hn. rewrite shiftl_1_pow2. apply wrap_uint32_small.
  pose proof (pow2_pos n ltac:(lia)). pose proof (pow2_lt n 32 ltac:(lia)). lia.
Qed.

Lemma HashToBucketIndex_mod d hash :
  depths_ok d → HashToBucketIndex d hash = hash mod 2 ^ global_depth_ d.
Proof.
  intros [[H0 H1] H2]. unfold HashToBucketIndex.
  destruct (Z.eqb_spec (max_depth_ d) 0) as [E|E].
  - assert (global_depth_ d = 0) as -> by lia. simpl. symmetry. apply Z.mod_1_r.
  - rewrite mask_pow2 by lia. rewrite <- (land_mask hash (global_depth_ d) H0).
    rewrite shiftl_1_pow2. reflexivity.
Qed.

(** The loop of [IncrGlobalDepth] in closed form. *)
Lemma copy_slots_spec (old : Z) (n : nat) (d : t) :
  Z.of_nat n ≤ old →
  let d' := foldl (copy_slot old) d (seqZ old (Z.of_nat n)) in
  max_depth_ d' = max_depth_ d ∧ global_depth_ d' = global_depth_ d ∧
  ∀ j, local_depths_ d' j =
         (if (old <=? j) && (j <? old + Z.of_nat n) then local_depths_ d (j - old)
          else local_depths_ d j) ∧
       bucket_page_ids_ d' j =
         (if (old <=? j) && (j <? old + Z.of_nat n) then bucket_page_ids_ d (j - old)
          else bucket_page_ids_ d j).
Proof.
  induction n as [|n IH]; intros Hn.
  - simpl. split; [reflexivity|]. split; [reflexivity|]. intros j.
    replace ((old <=? j) && (j <? old + Z.of_nat 0)) with false; [split; reflexivity|].
    symmetry. apply andb_false_iff. destruct (Z.leb_spec old j); [right|left; reflexivity].
    apply Z.ltb_ge. lia.
  - rewrite seqZ_S, foldl_app. cbn [foldl]. cbv zeta in IH |- *.
    destruct (IH ltac:(lia)) as (Hm & Hg & Hslots).
    set (dn := foldl (copy_slot old) d (seqZ old (Z.of_nat n))) in *.
    split; [exact Hm|]. split; [exact Hg|]. intros j.
    unfold copy_slot. cbn [Model.local_depths_ Model.bucket_page_ids_]. unfold fn_upd.
    destruct (Hslots j) as [Hl Hp].
    destruct (Hslots (old + Z.of_nat n - old)) as [Hl0 Hp0].
    replace ((old <=? old + Z.of_nat n - old) && (old + Z.of_nat n - old <? old + Z.of_nat n)) with false in Hl0, Hp0
      by (symmetry; apply andb_false_iff; left; apply Z.leb_gt; lia).
    destruct (Z.eqb_spec j (old + Z.of_nat n)) as [->|Hne].
    + replace ((old <=? old + Z.of_nat n) && (old + Z.of_nat n <? old + Z.of_nat (S n))) with true
        by (symmetry; apply andb_true_iff; split; [apply Z.leb_le|apply Z.ltb_lt]; lia).
      split; assumption.
    + rewrite Hl, Hp.
      replace ((old <=? j) && (j <? old + Z.of_nat (S n))) with ((old <=? j) && (j <? old + Z.of_nat n));
        [split; reflexivity|].
      f_equal. destruct (Z.ltb_spec j (old + Z.of_nat n)), (Z.ltb_spec j (old + Z.of_nat (S n))); try reflexivity; lia.
Qed.

Lemma forallb_agree {A : Type} (f g : A → bool) (l : list A) :
  (∀ x, x ∈ l → f x = g x) → forallb f l = forallb g l.
Proof.
  induction l as [|a l IH]; intros H; simpl; [reflexivity|].
  rewrite (H a) by left. rewrite IH; [reflexivity|].
  intros x Hx. apply H. right. exact Hx.
Qed.

Lemma CanShrink_agrees d :
  depths_ok d →
  (∀ i, 0 ≤ i < 2 ^ global_depth_ d → local_depths_ d i ≤ global_depth_ d) →
  CanShrink d = Model.CanShrink d.
Proof.
  intros Hd Hld. unfold CanShrink, Model.CanShrink. rewrite (Size_pow2 d Hd).
  unfold Model.Size. rewrite shiftl_1_pow2.
  destruct (Z.leb_spec (global_depth_ d) 0) as [H0|H0].
  - destruct (Z.ltb_spec 0 (global_depth_ d)); [lia|reflexivity].
  - destruct (Z.ltb_spec 0 (global_depth_ d)); [|lia]. cbn [andb].
    apply forallb_agree. intros i Hi. apply elem_of_seqZ in Hi.
    specialize (Hld i ltac:(lia)).
    destruct (Z.eqb_spec (global_depth_ d) (local_depths_ d i)),
             (Z.ltb_spec (local_depths_ d i) (global_depth_ d)); simpl; try reflexivity; lia.
Qed.

Lemma IncrGlobalDepth_code_slots d :
  depths_ok d → global_depth_ d < max_depth_ d →
  ∃ d', IncrGlobalDepth d = Done d' ∧
        max_depth_ d' = max_depth_ d ∧ global_depth_ d' = global_depth_ d + 1 ∧
        ∀ j, local_depths_ d' j = local_depths_ (Model.IncrGlobalDepth d) j ∧
             bucket_page_ids_ d' j = bucket_page_ids_ (Model.IncrGlobalDepth d) j.
Proof.
  intros Hd Hlt. pose proof Hd as [[H0 H1] H2]. unfold IncrGlobalDepth.
  destruct (Z.leb_spec (global_depth_ d) (max_depth_ d)) as [_|]; [|lia].
  cbn [BUSTUB_ASSERT]. destruct (Z.eqb_spec (global_depth_ d) (max_depth_ d)) as [|_]; [lia|].
  rewrite (wrap_uint32_small (global_depth_ d + 1)) by lia.
  set (d1 := mk (max_depth_ d) (global_depth_ d + 1) (local_depths_ d) (bucket_page_ids_ d)).
  assert (Hd1 : depths_ok d1) by (unfold depths_ok, d1; simpl; lia).
  rewrite (Size_pow2 d Hd), (Size_pow2 d1 Hd1).
  change (global_depth_ d1) with (global_depth_ d + 1). rewrite pow2_succ by lia.
  pose proof (pow2_pos (global_depth_ d) H0) as Hpos.
  replace (2 * 2 ^ global_depth_ d - 2 ^ global_depth_ d)
    with (Z.of_nat (Z.to_nat (2 ^ global_depth_ d))) by lia.
  destruct (copy_slots_spec (2 ^ global_depth_ d) (Z.to_nat (2 ^ global_depth_ d)) d1
              ltac:(lia)) as (Hm & Hg & Hslots).
  eexists. split; [reflexivity|]. split; [exact Hm|]. split; [exact Hg|].
  intros j. destruct (Hslots j) as [Hl Hp]. rewrite Hl, Hp.
  unfold Model.IncrGlobalDepth, Model.Size. cbn [Model.local_depths_ Model.bucket_page_ids_].
  rewrite shiftl_1_pow2.
  replace (2 ^ global_depth_ d + Z.of_nat (Z.to_nat (2 ^ global_depth_ d)))
    with (2 * 2 ^ global_depth_ d) by lia.
  split; reflexivity.
Qed.

(** X5.  [IncrGlobalDepth] on a directory whose depths are in range returns:
    at the depth limit it changes nothing, below it the global depth grows
    by one and [Size()] doubles; either way every hash still reaches the
    bucket page id and the local depth it reached before. *)
Theorem X5_IncrGlobalDepth_keeps_every_lookup (d : t) (hash : Z) :
  depths_ok d →
  ∃ d', IncrGlobalDepth d = Done d' ∧ depths_ok d' ∧
        global_depth_ d' =
          (if global_depth_ d =? max_depth_ d then global_depth_ d
           else global_depth_ d + 1) ∧
        Size d' = (if global_depth_ d =? max_depth_ d then Size d else 2 * Size d) ∧
        bucket_page_ids_ d' (HashToBucketIndex d' hash) =
          bucket_page_ids_ d (HashToBucketIndex d hash) ∧
        local_depths_ d' (HashToBucketIndex d' hash) =
          local_depths_ d (HashToBucketIndex d hash).
Proof.
  intros Hd. pose proof Hd as [[H0 H1] H2].
  destruct (Z.eqb_spec (global_depth_ d) (max_depth_ d)) as [E|E].
  - exists d. split; [|repeat split; assumption].
    unfold IncrGlobalDepth. rewrite E, Z.leb_refl, Z.eqb_refl. reflexivity.
  - destruct (IncrGlobalDepth_code_slots d Hd ltac:(lia)) as (d' & Hrun & Hm & Hg & Hslots).
    assert (Hd' : depths_ok d') by (unfold depths_ok; rewrite Hm, Hg; lia).
    exists d'. split; [exact Hrun|]. split; [exact Hd'|]. split; [exact Hg|].
    split; [rewrite (Size_pow2 d' Hd'), (Size_pow2 d Hd), Hg; apply pow2_succ; exact H0|].
    rewrite (HashToBucketIndex_mod d' hash Hd'), (HashToBucketIndex_mod d hash Hd), Hg.
    destruct (Hslots (hash mod 2 ^ (global_depth_ d + 1))) as [Hl Hp]. rewrite Hl, Hp.
    pose proof (pow2_pos (global_depth_ d) H0) as Hpos.
    pose proof (Z.mod_pos_bound hash (2 ^ (global_depth_ d + 1)) ltac:(rewrite pow2_succ; lia))
      as Hb.
    rewrite pow2_succ in Hb by lia.
    destruct (DiskExtendibleHashTable.IncrGlobalDepth_slots d
                (hash mod 2 ^ (global_depth_ d + 1)) H0) as [Hl' Hp'].
    { rewrite (pow2_succ (global_depth_ d)) by lia. lia. }
    rewrite Hl', Hp', mod_mod_pow2 by lia. split; reflexivity.
Qed.

(** X6.  On a consistent directory [CanShrink] holds exactly when the global
    depth is positive and every slot has a smaller local depth, and then
    [DecrGlobalDepth] halves the directory without changing the bucket page
    id any hash reaches. *)
Theorem X6_shrinking_keeps_every_lookup (d : t) (hash : Z) :
  DiskExtendibleHashTable.dir_ok d →
  (CanShrink d = true ↔
   0 < global_depth_ d ∧
   ∀ i, 0 ≤ i < Size d → local_depths_ d i < global_depth_ d) ∧
  (CanShrink d = true →
   global_depth_ (DecrGlobalDepth d) = global_depth_ d - 1 ∧
   bucket_page_ids_ (DecrGlobalDepth d) (HashToBucketIndex (DecrGlobalDepth d) hash) =
     bucket_page_ids_ d (HashToBucketIndex d hash)).
Proof.
  intros Hdir.
  pose proof (DiskExtendibleHashTable.dir_depth_range d Hdir) as Hd.
  assert (Hdok : depths_ok d) by exact Hd.
  assert (Hld : ∀ i, 0 ≤ i < 2 ^ global_depth_ d → local_depths_ d i ≤ global_depth_ d).
  { intros i Hi. apply (DiskExtendibleHashTable.dir_local_range d Hdir i Hi). }
  rewrite (CanShrink_agrees d Hdok Hld), (Size_pow2 d Hdok).
  split.
  - split.
    + intros Hc. apply DiskExtendibleHashTable.CanShrink_true in Hc. exact Hc.
    + intros [Hpos Hall]. unfold Model.CanShrink.
      apply andb_true_iff. split; [apply Z.ltb_lt; exact Hpos|].
      apply forallb_forall. intros i Hi. apply list_elem_of_In, elem_of_seqZ in Hi.
      unfold Model.Size in Hi. rewrite shiftl_1_pow2 in Hi.
      apply Z.ltb_lt. apply Hall. lia.
  - intros Hc. pose proof (DiskExtendibleHashTable.CanShrink_true d Hc) as [Hpos _].
    assert (E : DecrGlobalDepth d = Model.DecrGlobalDepth d).
    { unfold DecrGlobalDepth. destruct (Z.ltb_spec 0 (global_depth_ d)); [reflexivity|lia]. }
    rewrite E. split; [reflexivity|].
    assert (Hdok' : depths_ok (Model.DecrGlobalDepth d)).
    { unfold depths_ok. simpl. destruct Hdok as [[? ?] ?]. lia. }
    rewrite (HashToBucketIndex_mod _ hash Hdok'), (HashToBucketIndex_mod d hash Hdok).
    pose proof (DiskExtendibleHashTable.route_DecrGlobalDepth d hash Hdir Hc) as Hr.
    rewrite !DiskExtendibleHashTable.route_eq in Hr by (simpl; lia). exact Hr.
Qed.




(** A directory of depth limit 2 grown once: slots 0 and 1 share page 7 at
    local depth 0. *)
Definition grown_once : t := mk 2 1 (λ _, 0) (λ i, if (0 <=? i) && (i <? 2) then 7 else -1).


Lemma grown_once_ok : DiskExtendibleHashTable.dir_ok grown_once.
Proof.
  assert (Hin : ∀ i, DiskExtendibleHashTable.in_dir grown_once i → i = 0 ∨ i = 1).
  { unfold DiskExtendibleHashTable.in_dir. simpl. intros i Hi. lia. }
  constructor.
  - simpl. lia.
  - intros i _. simpl. lia.
  - intros i j Hi Hj. simpl.
    destruct (Hin i Hi) as [-> | ->], (Hin j Hj) as [-> | ->]; simpl; split; reflexivity.
  - intros i j _ _ _. reflexivity.
Qed.

Lemma X5_IncrGlobalDepth_keeps_every_lookup_witness :
  ∃ d', IncrGlobalDepth grown_once = Done d' ∧ depths_ok d' ∧
        global_depth_ d' =
          (if global_depth_ grown_once =? max_depth_ grown_once
           then global_depth_ grown_once else global_depth_ grown_once + 1) ∧
        Size d' = (if global_depth_ grown_once =? max_depth_ grown_once
                   then Size grown_once else 2 * Size grown_once) ∧
        bucket_page_ids_ d' (HashToBucketIndex d' 6) =
          bucket_page_ids_ grown_once (HashToBucketIndex grown_once 6) ∧
        local_depths_ d' (HashToBucketIndex d' 6) =
          local_depths_ grown_once (HashToBucketIndex grown_once 6).
Proof.
  apply (X5_IncrGlobalDepth_keeps_every_lookup grown_once 6).
  unfold depths_ok. simpl. lia.
Defined.

Lemma X6_shrinking_keeps_every_lookup_witness :
  (CanShrink grown_once = true ↔
   0 < global_depth_ grown_once ∧
   ∀ i, 0 ≤ i < Size grown_once → local_depths_ grown_once i < global_depth_ grown_once) ∧
  (CanShrink grown_once = true →
   global_depth_ (DecrGlobalDepth grown_once) = global_depth_ grown_once - 1 ∧
   bucket_page_ids_ (DecrGlobalDepth grown_once)
     (HashToBucketIndex (DecrGlobalDepth grown_once) 5) =
     bucket_page_ids_ grown_once (HashToBucketIndex grown_once 5)).
Proof. exact (X6_shrinking_keeps_every_lookup grown_once 5 grown_once_ok). Defined.



End DirectoryPageCode.

(** ** Extendible hash table (disk_extendible_hash_table.cpp)

    The table on the buffer pool, reached through the page guards as the
    code reaches it.  How the page classes lie in the bytes of a page is
    fixed by headers outside the sources at hand: what a cast of the page
    data reads, and the bytes of a page on which the header's [Init] ran,
    are parameters. *)

Module DiskExtendibleHashTableCode.

Module BPM := BufferPoolManager.
Module Guard := PageGuard.
Module Header := ExtendibleHTableHeaderPage.
Module Directory := DirectoryPageCode.
Module Bucket := ExtendibleHTableBucketPage.

Section WithKeys.

Context {K V : Type} `{EqDecision K}.

(** [hash_fn_.GetHash(key)] *)
Variable hash_fn : K → Z.

(** [reinterpret_cast<const T *>(data)] for the three page classes *)
Variable as_header : BPM.page_data → Header.t.
Variable as_directory : BPM.page_data → Directory.t.
Variable as_bucket : BPM.page_data → Bucket.t K V.

(** the bytes of a page after [ExtendibleHTableHeaderPage::Init(max_depth)]
    ran on it *)
Variable header_Init : Z → BPM.page_data → BPM.page_data.

Record t : Type := mk {
  header_max_depth_ : Z;
  directory_max_depth_ : Z;
  bucket_max_size_ : Z;
  header_page_id_ : Z
}.

(** Modelled from the spec: the accessors of the guards, which page_guard.h
    defines (the header is not part of the sources).  [As<T>()] casts
    [page_->GetData()], the data of the page the guard holds; on a guard
    whose [page_] is null that reads through a null pointer. *)
Definition As (g : Guard.BasicPageGuard) (b : BPM.t) : outcome BPM.page_data :=
  match Guard.page_ g with
  | None => Undefined
  | Some frame => page ←! BPM.frame_at b frame; Done (BPM.data_ page)
  end.

(** Modelled from the spec: [AsMut<T>()] is [As<T>()] on a guard that is
    marked dirty; the frame is the one a write through the pointer reaches. *)
Definition AsMut (g : Guard.BasicPageGuard) (b : BPM.t)
  : outcome (Z * BPM.page_data * Guard.BasicPageGuard) :=
  match Guard.page_ g with
  | None => Undefined
  | Some frame =>
      page ←! BPM.frame_at b frame;
      Done (frame, BPM.data_ page, Guard.mkBasic (Guard.bpm_ g) (Guard.page_ g) true)
  end.

(** A write through the pointer [AsMut] returned. *)
Definition write_data (frame : Z) (data : BPM.page_data) (b : BPM.t) : outcome BPM.t :=
  page ←! BPM.frame_at b frame;
  Done (BPM.set_frame frame
          (BPM.mkPage data (BPM.page_id_ page) (BPM.pin_count_ page) (BPM.is_dirty_ page)) b).

(** The constructor; [header_guard] is dropped by its destructor at the end
    of the body. *)
Definition new (header_max_depth directory_max_depth bucket_max_size : Z) (b : BPM.t)
  : outcome (t * BPM.t) :=
  p ←! Guard.NewPageGuarded b;
  let header_page_id := p.1.2 in
  header ←! AsMut p.1.1 p.2;
  b1 ←! write_data header.1.1 (header_Init header_max_depth header.1.2) p.2;
  dropped ←! Guard.BasicPageGuard_Drop header.2 b1;
  Done (mk header_max_depth directory_max_depth bucket_max_size header_page_id, dropped.2).

(** [Hash(key)]: the hash function's value cut to [uint32_t]. *)
Definition Hash (key : K) : Z := wrap_uint32 (hash_fn key).

(** [DiskExtendibleHashTable::GetValue]: the value returned, the result
    vector after the call and the pool.  A guard that is still held at a
    [return] is dropped by its destructor; dropping a dropped guard does
    nothing. *)
Definition GetValue (key : K) (result : list V) (ht : t) (b : BPM.t)
  : outcome (bool * list V * BPM.t) :=
  if header_page_id_ ht =? INVALID_PAGE_ID then Done (false, result, b) else
  header_guard ←! Guard.FetchPageRead (header_page_id_ ht) b;
  header_data ←! As (Guard.read_guard_ header_guard.1) header_guard.2;
  let header_page := as_header header_data in
  let hash_key := Hash key in
  let dir_id := Header.HashToDirectoryIndex header_page hash_key in
  let dir_page_id := Header.GetDirectoryPageId header_page dir_id in
  header_dropped ←! Guard.ReadPageGuard_Drop header_guard.1 header_guard.2;
  if dir_page_id =? INVALID_PAGE_ID then Done (false, result, header_dropped.2) else
  dir_page_guard ←! Guard.FetchPageRead dir_page_id header_dropped.2;
  dir_data ←! As (Guard.read_guard_ dir_page_guard.1) dir_page_guard.2;
  let dir_page := as_directory dir_data in
  let bucket_index := Directory.HashToBucketIndex dir_page hash_key in
  bucket_page_id ←! Directory.GetBucketPageId dir_page bucket_index;
  dir_dropped ←! Guard.ReadPageGuard_Drop dir_page_guard.1 dir_page_guard.2;
  if bucket_page_id =? INVALID_PAGE_ID then Done (false, result, dir_dropped.2) else
  bucket_page_guard ←! Guard.FetchPageRead bucket_page_id dir_dropped.2;
  bucket_data ←! As (Guard.read_guard_ bucket_page_guard.1) bucket_page_guard.2;
  let bucket_page := as_bucket bucket_data in
  bucket_dropped ←! Guard.ReadPageGuard_Drop bucket_page_guard.1 bucket_page_guard.2;
  match Bucket.Lookup key bucket_page with
  | Some value => Done (true, result ++ [value], bucket_dropped.2)
  | None => Done (false, result, bucket_dropped.2)
  end.

(** The guard [FetchPageRead] returns holds no page, so [As] on it reads
    through a null pointer. *)
Lemma As_of_fetched_guard (page_id : Z) (b b1 : BPM.t) (g : Guard.ReadPageGuard) :
  Guard.FetchPageRead page_id b = Done (g, b1) → As (Guard.read_guard_ g) b1 = Undefined.
Proof.
  intros Hfetch. unfold As.
  rewrite (Guard.fetched_read_guard_is_empty page_id b g b1 Hfetch). reflexivity.
Qed.

(** Whatever [FetchPageRead] answers, nothing can be read through its
    guard. *)
Lemma fetch_then_As (page_id : Z) (b : BPM.t) (res : option Z) (b1 : BPM.t)
    {A : Type} (k : BPM.page_data → Guard.ReadPageGuard * BPM.t → outcome A) :
  BPM.FetchPage page_id b = Done (res, b1) →
  (header_guard ←! Guard.FetchPageRead page_id b;
   data ←! As (Guard.read_guard_ header_guard.1) header_guard.2;
   k data header_guard) = Undefined.
Proof.
  intros Hfetch. unfold Guard.FetchPageRead. rewrite Hfetch. cbn [obind fst snd].
  destruct res as [frame|]; reflexivity.
Qed.

(** C1 (the code never gets as far): a table is constructed on a new pool
    of four frames, its header is page 0, and [GetValue] is called before any
    [Insert].  The header is fetched through [FetchPageRead], whose guard
    holds no page, and [As] on that guard reads through a null pointer: the
    call does not return [false], it does not return. *)
Theorem C1_get_value_on_a_new_table_reads_through_null (key : K) (result : list V) :
  ∃ ht b, new 2 3 2 (BPM.new 4 2 ∅) = Done (ht, b) ∧
          header_page_id_ ht = 0 ∧
          GetValue key result ht b = Undefined.
Proof.
  eexists _, _. split; [vm_compute; reflexivity|]. split; [reflexivity|].
  vm_compute. reflexivity.
Qed.

(** C9 (the code never gets as far): in a pool reached by admissible calls,
    [GetValue] on a table whose header page is allocated reads through the
    null page of the guard [FetchPageRead] returned (or of the null pointer
    [FetchPage] returned); it neither returns [true] nor [false], whatever
    the key and the pages hold. *)
Theorem C9_get_value_stops_at_the_header_guard
    (steps : nat) (b : BPM.t) (ht : t) (key : K) (result : list V) :
  BPM.reachable steps b → Z.of_nat steps + 1 < 2 ^ 64 →
  BPM.allocated b (header_page_id_ ht) →
  GetValue key result ht b = Undefined.
Proof.
  intros Hreach Hsteps Halloc.
  pose proof (BPM.reachable_inv steps b Hreach ltac:(lia)) as Hinv.
  destruct (BPM.FetchPage_spec steps b (header_page_id_ ht) Hinv Halloc Hsteps)
    as (res & b1 & Hfetch & _).
  unfold GetValue.
  assert (Hvalid : (header_page_id_ ht =? INVALID_PAGE_ID) = false).
  { apply Z.eqb_neq. intros E. unfold BPM.allocated in Halloc. rewrite E in Halloc.
    unfold INVALID_PAGE_ID in Halloc. lia. }
  rewrite Hvalid. apply (fetch_then_As _ _ _ _ _ Hfetch).
Qed.

End WithKeys.

Lemma C9_get_value_stops_at_the_header_guard_witness :
  GetValue (λ key : Z, key) (λ _, ExtendibleHTableHeaderPage.Init 0)
           (λ _, ExtendibleHTableDirectoryPage.mk 0 0 (λ _, 0) (λ _, INVALID_PAGE_ID))
           (λ _, ExtendibleHTableBucketPage.Init (K := Z) (V := Z) 0)
           7 [] (mk 0 0 0 0) BufferPoolManager.written_pool
  = Undefined.
Proof.
  apply (C9_get_value_stops_at_the_header_guard _ _ _ _ 2).
  - exact BufferPoolManager.written_pool_reachable.
  - lia.
  - exact BufferPoolManager.written_pool_allocated.
Defined.

End DiskExtendibleHashTableCode.
